(** * The lazy signal pipeline engine (pipeline.ts)

    A shallow embedding of the change-propagation engine: the [LinearMap]
    edge container, the [Pipeline] / [ValuePipeline] nodes, the ambient
    active consumer and the notify / poll / recompute algorithms.

    JavaScript objects live in a heap indexed by node identifiers; the
    engine's functions are state transformers that may fail with one of
    the engine's exceptions.  Recursion between the engine's functions
    and user code is cut by a fuel argument. *)

From stdpp Require Import base option list gmap.
From Stdlib Require Import ZArith Lia.

Set Default Proof Using "Type".

(** ** Values *)

Definition NodeId := nat.

(** A JavaScript value.  [UNSET] and [COMPUTING] are the two private
    symbols of the module; numbers, booleans and object references are
    what user code stores.  Two references are identical exactly when
    they are the same reference. *)
Inductive JSVal : Type :=
  | UNSET
  | COMPUTING
  | VNum (z : Z)
  | VBool (b : bool)
  | VRef (r : nat).

#[global] Instance JSVal_eq_dec : EqDecision JSVal.
Proof. solve_decision. Defined.

(** [a === b] (util.ts). *)
Definition strictEquals (a b : JSVal) : bool := bool_decide (a = b).

(** ** LinearMap: a map stored as [..., k, v, ...] with tombstones *)

Module LinearMap.
Section LinearMap.
Context {K V : Type} `{EqDecision K}.

(** One (key, value) pair of the flat array; [None] is a pair of nulls. *)
Record t : Type := Build {
  internalArray : list (option (K * V));
  size : Z
}.

Definition empty : t := Build [] 0.

Definition slot_has (key : K) (sl : option (K * V)) : bool :=
  match sl with
  | Some (k, _) => bool_decide (k = key)
  | None => false
  end.

Fixpoint get_from (arr : list (option (K * V))) (key : K) : option V :=
  match arr with
  | [] => None
  | Some (k, v) :: rest => if bool_decide (k = key) then Some v else get_from rest key
  | None :: rest => get_from rest key
  end.

Definition get (m : t) (key : K) : option V := get_from (internalArray m) key.

(** Index of the first pair whose key is [key]. *)
Fixpoint index_of (arr : list (option (K * V))) (key : K) : option nat :=
  match arr with
  | [] => None
  | sl :: rest => if slot_has key sl then Some 0 else S <$> index_of rest key
  end.

(** Index of the first tombstone. *)
Fixpoint null_index (arr : list (option (K * V))) : option nat :=
  match arr with
  | [] => None
  | None :: _ => Some 0
  | Some _ :: rest => S <$> null_index rest
  end.

Definition set (m : t) (key : K) (value : V) : t :=
  match index_of (internalArray m) key with
  | Some i => Build (<[i := Some (key, value)]> (internalArray m)) (size m)
  | None =>
      match null_index (internalArray m) with
      | Some i => Build (<[i := Some (key, value)]> (internalArray m)) (size m + 1)
      | None => Build (internalArray m ++ [Some (key, value)]) (size m + 1)
      end
  end.

Definition delete (m : t) (key : K) : t :=
  match index_of (internalArray m) key with
  | Some i => Build (<[i := None]> (internalArray m)) (size m - 1)
  | None => m
  end.

Definition toTuples (m : t) : list (K * V) := omap id (internalArray m).

Definition defragment (m : t) : t :=
  Build (Some <$> toTuples m) (size m).
End LinearMap.
Arguments t : clear implicits.
End LinearMap.

(** ** The built-in Map, used once an edge map reaches 100 entries

    As in the language definition, the entries are kept in insertion
    order, a deleted entry is emptied in place, and a new key is always
    appended; an iterator is an index into the entries, so that it sees
    deletions and insertions made while it runs. *)

Module JSMap.
Section JSMap.
Context {K V : Type} `{EqDecision K}.

Record t : Type := Build { mapData : list (option (K * V)) }.

(** [new Map(tuples)] *)
Definition of_tuples (l : list (K * V)) : t := Build (Some <$> l).

Definition get (m : t) (key : K) : option V :=
  LinearMap.get_from (mapData m) key.

Definition set (m : t) (key : K) (value : V) : t :=
  match LinearMap.index_of (mapData m) key with
  | Some i => Build (<[i := Some (key, value)]> (mapData m))
  | None => Build (mapData m ++ [Some (key, value)])
  end.

Definition delete (m : t) (key : K) : t :=
  match LinearMap.index_of (mapData m) key with
  | Some i => Build (<[i := None]> (mapData m))
  | None => m
  end.

Definition size (m : t) : Z := Z.of_nat (length (omap id (mapData m))).

(** The next live entry at or after [index], with the index after it. *)
Fixpoint next_from (arr : list (option (K * V))) (index : nat)
  : option ((K * V) * nat) :=
  match arr with
  | [] => None
  | sl :: rest =>
      match index with
      | S i => (fun '(e, j) => (e, S j)) <$> next_from rest i
      | 0 =>
          match sl with
          | Some e => Some (e, 1)
          | None => (fun '(e, j) => (e, S j)) <$> next_from rest 0
          end
      end
  end.
End JSMap.
Arguments t : clear implicits.
End JSMap.

(** ** An edge map field: [LinearMap<K, V> | Map<K, V>]

    A node is built with a LinearMap in each edge field; [producerAccessed]
    replaces the field by a fresh Map when the LinearMap reaches 100
    entries.  The first object stays reachable from the local variables of
    loops that captured it, so both objects are kept: [hashed] is the Map
    once the field has been replaced, and a [MapRef] says which of the two
    objects a captured reference denotes. *)

Module EdgeMap.
Section EdgeMap.
Context {K V : Type} `{EqDecision K}.

Record t : Type := Build {
  linear : LinearMap.t K V;
  hashed : option (JSMap.t K V)
}.

Inductive MapRef : Type := InLinear | InHashed.

(** An iterator of [for (const [k, v] of m)]: the LinearMap yields from
    [toTuples()], a snapshot; the Map iterator is live. *)
Inductive Iter : Type :=
  | Snapshot (rest : list (K * V))
  | Live (index : nat).

Definition empty : t := Build LinearMap.empty None.

(** The object the field holds now. *)
Definition current (e : t) : MapRef :=
  match hashed e with Some _ => InHashed | None => InLinear end.

Definition get_at (r : MapRef) (e : t) (key : K) : option V :=
  match r with
  | InLinear => LinearMap.get (linear e) key
  | InHashed => hashed e ≫= (fun m => JSMap.get m key)
  end.

Definition set_at (r : MapRef) (e : t) (key : K) (value : V) : t :=
  match r with
  | InLinear => Build (LinearMap.set (linear e) key value) (hashed e)
  | InHashed => Build (linear e) ((fun m => JSMap.set m key value) <$> hashed e)
  end.

Definition delete_at (r : MapRef) (e : t) (key : K) : t :=
  match r with
  | InLinear => Build (LinearMap.delete (linear e) key) (hashed e)
  | InHashed => Build (linear e) ((fun m => JSMap.delete m key) <$> hashed e)
  end.

Definition size_at (r : MapRef) (e : t) : Z :=
  match r with
  | InLinear => LinearMap.size (linear e)
  | InHashed => from_option JSMap.size 0%Z (hashed e)
  end.

Definition get (e : t) := get_at (current e) e.
Definition set (e : t) := set_at (current e) e.
Definition delete (e : t) := delete_at (current e) e.
Definition size (e : t) := size_at (current e) e.

(** [if (m instanceof LinearMap && m.size === 100) m = new Map(m.toTuples())] *)
Definition upgrade (e : t) : t :=
  match hashed e with
  | Some _ => e
  | None =>
      if bool_decide (LinearMap.size (linear e) = 100%Z)
      then Build (linear e) (Some (JSMap.of_tuples (LinearMap.toTuples (linear e))))
      else e
  end.

Definition iter_start (r : MapRef) (e : t) : Iter :=
  match r with
  | InLinear => Snapshot (LinearMap.toTuples (linear e))
  | InHashed => Live 0
  end.

Definition iter_next (it : Iter) (e : t) : option ((K * V) * Iter) :=
  match it with
  | Snapshot [] => None
  | Snapshot (x :: rest) => Some (x, Snapshot rest)
  | Live i =>
      match hashed e with
      | Some m => (fun '(x, j) => (x, Live j)) <$> JSMap.next_from (JSMap.mapData m) i
      | None => None
      end
  end.

(** The live entries of the object [r], in iteration order. *)
Definition entries_at (r : MapRef) (e : t) : list (K * V) :=
  match r with
  | InLinear => LinearMap.toTuples (linear e)
  | InHashed => from_option (fun m => omap id (JSMap.mapData m)) [] (hashed e)
  end.

Definition entries (e : t) : list (K * V) := entries_at (current e) e.

(** How many places the Map has, once there is one: deletions keep it. *)
Definition shape (e : t) : option nat :=
  (fun m => length (JSMap.mapData m)) <$> hashed e.

(** How many turns an iterator can still make. *)
Definition turns (it : Iter) (e : t) : nat :=
  match it with
  | Snapshot l => length l
  | Live i => from_option (fun n => n - i) 0 (shape e)
  end.

(** The entries an iterator has yet to yield, if the map stays as it is. *)
Definition remaining (it : Iter) (e : t) : list (K * V) :=
  match it with
  | Snapshot l => l
  | Live i => from_option (fun m => omap id (drop i (JSMap.mapData m))) [] (hashed e)
  end.
End EdgeMap.
Arguments t : clear implicits.
Arguments MapRef : clear implicits.
Arguments Iter : clear implicits.
End EdgeMap.

(** ** User code

    [calculate()], the updater of [updateValue] and the mutator of
    [mutateValue] are user functions.  They are modelled by the engine
    calls they make: reading a node's [value], calling [setValue] on a
    leaf, throwing, and finally returning. *)

Inductive Calc : Type :=
  | Ret (v : JSVal)
  | Read (p : NodeId) (k : JSVal → Calc)
  | SetValue (p : NodeId) (x : JSVal) (k : Calc)
  | Throw (e : nat).

(** ** Nodes *)

(** [stale: boolean | Producer] *)
Inductive Stale : Type :=
  | StaleFalse
  | StaleTrue
  | StaleBy (notifier : NodeId).

#[global] Instance Stale_eq_dec : EqDecision Stale.
Proof. solve_decision. Defined.

(** The [Consumer] side of a [Pipeline]. *)
Record Consumer : Type := BuildConsumer {
  producers : EdgeMap.t NodeId nat;
  trackingVersion : nat;
  stale : Stale;
  calculate : Calc
}.

(** A node: the [Producer] fields, and for a [Pipeline] its [Consumer]
    fields; [pipeline = None] is a [ValuePipeline].  A [WeakRef] to a
    consumer is the consumer's identifier. *)
Record Node : Type := BuildNode {
  consumers : EdgeMap.t NodeId nat;
  valueVersion : nat;
  _value : JSVal;
  pipeline : option Consumer
}.

(** [new ValuePipeline(v)] *)
Definition newValuePipeline (v : JSVal) : Node :=
  BuildNode EdgeMap.empty 1 v None.

(** [new InlinePipeline(calculator)] *)
Definition newPipeline (calculator : Calc) : Node :=
  BuildNode EdgeMap.empty 1 UNSET
    (Some (BuildConsumer EdgeMap.empty 1 StaleTrue calculator)).

(** ** State *)

(** What an observer can count: calls of the [value] getter, calls of
    [calculate()] (the benchmark's [calculationsCount]) and deliveries of
    [notify()].  The engine never reads the trace. *)
Inductive Event : Type :=
  | EvRead (n : NodeId)
  | EvCalculate (n : NodeId)
  | EvNotify (consumer : NodeId) (notifier : option NodeId).

#[global] Instance Event_eq_dec : EqDecision Event.
Proof. solve_decision. Defined.

Record State : Type := BuildState {
  heap : gmap NodeId Node;
  activeConsumer : option NodeId;
  trace : list Event
}.

Inductive Error : Type :=
  | Cycle                     (* 'Pipeline is circular' *)
  | ChangedWhileCalculating   (* 'Pipeline marked changed while calculating' *)
  | UserError (e : nat)       (* thrown by user code *)
  | TypeError.                (* a member of undefined, or a missing method *)

#[global] Instance Error_eq_dec : EqDecision Error.
Proof. solve_decision. Defined.

Inductive Result (A : Type) : Type :=
  | Ok (a : A) (s : State)
  | Err (e : Error) (s : State)
  | OutOfFuel.
Arguments Ok {A} a s.
Arguments Err {A} e s.
Arguments OutOfFuel {A}.

Definition M (A : Type) : Type := State → Result A.

Definition ret {A} (a : A) : M A := fun s => Ok a s.
Definition throw {A} (e : Error) : M A := fun s => Err e s.
Definition bind {A B} (m : M A) (f : A → M B) : M B := fun s =>
  match m s with
  | Ok a s' => f a s'
  | Err e s' => Err e s'
  | OutOfFuel => OutOfFuel
  end.

Notation "x <- m ;; f" := (bind m (fun x => f))
  (at level 20, m at level 99, f at level 200, only parsing).
Notation "'call' m ;; f" := (bind m (fun _ => f))
  (at level 20, m at level 99, f at level 200, only parsing).

(** [try { m } finally { h }] where [h] cannot fail. *)
Definition finally {A} (m : M A) (h : State → State) : M A := fun s =>
  match m s with
  | Ok a s' => Ok a (h s')
  | Err e s' => Err e (h s')
  | OutOfFuel => OutOfFuel
  end.

(** *** Heap access *)

Definition set_heap (h : gmap NodeId Node) (s : State) : State :=
  BuildState h (activeConsumer s) (trace s).

Definition emit (ev : Event) : M unit := fun s =>
  Ok tt (BuildState (heap s) (activeConsumer s) (trace s ++ [ev])).

(** Dereference a node; a member access on a missing object fails. *)
Definition node (n : NodeId) : M Node := fun s =>
  match heap s !! n with
  | Some nd => Ok nd s
  | None => Err TypeError s
  end.

(** Dereference a node as a [Pipeline]. *)
Definition consumer (n : NodeId) : M Consumer := fun s =>
  match heap s !! n ≫= pipeline with
  | Some c => Ok c s
  | None => Err TypeError s
  end.

Definition modify_node (f : Node → Node) (n : NodeId) : M unit := fun s =>
  match heap s !! n with
  | Some nd => Ok tt (set_heap (<[n := f nd]> (heap s)) s)
  | None => Err TypeError s
  end.

Definition with_consumers (f : EdgeMap.t NodeId nat → EdgeMap.t NodeId nat) (nd : Node) : Node :=
  BuildNode (f (consumers nd)) (valueVersion nd) (_value nd) (pipeline nd).
Definition with_valueVersion (v : nat) (nd : Node) : Node :=
  BuildNode (consumers nd) v (_value nd) (pipeline nd).
Definition with_value (v : JSVal) (nd : Node) : Node :=
  BuildNode (consumers nd) (valueVersion nd) v (pipeline nd).
Definition with_pipeline (f : Consumer → Consumer) (nd : Node) : Node :=
  BuildNode (consumers nd) (valueVersion nd) (_value nd) (f <$> pipeline nd).

Definition with_producers (f : EdgeMap.t NodeId nat → EdgeMap.t NodeId nat) (c : Consumer) : Consumer :=
  BuildConsumer (f (producers c)) (trackingVersion c) (stale c) (calculate c).
Definition with_trackingVersion (v : nat) (c : Consumer) : Consumer :=
  BuildConsumer (producers c) v (stale c) (calculate c).
Definition with_stale (st : Stale) (c : Consumer) : Consumer :=
  BuildConsumer (producers c) (trackingVersion c) st (calculate c).

(** *** The ambient active consumer *)

Definition setActiveConsumer (c : option NodeId) : M (option NodeId) := fun s =>
  Ok (activeConsumer s) (BuildState (heap s) c (trace s)).

Definition restoreActiveConsumer (c : option NodeId) (s : State) : State :=
  BuildState (heap s) c (trace s).

(** *** Edge registration *)

Definition getActiveConsumer : M (option NodeId) := fun s =>
  Ok (activeConsumer s) s.

Definition producerAccessed (producer : NodeId) : M unit :=
  a <- getActiveConsumer ;;
  match a with
  | None => ret tt
  | Some active =>
      (* Make a dependency between each *)
      c <- consumer active ;;
      call modify_node (with_consumers (fun m =>
        EdgeMap.upgrade (EdgeMap.set m active (trackingVersion c)))) producer ;;
      p <- node producer ;;
      modify_node (with_pipeline (with_producers (fun m =>
        EdgeMap.upgrade (EdgeMap.set m producer (valueVersion p))))) active
  end.

(** [consumerRef.deref()]: the consumer, unless it has been reclaimed. *)
Definition deref (consumerRef : NodeId) : M (option Consumer) := fun s =>
  Ok (heap s !! consumerRef ≫= pipeline) s.

Definition incrValueVersion (nd : Node) : Node :=
  with_valueVersion (S (valueVersion nd)) nd.
Definition incrTrackingVersion (c : Consumer) : Consumer :=
  with_trackingVersion (S (trackingVersion c)) c.

(** ** The engine

    The functions of pipeline.ts call each other and user code without a
    structural bound.  Each is written against [self], the functions one
    level of fuel below. *)

Record Engine : Type := BuildEngine {
  r_value : NodeId → M JSVal;
  r_checkForActuallyChangedValue : NodeId → M unit;
  r_recomputeValue : NodeId → M unit;
  r_run : Calc → M JSVal;
  r_notify : NodeId → option NodeId → M unit;
  r_producerNotifyConsumers : NodeId → M unit;
  r_notifyLoop : NodeId → EdgeMap.MapRef → EdgeMap.Iter NodeId nat → M unit;
  r_consumerPollValueStatus : NodeId → Stale → M bool;
  r_pollLoop : NodeId → EdgeMap.MapRef → option NodeId → EdgeMap.Iter NodeId nat → M bool;
  r_producerPollStatus : NodeId → option nat → M bool;
  r_setValue : NodeId → JSVal → M unit
}.

Section Bodies.
Variable self : Engine.

(** [get value()] of [ValuePipeline] and of [Pipeline]. *)
Definition value_body (n : NodeId) : M JSVal :=
  call emit (EvRead n) ;;
  nd <- node n ;;
  match pipeline nd with
  | None =>
      call producerAccessed n ;;
      ret (_value nd)
  | Some _ =>
      call r_checkForActuallyChangedValue self n ;;
      call producerAccessed n ;;
      nd' <- node n ;;
      ret (_value nd')
  end.

Definition checkForActuallyChangedValue_body (n : NodeId) : M unit :=
  nd <- node n ;;
  match pipeline nd with
  | None => ret tt   (* Do nothing. We know exactly when we have changed. *)
  | Some c =>
      if bool_decide (stale c = StaleFalse) then ret tt
      else if negb (strictEquals (_value nd) UNSET)
              && negb (strictEquals (_value nd) COMPUTING)
      then
        depsChanged <- r_consumerPollValueStatus self n (stale c) ;;
        if negb depsChanged
        then modify_node (with_pipeline (with_stale StaleFalse)) n
        else r_recomputeValue self n
      else r_recomputeValue self n
  end.

(** [recomputeValue], up to the call of [calculate()]: the cycle check,
    [oldValue], the COMPUTING mark, [++this.trackingVersion] and
    [setActiveConsumer(this)].  Returns [oldValue] and [prevConsumer]. *)
Definition beginRecompute (n : NodeId) : M (JSVal * option NodeId) :=
  nd <- node n ;;
  c <- consumer n ;;
  if strictEquals (_value nd) COMPUTING then throw Cycle
  else
    let oldValue := _value nd in
    call modify_node (with_value COMPUTING) n ;;
    call modify_node (with_pipeline incrTrackingVersion) n ;;
    prevConsumer <- setActiveConsumer (Some n) ;;
    ret (oldValue, prevConsumer).

(** [this.calculate()] *)
Definition invokeCalculate (n : NodeId) : M JSVal :=
  c <- consumer n ;;
  call emit (EvCalculate n) ;;
  r_run self (calculate c).

(** [recomputeValue], after the [try ... finally]. *)
Definition endRecompute (n : NodeId) (oldValue newValue : JSVal) : M unit :=
  call modify_node (with_pipeline (with_stale StaleFalse)) n ;;
  if strictEquals newValue oldValue
  then modify_node (with_value oldValue) n
  else
    call modify_node (with_value newValue) n ;;
    modify_node incrValueVersion n.

Definition recomputeValue_body (n : NodeId) : M unit :=
  b <- beginRecompute n ;;
  newValue <- finally (invokeCalculate n) (restoreActiveConsumer b.2) ;;
  endRecompute n b.1 newValue.

(** User code. *)
Definition run_body (c : Calc) : M JSVal :=
  match c with
  | Ret v => ret v
  | Read p k => v <- r_value self p ;; r_run self (k v)
  | SetValue p x k => call r_setValue self p x ;; r_run self k
  | Throw e => throw (UserError e)
  end.

Definition notify_body (n : NodeId) (notifier : option NodeId) : M unit :=
  call emit (EvNotify n notifier) ;;
  nd <- node n ;;
  c <- consumer n ;;
  if negb (bool_decide (stale c = StaleFalse)) then ret tt
  else if strictEquals (_value nd) COMPUTING then throw ChangedWhileCalculating
  else
    call modify_node (with_pipeline (with_stale
           (match notifier with Some p => StaleBy p | None => StaleTrue end))) n ;;
    r_producerNotifyConsumers self n.

Definition producerNotifyConsumers_body (producer : NodeId) : M unit :=
  nd <- node producer ;;
  let cs := EdgeMap.current (consumers nd) in
  r_notifyLoop self producer cs (EdgeMap.iter_start cs (consumers nd)).

(** The body of [for (const [consumerRef, trackingVersion] of consumers)];
    [cs] is the map captured when the loop started. *)
Definition notifyVisit (producer : NodeId) (cs : EdgeMap.MapRef)
    (consumerRef : NodeId) (tv : nat) : M unit :=
  c <- deref consumerRef ;;
  match c with
  | Some c =>
      if negb (bool_decide (trackingVersion c = tv)) then
        call modify_node (with_consumers
               (fun m => EdgeMap.delete_at cs m consumerRef)) producer ;;
        modify_node (with_pipeline (with_producers
               (fun m => EdgeMap.delete m producer))) consumerRef
      else r_notify self consumerRef (Some producer)
  | None =>
      modify_node (with_consumers
        (fun m => EdgeMap.delete_at cs m consumerRef)) producer
  end.

Definition notifyLoop_body (producer : NodeId) (cs : EdgeMap.MapRef)
    (it : EdgeMap.Iter NodeId nat) : M unit :=
  nd <- node producer ;;
  match EdgeMap.iter_next it (consumers nd) with
  | None => ret tt
  | Some ((consumerRef, tv), it') =>
      call notifyVisit producer cs consumerRef tv ;;
      r_notifyLoop self producer cs it'
  end.

Definition consumerPollValueStatus_body (n : NodeId) (notifier : Stale) : M bool :=
  c <- consumer n ;;
  let ps := EdgeMap.current (producers c) in
  match notifier with
  | StaleBy p =>
      let lastSeen := EdgeMap.get_at ps (producers c) p in
      pn <- node p ;;
      let atTrackingVersion := EdgeMap.get (consumers pn) n in
      changed <-
        (if bool_decide (atTrackingVersion = Some (trackingVersion c))
         then r_producerPollStatus self p lastSeen
         else ret false) ;;
      if changed : bool then ret true
      else
        c' <- consumer n ;;
        if bool_decide (EdgeMap.size_at ps (producers c') = 1%Z) then ret false
        else r_pollLoop self n ps (Some p) (EdgeMap.iter_start ps (producers c'))
  | _ => r_pollLoop self n ps None (EdgeMap.iter_start ps (producers c))
  end.

(** The body of [for (const [producer, valueVersion] of producers)];
    [ps] is the map captured when the poll started.  Returns [true] when
    the loop is to return [true], [false] when it goes on. *)
Definition pollVisit (n : NodeId) (ps : EdgeMap.MapRef)
    (skipProducer : option NodeId) (producer : NodeId) (lastSeen : nat) : M bool :=
  if bool_decide (skipProducer = Some producer) then ret false
  else
    c <- consumer n ;;
    pn <- node producer ;;
    let atTrackingVersion := EdgeMap.get (consumers pn) n in
    if negb (bool_decide (atTrackingVersion = Some (trackingVersion c))) then
      (* This dependency edge is stale, so remove it. *)
      call modify_node (with_pipeline (with_producers
             (fun m => EdgeMap.delete_at ps m producer))) n ;;
      call modify_node (with_consumers (fun m => EdgeMap.delete m n)) producer ;;
      ret false
    else r_producerPollStatus self producer (Some lastSeen).

Definition pollLoop_body (n : NodeId) (ps : EdgeMap.MapRef)
    (skipProducer : option NodeId) (it : EdgeMap.Iter NodeId nat) : M bool :=
  c <- consumer n ;;
  match EdgeMap.iter_next it (producers c) with
  | None => ret false
  | Some ((producer, lastSeen), it') =>
      changed <- pollVisit n ps skipProducer producer lastSeen ;;
      if changed : bool then ret true
      else r_pollLoop self n ps skipProducer it'
  end.

Definition producerPollStatus_body (producer : NodeId) (lastSeen : option nat) : M bool :=
  pn <- node producer ;;
  if negb (bool_decide (Some (valueVersion pn) = lastSeen)) then ret true
  else
    call r_checkForActuallyChangedValue self producer ;;
    pn' <- node producer ;;
    ret (negb (bool_decide (Some (valueVersion pn') = lastSeen))).

(** [ValuePipeline.setValue]; a [Pipeline] has no such method. *)
Definition setValue_body (p : NodeId) (newValue : JSVal) : M unit :=
  nd <- node p ;;
  match pipeline nd with
  | Some _ => throw TypeError
  | None =>
      if negb (strictEquals newValue (_value nd)) then
        call modify_node (with_value newValue) p ;;
        call modify_node incrValueVersion p ;;
        r_producerNotifyConsumers self p
      else ret tt
  end.
End Bodies.

Definition noFuel : Engine :=
  BuildEngine (fun _ _ => OutOfFuel) (fun _ _ => OutOfFuel) (fun _ _ => OutOfFuel)
    (fun _ _ => OutOfFuel) (fun _ _ _ => OutOfFuel) (fun _ _ => OutOfFuel)
    (fun _ _ _ _ => OutOfFuel) (fun _ _ _ => OutOfFuel)
    (fun _ _ _ _ _ => OutOfFuel) (fun _ _ _ => OutOfFuel) (fun _ _ _ => OutOfFuel).

Fixpoint engine (fuel : nat) : Engine :=
  match fuel with
  | 0 => noFuel
  | S f =>
      let self := engine f in
      BuildEngine (value_body self) (checkForActuallyChangedValue_body self)
        (recomputeValue_body self) (run_body self) (notify_body self)
        (producerNotifyConsumers_body self) (notifyLoop_body self)
        (consumerPollValueStatus_body self) (pollLoop_body self)
        (producerPollStatus_body self) (setValue_body self)
  end.

(** The functions of the module, with [fuel] bounding the depth of calls. *)
Definition value (fuel : nat) := r_value (engine fuel).
Definition checkForActuallyChangedValue (fuel : nat) :=
  r_checkForActuallyChangedValue (engine fuel).
Definition recomputeValue (fuel : nat) := r_recomputeValue (engine fuel).
Definition run (fuel : nat) := r_run (engine fuel).
Definition notify (fuel : nat) := r_notify (engine fuel).
Definition producerNotifyConsumers (fuel : nat) := r_producerNotifyConsumers (engine fuel).
Definition notifyLoop (fuel : nat) := r_notifyLoop (engine fuel).
Definition consumerPollValueStatus (fuel : nat) := r_consumerPollValueStatus (engine fuel).
Definition pollLoop (fuel : nat) := r_pollLoop (engine fuel).
Definition producerPollStatus (fuel : nat) := r_producerPollStatus (engine fuel).
Definition setValue (fuel : nat) := r_setValue (engine fuel).

(** [updateValue(updater)]: [this.setValue(updater(this._value))]. *)
Definition updateValue (fuel : nat) (p : NodeId) (updater : JSVal → Calc) : M unit :=
  nd <- node p ;;
  match pipeline nd with
  | Some _ => throw TypeError
  | None => x <- run fuel (updater (_value nd)) ;; setValue fuel p x
  end.

(** [mutateValue(mutator)]: the mutator works on the held object in place,
    so the reference in [_value] stays what it was. *)
Definition mutateValue (fuel : nat) (p : NodeId) (mutator : JSVal → Calc) : M unit :=
  nd <- node p ;;
  match pipeline nd with
  | Some _ => throw TypeError
  | None =>
      call run fuel (mutator (_value nd)) ;;
      call modify_node incrValueVersion p ;;
      producerNotifyConsumers fuel p
  end.

(** ** Top-level calls of the host program *)

Inductive Op : Type :=
  | OpRead (n : NodeId)
  | OpSetValue (p : NodeId) (x : JSVal)
  | OpUpdateValue (p : NodeId) (updater : JSVal → Calc)
  | OpMutateValue (p : NodeId) (mutator : JSVal → Calc).

(** What the host sees of a call: a value, nothing, or an exception. *)
Inductive Outcome : Type :=
  | Returned (v : option JSVal)
  | Thrown (e : Error).

Definition exec (fuel : nat) (op : Op) : M (option JSVal) :=
  match op with
  | OpRead n => v <- value fuel n ;; ret (Some v)
  | OpSetValue p x => call setValue fuel p x ;; ret None
  | OpUpdateValue p f => call updateValue fuel p f ;; ret None
  | OpMutateValue p f => call mutateValue fuel p f ;; ret None
  end.

(** A host program: a sequence of calls, each run to its end; a call that
    throws leaves the state it reached. *)
Fixpoint execAll (fuel : nat) (ops : list Op) (s : State) : option (list Outcome * State) :=
  match ops with
  | [] => Some ([], s)
  | op :: rest =>
      match exec fuel op s with
      | Ok v s' => (fun '(os, s'') => (Returned v :: os, s'')) <$> execAll fuel rest s'
      | Err e s' => (fun '(os, s'') => (Thrown e :: os, s'')) <$> execAll fuel rest s'
      | OutOfFuel => None
      end
  end.

(** A heap built by the constructors, before any call. *)
Definition initState (nodes : list Node) : State :=
  BuildState (list_to_map (zip (seq 0 (length nodes)) nodes)) None [].

(** * Properties *)

(** ** Unfolding the engine *)

Definition step (self : Engine) : Engine :=
  BuildEngine (value_body self) (checkForActuallyChangedValue_body self)
    (recomputeValue_body self) (run_body self) (notify_body self)
    (producerNotifyConsumers_body self) (notifyLoop_body self)
    (consumerPollValueStatus_body self) (pollLoop_body self)
    (producerPollStatus_body self) (setValue_body self).

Lemma engine_S fuel : engine (S fuel) = step (engine fuel).
Proof. reflexivity. Qed.

(** ** More fuel does not change a result *)

Definition refines {A} (m1 m2 : M A) : Prop :=
  ∀ s, m1 s ≠ OutOfFuel → m2 s = m1 s.

Record engine_le (e1 e2 : Engine) : Prop := BuildEngineLe {
  le_value : ∀ n, refines (r_value e1 n) (r_value e2 n);
  le_check : ∀ n, refines (r_checkForActuallyChangedValue e1 n)
                          (r_checkForActuallyChangedValue e2 n);
  le_recompute : ∀ n, refines (r_recomputeValue e1 n) (r_recomputeValue e2 n);
  le_run : ∀ c, refines (r_run e1 c) (r_run e2 c);
  le_notify : ∀ n p, refines (r_notify e1 n p) (r_notify e2 n p);
  le_notifyConsumers : ∀ n, refines (r_producerNotifyConsumers e1 n)
                                    (r_producerNotifyConsumers e2 n);
  le_notifyLoop : ∀ n r it, refines (r_notifyLoop e1 n r it) (r_notifyLoop e2 n r it);
  le_poll : ∀ n st, refines (r_consumerPollValueStatus e1 n st)
                            (r_consumerPollValueStatus e2 n st);
  le_pollLoop : ∀ n r sk it, refines (r_pollLoop e1 n r sk it) (r_pollLoop e2 n r sk it);
  le_pollStatus : ∀ n v, refines (r_producerPollStatus e1 n v) (r_producerPollStatus e2 n v);
  le_setValue : ∀ n x, refines (r_setValue e1 n x) (r_setValue e2 n x)
}.

Lemma refines_refl {A} (m : M A) : refines m m.
Proof. by intros s _. Qed.

Lemma refines_bind {A B} (m1 m2 : M A) (f1 f2 : A → M B) :
  refines m1 m2 → (∀ a, refines (f1 a) (f2 a)) →
  refines (bind m1 f1) (bind m2 f2).
Proof.
  intros Hm Hf s. unfold bind. specialize (Hm s).
  destruct (m1 s) as [a s'|e s'|] eqn:E; [| |done].
  - intros Hne. rewrite Hm by done. by apply Hf.
  - intros _. by rewrite Hm.
Qed.

Lemma refines_finally {A} (m1 m2 : M A) h :
  refines m1 m2 → refines (finally m1 h) (finally m2 h).
Proof.
  intros Hm s. unfold finally. specialize (Hm s).
  destruct (m1 s) eqn:E; [| |done]; intros _; by rewrite Hm.
Qed.

Ltac refines_tac :=
  repeat first
    [ apply refines_refl
    | apply refines_bind; [|intros ?]
    | apply refines_finally
    | progress intros
    | match goal with
      | |- refines (match ?x with _ => _ end) _ => destruct x
      | H : engine_le _ _ |- _ => solve [apply H]
      end ].

Lemma step_mono e1 e2 : engine_le e1 e2 → engine_le (step e1) (step e2).
Proof.
  intros H. split; simpl; intros;
    unfold value_body, checkForActuallyChangedValue_body, recomputeValue_body,
      beginRecompute, invokeCalculate, endRecompute, run_body, notify_body,
      producerNotifyConsumers_body, notifyLoop_body, notifyVisit,
      consumerPollValueStatus_body, pollLoop_body, pollVisit,
      producerPollStatus_body, setValue_body;
    refines_tac.
Qed.

Lemma engine_le_refl e : engine_le e e.
Proof. split; intros; apply refines_refl. Qed.

Lemma engine_le_trans e1 e2 e3 : engine_le e1 e2 → engine_le e2 e3 → engine_le e1 e3.
Proof.
  intros H1 H2.
  split; intros; intros s Hs;
    first [ rewrite <- (le_value _ _ H1) by done; apply (le_value _ _ H2); by rewrite (le_value _ _ H1)
          | rewrite <- (le_check _ _ H1) by done; apply (le_check _ _ H2); by rewrite (le_check _ _ H1)
          | rewrite <- (le_recompute _ _ H1) by done; apply (le_recompute _ _ H2); by rewrite (le_recompute _ _ H1)
          | rewrite <- (le_run _ _ H1) by done; apply (le_run _ _ H2); by rewrite (le_run _ _ H1)
          | rewrite <- (le_notify _ _ H1) by done; apply (le_notify _ _ H2); by rewrite (le_notify _ _ H1)
          | rewrite <- (le_notifyConsumers _ _ H1) by done; apply (le_notifyConsumers _ _ H2); by rewrite (le_notifyConsumers _ _ H1)
          | rewrite <- (le_notifyLoop _ _ H1) by done; apply (le_notifyLoop _ _ H2); by rewrite (le_notifyLoop _ _ H1)
          | rewrite <- (le_poll _ _ H1) by done; apply (le_poll _ _ H2); by rewrite (le_poll _ _ H1)
          | rewrite <- (le_pollLoop _ _ H1) by done; apply (le_pollLoop _ _ H2); by rewrite (le_pollLoop _ _ H1)
          | rewrite <- (le_pollStatus _ _ H1) by done; apply (le_pollStatus _ _ H2); by rewrite (le_pollStatus _ _ H1)
          | rewrite <- (le_setValue _ _ H1) by done; apply (le_setValue _ _ H2); by rewrite (le_setValue _ _ H1) ].
Qed.

Lemma engine_le_S fuel : engine_le (engine fuel) (engine (S fuel)).
Proof.
  induction fuel as [|f IH].
  - split; intros; intros s Hs; by destruct Hs.
  - rewrite !engine_S in *. by apply step_mono.
Qed.

Lemma engine_mono f1 f2 : f1 ≤ f2 → engine_le (engine f1) (engine f2).
Proof.
  induction 1 as [|f2 _ IH]; [apply engine_le_refl|].
  eapply engine_le_trans; [exact IH|apply engine_le_S].
Qed.

Lemma fuel_mono {A} (get : Engine → M A) f1 f2 s :
  (∀ e1 e2, engine_le e1 e2 → refines (get e1) (get e2)) →
  f1 ≤ f2 → get (engine f1) s ≠ OutOfFuel → get (engine f2) s = get (engine f1) s.
Proof. intros Hget Hle Hne. by apply (Hget _ _ (engine_mono _ _ Hle)). Qed.

(** ** A weakest-precondition calculus for the engine's code

    [wp m s Q E]: if [m] run from [s] returns [a] in [s'] then [Q a s'],
    and if it throws [e] in [s'] then [E e s']. *)

Definition wp {A} (m : M A) (s : State)
    (Q : A → State → Prop) (E : Error → State → Prop) : Prop :=
  match m s with
  | Ok a s' => Q a s'
  | Err e s' => E e s'
  | OutOfFuel => True
  end.

Section Wp.
Context {A B : Type}.
Implicit Types (Q : A → State → Prop) (E : Error → State → Prop).

Lemma wp_ret (a : A) s Q E : Q a s → wp (ret a) s Q E.
Proof. done. Qed.

Lemma wp_throw e s Q E : E e s → wp (throw e : M A) s Q E.
Proof. done. Qed.

Lemma wp_bind (m : M A) (f : A → M B) s (Q : B → State → Prop) E :
  wp m s (fun a s' => wp (f a) s' Q E) E → wp (bind m f) s Q E.
Proof. unfold wp, bind. by destruct (m s). Qed.

Lemma wp_finally (m : M A) h s Q E :
  wp m s (fun a s' => Q a (h s')) (fun e s' => E e (h s')) → wp (finally m h) s Q E.
Proof. unfold wp, finally. by destruct (m s). Qed.

Lemma wp_mono (m : M A) s Q Q' E E' :
  wp m s Q E → (∀ a s', Q a s' → Q' a s') → (∀ e s', E e s' → E' e s') →
  wp m s Q' E'.
Proof. unfold wp. destruct (m s); eauto. Qed.
End Wp.

Lemma wp_node n s (Q : Node → State → Prop) E :
  (∀ nd, heap s !! n = Some nd → Q nd s) →
  (heap s !! n = None → E TypeError s) →
  wp (node n) s Q E.
Proof. unfold wp, node. destruct (heap s !! n); eauto. Qed.

Lemma wp_consumer n s (Q : Consumer → State → Prop) E :
  (∀ nd c, heap s !! n = Some nd → pipeline nd = Some c → Q c s) →
  (heap s !! n ≫= pipeline = None → E TypeError s) →
  wp (consumer n) s Q E.
Proof.
  unfold wp, consumer. intros HQ HE.
  destruct (heap s !! n) as [nd|] eqn:Hn; simpl in *; [|by apply HE].
  destruct (pipeline nd) eqn:Hp; eauto.
Qed.

Lemma wp_deref n s (Q : option Consumer → State → Prop) E :
  Q (heap s !! n ≫= pipeline) s → wp (deref n) s Q E.
Proof. done. Qed.

(** A state written by [modify_node f n]. *)
Definition written (f : Node → Node) (n : NodeId) (nd : Node) (s s' : State) : Prop :=
  heap s !! n = Some nd ∧ heap s' = <[n := f nd]> (heap s) ∧
  activeConsumer s' = activeConsumer s ∧ trace s' = trace s.

(** A state that differs in its active consumer and trace at most. *)
Definition same_heap (s s' : State) : Prop := heap s' = heap s.

Lemma wp_modify_node f n s (Q : unit → State → Prop) E :
  (∀ nd s', heap s !! n = Some nd → written f n nd s s' → Q tt s') →
  (heap s !! n = None → E TypeError s) →
  wp (modify_node f n) s Q E.
Proof.
  unfold wp, modify_node. intros HQ HE.
  destruct (heap s !! n) as [nd|] eqn:Hn; [|eauto].
  apply (HQ nd); [done|]. by repeat split.
Qed.

Lemma wp_getActiveConsumer s (Q : option NodeId → State → Prop) E :
  Q (activeConsumer s) s → wp getActiveConsumer s Q E.
Proof. done. Qed.

Lemma wp_emit ev s (Q : unit → State → Prop) E :
  (∀ s', same_heap s s' → activeConsumer s' = activeConsumer s →
         trace s' = trace s ++ [ev] → Q tt s') →
  wp (emit ev) s Q E.
Proof. intros HQ. by apply HQ. Qed.

Lemma wp_setActiveConsumer c s (Q : option NodeId → State → Prop) E :
  (∀ s', same_heap s s' → activeConsumer s' = c → trace s' = trace s →
         Q (activeConsumer s) s') →
  wp (setActiveConsumer c) s Q E.
Proof. intros HQ. by apply HQ. Qed.

Lemma wp_finally_restore {A} (m : M A) c s (Q : A → State → Prop) E :
  wp m s
    (fun a s' => ∀ s'', same_heap s' s'' → activeConsumer s'' = c →
                        trace s'' = trace s' → Q a s'')
    (fun e s' => ∀ s'', same_heap s' s'' → activeConsumer s'' = c →
                        trace s'' = trace s' → E e s'') →
  wp (finally m (restoreActiveConsumer c)) s Q E.
Proof.
  intros H. apply wp_finally. eapply wp_mono; [exact H|..]; simpl; intros ? s' Hs;
    by apply Hs.
Qed.

(** One step of symbolic execution. *)
Ltac wp_step :=
  lazymatch goal with
  | |- wp (bind _ _) _ _ _ => apply wp_bind
  | |- wp (ret _) _ _ _ => apply wp_ret
  | |- wp (throw _) _ _ _ => apply wp_throw
  | |- wp (finally _ (restoreActiveConsumer _)) _ _ _ => apply wp_finally_restore
  | |- wp (node _) _ _ _ => apply wp_node; [intros ? ?|intros ?]
  | |- wp (consumer _) _ _ _ => apply wp_consumer; [intros ? ? ? ?|intros ?]
  | |- wp (deref _) _ _ _ => apply wp_deref
  | |- wp (modify_node _ _) _ _ _ => apply wp_modify_node; [intros ? ? ? ?|intros ?]
  | |- wp (emit _) _ _ _ => apply wp_emit; intros ? ? ? ?
  | |- wp getActiveConsumer _ _ _ => apply wp_getActiveConsumer
  | |- wp (setActiveConsumer _) _ _ _ => apply wp_setActiveConsumer; intros ? ? ? ?
  | |- wp (match ?x with _ => _ end) _ _ _ => destruct x eqn:?
  | |- wp (notifyVisit _ _ _ _ _) _ _ _ => unfold notifyVisit
  | |- wp (pollVisit _ _ _ _ _ _) _ _ _ => unfold pollVisit
  | |- ∀ s'', same_heap _ s'' → _ => intros ? ? ? ?
  end; cbv beta; cbn [fst snd].

Ltac unfold_bodies :=
  unfold value_body, checkForActuallyChangedValue_body, recomputeValue_body,
    beginRecompute, invokeCalculate, endRecompute, run_body, notify_body, producerNotifyConsumers_body, notifyLoop_body,
    consumerPollValueStatus_body, pollLoop_body, producerPollStatus_body,
    setValue_body.

(** ** Properties of every function of the engine *)

Record all_ops (P : ∀ A, M A → Prop) (e : Engine) : Prop := BuildAllOps {
  ao_value : ∀ n, P _ (r_value e n);
  ao_check : ∀ n, P _ (r_checkForActuallyChangedValue e n);
  ao_recompute : ∀ n, P _ (r_recomputeValue e n);
  ao_run : ∀ c, P _ (r_run e c);
  ao_notify : ∀ n p, P _ (r_notify e n p);
  ao_notifyConsumers : ∀ n, P _ (r_producerNotifyConsumers e n);
  ao_notifyLoop : ∀ n r it, P _ (r_notifyLoop e n r it);
  ao_poll : ∀ n st, P _ (r_consumerPollValueStatus e n st);
  ao_pollLoop : ∀ n r sk it, P _ (r_pollLoop e n r sk it);
  ao_pollStatus : ∀ n v, P _ (r_producerPollStatus e n v);
  ao_setValue : ∀ n x, P _ (r_setValue e n x)
}.

Lemma all_ops_engine (P : ∀ A, M A → Prop) :
  (∀ A, P A (fun _ => OutOfFuel)) →
  (∀ e, all_ops P e → all_ops P (step e)) →
  ∀ fuel, all_ops P (engine fuel).
Proof.
  intros H0 HS. induction fuel as [|f IH].
  - split; intros; apply H0.
  - rewrite engine_S. by apply HS.
Qed.

(** [m] relates the state it starts in to the state it ends in, however
    it ends. *)
Definition preserves (R : State → State → Prop) (A : Type) (m : M A) : Prop :=
  ∀ s, wp m s (fun _ s' => R s s') (fun _ s' => R s s').

Lemma wp_preserves {A} (R : State → State → Prop) (m : M A) s
    (Q : A → State → Prop) E :
  preserves R A m →
  (∀ a s', R s s' → Q a s') → (∀ e s', R s s' → E e s') →
  wp m s Q E.
Proof. intros Hm HQ HE. eapply wp_mono; [apply Hm|..]; eauto. Qed.

(** *** The ambient active consumer is restored on every exit *)

Definition same_active (s s' : State) : Prop :=
  activeConsumer s' = activeConsumer s.

Ltac wp_rec R H :=
  lazymatch goal with
  | |- wp (r_value _ _) _ _ _ => eapply (wp_preserves R); [apply (ao_value _ _ H)|..]
  | |- wp (r_checkForActuallyChangedValue _ _) _ _ _ =>
      eapply (wp_preserves R); [apply (ao_check _ _ H)|..]
  | |- wp (r_recomputeValue _ _) _ _ _ => eapply (wp_preserves R); [apply (ao_recompute _ _ H)|..]
  | |- wp (r_run _ _) _ _ _ => eapply (wp_preserves R); [apply (ao_run _ _ H)|..]
  | |- wp (r_notify _ _ _) _ _ _ => eapply (wp_preserves R); [apply (ao_notify _ _ H)|..]
  | |- wp (r_producerNotifyConsumers _ _) _ _ _ =>
      eapply (wp_preserves R); [apply (ao_notifyConsumers _ _ H)|..]
  | |- wp (r_notifyLoop _ _ _ _) _ _ _ =>
      eapply (wp_preserves R); [apply (ao_notifyLoop _ _ H)|..]
  | |- wp (r_consumerPollValueStatus _ _ _) _ _ _ =>
      eapply (wp_preserves R); [apply (ao_poll _ _ H)|..]
  | |- wp (r_pollLoop _ _ _ _ _) _ _ _ => eapply (wp_preserves R); [apply (ao_pollLoop _ _ H)|..]
  | |- wp (r_producerPollStatus _ _ _) _ _ _ =>
      eapply (wp_preserves R); [apply (ao_pollStatus _ _ H)|..]
  | |- wp (r_setValue _ _ _) _ _ _ => eapply (wp_preserves R); [apply (ao_setValue _ _ H)|..]
  end; [intros ? ? ?|intros ? ? ?].

Ltac solve_same_active :=
  unfold same_active, written, same_heap in *;
  repeat match goal with H : _ ∧ _ |- _ => destruct H end; congruence.

Lemma wp_producerAccessed_active s0 p s (Q : unit → State → Prop) E :
  same_active s0 s →
  (∀ s', same_active s0 s' → Q tt s') → (∀ e s', same_active s0 s' → E e s') →
  wp (producerAccessed p) s Q E.
Proof.
  intros H0 HQ HE. unfold producerAccessed.
  repeat wp_step; first [apply HQ|apply HE]; solve_same_active.
Qed.

Lemma step_same_active e :
  all_ops (preserves same_active) e → all_ops (preserves same_active) (step e).
Proof.
  intros H. split; simpl; intros; intros s; unfold_bodies.
  all: repeat first
    [ wp_step
    | wp_rec same_active H
    | eapply (wp_producerAccessed_active s); [solve_same_active|intros ? ?|intros ? ? ?]
    | solve_same_active ].
Qed.

(** *** How nodes evolve

    Across any call of the engine a node stays of its kind with its
    [calculate], its two versions never decrease, and a [Pipeline] that is
    in the COMPUTING state when the call starts is left as it is. *)

Definition node_grows (nd nd' : Node) : Prop :=
  valueVersion nd ≤ valueVersion nd' ∧
  match pipeline nd, pipeline nd' with
  | None, None => True
  | Some c, Some c' =>
      calculate c' = calculate c ∧ trackingVersion c ≤ trackingVersion c'
  | _, _ => False
  end.

Definition node_frozen (nd nd' : Node) : Prop :=
  ∀ c, pipeline nd = Some c → _value nd = COMPUTING →
    _value nd' = COMPUTING ∧ valueVersion nd' = valueVersion nd ∧
    ∃ c', pipeline nd' = Some c' ∧
      trackingVersion c' = trackingVersion c ∧ stale c' = stale c.

Definition node_evolves (nd nd' : Node) : Prop :=
  node_grows nd nd' ∧ node_frozen nd nd'.

Definition evolves (s s' : State) : Prop :=
  ∀ n, option_Forall2 node_evolves (heap s !! n) (heap s' !! n).

Lemma node_grows_refl nd : node_grows nd nd.
Proof. split; [lia|]. destruct (pipeline nd); auto. Qed.

Lemma node_grows_trans nd1 nd2 nd3 :
  node_grows nd1 nd2 → node_grows nd2 nd3 → node_grows nd1 nd3.
Proof.
  intros [H1 H1'] [H2 H2']. split; [lia|].
  destruct (pipeline nd1), (pipeline nd2), (pipeline nd3); try done.
  destruct H1', H2'. split; [congruence|lia].
Qed.

Lemma node_evolves_refl nd : node_evolves nd nd.
Proof.
  split; [apply node_grows_refl|]. intros c Hc Hv. eauto 10.
Qed.

Lemma node_evolves_trans nd1 nd2 nd3 :
  node_evolves nd1 nd2 → node_evolves nd2 nd3 → node_evolves nd1 nd3.
Proof.
  intros [G1 F1] [G2 F2]. split; [by eapply node_grows_trans|].
  intros c Hc Hv. destruct (F1 c Hc Hv) as (Hv2 & Hvv2 & c2 & Hc2 & Htv2 & Hst2).
  destruct (F2 c2 Hc2 Hv2) as (Hv3 & Hvv3 & c3 & Hc3 & Htv3 & Hst3).
  split; [done|]. split; [congruence|]. exists c3. split; [done|]. split; congruence.
Qed.

Lemma evolves_refl s : evolves s s.
Proof.
  intros n. destruct (heap s !! n); constructor. apply node_evolves_refl.
Qed.

Lemma evolves_trans s1 s2 s3 : evolves s1 s2 → evolves s2 s3 → evolves s1 s3.
Proof.
  intros H1 H2 n. specialize (H1 n). specialize (H2 n).
  destruct H1 as [nd1 nd2 H1|]; inversion H2; subst; constructor.
  by eapply node_evolves_trans.
Qed.

(** A write to the edge maps of a node. *)
Definition keeps_fields (f : Node → Node) : Prop :=
  ∀ nd, valueVersion (f nd) = valueVersion nd ∧ _value (f nd) = _value nd ∧
    option_Forall2 (fun c c' =>
      calculate c' = calculate c ∧ trackingVersion c' = trackingVersion c ∧
      stale c' = stale c) (pipeline nd) (pipeline (f nd)).

(** A write that keeps the kind of the node and lowers no version. *)
Definition grows (f : Node → Node) : Prop := ∀ nd, node_grows nd (f nd).

Lemma keeps_with_consumers g : keeps_fields (with_consumers g).
Proof.
  intros nd. simpl. split; [done|]. split; [done|].
  destruct (pipeline nd); by constructor.
Qed.

Lemma keeps_with_producers g : keeps_fields (with_pipeline (with_producers g)).
Proof.
  intros nd. simpl. split; [done|]. split; [done|].
  destruct (pipeline nd); by constructor.
Qed.

Lemma grows_with_value v : grows (with_value v).
Proof. intros nd. split; simpl; [lia|]. destruct (pipeline nd); auto. Qed.

Lemma grows_with_stale st : grows (with_pipeline (with_stale st)).
Proof. intros nd. split; simpl; [lia|]. destruct (pipeline nd); simpl; auto. Qed.

Lemma grows_incrValueVersion : grows incrValueVersion.
Proof. intros nd. split; simpl; [lia|]. destruct (pipeline nd); auto. Qed.

Lemma grows_incrTrackingVersion : grows (with_pipeline incrTrackingVersion).
Proof. intros nd. split; simpl; [lia|]. destruct (pipeline nd); simpl; auto. Qed.

Create HintDb engine.
#[local] Hint Resolve keeps_with_consumers keeps_with_producers grows_with_value
  grows_with_stale grows_incrValueVersion grows_incrTrackingVersion : engine.

Lemma evolves_same_heap s0 s s' : evolves s0 s → same_heap s s' → evolves s0 s'.
Proof. intros H Hh n. rewrite Hh. apply H. Qed.

Lemma evolves_keeps s0 s s' n nd f :
  written f n nd s s' → evolves s0 s → keeps_fields f → evolves s0 s'.
Proof.
  intros (Hn & Hh & _) Hev Hf m. rewrite Hh. destruct (decide (n = m)) as [->|Hne].
  - rewrite lookup_insert_eq. specialize (Hev m). rewrite Hn in Hev.
    inversion Hev as [nd0 ? [Hg Hfr] E1 E2|]; subst. constructor.
    destruct (Hf nd) as (Hvv & Hv & Hp). split.
    + destruct Hg as [Hg1 Hg2]. split; [lia|].
      destruct (pipeline nd0), Hp as [c1 c2 (Hc1 & Hc2 & Hc3)|]; try done.
      destruct Hg2. split; [congruence|lia].
    + intros c0 Hc0 Hv0. destruct (Hfr c0 Hc0 Hv0) as (? & ? & c1 & Hc1 & ? & ?).
      rewrite Hc1 in Hp. inversion Hp as [? c' (? & ? & ?)|]; subst.
      split; [congruence|]. split; [congruence|]. exists c'. split; [done|].
      split; congruence.
  - rewrite lookup_insert_ne by done. apply Hev.
Qed.

(** A write to a node that was not a computing [Pipeline] when the call
    started. *)
Definition not_computing (s : State) (n : NodeId) : Prop :=
  ∀ nd c, heap s !! n = Some nd → pipeline nd = Some c → _value nd ≠ COMPUTING.

Lemma evolves_touch s0 s s' n nd f :
  written f n nd s s' → evolves s0 s → not_computing s0 n → grows f →
  evolves s0 s'.
Proof.
  intros (Hn & Hh & _) Hev Hnc Hf m. rewrite Hh. destruct (decide (n = m)) as [->|Hne].
  - rewrite lookup_insert_eq. specialize (Hev m). rewrite Hn in Hev.
    inversion Hev as [nd0 ? [Hg Hfr] E1 E2|]; subst. constructor. split.
    + eapply node_grows_trans; [exact Hg|apply Hf].
    + intros c0 Hc0 Hv0. by destruct (Hnc nd0 c0).
  - rewrite lookup_insert_ne by done. apply Hev.
Qed.

Lemma strictEquals_true a b : strictEquals a b = true ↔ a = b.
Proof. unfold strictEquals. by rewrite bool_decide_eq_true. Qed.

Lemma strictEquals_false a b : strictEquals a b = false ↔ a ≠ b.
Proof. unfold strictEquals. by rewrite bool_decide_eq_false. Qed.

Ltac solve_not_computing :=
  let nd := fresh in let c := fresh in
  let H1 := fresh in let H2 := fresh in let H3 := fresh in
  intros nd c H1 H2 H3;
  repeat match goal with
  | H : same_heap ?s _ , H' : context [heap ?s'] |- _ =>
      lazymatch type of H with same_heap _ s' => rewrite H in H' end
  end;
  simplify_eq;
  repeat match goal with
  | H : strictEquals _ _ = false |- _ => apply strictEquals_false in H
  | H : negb _ && negb _ = true |- _ =>
      apply andb_true_iff in H; destruct H as [? H];
      apply negb_true_iff, strictEquals_false in H
  end; congruence.

(** Walk back from the final state to the state the call started in. *)
Ltac solve_evolves :=
  lazymatch goal with
  | |- evolves ?s ?s => apply evolves_refl
  | H : evolves ?s1 ?s' |- evolves ?s0 ?s' =>
      first [ exact H | apply (evolves_trans s0 s1 s'); [solve_evolves|exact H] ]
  | H : written _ _ _ ?s1 ?s' |- evolves ?s0 ?s' =>
      first [ apply (evolves_keeps s0 _ _ _ _ _ H); [solve_evolves|solve [auto with engine]]
            | apply (evolves_touch s0 _ _ _ _ _ H);
                [solve_evolves|solve_not_computing|solve [auto with engine]] ]
  | H : same_heap ?s1 ?s' |- evolves ?s0 ?s' =>
      apply (evolves_same_heap s0 s1 s'); [solve_evolves|exact H]
  end.

Lemma wp_producerAccessed_evolves s0 p s (Q : unit → State → Prop) E :
  evolves s0 s →
  (∀ s', evolves s0 s' → Q tt s') → (∀ e s', evolves s0 s' → E e s') →
  wp (producerAccessed p) s Q E.
Proof.
  intros Hev HQ HE. unfold producerAccessed.
  repeat wp_step; first [apply HQ|apply HE]; solve_evolves.
Qed.

Lemma step_evolves e :
  all_ops (preserves evolves) e → all_ops (preserves evolves) (step e).
Proof.
  intros H. split; simpl; intros; intros s; unfold_bodies.
  all: repeat first
    [ wp_step
    | wp_rec evolves H
    | eapply (wp_producerAccessed_evolves s); [solve_evolves|intros ? ?|intros ? ? ?]
    | solve_evolves ].
Qed.

Lemma preserves_OutOfFuel R A : preserves R A (fun _ => OutOfFuel).
Proof. by intros s. Qed.

Lemma engine_same_active fuel : all_ops (preserves same_active) (engine fuel).
Proof.
  apply all_ops_engine; [apply preserves_OutOfFuel|apply step_same_active].
Qed.

Lemma engine_evolves fuel : all_ops (preserves evolves) (engine fuel).
Proof.
  apply all_ops_engine; [apply preserves_OutOfFuel|apply step_evolves].
Qed.

(** The state a result leaves. *)
Definition final {A} (r : Result A) (s0 : State) : State :=
  match r with
  | Ok _ s' => s'
  | Err _ s' => s'
  | OutOfFuel => s0
  end.

Lemma preserves_final {A} R (m : M A) s :
  preserves R A m → R s s → R s (final (m s) s).
Proof.
  intros Hm Hr. specialize (Hm s). unfold wp in Hm. by destruct (m s).
Qed.

Lemma exec_same_active fuel op : preserves same_active _ (exec fuel op).
Proof.
  pose proof (engine_same_active fuel) as H. intros s.
  destruct op; simpl; unfold updateValue, mutateValue;
    unfold value, setValue, run, producerNotifyConsumers.
  all: repeat first [wp_step | wp_rec same_active H | solve_same_active].
Qed.

Lemma exec_evolves fuel op : preserves evolves _ (exec fuel op).
Proof.
  pose proof (engine_evolves fuel) as H. intros s.
  destruct op; simpl; unfold updateValue, mutateValue;
    unfold value, setValue, run, producerNotifyConsumers.
  all: repeat first [wp_step | wp_rec evolves H | solve_evolves].
Qed.

(** [this.calculate()] with [fuel] for the calls it makes. *)
Definition calculateCall (fuel : nat) := invokeCalculate (engine fuel).

(** ** Running the code forwards *)

Lemma bind_Ok {A B} (m : M A) (f : A → M B) s a s' :
  m s = Ok a s' → bind m f s = f a s'.
Proof. unfold bind. by intros ->. Qed.

Lemma bind_Err {A B} (m : M A) (f : A → M B) s e s' :
  m s = Err e s' → bind m f s = Err e s'.
Proof. unfold bind. by intros ->. Qed.

Lemma bind_OutOfFuel {A B} (m : M A) (f : A → M B) s :
  m s = OutOfFuel → bind m f s = OutOfFuel.
Proof. unfold bind. by intros ->. Qed.

Lemma node_Ok n s nd : heap s !! n = Some nd → node n s = Ok nd s.
Proof. unfold node. by intros ->. Qed.

Lemma node_Err n s : heap s !! n = None → node n s = Err TypeError s.
Proof. unfold node. by intros ->. Qed.

Lemma consumer_Err n s :
  heap s !! n ≫= pipeline = None → consumer n s = Err TypeError s.
Proof. unfold consumer. by intros ->. Qed.

Lemma consumer_Ok n s nd c :
  heap s !! n = Some nd → pipeline nd = Some c → consumer n s = Ok c s.
Proof. unfold consumer. intros -> Hc. simpl. by rewrite Hc. Qed.

Lemma modify_node_Ok f n s nd :
  heap s !! n = Some nd →
  modify_node f n s = Ok tt (set_heap (<[n := f nd]> (heap s)) s).
Proof. unfold modify_node. by intros ->. Qed.

Lemma execAll_preserves (R : State → State → Prop) fuel ops :
  (∀ s, R s s) → (∀ s1 s2 s3, R s1 s2 → R s2 s3 → R s1 s3) →
  (∀ op, preserves R _ (exec fuel op)) →
  ∀ s outs s', execAll fuel ops s = Some (outs, s') → R s s'.
Proof.
  intros Hrefl Htrans Hop. induction ops as [|op ops IH]; intros s outs s' Hrun.
  - simpl in Hrun. simplify_eq. apply Hrefl.
  - simpl in Hrun. specialize (Hop op s). unfold wp in Hop.
    destruct (exec fuel op s) as [v s1|e s1|]; [| |done].
    + destruct (execAll fuel ops s1) as [[os s2]|] eqn:E; simplify_eq/=. eauto.
    + destruct (execAll fuel ops s1) as [[os s2]|] eqn:E; simplify_eq/=. eauto.
Qed.

Lemma wp_Ok {A} (m : M A) s a s' Q E : wp m s Q E → m s = Ok a s' → Q a s'.
Proof. unfold wp. intros H Hm. by rewrite Hm in H. Qed.

Lemma wp_Err {A} (m : M A) s e s' Q E : wp m s Q E → m s = Err e s' → E e s'.
Proof. unfold wp. intros H Hm. by rewrite Hm in H. Qed.

(** Two writes to the same node, one after the other. *)
Lemma written_written f g n nd nd' s s' s'' :
  written f n nd s s' → written g n nd' s' s'' →
  nd' = f nd ∧ heap s'' = <[n := g (f nd)]> (heap s) ∧
  activeConsumer s'' = activeConsumer s ∧ trace s'' = trace s.
Proof.
  intros (Hn & Hh & Ha & Ht) (Hn' & Hh' & Ha' & Ht').
  rewrite Hh, lookup_insert_eq in Hn'. simplify_eq.
  rewrite Hh', Hh, insert_insert_eq. repeat split; congruence.
Qed.

Lemma written_lookup f n nd s s' : written f n nd s s' → heap s' !! n = Some (f nd).
Proof. intros (_ & -> & _). apply lookup_insert_eq. Qed.

Lemma written_lookup_ne f n m nd s s' :
  written f n nd s s' → n ≠ m → heap s' !! m = heap s !! m.
Proof. intros (_ & -> & _) Hne. by apply lookup_insert_ne. Qed.

(** What [beginRecompute] does. *)
Definition began (n : NodeId) (s : State) (b : JSVal * option NodeId) (s1 : State) : Prop :=
  ∃ nd c, heap s !! n = Some nd ∧ pipeline nd = Some c ∧ _value nd ≠ COMPUTING ∧
    b = (_value nd, activeConsumer s) ∧
    heap s1 = <[n := with_pipeline incrTrackingVersion (with_value COMPUTING nd)]> (heap s) ∧
    activeConsumer s1 = Some n ∧ trace s1 = trace s.

Lemma wp_beginRecompute n s :
  wp (beginRecompute n) s (began n s)
    (fun e s' => s' = s ∧ (e = Cycle ∨ e = TypeError)).
Proof.
  unfold beginRecompute. repeat wp_step; eauto.
  - match goal with
    | H1 : written _ _ _ s ?s1, H2 : written _ _ _ ?s1 _ |- _ =>
        destruct (written_written _ _ _ _ _ _ _ _ H1 H2) as (-> & Hh & Ha & Ht);
        pose proof (proj1 H1)
    end.
    simplify_eq.
    match goal with H : strictEquals _ _ = false |- _ => apply strictEquals_false in H end.
    eexists _, _. repeat split; try eassumption.
    + congruence.
    + unfold same_heap in *. congruence.
    + congruence.
  - match goal with
    | H1 : written _ _ _ s ?s1, H2 : heap ?s1 !! _ = None |- _ =>
        rewrite (written_lookup _ _ _ _ _ H1) in H2; discriminate
    end.
Qed.

(** ** Iterating over an edge map *)

Section Iteration.
Context {K V : Type} `{EqDecision K}.
Implicit Types (arr : list (option (K * V))) (e : EdgeMap.t K V).

Lemma next_from_None arr i :
  JSMap.next_from arr i = None → omap id (drop i arr) = [].
Proof.
  revert i. induction arr as [|sl arr IH]; intros i; [by destruct i|].
  destruct i as [|i]; simpl.
  - destruct sl as [x|]; [done|].
    destruct (JSMap.next_from arr 0) as [[??]|] eqn:E; [done|]. intros _.
    by apply (IH 0).
  - destruct (JSMap.next_from arr i) as [[??]|] eqn:E; [done|]. intros _. by apply IH.
Qed.

Lemma next_from_Some arr i x j :
  JSMap.next_from arr i = Some (x, j) →
  i < j ∧ omap id (drop i arr) = x :: omap id (drop j arr) ∧
  arr !! (j - 1) = Some (Some x).
Proof.
  revert i j. induction arr as [|sl arr IH]; intros i j; [by destruct i|].
  destruct i as [|i]; simpl.
  - destruct sl as [y|].
    + intros [= -> <-]. split; [lia|]. by split.
    + destruct (JSMap.next_from arr 0) as [[y k]|] eqn:E; [|done]. intros [= -> <-].
      destruct (IH 0 k E) as (? & Hd & Hl). split; [lia|]. split; [done|].
      simpl. rewrite Nat.sub_0_r. destruct k; [lia|]. simpl in Hl.
      by rewrite Nat.sub_0_r in Hl.
  - destruct (JSMap.next_from arr i) as [[y k]|] eqn:E; [|done]. intros [= -> <-].
    destruct (IH i k E) as (? & Hd & Hl). split; [lia|]. split; [done|].
    simpl. rewrite Nat.sub_0_r. destruct k; [lia|]. simpl in Hl.
    by rewrite Nat.sub_0_r in Hl.
Qed.

Lemma iter_next_None it e :
  EdgeMap.iter_next it e = None → EdgeMap.remaining it e = [].
Proof.
  destruct it as [[|x l]|i]; simpl; [done|done|].
  destruct (EdgeMap.hashed e) as [m|]; simpl; [|done].
  destruct (JSMap.next_from (JSMap.mapData m) i) as [[??]|] eqn:E; [done|].
  intros _. by apply next_from_None.
Qed.

Lemma iter_next_Some it e x it' :
  EdgeMap.iter_next it e = Some (x, it') →
  EdgeMap.remaining it e = x :: EdgeMap.remaining it' e.
Proof.
  destruct it as [[|y l]|i]; simpl; [done|by intros [= -> <-]|].
  destruct (EdgeMap.hashed e) as [m|] eqn:Hm; simpl; [|done].
  destruct (JSMap.next_from (JSMap.mapData m) i) as [[y j]|] eqn:E; [|done].
  simpl. intros [= -> <-]. simpl. rewrite Hm. simpl.
  by destruct (next_from_Some _ _ _ _ E) as (_ & -> & _).
Qed.

Lemma remaining_start r e :
  EdgeMap.remaining (EdgeMap.iter_start r e) e = EdgeMap.entries_at r e.
Proof. by destruct r. Qed.

(** The iterator that follows [x] does not look at the place of [x]. *)
Lemma index_of_le arr k i v :
  arr !! i = Some (Some (k, v)) → ∃ j, LinearMap.index_of arr k = Some j ∧ j ≤ i.
Proof.
  revert i. induction arr as [|sl arr IH]; intros i Hi; [done|]. simpl.
  destruct (LinearMap.slot_has k sl) eqn:Hs; [exists 0; split; [done|lia]|].
  destruct i as [|i]; simpl in Hi.
  - simplify_eq. simpl in Hs. by rewrite bool_decide_eq_true_2 in Hs.
  - destruct (IH i Hi) as (j & -> & ?). exists (S j). split; [done|lia].
Qed.

Lemma remaining_delete it e x it' r :
  EdgeMap.iter_next it e = Some (x, it') →
  EdgeMap.remaining it' (EdgeMap.delete_at r e x.1) = EdgeMap.remaining it' e.
Proof.
  destruct it as [[|y l]|i]; simpl; [done|by intros [= -> <-]|].
  destruct (EdgeMap.hashed e) as [m|] eqn:Hm; simpl; [|done].
  destruct (JSMap.next_from (JSMap.mapData m) i) as [[y j]|] eqn:E; [|done].
  simpl. intros [= -> <-]. destruct r; simpl; rewrite Hm; simpl; [done|].
  destruct (next_from_Some _ _ _ _ E) as (Hij & _ & Hl).
  destruct x as [k v]. simpl.
  destruct (index_of_le _ _ _ _ Hl) as (j' & Hj' & Hle).
  unfold JSMap.delete. rewrite Hj'. simpl.
  f_equal. rewrite drop_insert_lt by lia. done.
Qed.
End Iteration.

(** ** The notification cascade

    [notify], [producerNotifyConsumers] and its loop call each other only.
    A cascade writes [stale] flags, deletes dead edges and extends the
    trace; it changes no value and no version, and makes no node clean. *)

Section NotifyFamily.
Variable P1 : NodeId → option NodeId → M unit → Prop.
Variable P2 : NodeId → M unit → Prop.
Variable P3 : NodeId → EdgeMap.MapRef → EdgeMap.Iter NodeId nat → M unit → Prop.
Hypothesis P1_0 : ∀ n p, P1 n p (fun _ => OutOfFuel).
Hypothesis P2_0 : ∀ n, P2 n (fun _ => OutOfFuel).
Hypothesis P3_0 : ∀ n r it, P3 n r it (fun _ => OutOfFuel).
Hypothesis P1_S : ∀ e, (∀ n, P2 n (r_producerNotifyConsumers e n)) →
  ∀ n p, P1 n p (notify_body e n p).
Hypothesis P2_S : ∀ e, (∀ n r it, P3 n r it (r_notifyLoop e n r it)) →
  ∀ n, P2 n (producerNotifyConsumers_body e n).
Hypothesis P3_S : ∀ e, (∀ n p, P1 n p (r_notify e n p)) →
  (∀ n r it, P3 n r it (r_notifyLoop e n r it)) →
  ∀ n r it, P3 n r it (notifyLoop_body e n r it).

Lemma notify_family fuel :
  (∀ n p, P1 n p (notify fuel n p)) ∧
  (∀ n, P2 n (producerNotifyConsumers fuel n)) ∧
  (∀ n r it, P3 n r it (notifyLoop fuel n r it)).
Proof using All.
  induction fuel as [|f (IH1 & IH2 & IH3)].
  - split; [|split]; intros; [apply P1_0|apply P2_0|apply P3_0].
  - split; [|split]; intros.
    + by apply P1_S.
    + by apply P2_S.
    + by apply P3_S.
Qed.
End NotifyFamily.

Definition consumer_notified (c c' : Consumer) : Prop :=
  calculate c' = calculate c ∧ trackingVersion c' = trackingVersion c ∧
  (stale c' = stale c ∨ stale c = StaleFalse ∧ stale c' ≠ StaleFalse).

Definition node_notified (nd nd' : Node) : Prop :=
  valueVersion nd' = valueVersion nd ∧ _value nd' = _value nd ∧
  EdgeMap.shape (consumers nd') = EdgeMap.shape (consumers nd) ∧
  option_Forall2 consumer_notified (pipeline nd) (pipeline nd').

Definition cascade (s s' : State) : Prop :=
  (∀ n, option_Forall2 node_notified (heap s !! n) (heap s' !! n)) ∧
  activeConsumer s' = activeConsumer s ∧
  ∃ evs, trace s' = trace s ++ evs.

Lemma consumer_notified_refl c : consumer_notified c c.
Proof. repeat split; auto. Qed.

Lemma node_notified_refl nd : node_notified nd nd.
Proof.
  repeat split. destruct (pipeline nd); constructor. apply consumer_notified_refl.
Qed.

Lemma shape_delete_at {K V} `{EqDecision K} r (e : EdgeMap.t K V) k :
  EdgeMap.shape (EdgeMap.delete_at r e k) = EdgeMap.shape e.
Proof.
  unfold EdgeMap.shape. destruct r; simpl; [done|].
  destruct (EdgeMap.hashed e) as [m|]; simpl; [|done]. f_equal.
  unfold JSMap.delete. destruct (LinearMap.index_of _ _); simpl; [|done].
  apply length_insert.
Qed.

Lemma cascade_refl s : cascade s s.
Proof.
  split; [|split; [done|by exists []; rewrite app_nil_r]].
  intros n. destruct (heap s !! n); constructor. apply node_notified_refl.
Qed.

Lemma consumer_notified_trans c1 c2 c3 :
  consumer_notified c1 c2 → consumer_notified c2 c3 → consumer_notified c1 c3.
Proof.
  intros (? & ? & H1) (? & ? & H2). split; [congruence|]. split; [congruence|].
  destruct H1 as [H1|[H1 H1']], H2 as [H2|[H2 H2']]; try (left; congruence);
    try (right; split; congruence).
Qed.

Lemma node_notified_trans nd1 nd2 nd3 :
  node_notified nd1 nd2 → node_notified nd2 nd3 → node_notified nd1 nd3.
Proof.
  intros (? & ? & ? & Hp1) (? & ? & ? & Hp2).
  split; [congruence|]. split; [congruence|]. split; [congruence|].
  destruct Hp1; inversion Hp2; subst; constructor.
  by eapply consumer_notified_trans.
Qed.

Lemma cascade_trans s1 s2 s3 : cascade s1 s2 → cascade s2 s3 → cascade s1 s3.
Proof.
  intros (H1 & A1 & evs1 & T1) (H2 & A2 & evs2 & T2). split; [|split].
  - intros n. specialize (H1 n). specialize (H2 n).
    destruct H1; inversion H2; subst; constructor. by eapply node_notified_trans.
  - congruence.
  - exists (evs1 ++ evs2). by rewrite T2, T1, app_assoc.
Qed.

Lemma cascade_same_heap s s' ev :
  same_heap s s' → activeConsumer s' = activeConsumer s →
  trace s' = trace s ++ [ev] → cascade s s'.
Proof.
  intros Hh Ha Ht. split; [|split; [done|by eexists]].
  intros n. rewrite Hh. destruct (heap s !! n); constructor. apply node_notified_refl.
Qed.

Lemma cascade_written f n nd s s' :
  written f n nd s s' → node_notified nd (f nd) → cascade s s'.
Proof.
  intros (Hn & Hh & Ha & Ht) Hf. split; [|split; [done|by exists []; rewrite app_nil_r]].
  intros m. rewrite Hh. destruct (decide (n = m)) as [<-|Hne].
  - rewrite lookup_insert_eq, Hn. by constructor.
  - rewrite lookup_insert_ne by done.
    destruct (heap s !! m); constructor. apply node_notified_refl.
Qed.

Lemma node_notified_consumers r k nd :
  node_notified nd (with_consumers (fun m => EdgeMap.delete_at r m k) nd).
Proof.
  repeat split; simpl; [apply shape_delete_at|].
  destruct (pipeline nd); constructor. apply consumer_notified_refl.
Qed.

Lemma node_notified_producers g nd :
  node_notified nd (with_pipeline (with_producers g) nd).
Proof.
  repeat split. simpl. destruct (pipeline nd); constructor. by repeat split; auto.
Qed.

Lemma node_notified_stale st nd c :
  pipeline nd = Some c → stale c = StaleFalse → st ≠ StaleFalse →
  node_notified nd (with_pipeline (with_stale st) nd).
Proof.
  intros Hc Hst Hne. repeat split. simpl. rewrite Hc. constructor.
  repeat split; auto.
Qed.

Ltac solve_cascade :=
  lazymatch goal with
  | |- cascade ?s ?s => apply cascade_refl
  | H : cascade ?s1 ?s' |- cascade ?s0 ?s' =>
      first [ exact H | apply (cascade_trans s0 s1 s'); [solve_cascade|exact H] ]
  | H : written _ _ _ ?s1 ?s' |- cascade ?s0 ?s' =>
      apply (cascade_trans s0 s1 s');
        [solve_cascade
        |apply (cascade_written _ _ _ _ _ H);
           first [ apply node_notified_consumers
                 | apply node_notified_producers
                 | simplify_eq; eapply node_notified_stale;
                     [eassumption
                     |by match goal with
                         | H : bool_decide _ = true |- _ => apply bool_decide_eq_true in H
                         | H : negb (bool_decide _) = false |- _ =>
                             apply negb_false_iff, bool_decide_eq_true in H
                         end
                     |by destruct_all (option NodeId)] ] ]
  | H : same_heap ?s1 ?s', H' : trace ?s' = trace ?s1 ++ [_] |- cascade ?s0 ?s' =>
      apply (cascade_trans s0 s1 s');
        [solve_cascade|eapply cascade_same_heap; eassumption]
  end.

Lemma cascade_engine fuel :
  (∀ n p s, wp (notify fuel n p) s (fun _ s' => cascade s s') (fun _ s' => cascade s s')) ∧
  (∀ n s, wp (producerNotifyConsumers fuel n) s
            (fun _ s' => cascade s s') (fun _ s' => cascade s s')) ∧
  (∀ n r it s, wp (notifyLoop fuel n r it) s
            (fun _ s' => cascade s s') (fun _ s' => cascade s s')).
Proof.
  apply (notify_family
    (fun n p m => ∀ s, wp m s (fun _ s' => cascade s s') (fun _ s' => cascade s s'))
    (fun n m => ∀ s, wp m s (fun _ s' => cascade s s') (fun _ s' => cascade s s'))
    (fun n r it m => ∀ s, wp m s (fun _ s' => cascade s s') (fun _ s' => cascade s s')));
    try done.
  - intros e IH n p s. unfold_bodies.
    repeat first
      [ wp_step
      | eapply wp_mono; [apply IH|intros ? ? ?; cbv beta in *..]
      | solve_cascade ].
  - intros e IH n s. unfold_bodies.
    repeat first
      [ wp_step
      | eapply wp_mono; [apply IH|intros ? ? ?; cbv beta in *..]
      | solve_cascade ].
  - intros e IH1 IH3 n r it s. unfold_bodies.
    repeat first
      [ wp_step
      | eapply wp_mono; [first [apply IH1|apply IH3]|intros ? ? ?; cbv beta in *..]
      | solve_cascade ].
Qed.

(** A cascade leaves every [ValuePipeline] as it is, but for the edges the
    loop of [producerNotifyConsumers(q)] deletes from [q.consumers]. *)
Definition leaves_kept (q : option NodeId) (s s' : State) : Prop :=
  ∀ l nd, heap s !! l = Some nd → pipeline nd = None → q ≠ Some l →
    heap s' !! l = Some nd.

Lemma leaves_kept_refl q s : leaves_kept q s s.
Proof. by intros l nd. Qed.

Lemma leaves_kept_trans q s1 s2 s3 :
  leaves_kept q s1 s2 → leaves_kept q s2 s3 → leaves_kept q s1 s3.
Proof. intros H1 H2 l nd Hl Hp Hq. eauto. Qed.

Lemma leaves_kept_weaken q s s' : leaves_kept None s s' → leaves_kept q s s'.
Proof. intros H l nd Hl Hp _. by apply H. Qed.

Lemma leaves_kept_same_heap q s s' : same_heap s s' → leaves_kept q s s'.
Proof. intros Hh l nd. by rewrite Hh. Qed.

Lemma with_pipeline_leaf g nd : pipeline nd = None → with_pipeline g nd = nd.
Proof. destruct nd as [? ? ? pl]. simpl. by intros ->. Qed.

Lemma leaves_kept_written_pipeline g n nd s s' :
  written (with_pipeline g) n nd s s' → leaves_kept None s s'.
Proof.
  intros (Hn & Hh & _) l ndl Hl Hp _. rewrite Hh.
  destruct (decide (n = l)) as [->|Hne].
  - rewrite lookup_insert_eq. simplify_eq. by rewrite with_pipeline_leaf.
  - by rewrite lookup_insert_ne.
Qed.

Lemma leaves_kept_written_self f n nd s s' :
  written f n nd s s' → leaves_kept (Some n) s s'.
Proof.
  intros (Hn & Hh & _) l ndl Hl Hp Hq. rewrite Hh.
  rewrite lookup_insert_ne; [done|congruence].
Qed.

Ltac solve_leaves_kept :=
  lazymatch goal with
  | |- leaves_kept _ ?s ?s => apply leaves_kept_refl
  | H : leaves_kept ?q ?s1 ?s' |- leaves_kept ?q ?s0 ?s' =>
      first [ exact H | apply (leaves_kept_trans q s0 s1 s'); [solve_leaves_kept|exact H] ]
  | H : leaves_kept None ?s1 ?s' |- leaves_kept ?q ?s0 ?s' =>
      apply (leaves_kept_trans q s0 s1 s'); [solve_leaves_kept|apply leaves_kept_weaken, H]
  | H : written _ _ _ ?s1 ?s' |- leaves_kept ?q ?s0 ?s' =>
      apply (leaves_kept_trans q s0 s1 s');
        [solve_leaves_kept
        |first [ apply leaves_kept_weaken, (leaves_kept_written_pipeline _ _ _ _ _ H)
               | apply (leaves_kept_written_self _ _ _ _ _ H) ] ]
  | H : same_heap ?s1 ?s' |- leaves_kept ?q ?s0 ?s' =>
      apply (leaves_kept_trans q s0 s1 s');
        [solve_leaves_kept|apply leaves_kept_same_heap, H]
  end.

Lemma leaves_kept_pipeline n s1 s2 nd c :
  heap s1 !! n = Some nd → pipeline nd = Some c →
  leaves_kept (Some n) s1 s2 → leaves_kept None s1 s2.
Proof.
  intros Hn Hc H l ndl Hl Hp _. apply H; [done|done|]. intros [= ->]. congruence.
Qed.

Lemma leaves_kept_engine fuel :
  (∀ n p s, wp (notify fuel n p) s
     (fun _ s' => leaves_kept None s s') (fun _ s' => leaves_kept None s s')) ∧
  (∀ q s, wp (producerNotifyConsumers fuel q) s
     (fun _ s' => leaves_kept (Some q) s s') (fun _ s' => leaves_kept (Some q) s s')) ∧
  (∀ q r it s, wp (notifyLoop fuel q r it) s
     (fun _ s' => leaves_kept (Some q) s s') (fun _ s' => leaves_kept (Some q) s s')).
Proof.
  apply (notify_family
    (fun n p m => ∀ s, wp m s (fun _ s' => leaves_kept None s s')
                              (fun _ s' => leaves_kept None s s'))
    (fun q m => ∀ s, wp m s (fun _ s' => leaves_kept (Some q) s s')
                            (fun _ s' => leaves_kept (Some q) s s'))
    (fun q r it m => ∀ s, wp m s (fun _ s' => leaves_kept (Some q) s s')
                                 (fun _ s' => leaves_kept (Some q) s s')));
    try done.
  - intros e IH n p s. unfold_bodies.
    repeat first
      [ wp_step
      | eapply wp_mono; [apply IH|intros ? ? ?; cbv beta in *..]
      | solve_leaves_kept ].
    all: match goal with
         | Hw : written _ ?n _ ?s1 ?s2, H : leaves_kept (Some ?n) ?s2 ?s3
           |- leaves_kept None ?s0 ?s3 =>
             apply (leaves_kept_trans None s0 s2 s3); [solve_leaves_kept|];
             eapply leaves_kept_pipeline; [apply (written_lookup _ _ _ _ _ Hw)| |exact H]
         end.
    all: simplify_eq; simpl;
      match goal with H : pipeline _ = Some _ |- _ => by rewrite H end.
  - intros e IH n s. unfold_bodies.
    repeat first
      [ wp_step
      | eapply wp_mono; [apply IH|intros ? ? ?; cbv beta in *..]
      | solve_leaves_kept ].
  - intros e IH1 IH3 n r it s. unfold_bodies.
    repeat first
      [ wp_step
      | eapply wp_mono; [first [apply IH1|apply IH3]|intros ? ? ?; cbv beta in *..]
      | solve_leaves_kept ].
Qed.

(** [c] is a live [Pipeline] whose [trackingVersion] is [tv]. *)
Definition live (c : NodeId) (tv : nat) (s : State) : Prop :=
  ∃ nd co, heap s !! c = Some nd ∧ pipeline nd = Some co ∧ trackingVersion co = tv.

Lemma cascade_live s s' c tv : cascade s s' → live c tv s → live c tv s'.
Proof.
  intros [H _] (nd & co & Hn & Hc & Htv). specialize (H c). rewrite Hn in H.
  inversion H as [? nd' (_ & _ & _ & Hp)|]; subst. rewrite Hc in Hp.
  inversion Hp as [? co' (_ & Htv' & _)|]; subst. exists nd', co'. by repeat split.
Qed.

Lemma cascade_trace s s' : cascade s s' → ∃ evs, trace s' = trace s ++ evs.
Proof. by intros (_ & _ & H). Qed.

Lemma notify_emits fuel n p s :
  wp (notify (S fuel) n p) s
    (fun _ s' => ∃ evs, trace s' = trace s ++ EvNotify n p :: evs)
    (fun _ s' => ∃ evs, trace s' = trace s ++ EvNotify n p :: evs).
Proof.
  change (notify (S fuel) n p) with (notify_body (engine fuel) n p).
  unfold notify_body. destruct (cascade_engine fuel) as (_ & Hc & _).
  repeat first
    [ wp_step
    | eapply wp_mono; [apply Hc|intros ? ? [? ?]%cascade_trace; cbv beta in *..] ].
  all: unfold written in *; destruct_and?; eexists;
    repeat match goal with H : trace _ = _ |- _ => rewrite H; clear H end;
    rewrite <- ?app_assoc; try reflexivity.
  all: by rewrite app_nil_r.
Qed.

Lemma notifyVisit_leaf fuel p cs c0 tv0 s nd it it' :
  heap s !! p = Some nd → pipeline nd = None →
  EdgeMap.iter_next it (consumers nd) = Some ((c0, tv0), it') →
  wp (notifyVisit (engine fuel) p cs c0 tv0) s
    (fun _ s1 => cascade s s1 ∧
       (∃ nd1, heap s1 !! p = Some nd1 ∧ pipeline nd1 = None ∧
          EdgeMap.remaining it' (consumers nd1) = EdgeMap.remaining it' (consumers nd)) ∧
       (live c0 tv0 s → ∃ evs, trace s1 = trace s ++ EvNotify c0 (Some p) :: evs))
    (fun _ _ => True).
Proof.
  intros Hp Hleaf Hnext. unfold notifyVisit.
  wp_step. wp_step. destruct (heap s !! c0 ≫= pipeline) as [co|] eqn:Hco.
  - destruct (negb (bool_decide (trackingVersion co = tv0))) eqn:Htv.
    + repeat wp_step; [|done..]. simplify_eq. split; [solve_cascade|]. split.
      * match goal with
        | H1 : written _ p nd s ?s1, H2 : written _ c0 _ ?s1 ?s2 |- _ =>
            pose proof (written_lookup _ _ _ _ _ H1) as Hp1;
            pose proof (leaves_kept_written_pipeline _ _ _ _ _ H2 p _ Hp1 Hleaf) as Hp2
        end.
        eexists. split; [apply Hp2; done|]. split; [done|].
        simpl. apply (remaining_delete it _ (c0, tv0) it' cs Hnext).
      * intros (ndc & co' & Hc & Hpc & Htv'). rewrite Hc in Hco. simpl in Hco.
        apply negb_true_iff, bool_decide_eq_false in Htv. congruence.
    + destruct (cascade_engine fuel) as (Hc & _).
      destruct (leaves_kept_engine fuel) as (Hl & _).
      specialize (Hc c0 (Some p) s). specialize (Hl c0 (Some p) s).
      unfold wp in *. fold (notify fuel c0 (Some p)).
      destruct fuel as [|fuel]; [done|].
      pose proof (notify_emits fuel c0 (Some p) s) as He. unfold wp in He.
      destruct (notify (S fuel) c0 (Some p) s) as [[] s1|e s1|]; [|done..].
      split; [done|]. split; [|done].
      exists nd. split; [by apply Hl|done].
  - repeat wp_step; [|done]. simplify_eq. split; [solve_cascade|]. split.
    + eexists. split; [by eapply written_lookup|]. split; [done|].
      simpl. apply (remaining_delete it _ (c0, tv0) it' cs Hnext).
    + intros (ndc & co' & Hc & Hpc & Htv'). rewrite Hc in Hco. simpl in Hco. congruence.
Qed.

Lemma bind_Ok_inv {A B} (m : M A) (f : A → M B) s b s' :
  bind m f s = Ok b s' → ∃ a s1, m s = Ok a s1 ∧ f a s1 = Ok b s'.
Proof. unfold bind. destruct (m s) as [a s1| |]; [eauto|done|done]. Qed.

(** Every consumer a leaf's loop has yet to reach, and whose edge is
    current, gets its [notify]. *)
Lemma notifyLoop_notifies fuel : ∀ p cs it s s' nd,
  heap s !! p = Some nd → pipeline nd = None →
  notifyLoop fuel p cs it s = Ok tt s' →
  cascade s s' ∧
  ∀ c tv, (c, tv) ∈ EdgeMap.remaining it (consumers nd) → live c tv s →
    ∃ evs1 evs2, trace s' = trace s ++ evs1 ++ EvNotify c (Some p) :: evs2.
Proof.
  induction fuel as [|fuel IH]; intros p cs it s s' nd Hp Hleaf Hrun; [done|].
  change (notifyLoop (S fuel) p cs it s) with (notifyLoop_body (engine fuel) p cs it s) in Hrun.
  unfold notifyLoop_body in Hrun.
  rewrite (bind_Ok _ _ _ _ _ (node_Ok _ _ _ Hp)) in Hrun.
  destruct (EdgeMap.iter_next it (consumers nd)) as [[[c0 tv0] it']|] eqn:Hnext.
  - apply bind_Ok_inv in Hrun as ([] & s1 & Hvisit & Hrest).
    pose proof (wp_Ok _ _ _ _ _ _ (notifyVisit_leaf fuel p cs c0 tv0 s nd it it' Hp Hleaf Hnext)
                  Hvisit) as (Hcas & (nd1 & Hp1 & Hleaf1 & Hrem) & Hev).
    destruct (IH p cs it' s1 s' nd1 Hp1 Hleaf1 Hrest) as (Hcas' & Hall).
    split; [by eapply cascade_trans|].
    intros c tv Hin Hlive. rewrite (iter_next_Some _ _ _ _ Hnext) in Hin.
    apply elem_of_cons in Hin as [[= -> ->]|Hin].
    + destruct (Hev Hlive) as (evs & Ht). destruct (cascade_trace _ _ Hcas') as (evs' & Ht').
      exists [], (evs ++ evs'). rewrite Ht', Ht. simpl. by rewrite <- app_assoc.
    + rewrite <- Hrem in Hin.
      destruct (Hall c tv Hin (cascade_live _ _ _ _ Hcas Hlive)) as (evs1 & evs2 & Ht).
      destruct (cascade_trace _ _ Hcas) as (evs & Ht1).
      exists (evs ++ evs1), evs2. rewrite Ht, Ht1. by rewrite <- !app_assoc.
  - injection Hrun as <-. split; [apply cascade_refl|].
    intros c tv Hin. rewrite (iter_next_None _ _ Hnext) in Hin. by apply elem_of_nil in Hin.
Qed.

(** [p.consumers] holds an edge to [c] recorded at [c]'s current
    [trackingVersion]. *)
Definition registered (p c : NodeId) (s : State) : Prop :=
  ∃ nd tv, heap s !! p = Some nd ∧
    (c, tv) ∈ EdgeMap.entries (consumers nd) ∧ live c tv s.

Lemma producerNotifyConsumers_notifies fuel p s s' nd :
  heap s !! p = Some nd → pipeline nd = None →
  producerNotifyConsumers fuel p s = Ok tt s' →
  cascade s s' ∧
  ∀ c, registered p c s →
    ∃ evs1 evs2, trace s' = trace s ++ evs1 ++ EvNotify c (Some p) :: evs2.
Proof.
  intros Hp Hleaf Hrun. destruct fuel as [|fuel]; [done|].
  change (producerNotifyConsumers (S fuel) p s)
    with (producerNotifyConsumers_body (engine fuel) p s) in Hrun.
  unfold producerNotifyConsumers_body in Hrun.
  rewrite (bind_Ok _ _ _ _ _ (node_Ok _ _ _ Hp)) in Hrun.
  destruct (notifyLoop_notifies fuel p _ _ s s' nd Hp Hleaf Hrun) as (Hcas & Hall).
  split; [done|]. intros c (nd' & tv & Hp' & Hin & Hlive). simplify_eq.
  apply (Hall c tv); [|done]. by rewrite remaining_start.
Qed.

(** *** A cascade ends

    Every [notify] that goes on to the node's consumers first turns a clean
    node stale, and no cascade turns a node clean. *)

Definition is_clean (nd : Node) : bool :=
  match pipeline nd with
  | Some c => bool_decide (stale c = StaleFalse)
  | None => false
  end.

Definition clean_nodes (s : State) : gset NodeId :=
  dom (filter (fun kv => is_clean kv.2 = true) (heap s)).

Lemma elem_of_clean_nodes n s :
  n ∈ clean_nodes s ↔ ∃ nd, heap s !! n = Some nd ∧ is_clean nd = true.
Proof.
  unfold clean_nodes. rewrite elem_of_dom. unfold is_Some.
  setoid_rewrite map_lookup_filter_Some. naive_solver.
Qed.

Lemma cascade_clean s s' : cascade s s' → clean_nodes s' ⊆ clean_nodes s.
Proof.
  intros [H _] n. rewrite !elem_of_clean_nodes. intros (nd' & Hn' & Hc).
  specialize (H n). rewrite Hn' in H. inversion H as [nd ? (_ & _ & _ & Hp)|]; subst.
  exists nd. split; [done|]. unfold is_clean in *.
  destruct Hp as [c c' (_ & _ & Hst)|]; [|done].
  apply bool_decide_eq_true in Hc. apply bool_decide_eq_true.
  destruct Hst as [Hst|[? ?]]; congruence.
Qed.

Lemma mark_stale_clean st n nd c s s' :
  written (with_pipeline (with_stale st)) n nd s s' →
  pipeline nd = Some c → stale c = StaleFalse → st ≠ StaleFalse →
  size (clean_nodes s') < size (clean_nodes s).
Proof.
  intros Hw Hc Hst Hne. apply subset_size. apply strict_spec_alt. split.
  - apply cascade_clean. eapply cascade_written; [exact Hw|].
    by eapply node_notified_stale.
  - assert (n ∈ clean_nodes s) as Hin.
    { apply elem_of_clean_nodes. exists nd. split; [apply Hw|].
      unfold is_clean. rewrite Hc. by apply bool_decide_eq_true. }
    assert (n ∉ clean_nodes s') as Hnin.
    { rewrite elem_of_clean_nodes. intros (nd' & Hn' & Hcl).
      rewrite (written_lookup _ _ _ _ _ Hw) in Hn'. simplify_eq.
      unfold is_clean in Hcl. simpl in Hcl. rewrite Hc in Hcl. simpl in Hcl.
      by apply bool_decide_eq_true in Hcl. }
    intros Heq. apply Hnin. by rewrite Heq.
Qed.

Lemma notifyVisit_cascade fuel q cs c tv s :
  wp (notifyVisit (engine fuel) q cs c tv) s
    (fun _ s' => cascade s s') (fun _ s' => cascade s s').
Proof.
  destruct (cascade_engine fuel) as (Hc & _). unfold notifyVisit.
  repeat first
    [ wp_step
    | eapply wp_mono; [apply Hc|intros ? ? ?; cbv beta in *..]
    | solve_cascade ].
Qed.

Lemma notify_mono f1 f2 n p s :
  f1 ≤ f2 → notify f1 n p s ≠ OutOfFuel → notify f2 n p s = notify f1 n p s.
Proof. intros Hle. apply (le_notify _ _ (engine_mono _ _ Hle)). Qed.

Lemma notifyLoop_mono f1 f2 q cs it s :
  f1 ≤ f2 → notifyLoop f1 q cs it s ≠ OutOfFuel →
  notifyLoop f2 q cs it s = notifyLoop f1 q cs it s.
Proof. intros Hle. apply (le_notifyLoop _ _ (engine_mono _ _ Hle)). Qed.

Lemma producerNotifyConsumers_mono f1 f2 q s :
  f1 ≤ f2 → producerNotifyConsumers f1 q s ≠ OutOfFuel →
  producerNotifyConsumers f2 q s = producerNotifyConsumers f1 q s.
Proof. intros Hle. apply (le_notifyConsumers _ _ (engine_mono _ _ Hle)). Qed.

Lemma notifyVisit_fuel f1 f2 q cs c tv s :
  f1 ≤ f2 → notify f1 c (Some q) s ≠ OutOfFuel →
  notifyVisit (engine f1) q cs c tv s ≠ OutOfFuel ∧
  notifyVisit (engine f2) q cs c tv s = notifyVisit (engine f1) q cs c tv s.
Proof.
  intros Hle Hne. pose proof (notify_mono f1 f2 c (Some q) s Hle Hne) as Heq.
  unfold notifyVisit, bind, deref, notify in *.
  destruct (heap s !! c ≫= pipeline) as [co|]; [|split; [|done]].
  - destruct (negb (bool_decide (trackingVersion co = tv))); [split; [|done]|done].
    unfold modify_node. repeat case_match; simplify_eq; done.
  - unfold modify_node. repeat case_match; simplify_eq; done.
Qed.

Lemma turns_next {K V} `{EqDecision K} it (e : EdgeMap.t K V) x it' :
  EdgeMap.iter_next it e = Some (x, it') → EdgeMap.turns it' e < EdgeMap.turns it e.
Proof.
  destruct it as [[|y l]|i]; simpl; [done|intros [= -> <-]; simpl; lia|].
  unfold EdgeMap.shape. destruct (EdgeMap.hashed e) as [m|] eqn:Hm; simpl; [|done].
  destruct (JSMap.next_from (JSMap.mapData m) i) as [[y j]|] eqn:E; [|done].
  simpl. intros [= -> <-]. simpl. unfold EdgeMap.shape. rewrite Hm. simpl.
  destruct (next_from_Some _ _ _ _ E) as (Hij & _ & Hl).
  apply lookup_lt_Some in Hl. lia.
Qed.

Lemma turns_shape {K V} `{EqDecision K} it (e e' : EdgeMap.t K V) :
  EdgeMap.shape e' = EdgeMap.shape e → EdgeMap.turns it e' = EdgeMap.turns it e.
Proof. destruct it; simpl; [done|]. by intros ->. Qed.

Section CascadeEnds.
Variable k : nat.
Hypothesis below : ∀ s, size (clean_nodes s) < k →
  ∀ q, ∃ f, producerNotifyConsumers f q s ≠ OutOfFuel.

Lemma notify_ends s n p :
  size (clean_nodes s) ≤ k → ∃ f, notify f n p s ≠ OutOfFuel.
Proof using below.
  intros Hk.
  set (s0 := BuildState (heap s) (activeConsumer s) (trace s ++ [EvNotify n p])).
  assert (Hemit : emit (EvNotify n p) s = Ok tt s0) by done.
  assert (Hbody : ∀ f, notify (S f) n p s =
    (nd <- node n ;;
     c <- consumer n ;;
     if negb (bool_decide (stale c = StaleFalse)) then ret tt
     else if strictEquals (_value nd) COMPUTING then throw ChangedWhileCalculating
     else
       call modify_node (with_pipeline (with_stale
              (match p with Some p => StaleBy p | None => StaleTrue end))) n ;;
       producerNotifyConsumers f n) s0).
  { intros f. change (notify (S f) n p s) with (notify_body (engine f) n p s).
    unfold notify_body. by rewrite (bind_Ok _ _ _ _ _ Hemit). }
  destruct (heap s !! n) as [nd|] eqn:Hn.
  2:{ exists 1. rewrite Hbody. by rewrite (bind_Err _ _ _ _ _ (node_Err n s0 Hn)). }
  destruct (pipeline nd) as [c|] eqn:Hc.
  2:{ exists 1. rewrite Hbody, (bind_Ok _ _ _ _ _ (node_Ok n s0 nd Hn)).
      rewrite (bind_Err _ _ _ TypeError s0); [done|].
      apply consumer_Err. cbn. rewrite Hn. done. }
  assert (Hpre : ∀ f, notify (S f) n p s =
    (if negb (bool_decide (stale c = StaleFalse)) then ret tt
     else if strictEquals (_value nd) COMPUTING then throw ChangedWhileCalculating
     else
       call modify_node (with_pipeline (with_stale
              (match p with Some p => StaleBy p | None => StaleTrue end))) n ;;
       producerNotifyConsumers f n) s0).
  { intros f. rewrite Hbody, (bind_Ok _ _ _ _ _ (node_Ok n s0 nd Hn)).
    by rewrite (bind_Ok _ _ _ _ _ (consumer_Ok n s0 nd c Hn Hc)). }
  destruct (decide (stale c = StaleFalse)) as [Hst|Hst].
  2:{ exists 1. rewrite Hpre. by rewrite bool_decide_eq_false_2. }
  destruct (strictEquals (_value nd) COMPUTING) eqn:Hv.
  { exists 1. rewrite Hpre. by rewrite bool_decide_eq_true_2. }
  set (st := match p with Some p => StaleBy p | None => StaleTrue end).
  set (s1 := set_heap (<[n := with_pipeline (with_stale st) nd]> (heap s0)) s0).
  assert (Hw : written (with_pipeline (with_stale st)) n nd s0 s1) by done.
  assert (size (clean_nodes s1) < k) as Hlt.
  { eapply Nat.lt_le_trans; [eapply (mark_stale_clean st n nd c s0 s1); try done|done].
    by destruct p. }
  destruct (below s1 Hlt n) as [f Hf]. exists (S f).
  rewrite Hpre. rewrite bool_decide_eq_true_2 by done. simpl.
  by rewrite (bind_Ok _ _ _ _ _ (modify_node_Ok _ n s0 nd Hn)).
Qed.

Lemma notifyLoop_ends : ∀ m s q cs it nd,
  size (clean_nodes s) ≤ k → heap s !! q = Some nd →
  EdgeMap.turns it (consumers nd) ≤ m →
  ∃ f, notifyLoop f q cs it s ≠ OutOfFuel.
Proof using below.
  induction m as [|m IH]; intros s q cs it nd Hk Hq Hm.
  - exists 1. change (notifyLoop 1 q cs it s) with (notifyLoop_body (engine 0) q cs it s).
    unfold notifyLoop_body. rewrite (bind_Ok _ _ _ _ _ (node_Ok _ _ _ Hq)).
    destruct (EdgeMap.iter_next it (consumers nd)) as [[[c0 tv0] it']|] eqn:Hnext; [|done].
    apply turns_next in Hnext. lia.
  - destruct (EdgeMap.iter_next it (consumers nd)) as [[[c0 tv0] it']|] eqn:Hnext.
    2:{ exists 1. change (notifyLoop 1 q cs it s) with (notifyLoop_body (engine 0) q cs it s).
        unfold notifyLoop_body. rewrite (bind_Ok _ _ _ _ _ (node_Ok _ _ _ Hq)).
        by rewrite Hnext. }
    destruct (notify_ends s c0 (Some q) Hk) as [f1 Hf1].
    destruct (notifyVisit (engine f1) q cs c0 tv0 s) as [[] s1|e s1|] eqn:Hv1;
      [| |by destruct (notifyVisit_fuel f1 f1 q cs c0 tv0 s (Nat.le_refl _) Hf1) as [? _]].
    + pose proof (notifyVisit_cascade f1 q cs c0 tv0 s) as Hcas.
      unfold wp in Hcas. rewrite Hv1 in Hcas.
      pose proof (proj1 Hcas q) as Hq1. rewrite Hq in Hq1.
      inversion Hq1 as [? nd1 (_ & _ & Hshape & _) E1 E2|]; subst. symmetry in E2.
      destruct (IH s1 q cs it' nd1) as [f2 Hf2]; [| done | |].
      * etransitivity; [|exact Hk]. by apply subseteq_size, cascade_clean.
      * rewrite (turns_shape _ _ _ Hshape). apply turns_next in Hnext. lia.
      * exists (S (f1 `max` f2)).
        change (notifyLoop (S (f1 `max` f2)) q cs it s)
          with (notifyLoop_body (engine (f1 `max` f2)) q cs it s).
        unfold notifyLoop_body. rewrite (bind_Ok _ _ _ _ _ (node_Ok _ _ _ Hq)), Hnext.
        destruct (notifyVisit_fuel f1 (f1 `max` f2) q cs c0 tv0 s) as [_ Heq];
          [lia|done|].
        rewrite (bind_Ok _ _ _ tt s1) by (by rewrite Heq).
        fold (notifyLoop (f1 `max` f2) q cs it').
        rewrite (notifyLoop_mono f2 (f1 `max` f2)) by (done || lia). done.
    + exists (S f1).
      change (notifyLoop (S f1) q cs it s) with (notifyLoop_body (engine f1) q cs it s).
      unfold notifyLoop_body. rewrite (bind_Ok _ _ _ _ _ (node_Ok _ _ _ Hq)), Hnext.
      by rewrite (bind_Err _ _ _ _ _ Hv1).
Qed.

Lemma producerNotifyConsumers_ends s q :
  size (clean_nodes s) ≤ k → ∃ f, producerNotifyConsumers f q s ≠ OutOfFuel.
Proof using below.
  intros Hk. destruct (heap s !! q) as [nd|] eqn:Hq.
  - destruct (notifyLoop_ends _ s q (EdgeMap.current (consumers nd))
      (EdgeMap.iter_start (EdgeMap.current (consumers nd)) (consumers nd)) nd Hk Hq
      (Nat.le_refl _)) as [f Hf].
    exists (S f).
    change (producerNotifyConsumers (S f) q s)
      with (producerNotifyConsumers_body (engine f) q s).
    unfold producerNotifyConsumers_body.
    by rewrite (bind_Ok _ _ _ _ _ (node_Ok _ _ _ Hq)).
  - exists 1.
    change (producerNotifyConsumers 1 q s)
      with (producerNotifyConsumers_body (engine 0) q s).
    unfold producerNotifyConsumers_body.
    by rewrite (bind_Err _ _ _ _ _ (node_Err _ _ Hq)).
Qed.
End CascadeEnds.

Lemma cascade_ends s q : ∃ f, producerNotifyConsumers f q s ≠ OutOfFuel.
Proof.
  remember (size (clean_nodes s)) as k eqn:Hk. revert s q Hk.
  induction k as [k IH] using lt_wf_ind. intros s q ->.
  apply (producerNotifyConsumers_ends (size (clean_nodes s))); [|done].
  intros s' Hlt q'. by eapply IH.
Qed.

(** ** Recomputation *)

Lemma calculateCall_evolves fuel n : preserves evolves _ (calculateCall fuel n).
Proof.
  pose proof (engine_evolves fuel) as H. intros s.
  unfold calculateCall, invokeCalculate.
  repeat first [wp_step | wp_rec evolves H | solve_evolves].
Qed.

Lemma recomputeValue_S fuel n s b s1 :
  beginRecompute n s = Ok b s1 →
  recomputeValue (S fuel) n s =
    match calculateCall fuel n s1 with
    | Ok v s2 => endRecompute n b.1 v (restoreActiveConsumer b.2 s2)
    | Err e s2 => Err e (restoreActiveConsumer b.2 s2)
    | OutOfFuel => OutOfFuel
    end.
Proof.
  intros Hb.
  change (recomputeValue (S fuel) n s) with (recomputeValue_body (engine fuel) n s).
  unfold recomputeValue_body. rewrite (bind_Ok _ _ _ _ _ Hb). unfold bind, finally.
  fold (calculateCall fuel). by destruct (calculateCall fuel n s1).
Qed.

(** The node as [endRecompute] leaves it. *)
Definition recomputed (oldValue newValue : JSVal) (nd : Node) : Node :=
  if strictEquals newValue oldValue
  then with_value oldValue (with_pipeline (with_stale StaleFalse) nd)
  else incrValueVersion (with_value newValue (with_pipeline (with_stale StaleFalse) nd)).

Lemma endRecompute_Ok n old new s nd :
  heap s !! n = Some nd →
  endRecompute n old new s = Ok tt (set_heap (<[n := recomputed old new nd]> (heap s)) s).
Proof.
  intros Hn. unfold endRecompute, recomputed.
  rewrite (bind_Ok _ _ _ _ _ (modify_node_Ok _ _ _ _ Hn)).
  destruct (strictEquals new old).
  - rewrite (modify_node_Ok _ n _ (with_pipeline (with_stale StaleFalse) nd))
      by apply lookup_insert_eq.
    simpl. by rewrite insert_insert_eq.
  - rewrite (bind_Ok _ _ _ _ _ (modify_node_Ok _ n _ (with_pipeline (with_stale StaleFalse) nd)
      (lookup_insert_eq _ _ _))).
    rewrite (modify_node_Ok _ n _ (with_value new (with_pipeline (with_stale StaleFalse) nd)))
      by apply lookup_insert_eq.
    simpl. by rewrite !insert_insert_eq.
Qed.

(** While [calculate()] runs the node stays as [beginRecompute] left it:
    COMPUTING, with the incremented [trackingVersion]. *)
Lemma during_calculate fuel n s b s1 r :
  began n s b s1 → calculateCall fuel n s1 = r →
  ∃ nd c nd2 c2, heap s !! n = Some nd ∧ pipeline nd = Some c ∧
    b = (_value nd, activeConsumer s) ∧ _value nd ≠ COMPUTING ∧
    heap (final r s1) !! n = Some nd2 ∧ pipeline nd2 = Some c2 ∧
    _value nd2 = COMPUTING ∧ valueVersion nd2 = valueVersion nd ∧
    trackingVersion c2 = S (trackingVersion c) ∧ stale c2 = stale c ∧
    calculate c2 = calculate c.
Proof.
  intros (nd & c & Hn & Hc & Hv & -> & Hh & Ha & Ht) Hr.
  pose proof (preserves_final evolves _ s1 (calculateCall_evolves fuel n)
                (evolves_refl s1)) as Hev.
  rewrite Hr in Hev. specialize (Hev n). rewrite Hh, lookup_insert_eq in Hev.
  inversion Hev as [? nd2 [Hg Hf] E1 E2|]; subst.
  destruct (Hf (incrTrackingVersion c)) as (Hv2 & Hvv2 & c2 & Hc2 & Htv2 & Hst2);
    [by simpl; rewrite Hc|done|].
  destruct Hg as [_ Hg]. simpl in Hg. rewrite Hc, Hc2 in Hg. simpl in Hg.
  destruct Hg as [Hcalc _].
  exists nd, c, nd2, c2. by repeat split.
Qed.

(** ** Edge registration *)

(** The ambient active consumer, when there is one, is a live
    [Pipeline]. *)
Definition active_ok (s : State) : Prop :=
  ∀ a, activeConsumer s = Some a → is_Some (heap s !! a ≫= pipeline).

Definition consumer_edges_only (c c' : Consumer) : Prop :=
  calculate c' = calculate c ∧ trackingVersion c' = trackingVersion c ∧
  stale c' = stale c.

Definition node_edges_only (nd nd' : Node) : Prop :=
  valueVersion nd' = valueVersion nd ∧ _value nd' = _value nd ∧
  option_Forall2 consumer_edges_only (pipeline nd) (pipeline nd').

(** Only edge maps, and the trace, differ between [s] and [s']. *)
Definition edges_only (s s' : State) : Prop :=
  (∀ n, option_Forall2 node_edges_only (heap s !! n) (heap s' !! n)) ∧
  activeConsumer s' = activeConsumer s.

Lemma node_edges_only_refl nd : node_edges_only nd nd.
Proof. repeat split. destruct (pipeline nd); by constructor. Qed.

Lemma edges_only_refl s : edges_only s s.
Proof.
  split; [|done]. intros n. destruct (heap s !! n); constructor.
  apply node_edges_only_refl.
Qed.

Lemma node_edges_only_trans nd1 nd2 nd3 :
  node_edges_only nd1 nd2 → node_edges_only nd2 nd3 → node_edges_only nd1 nd3.
Proof.
  intros (? & ? & H1) (? & ? & H2). split; [congruence|]. split; [congruence|].
  destruct H1 as [? ? (? & ? & ?)|]; inversion H2 as [? ? (? & ? & ?)|]; subst;
    constructor. repeat split; congruence.
Qed.

Lemma edges_only_trans s1 s2 s3 : edges_only s1 s2 → edges_only s2 s3 → edges_only s1 s3.
Proof.
  intros (H1 & ?) (H2 & ?). split; [|congruence].
  intros n. specialize (H1 n). specialize (H2 n).
  destruct H1; inversion H2; subst; constructor. by eapply node_edges_only_trans.
Qed.

Lemma edges_only_written f n nd s s' :
  written f n nd s s' → node_edges_only nd (f nd) → edges_only s s'.
Proof.
  intros (Hn & Hh & Ha & Ht) Hf. split; [|done].
  intros m. rewrite Hh. destruct (decide (n = m)) as [<-|Hne].
  - rewrite lookup_insert_eq, Hn. by constructor.
  - rewrite lookup_insert_ne by done.
    destruct (heap s !! m); constructor. apply node_edges_only_refl.
Qed.

Lemma edges_only_same_heap s s' :
  same_heap s s' → activeConsumer s' = activeConsumer s → edges_only s s'.
Proof.
  intros Hh Ha. split; [|done]. intros n. rewrite Hh.
  destruct (heap s !! n); constructor. apply node_edges_only_refl.
Qed.

Lemma node_edges_only_consumers g nd : node_edges_only nd (with_consumers g nd).
Proof. repeat split. simpl. destruct (pipeline nd); by constructor. Qed.

Lemma node_edges_only_producers g nd :
  node_edges_only nd (with_pipeline (with_producers g) nd).
Proof. repeat split. simpl. destruct (pipeline nd); by constructor. Qed.

Lemma edges_only_lookup s s' n nd :
  edges_only s s' → heap s !! n = Some nd →
  ∃ nd', heap s' !! n = Some nd' ∧ node_edges_only nd nd'.
Proof.
  intros [H _] Hn. specialize (H n). rewrite Hn in H. inversion H; subst. eauto.
Qed.

Lemma edges_only_active_ok s s' : edges_only s s' → active_ok s → active_ok s'.
Proof.
  intros (H & Ha) Hok a Hact. rewrite Ha in Hact.
  destruct (Hok a Hact) as [c Hc]. specialize (H a).
  destruct (heap s !! a) as [nd|]; [|done]. simpl in Hc.
  inversion H as [? nd' (_ & _ & Hp) E1 E2|]; subst. simpl.
  rewrite Hc in Hp. inversion Hp; subst. eauto.
Qed.

Lemma wp_total {A} (m : M A) s Q :
  wp m s Q (fun _ _ => False) → m s ≠ OutOfFuel → ∃ a s', m s = Ok a s' ∧ Q a s'.
Proof. unfold wp. destruct (m s); [eauto|done|done]. Qed.

Lemma producerAccessed_total p s : producerAccessed p s ≠ OutOfFuel.
Proof.
  unfold producerAccessed, bind, getActiveConsumer, consumer, modify_node, node, ret.
  repeat case_match; simplify_eq; done.
Qed.

Lemma producerAccessed_trace p s :
  wp (producerAccessed p) s (fun _ s' => trace s' = trace s) (fun _ s' => trace s' = trace s).
Proof.
  unfold producerAccessed. repeat wp_step; unfold written in *; destruct_and?; congruence.
Qed.

Lemma producerAccessed_Ok p s nd :
  heap s !! p = Some nd → active_ok s →
  ∃ s', producerAccessed p s = Ok tt s' ∧ edges_only s s' ∧ trace s' = trace s.
Proof.
  intros Hp Hok.
  destruct (wp_total (producerAccessed p) s (fun _ s' => edges_only s s')) as ([] & s' & Hr & ?);
    [|apply producerAccessed_total
     |exists s'; split; [done|]; split; [done|];
      by apply (wp_Ok _ _ _ _ _ _ (producerAccessed_trace p s) Hr)].
  unfold producerAccessed. repeat wp_step; try congruence.
  all: try apply edges_only_refl.
  all: try match goal with
    | H1 : written _ _ _ ?s0 ?s1, H2 : written _ _ _ ?s1 ?s2 |- edges_only ?s0 ?s2 =>
        apply (edges_only_trans s0 s1 s2);
          [apply (edges_only_written _ _ _ _ _ H1), node_edges_only_consumers
          |apply (edges_only_written _ _ _ _ _ H2), node_edges_only_producers]
    | Hw : written _ ?p _ _ ?s1, Hn : heap ?s1 !! ?p = None |- _ =>
        rewrite (written_lookup _ _ _ _ _ Hw) in Hn; congruence
    | Hw : written _ ?p _ ?s0 ?s1, Hn : heap ?s1 !! ?a = None,
      Ha : heap ?s0 !! ?a = Some _ |- _ =>
        destruct (decide (p = a)) as [<-|Hne];
          [rewrite (written_lookup _ _ _ _ _ Hw) in Hn
          |rewrite (written_lookup_ne _ _ _ _ _ _ Hw Hne) in Hn]; congruence
    | Hok : active_ok ?s0, Ha : activeConsumer ?s0 = Some ?a,
      Hn : heap ?s0 !! ?a ≫= pipeline = None |- _ =>
        destruct (Hok a Ha) as [? Hc]; congruence
    end.
Qed.

(** Reading a clean [Pipeline] returns the cached value at once. *)
Lemma value_clean fuel n s nd c :
  heap s !! n = Some nd → pipeline nd = Some c → stale c = StaleFalse →
  active_ok s →
  ∃ s', value (S (S fuel)) n s = Ok (_value nd) s' ∧ edges_only s s' ∧
    ∃ evs, trace s' = trace s ++ EvRead n :: evs ∧
      ∀ m, EvCalculate m ∉ evs.
Proof.
  intros Hn Hc Hst Hok.
  change (value (S (S fuel)) n s) with (value_body (engine (S fuel)) n s).
  unfold value_body.
  set (s0 := BuildState (heap s) (activeConsumer s) (trace s ++ [EvRead n])).
  rewrite (bind_Ok _ _ s tt s0) by done.
  rewrite (bind_Ok _ _ _ _ _ (node_Ok n s0 nd Hn)), Hc.
  assert (r_checkForActuallyChangedValue (engine (S fuel)) n s0 = Ok tt s0) as Hcheck.
  { change (checkForActuallyChangedValue_body (engine fuel) n s0 = Ok tt s0).
    unfold checkForActuallyChangedValue_body.
    rewrite (bind_Ok _ _ _ _ _ (node_Ok n s0 nd Hn)), Hc, Hst.
    by rewrite bool_decide_eq_true_2. }
  rewrite (bind_Ok _ _ _ _ _ Hcheck).
  destruct (producerAccessed_Ok n s0 nd Hn Hok) as (s' & Hpa & He & Ht).
  rewrite (bind_Ok _ _ _ _ _ Hpa).
  destruct (edges_only_lookup _ _ _ _ He Hn) as (nd' & Hn' & _ & Hv & _).
  rewrite (bind_Ok _ _ _ _ _ (node_Ok _ _ _ Hn')). rewrite Hv.
  eexists. split; [done|]. split.
  - eapply edges_only_trans; [|exact He]. by apply edges_only_same_heap.
  - exists []. rewrite Ht. split; [done|]. intros m. apply not_elem_of_nil.
Qed.

(** ** The claims *)

(** C9.  A recomputation saves the ambient active consumer and installs the
    node before it calls [calculate()]; however the recomputation ends,
    with a value or with an exception of [calculate()], the saved consumer
    is back in the slot.  So every top-level call leaves the slot as it
    found it: starting from a freshly built graph, the slot is undefined
    between any two top-level calls. *)
Theorem active_consumer_restored :
  (∀ fuel n s,
     activeConsumer (final (recomputeValue fuel n s) s) = activeConsumer s) ∧
  (∀ n s old prev s1,
     beginRecompute n s = Ok (old, prev) s1 →
     prev = activeConsumer s ∧ activeConsumer s1 = Some n) ∧
  (∀ fuel n s old prev s1 e s2,
     beginRecompute n s = Ok (old, prev) s1 →
     calculateCall fuel n s1 = Err e s2 →
     recomputeValue (S fuel) n s = Err e (restoreActiveConsumer (activeConsumer s) s2)) ∧
  (∀ fuel n s old prev s1 v s2,
     beginRecompute n s = Ok (old, prev) s1 →
     calculateCall fuel n s1 = Ok v s2 →
     recomputeValue (S fuel) n s =
       endRecompute n old v (restoreActiveConsumer (activeConsumer s) s2)) ∧
  (∀ nodes fuel ops outs s',
     execAll fuel ops (initState nodes) = Some (outs, s') →
     activeConsumer s' = None).
Proof.
  assert (Hbegin : ∀ n s old prev s1,
     beginRecompute n s = Ok (old, prev) s1 →
     prev = activeConsumer s ∧ activeConsumer s1 = Some n).
  { intros n s old prev s1 Hb.
    destruct (wp_Ok _ _ _ _ _ _ (wp_beginRecompute n s) Hb)
      as (nd & c & _ & _ & _ & Heq & _ & Ha & _).
    by simplify_eq. }
  split; [|split; [|split; [|split]]].
  - intros fuel n s.
    apply (preserves_final same_active (recomputeValue fuel n));
      [apply (ao_recompute _ _ (engine_same_active fuel))|reflexivity].
  - exact Hbegin.
  - intros fuel n s old prev s1 e s2 Hb Hc.
    destruct (Hbegin _ _ _ _ _ Hb) as [-> _].
    change (recomputeValue (S fuel) n s) with (recomputeValue_body (engine fuel) n s).
    unfold recomputeValue_body. rewrite (bind_Ok _ _ _ _ _ Hb). simpl.
    apply bind_Err. unfold finally. fold (calculateCall fuel). by rewrite Hc.
  - intros fuel n s old prev s1 v s2 Hb Hc.
    destruct (Hbegin _ _ _ _ _ Hb) as [-> _].
    change (recomputeValue (S fuel) n s) with (recomputeValue_body (engine fuel) n s).
    unfold recomputeValue_body. rewrite (bind_Ok _ _ _ _ _ Hb). simpl.
    apply bind_Ok. unfold finally. fold (calculateCall fuel). by rewrite Hc.
  - intros nodes fuel ops outs s' Hrun.
    apply (execAll_preserves same_active) in Hrun;
      [exact Hrun|reflexivity|unfold same_active; congruence|apply exec_same_active].
Qed.

Lemma evolves_active_ok s s' :
  evolves s s' → activeConsumer s' = activeConsumer s → active_ok s → active_ok s'.
Proof.
  intros H Ha Hok a Hact. rewrite Ha in Hact.
  destruct (Hok a Hact) as [c Hc]. specialize (H a).
  destruct (heap s !! a) as [nd|]; [|done]. simpl in Hc.
  inversion H as [? nd' [[_ Hg] _] E1 E2|]; subst. simpl.
  rewrite Hc in Hg. destruct (pipeline nd'); [eauto|done].
Qed.

(** C3.  When [calculate()] returns the very value that was cached before
    the recomputation, the recomputation leaves [valueVersion] as it was
    and puts the prior value back, and the next read returns it. *)
Theorem unchanged_value_keeps_identity fuel n s old prev s1 v s2 :
  beginRecompute n s = Ok (old, prev) s1 →
  calculateCall fuel n s1 = Ok v s2 →
  v = old →
  ∃ s3 nd nd3,
    recomputeValue (S fuel) n s = Ok tt s3 ∧
    heap s !! n = Some nd ∧ _value nd = old ∧
    heap s3 !! n = Some nd3 ∧
    valueVersion nd3 = valueVersion nd ∧ _value nd3 = old ∧
    (active_ok s → ∀ fuel', ∃ s4, value (S (S fuel')) n s3 = Ok old s4).
Proof.
  intros Hb Hc ->.
  pose proof (wp_Ok _ _ _ _ _ _ (wp_beginRecompute n s) Hb) as Hbegan.
  destruct (during_calculate fuel n s _ s1 _ Hbegan Hc)
    as (nd & c & nd2 & c2 & Hn & Hp & Heq & Hv & Hn2 & Hp2 & Hv2 & Hvv2 & Htv2 & Hst2 & _).
  simpl in Hn2. injection Heq as -> ->.
  pose proof (recomputeValue_S fuel n s _ s1 Hb) as Hrec. rewrite Hc in Hrec. simpl in Hrec.
  rewrite (endRecompute_Ok _ _ _ _ nd2) in Hrec by done.
  unfold recomputed, strictEquals in Hrec. rewrite bool_decide_eq_true_2 in Hrec by done.
  set (s3 := set_heap _ _) in Hrec.
  assert (Hn3 : heap s3 !! n
            = Some (with_value (_value nd) (with_pipeline (with_stale StaleFalse) nd2)))
    by apply lookup_insert_eq.
  eexists s3, nd, _. split; [exact Hrec|]. split; [done|]. split; [done|].
  split; [exact Hn3|]. split; [done|]. split; [done|].
  intros Hok fuel'.
  assert (Hok3 : active_ok s3).
  { apply (evolves_active_ok s); [|done|done].
    pose proof (preserves_final evolves _ s
      (ao_recompute _ _ (engine_evolves (S fuel)) n) (evolves_refl s)) as Hev.
    fold (recomputeValue (S fuel) n s) in Hev. by rewrite Hrec in Hev. }
  destruct (value_clean fuel' n s3 _ (with_stale StaleFalse c2) Hn3) as (s4 & Hval & _);
    [by simpl; rewrite Hp2|done|done|eauto].
Qed.

(** What a recomputation does to the two versions of its node. *)
Lemma recompute_versions fuel n s old prev s1 :
  beginRecompute n s = Ok (old, prev) s1 →
  ∃ nd c nd1 c1,
    heap s !! n = Some nd ∧ pipeline nd = Some c ∧ _value nd = old ∧
    heap s1 !! n = Some nd1 ∧ pipeline nd1 = Some c1 ∧
    trackingVersion c1 = S (trackingVersion c) ∧
    valueVersion nd1 = valueVersion nd ∧
    match recomputeValue (S fuel) n s with
    | Ok _ s3 =>
        ∃ nd3 c3, heap s3 !! n = Some nd3 ∧ pipeline nd3 = Some c3 ∧
          trackingVersion c3 = S (trackingVersion c) ∧
          (_value nd3 = old ∧ valueVersion nd3 = valueVersion nd ∨
           _value nd3 ≠ old ∧ valueVersion nd3 = S (valueVersion nd))
    | Err _ s3 =>
        ∃ nd3 c3, heap s3 !! n = Some nd3 ∧ pipeline nd3 = Some c3 ∧
          trackingVersion c3 = S (trackingVersion c) ∧
          valueVersion nd3 = valueVersion nd
    | OutOfFuel => True
    end.
Proof.
  intros Hb.
  pose proof (wp_Ok _ _ _ _ _ _ (wp_beginRecompute n s) Hb) as Hbegan.
  destruct (during_calculate fuel n s _ s1 _ Hbegan eq_refl)
    as (nd & c & nd2 & c2 & Hn & Hp & Heq & Hv & Hn2 & Hp2 & Hv2 & Hvv2 & Htv2 & Hst2 & _).
  injection Heq as -> ->.
  destruct Hbegan as (nd' & c' & Hn' & Hp' & _ & _ & Hh1 & _).
  assert (nd' = nd) as -> by congruence. assert (c' = c) as -> by congruence.
  exists nd, c, (with_pipeline incrTrackingVersion (with_value COMPUTING nd)),
    (incrTrackingVersion c).
  split; [done|]. split; [done|]. split; [done|].
  split; [by rewrite Hh1, lookup_insert_eq|]. split; [by simpl; rewrite Hp|].
  split; [done|]. split; [done|].
  rewrite (recomputeValue_S fuel n s _ s1 Hb).
  destruct (calculateCall fuel n s1) as [v s2|e s2|]; simpl in *;
    [|by exists nd2, c2|done].
  rewrite (endRecompute_Ok _ _ _ _ nd2) by done.
  eexists _, _. split; [apply lookup_insert_eq|].
  unfold recomputed. destruct (strictEquals v (_value nd)) eqn:Hvo; simpl; rewrite Hp2;
    (split; [done|]); (split; [done|]).
  - by left.
  - right. apply strictEquals_false in Hvo. split; [done|]. by rewrite Hvv2.
Qed.

(** What [setValue] does to a leaf, however the notification ends. *)
Lemma setValue_leaf fuel p x s nd :
  heap s !! p = Some nd → pipeline nd = None →
  wp (setValue (S fuel) p x) s
    (fun _ s' => ∃ nd', heap s' !! p = Some nd' ∧ _value nd' = x ∧
       valueVersion nd' = if strictEquals x (_value nd) then valueVersion nd
                          else S (valueVersion nd))
    (fun _ s' => ∃ nd', heap s' !! p = Some nd' ∧ _value nd' = x ∧
       valueVersion nd' = if strictEquals x (_value nd) then valueVersion nd
                          else S (valueVersion nd)).
Proof.
  intros Hn Hp.
  change (setValue (S fuel) p x) with (setValue_body (engine fuel) p x).
  unfold setValue_body.
  repeat first [wp_step | congruence].
  - simplify_eq.
    match goal with
    | H1 : written _ _ _ s ?s1, H2 : written _ _ _ ?s1 ?s2 |- _ =>
        destruct (written_written _ _ _ _ _ _ _ _ H1 H2) as (-> & Hh & _)
    end.
    destruct (cascade_engine fuel) as (_ & Hc & _).
    eapply wp_mono; [apply Hc|intros ? s3 [Hcas _]..].
    all: specialize (Hcas p); rewrite Hh, lookup_insert_eq in Hcas;
      inversion Hcas as [? nd3 (Hvv & Hv & _ & _)|]; subst;
      exists nd3; split; [done|]; split; [done|];
      match goal with H : negb _ = true |- _ => apply negb_true_iff in H; rewrite H end;
      done.
  - match goal with
    | Hw : written _ ?p _ _ ?s1, Hn : heap ?s1 !! ?p = None |- _ =>
        rewrite (written_lookup _ _ _ _ _ Hw) in Hn; congruence
    end.
  - simplify_eq. exists nd. split; [done|].
    match goal with H : negb _ = false |- _ =>
      apply negb_false_iff in H; rewrite H; apply strictEquals_true in H end.
    done.
Qed.

Lemma evolves_lookup s s' n nd :
  evolves s s' → heap s !! n = Some nd →
  ∃ nd', heap s' !! n = Some nd' ∧ valueVersion nd ≤ valueVersion nd' ∧
    ∀ c, pipeline nd = Some c →
      ∃ c', pipeline nd' = Some c' ∧ calculate c' = calculate c ∧
        trackingVersion c ≤ trackingVersion c'.
Proof.
  intros H Hn. specialize (H n). rewrite Hn in H.
  inversion H as [? nd' [[Hvv Hg] _]|]; subst. exists nd'.
  split; [done|]. split; [done|]. intros c Hc. rewrite Hc in Hg.
  destruct (pipeline nd') as [c'|]; [|done]. destruct Hg. eauto.
Qed.

Lemma mutateValue_leaf fuel p f s nd v s1 nd1 :
  heap s !! p = Some nd → pipeline nd = None →
  run fuel (f (_value nd)) s = Ok v s1 → heap s1 !! p = Some nd1 →
  wp (mutateValue fuel p f) s
    (fun _ s' => ∃ nd', heap s' !! p = Some nd' ∧ _value nd' = _value nd1 ∧
       valueVersion nd' = S (valueVersion nd1))
    (fun _ s' => ∃ nd', heap s' !! p = Some nd' ∧ _value nd' = _value nd1 ∧
       valueVersion nd' = S (valueVersion nd1)).
Proof.
  intros Hn Hp Hrun Hn1. unfold mutateValue.
  wp_step. wp_step; [|congruence]. simplify_eq. rewrite Hp.
  apply wp_bind. unfold wp at 1. rewrite Hrun.
  repeat first [wp_step | congruence].
  simplify_eq.
  match goal with H : written _ _ _ s1 ?s2 |- _ =>
    pose proof (written_lookup _ _ _ _ _ H) as Hn2 end.
  destruct (cascade_engine fuel) as (_ & Hc & _).
  eapply wp_mono; [apply Hc|intros ? s3 [Hcas _]..].
  all: specialize (Hcas p); rewrite Hn2 in Hcas;
    inversion Hcas as [? nd3 (Hvv & Hv & _ & _)|]; subst; by exists nd3.
Qed.

(** C4, as amended.  Over any sequence of top-level calls no node's
    [valueVersion] and no consumer's [trackingVersion] decreases.  A
    recomputation increments [trackingVersion] exactly once, before
    [calculate()] runs, and increments [valueVersion] exactly when the value
    it stores is not identical to the prior one; [setValue] increments
    [valueVersion] exactly when the new value is not identical to the held
    one; [mutateValue] increments it whenever the mutator returns. *)
Theorem versions_never_decrease :
  (∀ fuel ops s outs s' n nd,
     execAll fuel ops s = Some (outs, s') → heap s !! n = Some nd →
     ∃ nd', heap s' !! n = Some nd' ∧ valueVersion nd ≤ valueVersion nd' ∧
       ∀ c, pipeline nd = Some c →
         ∃ c', pipeline nd' = Some c' ∧ calculate c' = calculate c ∧
           trackingVersion c ≤ trackingVersion c') ∧
  (∀ fuel n s old prev s1,
     beginRecompute n s = Ok (old, prev) s1 →
     ∃ nd c nd1 c1,
       heap s !! n = Some nd ∧ pipeline nd = Some c ∧ _value nd = old ∧
       heap s1 !! n = Some nd1 ∧ pipeline nd1 = Some c1 ∧
       trackingVersion c1 = S (trackingVersion c) ∧
       valueVersion nd1 = valueVersion nd ∧
       match recomputeValue (S fuel) n s with
       | Ok _ s3 =>
           ∃ nd3 c3, heap s3 !! n = Some nd3 ∧ pipeline nd3 = Some c3 ∧
             trackingVersion c3 = S (trackingVersion c) ∧
             (_value nd3 = old ∧ valueVersion nd3 = valueVersion nd ∨
              _value nd3 ≠ old ∧ valueVersion nd3 = S (valueVersion nd))
       | Err _ s3 =>
           ∃ nd3 c3, heap s3 !! n = Some nd3 ∧ pipeline nd3 = Some c3 ∧
             trackingVersion c3 = S (trackingVersion c) ∧
             valueVersion nd3 = valueVersion nd
       | OutOfFuel => True
       end) ∧
  (∀ fuel p x s nd r,
     heap s !! p = Some nd → pipeline nd = None →
     setValue (S fuel) p x s = r → r ≠ OutOfFuel →
     ∃ nd', heap (final r s) !! p = Some nd' ∧ _value nd' = x ∧
       valueVersion nd' = if strictEquals x (_value nd) then valueVersion nd
                          else S (valueVersion nd)) ∧
  (∀ fuel p f s nd v s1 nd1 r,
     heap s !! p = Some nd → pipeline nd = None →
     run fuel (f (_value nd)) s = Ok v s1 → heap s1 !! p = Some nd1 →
     mutateValue fuel p f s = r → r ≠ OutOfFuel →
     ∃ nd', heap (final r s) !! p = Some nd' ∧ _value nd' = _value nd1 ∧
       valueVersion nd' = S (valueVersion nd1)).
Proof.
  split; [|split; [|split]].
  - intros fuel ops s outs s' n nd Hrun Hn.
    eapply evolves_lookup; [|exact Hn].
    eapply (execAll_preserves evolves); [apply evolves_refl|apply evolves_trans| |exact Hrun].
    apply exec_evolves.
  - intros. by eapply recompute_versions.
  - intros fuel p x s nd r Hn Hp Hr Hne.
    pose proof (setValue_leaf fuel p x s nd Hn Hp) as H. unfold wp in H. rewrite Hr in H.
    by destruct r.
  - intros fuel p f s nd v s1 nd1 r Hn Hp Hrun Hn1 Hr Hne.
    pose proof (mutateValue_leaf fuel p f s nd v s1 nd1 Hn Hp Hrun Hn1) as H.
    unfold wp in H. rewrite Hr in H. by destruct r.
Qed.

(** C4 as stated fails for [mutateValue]: the held value stays the same
    reference and [valueVersion] is incremented all the same. *)
Lemma mutateValue_increments_without_change :
  let s := initState [newValuePipeline (VRef 7)] in
  ∃ s', exec 3 (OpMutateValue 0 (fun v => Ret v)) s = Ok None s' ∧
    _value <$> heap s' !! 0 = _value <$> heap s !! 0 ∧
    valueVersion <$> heap s !! 0 = Some 1 ∧
    valueVersion <$> heap s' !! 0 = Some 2.
Proof. eexists. split; [reflexivity|]. by vm_compute. Qed.

Lemma registered_written f p c nd s s' :
  written f p nd s s' → pipeline nd = None →
  consumers (f nd) = consumers nd →
  registered p c s → registered p c s'.
Proof.
  intros Hw Hleaf Hcs (nd' & tv & Hp & Hin & ndc & co & Hc & Hpc & Htv).
  assert (nd' = nd) as -> by (destruct Hw; congruence).
  exists (f nd), tv. split; [by eapply written_lookup|]. split; [by rewrite Hcs|].
  exists ndc, co. split; [|done].
  rewrite (written_lookup_ne _ _ _ _ _ _ Hw); [done|]. intros ->. congruence.
Qed.

Lemma setValue_S_changed fuel p x s nd :
  heap s !! p = Some nd → pipeline nd = None → x ≠ _value nd →
  setValue (S fuel) p x s =
    producerNotifyConsumers fuel p
      (set_heap (<[p := incrValueVersion (with_value x nd)]> (heap s)) s).
Proof.
  intros Hp Hleaf Hx.
  change (setValue (S fuel) p x s) with (setValue_body (engine fuel) p x s).
  unfold setValue_body. rewrite (bind_Ok _ _ _ _ _ (node_Ok _ _ _ Hp)), Hleaf.
  apply strictEquals_false in Hx. rewrite Hx. simpl.
  rewrite (bind_Ok _ _ _ _ _ (modify_node_Ok _ _ _ _ Hp)).
  rewrite (bind_Ok _ _ _ _ _ (modify_node_Ok _ p _ (with_value x nd) (lookup_insert_eq _ _ _))).
  simpl. by rewrite insert_insert_eq.
Qed.

(** C5.  [setValue(x)] with [x] identical to the held value returns with
    the state as it was: value, version, consumers and trace.  Otherwise
    it stores [x], increments [valueVersion] and runs the notification,
    which ends, and on its return every consumer registered in
    [consumers] at its current [trackingVersion] has been notified. *)
Theorem setValue_identical_or_notify p s nd x :
  heap s !! p = Some nd → pipeline nd = None →
  (x = _value nd → ∀ fuel, setValue (S fuel) p x s = Ok tt s) ∧
  (x ≠ _value nd →
     let s1 := set_heap (<[p := incrValueVersion (with_value x nd)]> (heap s)) s in
     (∀ fuel, setValue (S fuel) p x s = producerNotifyConsumers fuel p s1) ∧
     (∃ fuel, setValue fuel p x s ≠ OutOfFuel) ∧
     ∀ fuel s', setValue fuel p x s = Ok tt s' →
       (∃ nd', heap s' !! p = Some nd' ∧ _value nd' = x ∧
          valueVersion nd' = S (valueVersion nd) ∧ pipeline nd' = None) ∧
       ∀ c, registered p c s →
         ∃ evs1 evs2, trace s' = trace s ++ evs1 ++ EvNotify c (Some p) :: evs2).
Proof.
  intros Hp Hleaf. split.
  - intros -> fuel.
    change (setValue (S fuel) p (_value nd) s)
      with (setValue_body (engine fuel) p (_value nd) s).
    unfold setValue_body. rewrite (bind_Ok _ _ _ _ _ (node_Ok _ _ _ Hp)), Hleaf.
    unfold strictEquals. by rewrite bool_decide_eq_true_2.
  - intros Hx s1.
    assert (Hw : written (fun nd => incrValueVersion (with_value x nd)) p nd s s1) by done.
    split; [intros fuel; by apply setValue_S_changed|]. split.
    + destruct (cascade_ends s1 p) as [f Hf]. exists (S f).
      by rewrite (setValue_S_changed _ _ _ _ nd).
    + intros [|fuel] s' Hrun; [done|].
      rewrite (setValue_S_changed _ _ _ _ nd) in Hrun by done.
      fold s1 in Hrun.
      destruct (producerNotifyConsumers_notifies fuel p s1 s'
                  (incrValueVersion (with_value x nd))) as ([Hcas _] & Hall);
        [apply lookup_insert_eq|done|done|].
      split.
      * specialize (Hcas p). simpl in Hcas. rewrite lookup_insert_eq in Hcas.
        inversion Hcas as [? nd' (Hvv & Hv & _ & Hpl)|]; subst. exists nd'.
        split; [done|]. split; [done|]. split; [done|].
        simpl in Hpl. rewrite Hleaf in Hpl. by inversion Hpl.
      * intros c Hreg. apply Hall. by eapply registered_written.
Qed.

(** C10.  An exception of the mutator leaves [mutateValue] at once: the
    state is the one the mutator left, with no increment and no
    notification after it.  When the mutator returns, [valueVersion] is
    incremented and the notification is run whatever the mutator did; the
    held reference is the same as before. *)
Theorem mutateValue_throw_or_notify p f s nd :
  heap s !! p = Some nd → pipeline nd = None →
  (∀ fuel e s1,
     run fuel (f (_value nd)) s = Err e s1 → mutateValue fuel p f s = Err e s1) ∧
  (∀ fuel e, f (_value nd) = Throw e →
     mutateValue (S fuel) p f s = Err (UserError e) s) ∧
  (∀ fuel v s1 nd1,
     run fuel (f (_value nd)) s = Ok v s1 → heap s1 !! p = Some nd1 →
     let s2 := set_heap (<[p := incrValueVersion nd1]> (heap s1)) s1 in
     mutateValue fuel p f s = producerNotifyConsumers fuel p s2 ∧
     (∃ fuel', producerNotifyConsumers fuel' p s2 ≠ OutOfFuel) ∧
     ∀ s', mutateValue fuel p f s = Ok tt s' →
       (∃ nd', heap s' !! p = Some nd' ∧ _value nd' = _value nd1 ∧
          valueVersion nd' = S (valueVersion nd1)) ∧
       ∀ c, registered p c s1 →
         ∃ evs1 evs2, trace s' = trace s1 ++ evs1 ++ EvNotify c (Some p) :: evs2).
Proof.
  intros Hp Hleaf.
  assert (Hunfold : ∀ fuel, mutateValue fuel p f s =
    (call run fuel (f (_value nd)) ;;
     call modify_node incrValueVersion p ;;
     producerNotifyConsumers fuel p) s).
  { intros fuel. unfold mutateValue.
    by rewrite (bind_Ok _ _ _ _ _ (node_Ok _ _ _ Hp)), Hleaf. }
  split; [|split].
  - intros fuel e s1 Hrun. rewrite Hunfold. by apply bind_Err.
  - intros fuel e Hf. rewrite Hunfold. apply bind_Err. by rewrite Hf.
  - intros fuel v s1 nd1 Hrun Hp1 s2.
    assert (Hleaf1 : pipeline nd1 = None).
    { pose proof (preserves_final evolves _ s (ao_run _ _ (engine_evolves fuel) (f (_value nd)))
                    (evolves_refl s)) as Hev.
      fold (run fuel (f (_value nd)) s) in Hev. rewrite Hrun in Hev. simpl in Hev.
      specialize (Hev p). rewrite Hp, Hp1 in Hev.
      inversion Hev as [? ? [[_ Hg] _]|]; subst. rewrite Hleaf in Hg.
      by destruct (pipeline nd1). }
    assert (Heq : mutateValue fuel p f s = producerNotifyConsumers fuel p s2).
    { rewrite Hunfold, (bind_Ok _ _ _ _ _ Hrun).
      by rewrite (bind_Ok _ _ _ _ _ (modify_node_Ok _ _ _ _ Hp1)). }
    split; [done|]. split; [apply cascade_ends|].
    intros s' Hok. rewrite Heq in Hok.
    assert (Hw : written incrValueVersion p nd1 s1 s2) by done.
    destruct (producerNotifyConsumers_notifies fuel p s2 s' (incrValueVersion nd1))
      as ([Hcas _] & Hall); [apply lookup_insert_eq|done|done|].
    split.
    + specialize (Hcas p). simpl in Hcas. rewrite lookup_insert_eq in Hcas.
      inversion Hcas as [? nd' (Hvv & Hv & _)|]; subst. by exists nd'.
    + intros c Hreg. apply Hall. by eapply registered_written.
Qed.

(** ** notify() on a node that is computing *)

Lemma wp_and {A} (m : M A) s Q1 Q2 E1 E2 :
  wp m s Q1 E1 → wp m s Q2 E2 →
  wp m s (fun a s' => Q1 a s' ∧ Q2 a s') (fun e s' => E1 e s' ∧ E2 e s').
Proof. unfold wp. by destruct (m s). Qed.

(** [n] is clean and in the COMPUTING state. *)
Definition clean_computing (n : NodeId) (s : State) : Prop :=
  ∃ nd c, heap s !! n = Some nd ∧ pipeline nd = Some c ∧
    stale c = StaleFalse ∧ _value nd = COMPUTING.

Lemma clean_computing_same_heap n s s' :
  same_heap s s' → clean_computing n s → clean_computing n s'.
Proof. intros Hh (nd & c & Hn & ?). exists nd, c. by rewrite Hh. Qed.

Lemma clean_computing_written_ne f m nd n s s' :
  written f m nd s s' → m ≠ n → clean_computing n s → clean_computing n s'.
Proof.
  intros Hw Hne (ndn & c & Hn & ?). exists ndn, c.
  by rewrite (written_lookup_ne _ _ _ _ _ _ Hw Hne).
Qed.

Lemma clean_computing_written_consumers g m nd n s s' :
  written (with_consumers g) m nd s s' → clean_computing n s → clean_computing n s'.
Proof.
  intros Hw (ndn & c & Hn & Hc & Hst & Hv). destruct (decide (m = n)) as [->|Hne].
  - assert (ndn = nd) as -> by (destruct Hw; congruence).
    exists (with_consumers g nd), c.
    split; [by eapply written_lookup|done].
  - exists ndn, c. by rewrite (written_lookup_ne _ _ _ _ _ _ Hw Hne).
Qed.

Lemma clean_computing_written_producers g m nd n s s' :
  written (with_pipeline (with_producers g)) m nd s s' →
  clean_computing n s → clean_computing n s'.
Proof.
  intros Hw (ndn & c & Hn & Hc & Hst & Hv). destruct (decide (m = n)) as [->|Hne].
  - assert (ndn = nd) as -> by (destruct Hw; congruence).
    exists (with_pipeline (with_producers g) nd), (with_producers g c).
    split; [by eapply written_lookup|]. simpl. by rewrite Hc.
  - exists ndn, c. by rewrite (written_lookup_ne _ _ _ _ _ _ Hw Hne).
Qed.

(** A cascade that returns has not met a node that is clean and computing,
    and has left such nodes as they are. *)
Lemma trap_kept_engine fuel :
  (∀ n p s, wp (notify fuel n p) s
     (fun _ s' => ∀ m, clean_computing m s → clean_computing m s') (fun _ _ => True)) ∧
  (∀ q s, wp (producerNotifyConsumers fuel q) s
     (fun _ s' => ∀ m, clean_computing m s → clean_computing m s') (fun _ _ => True)) ∧
  (∀ q r it s, wp (notifyLoop fuel q r it) s
     (fun _ s' => ∀ m, clean_computing m s → clean_computing m s') (fun _ _ => True)).
Proof.
  apply (notify_family
    (fun n p m => ∀ s, wp m s
       (fun _ s' => ∀ m, clean_computing m s → clean_computing m s') (fun _ _ => True))
    (fun q m => ∀ s, wp m s
       (fun _ s' => ∀ m, clean_computing m s → clean_computing m s') (fun _ _ => True))
    (fun q r it m => ∀ s, wp m s
       (fun _ s' => ∀ m, clean_computing m s → clean_computing m s') (fun _ _ => True)));
    try done.
  - intros e IH n p s. unfold_bodies.
    repeat first
      [ wp_step
      | eapply wp_mono; [apply IH|intros ? ? ?; cbv beta in *..]
      | done ].
    + intros m Hm. by eapply clean_computing_same_heap.
    + intros m Hm.
      match goal with H : ∀ m, _ → _ |- _ => apply H end.
      eapply clean_computing_written_ne; [eassumption| |by eapply clean_computing_same_heap].
      intros <-. destruct Hm as (ndm & cm & Hnm & Hcm & Hstm & Hvm).
      unfold same_heap in *. simplify_eq.
      match goal with H : strictEquals _ _ = false |- _ =>
        apply strictEquals_false in H end.
      congruence.
  - intros e IH n s. unfold_bodies.
    repeat first
      [ wp_step
      | eapply wp_mono; [apply IH|intros ? ? ?; cbv beta in *..]
      | done ].
  - intros e IH1 IH3 n r it s. unfold_bodies.
    repeat first
      [ wp_step
      | eapply wp_mono; [first [apply IH1|apply IH3]|intros ? ? ?; cbv beta in *..]
      | done ].
    all: intros m Hm;
      repeat match goal with H : ∀ m, clean_computing m _ → _ |- _ => apply H; clear H end.
    all: repeat first
      [ assumption
      | eapply clean_computing_written_producers; [eassumption|]
      | eapply clean_computing_written_consumers; [eassumption|] ].
Qed.

(** The only exception of a cascade is ChangedWhileCalculating. *)
Lemma cascade_error_engine fuel :
  (∀ n p s, is_Some (heap s !! n ≫= pipeline) →
     wp (notify fuel n p) s (fun _ _ => True) (fun e _ => e = ChangedWhileCalculating)) ∧
  (∀ q s, is_Some (heap s !! q) →
     wp (producerNotifyConsumers fuel q) s
       (fun _ _ => True) (fun e _ => e = ChangedWhileCalculating)) ∧
  (∀ q r it s, is_Some (heap s !! q) →
     wp (notifyLoop fuel q r it) s
       (fun _ _ => True) (fun e _ => e = ChangedWhileCalculating)).
Proof.
  induction fuel as [|fuel (IH1 & IH2 & IH3)]; [by repeat split|].
  split; [|split].
  - intros n p s [c Hc].
    change (notify (S fuel) n p) with (notify_body (engine fuel) n p). unfold notify_body.
    repeat first [ wp_step | done ].
    + eapply wp_mono; [apply IH2|done..].
      erewrite written_lookup by eassumption. eauto.
    + exfalso. congruence.
    + exfalso. unfold same_heap in *.
      match goal with H : heap _ = heap s |- _ => rewrite H in * end. congruence.
    + exfalso. unfold same_heap in *.
      match goal with H : heap _ = heap s |- _ => rewrite H in * end.
      destruct (heap s !! n); simplify_eq/=.
  - intros q s [nd Hq].
    change (producerNotifyConsumers (S fuel) q)
      with (producerNotifyConsumers_body (engine fuel) q).
    unfold producerNotifyConsumers_body.
    repeat first [ wp_step | done | congruence ].
    eapply wp_mono; [apply IH3|done..]. eauto.
  - intros q r it s [nd Hq].
    change (notifyLoop (S fuel) q r it) with (notifyLoop_body (engine fuel) q r it).
    unfold notifyLoop_body.
    wp_step. wp_step; [|congruence]. wp_step; [|done]. destruct p as [[c0 tv0] it'].
    wp_step.
    eapply wp_mono;
      [apply (wp_and _ _ _ (fun _ _ => True) _ (fun e _ => e = ChangedWhileCalculating)
                (notifyVisit_cascade fuel q r c0 tv0 s))| |].
    + unfold notifyVisit. wp_step. wp_step.
      destruct (heap s !! c0 ≫= pipeline) as [co|] eqn:Hco.
      * destruct (negb (bool_decide (trackingVersion co = tv0))).
        -- repeat first [ wp_step | done | congruence ].
           exfalso. destruct (heap s !! c0) eqn:Hc0; [|done].
           match goal with
           | Hw : written _ q _ s ?s1, Hn : heap ?s1 !! c0 = None |- _ =>
               destruct (decide (q = c0)) as [<-|Hne];
                 [rewrite (written_lookup _ _ _ _ _ Hw) in Hn
                 |rewrite (written_lookup_ne _ _ _ _ _ _ Hw Hne) in Hn]; congruence
           end.
        -- apply IH1. eauto.
      * repeat first [ wp_step | done | congruence ].
    + intros [] s1 [[Hcas _] _]. cbv beta.
      eapply wp_mono; [apply IH3|done..].
      specialize (Hcas q). rewrite Hq in Hcas. inversion Hcas; subst. eauto.
    + by intros e s1 [_ ->].
Qed.

Lemma notifyVisit_error fuel q cs c tv s :
  is_Some (heap s !! q) →
  wp (notifyVisit (engine fuel) q cs c tv) s
    (fun _ _ => True) (fun e _ => e = ChangedWhileCalculating).
Proof.
  intros [nd Hq]. destruct (cascade_error_engine fuel) as (IH1 & _).
  unfold notifyVisit. wp_step. wp_step.
  destruct (heap s !! c ≫= pipeline) as [co|] eqn:Hco.
  - destruct (negb (bool_decide (trackingVersion co = tv))).
    + repeat first [ wp_step | done | congruence ].
      exfalso. destruct (heap s !! c) eqn:Hc0; [|done].
      match goal with
      | Hw : written _ q _ s ?s1, Hn : heap ?s1 !! c = None |- _ =>
          destruct (decide (q = c)) as [<-|Hne];
            [rewrite (written_lookup _ _ _ _ _ Hw) in Hn
            |rewrite (written_lookup_ne _ _ _ _ _ _ Hw Hne) in Hn]; congruence
      end.
    + apply IH1. eauto.
  - repeat first [ wp_step | done | congruence ].
Qed.

Lemma notifyVisit_trap_kept fuel q cs c tv s :
  wp (notifyVisit (engine fuel) q cs c tv) s
    (fun _ s' => ∀ m, clean_computing m s → clean_computing m s') (fun _ _ => True).
Proof.
  destruct (trap_kept_engine fuel) as (IH1 & _). unfold notifyVisit.
  repeat first
    [ wp_step
    | eapply wp_mono; [apply IH1|intros ? ? ?; cbv beta in *..]
    | done ].
  all: intros m Hm;
    repeat match goal with H : ∀ m, clean_computing m _ → _ |- _ => apply H; clear H end.
  all: repeat first
    [ assumption
    | eapply clean_computing_written_producers; [eassumption|]
    | eapply clean_computing_written_consumers; [eassumption|] ].
Qed.

Lemma notify_stale fuel n p s nd c :
  heap s !! n = Some nd → pipeline nd = Some c → stale c ≠ StaleFalse →
  notify (S fuel) n p s =
    Ok tt (BuildState (heap s) (activeConsumer s) (trace s ++ [EvNotify n p])).
Proof.
  intros Hn Hc Hst.
  change (notify (S fuel) n p s) with (notify_body (engine fuel) n p s).
  unfold notify_body.
  set (s0 := BuildState (heap s) (activeConsumer s) (trace s ++ [EvNotify n p])).
  rewrite (bind_Ok _ _ s tt s0) by done.
  rewrite (bind_Ok _ _ _ _ _ (node_Ok n s0 nd Hn)).
  rewrite (bind_Ok _ _ _ _ _ (consumer_Ok n s0 nd c Hn Hc)).
  by rewrite bool_decide_eq_false_2.
Qed.

Lemma notify_trap fuel n p s :
  clean_computing n s →
  notify (S fuel) n p s =
    Err ChangedWhileCalculating
      (BuildState (heap s) (activeConsumer s) (trace s ++ [EvNotify n p])).
Proof.
  intros (nd & c & Hn & Hc & Hst & Hv).
  change (notify (S fuel) n p s) with (notify_body (engine fuel) n p s).
  unfold notify_body.
  set (s0 := BuildState (heap s) (activeConsumer s) (trace s ++ [EvNotify n p])).
  rewrite (bind_Ok _ _ s tt s0) by done.
  rewrite (bind_Ok _ _ _ _ _ (node_Ok n s0 nd Hn)).
  rewrite (bind_Ok _ _ _ _ _ (consumer_Ok n s0 nd c Hn Hc)).
  rewrite bool_decide_eq_true_2 by done. simpl.
  rewrite Hv. done.
Qed.

(** The loop of a leaf fails when it has yet to reach a registered
    consumer that is clean and computing. *)
Lemma notifyLoop_trap fuel : ∀ p cs it s nd n tv,
  heap s !! p = Some nd → pipeline nd = None →
  (n, tv) ∈ EdgeMap.remaining it (consumers nd) → live n tv s →
  clean_computing n s →
  notifyLoop fuel p cs it s ≠ OutOfFuel →
  ∃ s', notifyLoop fuel p cs it s = Err ChangedWhileCalculating s'.
Proof.
  induction fuel as [|fuel IH]; intros p cs it s nd n tv Hp Hleaf Hin Hlive Hcc Hne;
    [done|].
  change (notifyLoop (S fuel) p cs it s) with (notifyLoop_body (engine fuel) p cs it s) in *.
  unfold notifyLoop_body in *.
  rewrite (bind_Ok _ _ _ _ _ (node_Ok _ _ _ Hp)) in *.
  destruct (EdgeMap.iter_next it (consumers nd)) as [[[c0 tv0] it']|] eqn:Hnext.
  2:{ rewrite (iter_next_None _ _ Hnext) in Hin. by apply elem_of_nil in Hin. }
  pose proof (notifyVisit_leaf fuel p cs c0 tv0 s nd it it' Hp Hleaf Hnext) as Hleafv.
  pose proof (notifyVisit_error fuel p cs c0 tv0 s (ltac:(eauto))) as Herr.
  pose proof (notifyVisit_trap_kept fuel p cs c0 tv0 s) as Htrap.
  unfold wp in Hleafv, Herr, Htrap.
  destruct (notifyVisit (engine fuel) p cs c0 tv0 s) as [[] s1|e s1|] eqn:Hvisit.
  - rewrite (bind_Ok _ _ _ _ _ Hvisit) in *.
    destruct Hleafv as (Hcas & (nd1 & Hp1 & Hleaf1 & Hrem) & Hev).
    rewrite (iter_next_Some _ _ _ _ Hnext) in Hin.
    apply elem_of_cons in Hin as [[= -> ->]|Hin].
    + exfalso. unfold notifyVisit, bind, deref in Hvisit.
      destruct Hlive as (ndc & co & Hc & Hpc & Htv).
      rewrite Hc in Hvisit. simpl in Hvisit. rewrite Hpc in Hvisit.
      rewrite bool_decide_eq_true_2 in Hvisit by done. simpl in Hvisit.
      destruct fuel as [|fuel]; [done|].
      fold (notify (S fuel) c0 (Some p)) in Hvisit.
      by rewrite notify_trap in Hvisit.
    + apply (IH p cs it' s1 nd1 n tv); try done.
      * by rewrite Hrem.
      * by eapply cascade_live.
      * by apply Htrap.
  - subst e. rewrite (bind_Err _ _ _ _ _ Hvisit). eauto.
  - by rewrite (bind_OutOfFuel _ _ _ Hvisit) in Hne.
Qed.

Lemma setValue_trap p x s nd n :
  heap s !! p = Some nd → pipeline nd = None → x ≠ _value nd →
  registered p n s → clean_computing n s →
  ∃ fuel0, ∀ fuel, fuel0 ≤ fuel →
    ∃ s', setValue fuel p x s = Err ChangedWhileCalculating s'.
Proof.
  intros Hp Hleaf Hx Hreg Hcc.
  set (s1 := set_heap (<[p := incrValueVersion (with_value x nd)]> (heap s)) s).
  assert (Hw : written (fun nd => incrValueVersion (with_value x nd)) p nd s s1) by done.
  destruct (cascade_ends s1 p) as [f Hf].
  assert (Hreg1 : registered p n s1) by (by eapply registered_written).
  assert (Hcc1 : clean_computing n s1).
  { eapply clean_computing_written_ne; [exact Hw| |done].
    intros <-. destruct Hcc as (? & ? & ? & ? & _). congruence. }
  assert (∃ s', producerNotifyConsumers f p s1 = Err ChangedWhileCalculating s')
    as [s' Hs'].
  { destruct f as [|f]; [done|].
    change (producerNotifyConsumers (S f) p s1)
      with (producerNotifyConsumers_body (engine f) p s1) in *.
    unfold producerNotifyConsumers_body in *.
    rewrite (bind_Ok _ _ _ _ _ (node_Ok _ _ _ (written_lookup _ _ _ _ _ Hw))) in *.
    destruct Hreg1 as (nd1 & tv & Hp1 & Hin & Hlive).
    rewrite (written_lookup _ _ _ _ _ Hw) in Hp1. injection Hp1 as <-.
    eapply (notifyLoop_trap f p _ _ s1 (incrValueVersion (with_value x nd)) n tv);
      try done.
    - by apply (written_lookup _ _ _ _ _ Hw).
    - by rewrite remaining_start. }
  exists (S f). intros fuel Hle. destruct fuel as [|fuel]; [lia|].
  exists s'. rewrite (setValue_S_changed _ _ _ _ nd) by done. fold s1.
  rewrite (producerNotifyConsumers_mono f fuel) by (lia || congruence). done.
Qed.

Lemma beginRecompute_Ok n s nd c :
  heap s !! n = Some nd → pipeline nd = Some c → _value nd ≠ COMPUTING →
  beginRecompute n s =
    Ok (_value nd, activeConsumer s)
       (BuildState (<[n := with_pipeline incrTrackingVersion (with_value COMPUTING nd)]> (heap s))
                   (Some n) (trace s)).
Proof.
  intros Hn Hc Hv. unfold beginRecompute.
  rewrite (bind_Ok _ _ _ _ _ (node_Ok _ _ _ Hn)).
  rewrite (bind_Ok _ _ _ _ _ (consumer_Ok _ _ _ _ Hn Hc)).
  apply strictEquals_false in Hv. rewrite Hv.
  rewrite (bind_Ok _ _ _ _ _ (modify_node_Ok _ _ _ _ Hn)).
  rewrite (bind_Ok _ _ _ _ _ (modify_node_Ok _ n _ (with_value COMPUTING nd)
                                 (lookup_insert_eq _ _ _))).
  unfold bind, setActiveConsumer, ret. simpl. by rewrite insert_insert_eq.
Qed.

(** A read of a [Pipeline] that has no value yet goes to [recomputeValue]. *)
Lemma check_unset fuel n s nd c :
  heap s !! n = Some nd → pipeline nd = Some c → stale c ≠ StaleFalse →
  _value nd = UNSET →
  checkForActuallyChangedValue (S fuel) n s = recomputeValue fuel n s.
Proof.
  intros Hn Hc Hst Hv.
  change (checkForActuallyChangedValue (S fuel) n s)
    with (checkForActuallyChangedValue_body (engine fuel) n s).
  unfold checkForActuallyChangedValue_body.
  rewrite (bind_Ok _ _ _ _ _ (node_Ok _ _ _ Hn)), Hc.
  rewrite bool_decide_eq_false_2 by done. by rewrite Hv.
Qed.

Lemma value_check_Err fuel n s nd c e s' :
  heap s !! n = Some nd → pipeline nd = Some c →
  checkForActuallyChangedValue fuel n
    (BuildState (heap s) (activeConsumer s) (trace s ++ [EvRead n])) = Err e s' →
  value (S fuel) n s = Err e s'.
Proof.
  intros Hn Hc Hcheck.
  change (value (S fuel) n s) with (value_body (engine fuel) n s).
  unfold value_body.
  set (s0 := BuildState (heap s) (activeConsumer s) (trace s ++ [EvRead n])).
  rewrite (bind_Ok _ _ s tt s0) by done.
  rewrite (bind_Ok _ _ _ _ _ (node_Ok n s0 nd Hn)), Hc.
  by apply bind_Err.
Qed.

(** C6, as amended.  [notify()] on a node in the COMPUTING state returns
    at once when the node is already stale, and fails with
    ChangedWhileCalculating when the node is clean.  The failure leaves
    the [setValue] that delivered it and the read whose [calculate()] made
    that [setValue], with the ambient active consumer restored. *)
Theorem notify_while_computing n s nd c :
  heap s !! n = Some nd → pipeline nd = Some c → _value nd = COMPUTING →
  (stale c ≠ StaleFalse → ∀ fuel notifier,
     notify (S fuel) n notifier s =
       Ok tt (BuildState (heap s) (activeConsumer s) (trace s ++ [EvNotify n notifier]))) ∧
  (stale c = StaleFalse →
     (∀ fuel notifier,
        notify (S fuel) n notifier s =
          Err ChangedWhileCalculating
            (BuildState (heap s) (activeConsumer s) (trace s ++ [EvNotify n notifier]))) ∧
     (∀ p ndp x,
        heap s !! p = Some ndp → pipeline ndp = None → x ≠ _value ndp →
        registered p n s →
        (∃ fuel0, ∀ fuel, fuel0 ≤ fuel →
           ∃ s', setValue fuel p x s = Err ChangedWhileCalculating s') ∧
        (∀ m ndm cm k,
           heap s !! m = Some ndm → pipeline ndm = Some cm →
           stale cm ≠ StaleFalse → _value ndm = UNSET →
           calculate cm = SetValue p x k →
           ∃ fuel0, ∀ fuel, fuel0 ≤ fuel →
             ∃ s', value fuel m s = Err ChangedWhileCalculating s' ∧
                   activeConsumer s' = activeConsumer s))).
Proof.
  intros Hn Hc Hv. split.
  - intros Hst fuel notifier. by eapply notify_stale.
  - intros Hst.
    assert (Hcc : clean_computing n s) by (by exists nd, c).
    split; [intros; by apply notify_trap|].
    intros p ndp x Hp Hleaf Hx Hreg.
    split; [by eapply setValue_trap|].
    intros m ndm cm k Hm Hcm Hstm Hvm Hcalc.
    assert (Hmn : m ≠ n) by (intros ->; congruence).
    assert (Hmp : m ≠ p) by (intros ->; congruence).
    set (ndm1 := with_pipeline incrTrackingVersion (with_value COMPUTING ndm)).
    set (s0 := BuildState (heap s) (activeConsumer s) (trace s ++ [EvRead m])).
    set (s1 := BuildState (<[m := ndm1]> (heap s0)) (Some m) (trace s0)).
    set (s2 := BuildState (heap s1) (activeConsumer s1) (trace s1 ++ [EvCalculate m])).
    assert (Hbegin : beginRecompute m s0 = Ok (UNSET, activeConsumer s0) s1).
    { rewrite <- Hvm. apply (beginRecompute_Ok m s0 ndm cm); [done|done|congruence]. }
    destruct (setValue_trap p x s2 ndp n) as [f0 Hf0]; try done.
    { simpl. by rewrite lookup_insert_ne. }
    { destruct Hreg as (ndp' & tv & Hp' & Hin & ndn & co & Hn' & Hco & Htv).
      exists ndp', tv. simpl. rewrite lookup_insert_ne by done. split; [done|].
      split; [done|]. exists ndn, co. simpl. by rewrite lookup_insert_ne. }
    { exists nd, c. simpl. by rewrite lookup_insert_ne. }
    exists (4 + f0). intros fuel Hle.
    destruct fuel as [|[|[|[|fuel]]]]; try lia.
    destruct (Hf0 fuel) as [s' Hs']; [lia|].
    assert (Hcall : calculateCall (S fuel) m s1 = Err ChangedWhileCalculating s').
    { unfold calculateCall, invokeCalculate.
      rewrite (bind_Ok _ _ _ _ _ (consumer_Ok m s1 ndm1 (incrTrackingVersion cm)
                 (lookup_insert_eq _ _ _) (ltac:(by simpl; rewrite Hcm)))).
      rewrite (bind_Ok _ _ s1 tt s2) by done. simpl. rewrite Hcalc.
      change (r_run (engine (S fuel)) (SetValue p x k) s2)
        with (run_body (engine fuel) (SetValue p x k) s2).
      unfold run_body. by apply bind_Err. }
    exists (restoreActiveConsumer (activeConsumer s) s'). split; [|done].
    eapply value_check_Err; [done..|]. fold s0.
    rewrite (check_unset _ m s0 ndm cm) by done.
    rewrite (recomputeValue_S (S fuel) m s0 _ s1 Hbegin). by rewrite Hcall.
Qed.

(** C6 as stated fails: during its own [calculate()] a node is COMPUTING
    and still stale, and a [notify()] delivered then returns.  Here the
    node reads a leaf and sets it; the read succeeds. *)
Lemma notify_during_calculate_returns :
  let s := initState [newValuePipeline (VNum 0);
                      newPipeline (Read 0 (fun x => SetValue 0 (VNum 1) (Ret x)))] in
  ∃ s', exec 10 (OpRead 1) s = Ok (Some (VNum 0)) s' ∧
    trace s' = [EvRead 1; EvCalculate 1; EvRead 0; EvNotify 1 (Some 0)].
Proof. eexists. split; reflexivity. Qed.

(** ** A node that reads its own value *)

(** [n] is in the COMPUTING state and stale: its [calculate()] is running,
    called by a [checkForActuallyChangedValue] that found it stale. *)
Definition stale_computing (n : NodeId) (s : State) : Prop :=
  ∃ nd c, heap s !! n = Some nd ∧ pipeline nd = Some c ∧
    _value nd = COMPUTING ∧ stale c ≠ StaleFalse.

Lemma evolves_stale_computing n s s' :
  evolves s s' → stale_computing n s → stale_computing n s'.
Proof.
  intros H (nd & c & Hn & Hc & Hv & Hst). specialize (H n). rewrite Hn in H.
  inversion H as [? nd' [_ Hf]|]; subst.
  destruct (Hf c Hc Hv) as (Hv' & _ & c' & Hc' & _ & Hst').
  exists nd', c'. repeat split; congruence.
Qed.

Lemma recompute_cycle fuel n s :
  stale_computing n s → recomputeValue (S fuel) n s = Err Cycle s.
Proof.
  intros (nd & c & Hn & Hc & Hv & Hst).
  change (recomputeValue (S fuel) n s) with (recomputeValue_body (engine fuel) n s).
  unfold recomputeValue_body. apply bind_Err. unfold beginRecompute.
  rewrite (bind_Ok _ _ _ _ _ (node_Ok _ _ _ Hn)).
  rewrite (bind_Ok _ _ _ _ _ (consumer_Ok _ _ _ _ Hn Hc)).
  by rewrite Hv.
Qed.

Lemma check_cycle fuel n s :
  stale_computing n s →
  checkForActuallyChangedValue (S (S fuel)) n s = Err Cycle s.
Proof.
  intros Hsc. pose proof Hsc as (nd & c & Hn & Hc & Hv & Hst).
  change (checkForActuallyChangedValue (S (S fuel)) n s)
    with (checkForActuallyChangedValue_body (engine (S fuel)) n s).
  unfold checkForActuallyChangedValue_body.
  rewrite (bind_Ok _ _ _ _ _ (node_Ok _ _ _ Hn)), Hc.
  rewrite bool_decide_eq_false_2 by done. rewrite Hv. simpl.
  by apply recompute_cycle.
Qed.



















(** Reading a leaf returns the value it holds, in any state. *)
Lemma value_leaf fuel l s nd :
  heap s !! l = Some nd → pipeline nd = None → active_ok s →
  ∃ s', value (S fuel) l s = Ok (_value nd) s' ∧ edges_only s s' ∧
    trace s' = trace s ++ [EvRead l].
Proof.
  intros Hl Hleaf Hok.
  change (value (S fuel) l s) with (value_body (engine fuel) l s).
  unfold value_body.
  set (s0 := BuildState (heap s) (activeConsumer s) (trace s ++ [EvRead l])).
  rewrite (bind_Ok _ _ s tt s0) by done.
  rewrite (bind_Ok _ _ _ _ _ (node_Ok l s0 nd Hl)), Hleaf.
  destruct (producerAccessed_Ok l s0 nd Hl Hok) as (s' & Hpa & He & Ht).
  rewrite (bind_Ok _ _ _ _ _ Hpa). exists s'. split; [done|]. split; [|done].
  eapply edges_only_trans; [|exact He]. by apply edges_only_same_heap.
Qed.

Lemma recomputeValue_mono f1 f2 n s :
  f1 ≤ f2 → recomputeValue f1 n s ≠ OutOfFuel →
  recomputeValue f2 n s = recomputeValue f1 n s.
Proof. intros Hle. apply (le_recompute _ _ (engine_mono _ _ Hle)). Qed.

Lemma value_mono f1 f2 n s :
  f1 ≤ f2 → value f1 n s ≠ OutOfFuel → value f2 n s = value f1 n s.
Proof. intros Hle. apply (le_value _ _ (engine_mono _ _ Hle)). Qed.

(** ** The way of a read back to the node it computes *)

(** The calls of the reading side: the getter, the check, the
    recomputation, user code, and the three functions of the poll. *)
Inductive Frame : Type :=
  | FValue (p : NodeId)
  | FCheck (p : NodeId)
  | FRecompute (p : NodeId)
  | FRun (c : Calc)
  | FPoll (p : NodeId) (notifier : Stale)
  | FPollLoop (p : NodeId) (ps : EdgeMap.MapRef) (skip : option NodeId)
      (it : EdgeMap.Iter NodeId nat)
  | FPollStatus (p : NodeId) (lastSeen : option nat).

(** The call [x], made in [s] with [fuel], throws [e] in [s']. *)
Definition throws (fuel : nat) (x : Frame) (s : State) (e : Error) (s' : State) : Prop :=
  match x with
  | FValue p => value fuel p s = Err e s'
  | FCheck p => checkForActuallyChangedValue fuel p s = Err e s'
  | FRecompute p => recomputeValue fuel p s = Err e s'
  | FRun c => run fuel c s = Err e s'
  | FPoll p st => consumerPollValueStatus fuel p st s = Err e s'
  | FPollLoop p ps sk it => pollLoop fuel p ps sk it s = Err e s'
  | FPollStatus p v => producerPollStatus fuel p v s = Err e s'
  end.

(** The state once [ev] has been counted. *)
Definition emitted (ev : Event) (s : State) : State :=
  BuildState (heap s) (activeConsumer s) (trace s ++ [ev]).

(** [calls (x, s) (y, s')]: the call [x], made in [s], makes the call [y]
    in [s'], every call it made before having returned.  One rule for
    each place where a function of the reading side calls another. *)
Inductive calls : Frame * State → Frame * State → Prop :=
  (* get value(): this.checkForActuallyChangedValue() *)
  | calls_value_check p s nd c :
      heap s !! p = Some nd → pipeline nd = Some c →
      calls (FValue p, s) (FCheck p, emitted (EvRead p) s)
  (* checkForActuallyChangedValue(): consumerPollValueStatus(this, this.stale) *)
  | calls_check_poll p s nd c :
      heap s !! p = Some nd → pipeline nd = Some c → stale c ≠ StaleFalse →
      _value nd ≠ UNSET → _value nd ≠ COMPUTING →
      calls (FCheck p, s) (FPoll p (stale c), s)
  (* ... this.recomputeValue(), the poll having reported a change *)
  | calls_check_changed p s nd c fuel s' :
      heap s !! p = Some nd → pipeline nd = Some c → stale c ≠ StaleFalse →
      _value nd ≠ UNSET → _value nd ≠ COMPUTING →
      consumerPollValueStatus fuel p (stale c) s = Ok true s' →
      calls (FCheck p, s) (FRecompute p, s')
  (* ... this.recomputeValue(), there being no value to keep *)
  | calls_check_recompute p s nd c :
      heap s !! p = Some nd → pipeline nd = Some c → stale c ≠ StaleFalse →
      _value nd = UNSET ∨ _value nd = COMPUTING →
      calls (FCheck p, s) (FRecompute p, s)
  (* recomputeValue(): this.calculate() *)
  | calls_recompute_calculate p s b s1 c :
      beginRecompute p s = Ok b s1 → heap s1 !! p ≫= pipeline = Some c →
      calls (FRecompute p, s) (FRun (calculate c), emitted (EvCalculate p) s1)
  (* user code: q.value *)
  | calls_run_value q k s :
      calls (FRun (Read q k), s) (FValue q, s)
  (* user code: what follows a read that returned *)
  | calls_run_read q k s fuel v s' :
      value fuel q s = Ok v s' →
      calls (FRun (Read q k), s) (FRun (k v), s')
  (* user code: what follows a setValue that returned *)
  | calls_run_set q x k s fuel s' :
      setValue fuel q x s = Ok tt s' →
      calls (FRun (SetValue q x k), s) (FRun k, s')
  (* consumerPollValueStatus(): producerPollStatus(notifier, valueVersion) *)
  | calls_poll_notifier p q s c qn :
      heap s !! p ≫= pipeline = Some c → heap s !! q = Some qn →
      EdgeMap.get (consumers qn) p = Some (trackingVersion c) →
      calls (FPoll p (StaleBy q), s)
        (FPollStatus q (EdgeMap.get_at (EdgeMap.current (producers c)) (producers c) q), s)
  (* ... the loop over the producers, the notifier having been dealt with *)
  | calls_poll_others p q s c qn fuel s' c' :
      heap s !! p ≫= pipeline = Some c → heap s !! q = Some qn →
      (if bool_decide (EdgeMap.get (consumers qn) p = Some (trackingVersion c))
       then producerPollStatus fuel q
              (EdgeMap.get_at (EdgeMap.current (producers c)) (producers c) q)
       else ret false) s = Ok false s' →
      heap s' !! p ≫= pipeline = Some c' →
      EdgeMap.size_at (EdgeMap.current (producers c)) (producers c') ≠ 1%Z →
      calls (FPoll p (StaleBy q), s)
        (FPollLoop p (EdgeMap.current (producers c)) (Some q)
           (EdgeMap.iter_start (EdgeMap.current (producers c)) (producers c')), s')
  (* ... the loop over the producers, there being no notifier *)
  | calls_poll_loop p st s c :
      heap s !! p ≫= pipeline = Some c → (∀ q, st ≠ StaleBy q) →
      calls (FPoll p st, s)
        (FPollLoop p (EdgeMap.current (producers c)) None
           (EdgeMap.iter_start (EdgeMap.current (producers c)) (producers c)), s)
  (* the loop: producerPollStatus(producer, valueVersion) *)
  | calls_loop_status p ps sk it s c q ls it' qn :
      heap s !! p ≫= pipeline = Some c →
      EdgeMap.iter_next it (producers c) = Some ((q, ls), it') →
      sk ≠ Some q → heap s !! q = Some qn →
      EdgeMap.get (consumers qn) p = Some (trackingVersion c) →
      calls (FPollLoop p ps sk it, s) (FPollStatus q (Some ls), s)
  (* the loop: its next turn *)
  | calls_loop_next p ps sk it s c q ls it' fuel s' :
      heap s !! p ≫= pipeline = Some c →
      EdgeMap.iter_next it (producers c) = Some ((q, ls), it') →
      pollVisit (engine fuel) p ps sk q ls s = Ok false s' →
      calls (FPollLoop p ps sk it, s) (FPollLoop p ps sk it', s')
  (* producerPollStatus(): producer.checkForActuallyChangedValue() *)
  | calls_status_check q v s qn :
      heap s !! q = Some qn → Some (valueVersion qn) = v →
      calls (FPollStatus q v, s) (FCheck q, s).

(** [n] is a stale [Pipeline] in [s]. *)
Definition is_stale (n : NodeId) (s : State) : Prop :=
  ∃ nd c, heap s !! n = Some nd ∧ pipeline nd = Some c ∧ stale c ≠ StaleFalse.

(** The read of [n] in [s] comes to recompute [n], found stale, and that
    recomputation comes, through [calculate()] and the calls it makes, to
    call the getter of [n] or its [checkForActuallyChangedValue]. *)
Definition reads_itself (n : NodeId) (s : State) : Prop :=
  ∃ s0 back s2,
    rtc calls (FValue n, s) (FRecompute n, s0) ∧ is_stale n s0 ∧
    rtc calls (FRecompute n, s0) (back, s2) ∧
    (back = FValue n ∨ back = FCheck n).

(** *** User code that catches *)

(** [try { m } catch { return fallback }] *)
Definition catching {A} (m : M A) (fallback : A) : M A := fun s =>
  match m s with
  | Err _ s' => Ok fallback s'
  | r => r
  end.

(** [recomputeValue] of a node whose [calculate()] has its code in a
    [try] with the handler [return fallback]. *)
Definition recomputeValue_catching (self : Engine) (fallback : JSVal) (n : NodeId) : M unit :=
  b <- beginRecompute n ;;
  newValue <- finally (catching (invokeCalculate self n) fallback)
                (restoreActiveConsumer b.2) ;;
  endRecompute n b.1 newValue.

(** The engine over such nodes. *)
Fixpoint engine_catching (fallback : JSVal) (fuel : nat) : Engine :=
  match fuel with
  | 0 => noFuel
  | S f =>
      let self := engine_catching fallback f in
      BuildEngine (value_body self) (checkForActuallyChangedValue_body self)
        (recomputeValue_catching self fallback) (run_body self) (notify_body self)
        (producerNotifyConsumers_body self) (notifyLoop_body self)
        (consumerPollValueStatus_body self) (pollLoop_body self)
        (producerPollStatus_body self) (setValue_body self)
  end.

(** A node that reads itself. *)
Definition selfish : list Node := [newPipeline (Read 0 Ret)].

Lemma check_mono f1 f2 n s :
  f1 ≤ f2 → checkForActuallyChangedValue f1 n s ≠ OutOfFuel →
  checkForActuallyChangedValue f2 n s = checkForActuallyChangedValue f1 n s.
Proof. intros Hle. apply (le_check _ _ (engine_mono _ _ Hle)). Qed.

Lemma run_mono f1 f2 c s :
  f1 ≤ f2 → run f1 c s ≠ OutOfFuel → run f2 c s = run f1 c s.
Proof. intros Hle. apply (le_run _ _ (engine_mono _ _ Hle)). Qed.

Lemma poll_mono f1 f2 n st s :
  f1 ≤ f2 → consumerPollValueStatus f1 n st s ≠ OutOfFuel →
  consumerPollValueStatus f2 n st s = consumerPollValueStatus f1 n st s.
Proof. intros Hle. apply (le_poll _ _ (engine_mono _ _ Hle)). Qed.

Lemma pollLoop_mono f1 f2 n ps sk it s :
  f1 ≤ f2 → pollLoop f1 n ps sk it s ≠ OutOfFuel →
  pollLoop f2 n ps sk it s = pollLoop f1 n ps sk it s.
Proof. intros Hle. apply (le_pollLoop _ _ (engine_mono _ _ Hle)). Qed.

Lemma pollStatus_mono f1 f2 n v s :
  f1 ≤ f2 → producerPollStatus f1 n v s ≠ OutOfFuel →
  producerPollStatus f2 n v s = producerPollStatus f1 n v s.
Proof. intros Hle. apply (le_pollStatus _ _ (engine_mono _ _ Hle)). Qed.

Lemma setValue_mono f1 f2 n x s :
  f1 ≤ f2 → setValue f1 n x s ≠ OutOfFuel → setValue f2 n x s = setValue f1 n x s.
Proof. intros Hle. apply (le_setValue _ _ (engine_mono _ _ Hle)). Qed.

Lemma pollVisit_mono f1 f2 n ps sk q ls s :
  f1 ≤ f2 → pollVisit (engine f1) n ps sk q ls s ≠ OutOfFuel →
  pollVisit (engine f2) n ps sk q ls s = pollVisit (engine f1) n ps sk q ls s.
Proof.
  intros Hle. pose proof (engine_mono _ _ Hle) as H.
  assert (Hr : refines (pollVisit (engine f1) n ps sk q ls) (pollVisit (engine f2) n ps sk q ls)).
  { unfold pollVisit. refines_tac. }
  apply Hr.
Qed.

(** More fuel leaves an exception as it is. *)
Lemma throws_mono f1 f2 x s e s' : f1 ≤ f2 → throws f1 x s e s' → throws f2 x s e s'.
Proof.
  intros Hle. destruct x; simpl; intros H.
  - rewrite (value_mono f1 f2) by (done || congruence). done.
  - rewrite (check_mono f1 f2) by (done || congruence). done.
  - rewrite (recomputeValue_mono f1 f2) by (done || congruence). done.
  - rewrite (run_mono f1 f2) by (done || congruence). done.
  - rewrite (poll_mono f1 f2) by (done || congruence). done.
  - rewrite (pollLoop_mono f1 f2) by (done || congruence). done.
  - rewrite (pollStatus_mono f1 f2) by (done || congruence). done.
Qed.

Lemma consumer_Ok' n s c : heap s !! n ≫= pipeline = Some c → consumer n s = Ok c s.
Proof. unfold consumer. by intros ->. Qed.

Lemma has_value_test v :
  v ≠ UNSET → v ≠ COMPUTING →
  negb (strictEquals v UNSET) && negb (strictEquals v COMPUTING) = true.
Proof.
  intros H1 H2. apply strictEquals_false in H1, H2. by rewrite H1, H2.
Qed.

Lemma no_value_test v :
  v = UNSET ∨ v = COMPUTING →
  negb (strictEquals v UNSET) && negb (strictEquals v COMPUTING) = false.
Proof. by intros [-> | ->]. Qed.

(** An exception of the call made leaves the caller: none of the
    functions of the reading side catches. *)
Lemma calls_throws_pair a b :
  calls a b → ∀ f e s2, throws f b.1 b.2 e s2 → ∃ f' s3, throws f' a.1 a.2 e s3.
Proof.
  intros Hcalls.
  destruct Hcalls as
    [ p s nd c Hn Hc
    | p s nd c Hn Hc Hst Hu Hcomp
    | p s nd c fuel s' Hn Hc Hst Hu Hcomp Hpoll
    | p s nd c Hn Hc Hst Hv
    | p s b s1 c Hb Hc
    | q k s
    | q k s fuel v s' Hv
    | q x k s fuel s' Hv
    | p q s c qn Hc Hq Hlive
    | p q s c qn fuel s' c' Hc Hq Hch Hc' Hsz
    | p st s c Hc Hst
    | p ps sk it s c q ls it' qn Hc Hnext Hsk Hq Hlive
    | p ps sk it s c q ls it' fuel s' Hc Hnext Hv
    | q v s qn Hq Hv ];
    simpl; intros f e s2 Hthrow.
  - (* value: check *)
    exists (S f), s2. by apply (value_check_Err f p s nd c).
  - (* check: poll *)
    exists (S f), s2.
    change (checkForActuallyChangedValue (S f) p s)
      with (checkForActuallyChangedValue_body (engine f) p s).
    unfold checkForActuallyChangedValue_body.
    rewrite (bind_Ok _ _ _ _ _ (node_Ok _ _ _ Hn)), Hc.
    rewrite bool_decide_eq_false_2 by done. rewrite has_value_test by done.
    by apply bind_Err.
  - (* check: recompute after the poll *)
    set (F := Nat.max f fuel).
    exists (S F), s2.
    change (checkForActuallyChangedValue (S F) p s)
      with (checkForActuallyChangedValue_body (engine F) p s).
    unfold checkForActuallyChangedValue_body.
    rewrite (bind_Ok _ _ _ _ _ (node_Ok _ _ _ Hn)), Hc.
    rewrite bool_decide_eq_false_2 by done. rewrite has_value_test by done.
    assert (Hpoll' : consumerPollValueStatus F p (stale c) s = Ok true s').
    { rewrite (poll_mono fuel F) by (lia || congruence). done. }
    fold (consumerPollValueStatus F). rewrite (bind_Ok _ _ _ _ _ Hpoll'). simpl.
    fold (recomputeValue F).
    rewrite (recomputeValue_mono f F) by (lia || congruence). done.
  - (* check: recompute *)
    exists (S f), s2.
    change (checkForActuallyChangedValue (S f) p s)
      with (checkForActuallyChangedValue_body (engine f) p s).
    unfold checkForActuallyChangedValue_body.
    rewrite (bind_Ok _ _ _ _ _ (node_Ok _ _ _ Hn)), Hc.
    rewrite bool_decide_eq_false_2 by done. rewrite no_value_test by done. done.
  - (* recompute: calculate *)
    exists (S f), (restoreActiveConsumer b.2 s2).
    rewrite (recomputeValue_S f p s b s1) by done.
    unfold calculateCall, invokeCalculate.
    rewrite (bind_Ok _ _ _ _ _ (consumer_Ok' _ _ _ Hc)).
    rewrite (bind_Ok _ _ s1 tt (emitted (EvCalculate p) s1)) by done.
    fold (run f). by rewrite Hthrow.
  - (* run: the getter *)
    exists (S f), s2.
    change (run (S f) (Read q k) s) with (run_body (engine f) (Read q k) s).
    simpl. by apply bind_Err.
  - (* run: after a read *)
    set (F := Nat.max f fuel).
    exists (S F), s2.
    change (run (S F) (Read q k) s) with (run_body (engine F) (Read q k) s).
    simpl. fold (value F).
    assert (Hv' : value F q s = Ok v s').
    { rewrite (value_mono fuel F) by (lia || congruence). done. }
    rewrite (bind_Ok _ _ _ _ _ Hv'). fold (run F).
    rewrite (run_mono f F) by (lia || congruence). done.
  - (* run: after a setValue *)
    set (F := Nat.max f fuel).
    exists (S F), s2.
    change (run (S F) (SetValue q x k) s) with (run_body (engine F) (SetValue q x k) s).
    simpl. fold (setValue F).
    assert (Hv' : setValue F q x s = Ok tt s').
    { rewrite (setValue_mono fuel F) by (lia || congruence). done. }
    rewrite (bind_Ok _ _ _ _ _ Hv'). fold (run F).
    rewrite (run_mono f F) by (lia || congruence). done.
  - (* poll: the notifier *)
    exists (S f), s2.
    change (consumerPollValueStatus (S f) p (StaleBy q) s)
      with (consumerPollValueStatus_body (engine f) p (StaleBy q) s).
    unfold consumerPollValueStatus_body.
    rewrite (bind_Ok _ _ _ _ _ (consumer_Ok' _ _ _ Hc)).
    rewrite (bind_Ok _ _ _ _ _ (node_Ok _ _ _ Hq)).
    rewrite bool_decide_eq_true_2 by done.
    fold (producerPollStatus f). by apply bind_Err.
  - (* poll: the loop after the notifier *)
    set (F := Nat.max f fuel).
    exists (S F), s2.
    change (consumerPollValueStatus (S F) p (StaleBy q) s)
      with (consumerPollValueStatus_body (engine F) p (StaleBy q) s).
    unfold consumerPollValueStatus_body.
    rewrite (bind_Ok _ _ _ _ _ (consumer_Ok' _ _ _ Hc)).
    rewrite (bind_Ok _ _ _ _ _ (node_Ok _ _ _ Hq)).
    fold (producerPollStatus F).
    assert (Hch' : (if bool_decide (EdgeMap.get (consumers qn) p = Some (trackingVersion c))
                   then producerPollStatus F q
                          (EdgeMap.get_at (EdgeMap.current (producers c)) (producers c) q)
                   else ret false) s = Ok false s').
    { destruct (bool_decide _); [|done].
      rewrite (pollStatus_mono fuel F) by (lia || congruence). done. }
    rewrite (bind_Ok _ _ _ _ _ Hch'). simpl.
    rewrite (bind_Ok _ _ _ _ _ (consumer_Ok' _ _ _ Hc')).
    rewrite bool_decide_eq_false_2 by done.
    fold (pollLoop F). rewrite (pollLoop_mono f F) by (lia || congruence). done.
  - (* poll: the loop *)
    exists (S f), s2.
    change (consumerPollValueStatus (S f) p st s)
      with (consumerPollValueStatus_body (engine f) p st s).
    unfold consumerPollValueStatus_body.
    rewrite (bind_Ok _ _ _ _ _ (consumer_Ok' _ _ _ Hc)).
    destruct st as [| |q]; [done|done|]. by destruct (Hst q).
  - (* the loop: the poll of a producer *)
    exists (S f), s2.
    change (pollLoop (S f) p ps sk it s) with (pollLoop_body (engine f) p ps sk it s).
    unfold pollLoop_body.
    rewrite (bind_Ok _ _ _ _ _ (consumer_Ok' _ _ _ Hc)), Hnext.
    apply bind_Err. unfold pollVisit.
    rewrite bool_decide_eq_false_2 by done.
    rewrite (bind_Ok _ _ _ _ _ (consumer_Ok' _ _ _ Hc)).
    rewrite (bind_Ok _ _ _ _ _ (node_Ok _ _ _ Hq)).
    rewrite bool_decide_eq_true_2 by done. done.
  - (* the loop: the next turn *)
    set (F := Nat.max f fuel).
    exists (S F), s2.
    change (pollLoop (S F) p ps sk it s) with (pollLoop_body (engine F) p ps sk it s).
    unfold pollLoop_body.
    rewrite (bind_Ok _ _ _ _ _ (consumer_Ok' _ _ _ Hc)), Hnext.
    assert (Hv' : pollVisit (engine F) p ps sk q ls s = Ok false s').
    { rewrite (pollVisit_mono fuel F) by (lia || congruence). done. }
    rewrite (bind_Ok _ _ _ _ _ Hv'). simpl.
    fold (pollLoop F). rewrite (pollLoop_mono f F) by (lia || congruence). done.
  - (* producerPollStatus: check *)
    exists (S f), s2.
    change (producerPollStatus (S f) q v s)
      with (producerPollStatus_body (engine f) q v s).
    unfold producerPollStatus_body.
    rewrite (bind_Ok _ _ _ _ _ (node_Ok _ _ _ Hq)).
    rewrite bool_decide_eq_true_2 by done. simpl. by apply bind_Err.
Qed.

Lemma pollVisit_evolves fuel n ps sk q ls :
  preserves evolves _ (pollVisit (engine fuel) n ps sk q ls).
Proof.
  pose proof (engine_evolves fuel) as H. intros s.
  repeat first [wp_step | wp_rec evolves H | solve_evolves].
Qed.

Lemma began_evolves n s b s1 : began n s b s1 → evolves s s1.
Proof.
  intros (nd & c & Hn & Hc & Hv & _ & Hh & _) m. rewrite Hh.
  destruct (decide (n = m)) as [<-|Hne].
  - rewrite lookup_insert_eq, Hn. constructor. split.
    + split; [done|]. simpl. rewrite Hc. simpl. split; [done|lia].
    + intros c0 _ Hv0. done.
  - rewrite lookup_insert_ne by done. destruct (heap s !! m); constructor.
    apply node_evolves_refl.
Qed.

(** The state in which a call is made comes from the state of its
    caller by calls of the engine. *)
Lemma calls_evolves a b : calls a b → evolves a.2 b.2.
Proof.
  intros Hcalls.
  destruct Hcalls as
    [ p s nd c Hn Hc
    | p s nd c Hn Hc Hst Hu Hcomp
    | p s nd c fuel s' Hn Hc Hst Hu Hcomp Hpoll
    | p s nd c Hn Hc Hst Hv
    | p s b s1 c Hb Hc
    | q k s
    | q k s fuel v s' Hv
    | q x k s fuel s' Hv
    | p q s c qn Hc Hq Hlive
    | p q s c qn fuel s' c' Hc Hq Hch Hc' Hsz
    | p st s c Hc Hst
    | p ps sk it s c q ls it' qn Hc Hnext Hsk Hq Hlive
    | p ps sk it s c q ls it' fuel s' Hc Hnext Hv
    | q v s qn Hq Hv ];
    simpl.
  - by apply (evolves_same_heap s s); [apply evolves_refl|].
  - apply evolves_refl.
  - apply (wp_Ok _ _ _ _ _ _ (ao_poll _ _ (engine_evolves fuel) p (stale c) s) Hpoll).
  - apply evolves_refl.
  - apply (evolves_same_heap s s1); [|done].
    apply (began_evolves p s b s1), (wp_Ok _ _ _ _ _ _ (wp_beginRecompute p s) Hb).
  - apply evolves_refl.
  - apply (wp_Ok _ _ _ _ _ _ (ao_value _ _ (engine_evolves fuel) q s) Hv).
  - apply (wp_Ok _ _ _ _ _ _ (ao_setValue _ _ (engine_evolves fuel) q x s) Hv).
  - apply evolves_refl.
  - destruct (bool_decide _).
    + apply (wp_Ok _ _ _ _ _ _ (ao_pollStatus _ _ (engine_evolves fuel) q _ s) Hch).
    + unfold ret in Hch. injection Hch as <-. apply evolves_refl.
  - apply evolves_refl.
  - apply evolves_refl.
  - apply (wp_Ok _ _ _ _ _ _ (pollVisit_evolves fuel p ps sk q ls s) Hv).
  - apply evolves_refl.
Qed.

Lemma comes_to_evolves a b : rtc calls a b → evolves a.2 b.2.
Proof.
  induction 1 as [a|a b c Hab _ IH]; [apply evolves_refl|].
  eapply evolves_trans; [by apply calls_evolves|done].
Qed.

Lemma comes_to_throws a b :
  rtc calls a b → ∀ f e s2, throws f b.1 b.2 e s2 → ∃ f' s3, throws f' a.1 a.2 e s3.
Proof.
  induction 1 as [a|a b c Hab _ IH]; intros f e s2 Hthrow; [eauto|].
  destruct (IH f e s2 Hthrow) as (f1 & s3 & H1).
  by apply (calls_throws_pair a b Hab f1 e s3).
Qed.

(** The getter and the check of a node that is computing, and stale,
    throw Cycle. *)
Lemma back_throws n x s :
  x = FValue n ∨ x = FCheck n → stale_computing n s →
  ∃ f s', throws f x s Cycle s'.
Proof.
  intros [-> | ->] Hsc; simpl.
  - pose proof Hsc as (nd & c & Hn & Hc & _).
    exists 3, (emitted (EvRead n) s).
    apply (value_check_Err 2 n s nd c Cycle _ Hn Hc), check_cycle.
    destruct Hsc as (nd' & c' & ? & ?). by exists nd', c'.
  - exists 2, s. by apply check_cycle.
Qed.

(** C2, as amended.  When the read of a node comes to recompute it, found
    stale, and that recomputation comes to call the getter of the node or
    its check again, through [calculate()], the reads and the writes it
    makes, and the recomputations and the polls they start, then the read
    throws Cycle: with enough fuel it ends, in that exception, and with
    any more fuel too.  The ambient active consumer is then the one from
    before, and the read of every leaf returns the value the leaf
    holds. *)
Theorem cycle_detected n s :
  reads_itself n s →
  ∃ fuel0 s3,
    (∀ fuel, fuel0 ≤ fuel → value fuel n s = Err Cycle s3) ∧
    activeConsumer s3 = activeConsumer s ∧
    (active_ok s → ∀ l ndl fuel,
       heap s3 !! l = Some ndl → pipeline ndl = None →
       ∃ s4, value (S fuel) l s3 = Ok (_value ndl) s4).
Proof.
  intros (s0 & back & s2 & Hpath1 & Hstale & Hpath2 & Hback).
  (* the recomputation of [n] starts *)
  apply rtc_inv in Hpath2 as [Heq|([x s1] & Hstep & Hpath2)].
  { destruct Hback as [-> | ->]; discriminate. }
  assert (Hsc1 : stale_computing n s1).
  { inversion Hstep as [| | | |p sa b s1' c1 Hb Hc1| | | | | | | | |]; subst.
    pose proof (wp_Ok _ _ _ _ _ _ (wp_beginRecompute n s0) Hb)
      as (nd & c & Hn & Hc & Hv & _ & Hh & _).
    destruct Hstale as (nd' & c' & Hn' & Hc' & Hst).
    rewrite Hn in Hn'. injection Hn' as <-. rewrite Hc in Hc'. injection Hc' as <-.
    exists (with_pipeline incrTrackingVersion (with_value COMPUTING nd)),
      (incrTrackingVersion c).
    simpl. rewrite Hh, lookup_insert_eq. simpl. by rewrite Hc. }
  (* it is computing when the call comes back *)
  pose proof (evolves_stale_computing n s1 s2 (comes_to_evolves _ _ Hpath2) Hsc1) as Hsc2.
  destruct (back_throws n back s2 Hback Hsc2) as (f2 & s2' & Hthrow2).
  destruct (comes_to_throws _ _ Hpath2 f2 Cycle s2' Hthrow2) as (f1 & s1' & Hthrow1).
  destruct (calls_throws_pair _ _ Hstep f1 Cycle s1' Hthrow1) as (f0 & s0' & Hthrow0).
  destruct (comes_to_throws _ _ Hpath1 f0 Cycle s0' Hthrow0) as (fuel0 & s3 & Hthrow).
  simpl in Hthrow. exists fuel0, s3. split; [|split].
  - intros fuel Hle. rewrite (value_mono fuel0 fuel) by (done || congruence). done.
  - apply (wp_Err _ _ _ _ _ _ (ao_value _ _ (engine_same_active fuel0) n s) Hthrow).
  - intros Hok l ndl fuel Hl Hleaf.
    assert (Hok3 : active_ok s3).
    { apply (evolves_active_ok s); [|
        apply (wp_Err _ _ _ _ _ _ (ao_value _ _ (engine_same_active fuel0) n s) Hthrow)|done].
      apply (wp_Err _ _ _ _ _ _ (ao_value _ _ (engine_evolves fuel0) n s) Hthrow). }
    destruct (value_leaf fuel l s3 ndl Hl Hleaf Hok3) as (s4 & Hv & _). eauto.
Qed.

(** Two computed nodes that read each other, and a leaf. *)
Definition mutual : list Node :=
  [newPipeline (Read 1 Ret); newPipeline (Read 0 Ret); newValuePipeline (VNum 5)].

(** The two nodes that read each other: the read of the first comes back
    to it through the [calculate()] of the second. *)
Lemma mutual_reads_itself : reads_itself 0 (initState mutual).
Proof.
  set (s := initState mutual).
  exists (emitted (EvRead 0) s), (FValue 0). eexists. split; [|split; [|split]].
  - eapply rtc_l; [apply (calls_value_check 0 s (newPipeline (Read 1 Ret))
                             (BuildConsumer EdgeMap.empty 1 StaleTrue (Read 1 Ret)));
                     reflexivity|].
    eapply rtc_l; [|apply rtc_refl].
    apply (calls_check_recompute 0 _ (newPipeline (Read 1 Ret))
             (BuildConsumer EdgeMap.empty 1 StaleTrue (Read 1 Ret)));
      [reflexivity|reflexivity|discriminate|by left].
  - eexists _, _. split; [reflexivity|]. split; [reflexivity|discriminate].
  - eapply rtc_l.
    { eapply calls_recompute_calculate.
      - apply (beginRecompute_Ok 0 _ (newPipeline (Read 1 Ret))
                 (BuildConsumer EdgeMap.empty 1 StaleTrue (Read 1 Ret)));
          [reflexivity|reflexivity|discriminate].
      - reflexivity. }
    simpl. eapply rtc_l; [apply calls_run_value|].
    eapply rtc_l.
    { apply (calls_value_check 1 _ (newPipeline (Read 0 Ret))
               (BuildConsumer EdgeMap.empty 1 StaleTrue (Read 0 Ret))); reflexivity. }
    eapply rtc_l.
    { apply (calls_check_recompute 1 _ (newPipeline (Read 0 Ret))
               (BuildConsumer EdgeMap.empty 1 StaleTrue (Read 0 Ret)));
        [reflexivity|reflexivity|discriminate|by left]. }
    eapply rtc_l.
    { eapply calls_recompute_calculate.
      - apply (beginRecompute_Ok 1 _ (newPipeline (Read 0 Ret))
                 (BuildConsumer EdgeMap.empty 1 StaleTrue (Read 0 Ret)));
          [reflexivity|reflexivity|discriminate].
      - reflexivity. }
    simpl. eapply rtc_l; [apply calls_run_value|]. apply rtc_refl.
  - by left.
Qed.

Lemma cycle_detected_witness :
  reads_itself 0 (initState mutual) ∧
  ∃ s3, value 15 0 (initState mutual) = Err Cycle s3 ∧ activeConsumer s3 = None ∧
    ∃ s4, value 1 2 s3 = Ok (VNum 5) s4.
Proof.
  split; [exact mutual_reads_itself|].
  destruct (cycle_detected 0 (initState mutual) mutual_reads_itself)
    as (fuel0 & s3 & Hr & Ha & Hleaf).
  assert (H15 : value 15 0 (initState mutual) = Err Cycle s3).
  { rewrite <- (Hr (Nat.max fuel0 15)) by lia. symmetry.
    apply value_mono; [lia|]. vm_compute. discriminate. }
  exists s3. split; [exact H15|]. split; [exact Ha|].
  assert (Hs3 : s3 = final (value 15 0 (initState mutual)) (initState mutual))
    by (rewrite H15; reflexivity).
  apply (Hleaf ltac:(intros a Hact; discriminate) 2 (newValuePipeline (VNum 5)) 0);
    [|reflexivity].
  rewrite Hs3. vm_compute. reflexivity.
Defined.

(** A leaf, a node that reads the leaf and then, unless the leaf holds 0,
    the third node, and a third node that reads the second. *)
Definition turning : list Node :=
  [newValuePipeline (VNum 0);
   newPipeline (Read 0 (fun v => if strictEquals v (VNum 0) then Ret (VNum 0)
                                 else Read 2 Ret));
   newPipeline (Read 1 Ret)].

(** The third node has been read and the leaf set to 1 since. *)
Definition turning_stale : State :=
  default (initState turning)
    (snd <$> execAll 10 [OpRead 2; OpSetValue 0 (VNum 1)] (initState turning)).

(** The read of the second node comes back to it through the poll of the
    third: the third node has a value, its poll asks the second, its
    notifier, whether it has changed, and that call finds the second
    node computing. *)
Lemma turning_reads_itself :
  reads_itself 1 turning_stale ∧
  ∃ s3, value 15 1 turning_stale = Err Cycle s3 ∧
    EvCalculate 2 ∉ drop (length (trace turning_stale)) (trace s3).
Proof.
  set (s := turning_stale).
  set (s0 := emitted (EvRead 1) s).
  set (sp := final (consumerPollValueStatus 5 1 (StaleBy 0) s0) s0).
  set (sb := final (beginRecompute 1 sp) sp).
  set (s1 := emitted (EvCalculate 1) sb).
  set (s2 := final (value 3 0 s1) s1).
  set (s3 := emitted (EvRead 2) s2).
  split.
  - exists sp, (FCheck 1), s3. split; [|split; [|split; [|by right]]].
    + eapply rtc_l; [eapply (calls_value_check 1 s); reflexivity|].
      eapply rtc_l; [|apply rtc_refl].
      eapply (calls_check_changed 1 s0 _ _ 5 sp);
        [reflexivity|reflexivity|discriminate|discriminate|discriminate|].
      vm_compute. reflexivity.
    + eexists _, _. split; [vm_compute; reflexivity|]. split; [reflexivity|discriminate].
    + eapply rtc_l.
      { eapply (calls_recompute_calculate 1 sp (VNum 0, None) sb);
          [vm_compute; reflexivity|vm_compute; reflexivity]. }
      eapply rtc_l; [eapply (calls_run_read 0 _ s1 3 (VNum 1) s2); vm_compute; reflexivity|].
      eapply rtc_l; [apply calls_run_value|].
      eapply rtc_l; [eapply (calls_value_check 2 s2); vm_compute; reflexivity|].
      eapply rtc_l.
      { eapply (calls_check_poll 2 s3);
          [vm_compute; reflexivity|reflexivity|discriminate|discriminate|discriminate]. }
      eapply rtc_l.
      { eapply (calls_poll_notifier 2 1 s3);
          [vm_compute; reflexivity|vm_compute; reflexivity|vm_compute; reflexivity]. }
      eapply rtc_l; [|apply rtc_refl].
      eapply (calls_status_check 1 _ s3); vm_compute; reflexivity.
  - eexists. split; [vm_compute; reflexivity|].
    vm_compute. intros H. repeat (apply elem_of_cons in H as [H|H]; [discriminate|]).
    by apply elem_of_nil in H.
Qed.

(** C2 as stated fails for a [calculate()] that catches: the node reads
    itself, the getter called again throws Cycle, the handler returns 7,
    and the read of the node returns 7. *)
Lemma self_read_caught :
  reads_itself 0 (initState selfish) ∧
  ∃ s', r_value (engine_catching (VNum 7) 10) 0 (initState selfish) = Ok (VNum 7) s' ∧
    trace s' = [EvRead 0; EvCalculate 0; EvRead 0].
Proof.
  split.
  - set (s := initState selfish).
    exists (emitted (EvRead 0) s), (FValue 0). eexists. split; [|split; [|split]].
    + eapply rtc_l; [apply (calls_value_check 0 s (newPipeline (Read 0 Ret))
                               (BuildConsumer EdgeMap.empty 1 StaleTrue (Read 0 Ret)));
                       reflexivity|].
      eapply rtc_l; [|apply rtc_refl].
      apply (calls_check_recompute 0 _ (newPipeline (Read 0 Ret))
               (BuildConsumer EdgeMap.empty 1 StaleTrue (Read 0 Ret)));
        [reflexivity|reflexivity|discriminate|by left].
    + eexists _, _. split; [reflexivity|]. split; [reflexivity|discriminate].
    + eapply rtc_l.
      { eapply calls_recompute_calculate.
        - apply (beginRecompute_Ok 0 _ (newPipeline (Read 0 Ret))
                   (BuildConsumer EdgeMap.empty 1 StaleTrue (Read 0 Ret)));
            [reflexivity|reflexivity|discriminate].
        - reflexivity. }
      simpl. eapply rtc_l; [apply calls_run_value|]. apply rtc_refl.
    + by left.
  - eexists. split; [vm_compute; reflexivity|reflexivity].
Qed.

(** *** Reads that find nothing to do *)

(** Every node keeps its kind and its [calculate], and no version
    decreases. *)
Definition grown (s s' : State) : Prop :=
  ∀ l, option_Forall2 node_grows (heap s !! l) (heap s' !! l).

(** No leaf has another version in [s'] than in [s]. *)
Definition leaf_same (s s' : State) : Prop :=
  ∀ l nd nd', heap s !! l = Some nd → pipeline nd = None →
    heap s' !! l = Some nd' → valueVersion nd' = valueVersion nd.

Definition clean_kept (n : NodeId) (s s' : State) : Prop :=
  ∀ nd c, heap s !! n = Some nd → pipeline nd = Some c → stale c = StaleFalse →
    ∃ nd' c', heap s' !! n = Some nd' ∧ pipeline nd' = Some c' ∧
      stale c' = StaleFalse ∧ _value nd' = _value nd.

Definition not_clean (n : NodeId) (s : State) : Prop :=
  ∀ nd c, heap s !! n = Some nd → pipeline nd = Some c → stale c ≠ StaleFalse.

(** While the versions of the leaves stay what they are, a clean [n]
    stays clean with its value. *)
Definition quiet (n : NodeId) (s s' : State) : Prop :=
  grown s s' ∧ (leaf_same s s' → clean_kept n s s').

Lemma grown_refl s : grown s s.
Proof. intros l. destruct (heap s !! l); constructor. apply node_grows_refl. Qed.

Lemma grown_trans s1 s2 s3 : grown s1 s2 → grown s2 s3 → grown s1 s3.
Proof.
  intros H1 H2 l. specialize (H1 l). specialize (H2 l).
  destruct H1; inversion H2; subst; constructor. by eapply node_grows_trans.
Qed.

Lemma grown_leaf s s' l nd :
  grown s s' → heap s !! l = Some nd → pipeline nd = None →
  ∃ nd', heap s' !! l = Some nd' ∧ pipeline nd' = None ∧
    valueVersion nd ≤ valueVersion nd'.
Proof.
  intros H Hl Hp. specialize (H l). rewrite Hl in H.
  inversion H as [? nd' [Hle Hk]|]; subst. exists nd'. rewrite Hp in Hk.
  destruct (pipeline nd'); [done|]. by repeat split.
Qed.

Lemma grown_leaf_back s s' l nd' :
  grown s s' → heap s' !! l = Some nd' → pipeline nd' = None →
  ∃ nd, heap s !! l = Some nd ∧ pipeline nd = None ∧
    valueVersion nd ≤ valueVersion nd'.
Proof.
  intros H Hl Hp. specialize (H l). rewrite Hl in H.
  inversion H as [nd ? [Hle Hk]|]; subst. exists nd. rewrite Hp in Hk.
  destruct (pipeline nd); [done|]. by repeat split.
Qed.

Lemma leaf_same_split s1 s2 s3 :
  grown s1 s2 → grown s2 s3 → leaf_same s1 s3 →
  leaf_same s1 s2 ∧ leaf_same s2 s3.
Proof.
  intros H1 H2 H13. split.
  - intros l nd nd2 Hl Hp Hl2.
    destruct (grown_leaf _ _ _ _ H1 Hl Hp) as (nd2' & Hl2' & Hp2 & Hle). simplify_eq.
    destruct (grown_leaf _ _ _ _ H2 Hl2 Hp2) as (nd3 & Hl3 & Hp3 & Hle3).
    specialize (H13 l nd nd3 Hl Hp Hl3). lia.
  - intros l nd2 nd3 Hl2 Hp2 Hl3.
    destruct (grown_leaf _ _ _ _ H2 Hl2 Hp2) as (nd3' & Hl3' & Hp3 & Hle3). simplify_eq.
    destruct (grown_leaf_back _ _ _ _ H1 Hl2 Hp2) as (nd & Hl & Hp & Hle).
    specialize (H13 l nd nd3 Hl Hp Hl3). lia.
Qed.

Lemma clean_kept_trans n s1 s2 s3 :
  clean_kept n s1 s2 → clean_kept n s2 s3 → clean_kept n s1 s3.
Proof.
  intros H1 H2 nd c Hn Hc Hst.
  destruct (H1 nd c Hn Hc Hst) as (nd2 & c2 & Hn2 & Hc2 & Hst2 & Hv2).
  destruct (H2 nd2 c2 Hn2 Hc2 Hst2) as (nd3 & c3 & Hn3 & Hc3 & Hst3 & Hv3).
  exists nd3, c3. repeat split; congruence.
Qed.

Lemma quiet_refl n s : quiet n s s.
Proof. split; [apply grown_refl|]. intros _ nd c Hn Hc Hst. eauto 10. Qed.

Lemma quiet_trans n s1 s2 s3 : quiet n s1 s2 → quiet n s2 s3 → quiet n s1 s3.
Proof.
  intros [G1 K1] [G2 K2]. split; [by eapply grown_trans|].
  intros Hs. destruct (leaf_same_split _ _ _ G1 G2 Hs) as [Hs1 Hs2].
  eapply clean_kept_trans; eauto.
Qed.

Lemma keeps_grows f : keeps_fields f → grows f.
Proof.
  intros Hf nd. destruct (Hf nd) as (Hvv & _ & Hp). split; [lia|].
  destruct Hp as [c c' (? & ? & ?)|]; [split; [done|lia]|done].
Qed.

Lemma grown_written f m nd s s' : written f m nd s s' → grows f → grown s s'.
Proof.
  intros (Hm & Hh & _) Hf l. rewrite Hh. destruct (decide (m = l)) as [<-|Hne].
  - rewrite lookup_insert_eq, Hm. constructor. apply Hf.
  - rewrite lookup_insert_ne by done. destruct (heap s !! l); constructor.
    apply node_grows_refl.
Qed.

Lemma quiet_same_heap n s0 s s' : quiet n s0 s → same_heap s s' → quiet n s0 s'.
Proof.
  intros [G K] Hh. unfold quiet, grown, leaf_same, clean_kept in *.
  rewrite Hh. split; [done|]. intros Hs. by apply K.
Qed.

(** A write to a node other than [n], or to [n] when it was not clean. *)
Lemma quiet_touch n s0 s s' m nd f :
  written f m nd s s' → quiet n s0 s → grows f → (m = n → not_clean n s0) →
  quiet n s0 s'.
Proof.
  intros Hw [G K] Hf Hm.
  pose proof (grown_written _ _ _ _ _ Hw Hf) as G'.
  split; [by eapply grown_trans|]. intros Hs.
  destruct (leaf_same_split _ _ _ G G' Hs) as [Hs1 _].
  intros nd0 c0 Hn0 Hc0 Hst0.
  destruct (decide (m = n)) as [->|Hne]; [by destruct (Hm eq_refl nd0 c0)|].
  destruct (K Hs1 nd0 c0 Hn0 Hc0 Hst0) as (nd1 & c1 & Hn1 & ?).
  exists nd1, c1. by rewrite (written_lookup_ne _ _ _ _ _ _ Hw Hne).
Qed.

(** A write that leaves the value and the [stale] mark. *)
Lemma quiet_keeps n s0 s s' m nd f :
  written f m nd s s' → quiet n s0 s → keeps_fields f → quiet n s0 s'.
Proof.
  intros Hw [G K] Hf.
  pose proof (grown_written _ _ _ _ _ Hw (keeps_grows _ Hf)) as G'.
  split; [by eapply grown_trans|]. intros Hs.
  destruct (leaf_same_split _ _ _ G G' Hs) as [Hs1 _].
  intros nd0 c0 Hn0 Hc0 Hst0.
  destruct (K Hs1 nd0 c0 Hn0 Hc0 Hst0) as (nd1 & c1 & Hn1 & Hc1 & Hst1 & Hv1).
  destruct (decide (m = n)) as [->|Hne].
  - destruct Hw as (Hm & Hh & _). assert (nd1 = nd) as -> by congruence.
    destruct (Hf nd) as (_ & Hv & Hp). rewrite Hc1 in Hp.
    inversion Hp as [? c' (_ & _ & Hst')|]; subst.
    exists (f nd), c'. rewrite Hh, lookup_insert_eq. repeat split; congruence.
  - exists nd1, c1. by rewrite (written_lookup_ne _ _ _ _ _ _ Hw Hne).
Qed.

(** [this.stale = false] *)
Lemma quiet_clear n s0 s s' m nd :
  written (with_pipeline (with_stale StaleFalse)) m nd s s' → quiet n s0 s →
  quiet n s0 s'.
Proof.
  intros Hw [G K].
  pose proof (grown_written _ _ _ _ _ Hw (grows_with_stale _)) as G'.
  split; [by eapply grown_trans|]. intros Hs.
  destruct (leaf_same_split _ _ _ G G' Hs) as [Hs1 _].
  intros nd0 c0 Hn0 Hc0 Hst0.
  destruct (K Hs1 nd0 c0 Hn0 Hc0 Hst0) as (nd1 & c1 & Hn1 & Hc1 & Hst1 & Hv1).
  destruct (decide (m = n)) as [->|Hne].
  - destruct Hw as (Hm & Hh & _). assert (nd1 = nd) as -> by congruence.
    exists (with_pipeline (with_stale StaleFalse) nd), (with_stale StaleFalse c1).
    rewrite Hh, lookup_insert_eq. simpl. rewrite Hc1. by repeat split.
  - exists nd1, c1. by rewrite (written_lookup_ne _ _ _ _ _ _ Hw Hne).
Qed.

Lemma cascade_grown s s' : cascade s s' → grown s s'.
Proof.
  intros [H _] l. specialize (H l). destruct H as [nd nd' (Hvv & _ & _ & Hp)|]; constructor.
  split; [lia|]. destruct Hp as [c c' (? & ? & _)|]; [split; [done|lia]|done].
Qed.

(** After the version of a leaf was incremented. *)
Lemma quiet_bumped n s s2 s3 p nd nd2 :
  quiet n s s2 → cascade s2 s3 →
  heap s !! p = Some nd → pipeline nd = None →
  heap s2 !! p = Some nd2 → valueVersion nd < valueVersion nd2 →
  quiet n s s3.
Proof.
  intros [G K] Hc Hp Hleaf Hp2 Hlt.
  pose proof (cascade_grown _ _ Hc) as G'.
  split; [by eapply grown_trans|]. intros Hs. exfalso.
  destruct Hc as [Hc _]. specialize (Hc p). rewrite Hp2 in Hc.
  inversion Hc as [? nd3 (Hvv & _) E1 E2|]; subst.
  specialize (Hs p nd nd3 Hp Hleaf (eq_sym E2)). lia.
Qed.

Ltac solve_quiet :=
  lazymatch goal with
  | |- quiet _ ?s ?s => apply quiet_refl
  | H : quiet ?n ?s1 ?s' |- quiet ?n ?s0 ?s' =>
      first [ exact H | apply (quiet_trans n s0 s1 s'); [solve_quiet|exact H] ]
  | H : written _ _ _ ?s1 ?s' |- quiet ?n ?s0 ?s' =>
      first [ apply (quiet_keeps n s0 _ _ _ _ _ H); [solve_quiet|solve [auto with engine]]
            | apply (quiet_clear n s0 _ _ _ _ H); solve_quiet
            | apply (quiet_touch n s0 _ _ _ _ _ H);
                [solve_quiet|solve [auto with engine]
                |first [ assumption | intros; congruence
                       | let E := fresh in intros E; subst; assumption ]] ]
  | H : same_heap ?s1 ?s' |- quiet ?n ?s0 ?s' =>
      apply (quiet_same_heap n s0 s1 s'); [solve_quiet|exact H]
  end.

Lemma wp_producerAccessed_quiet n s0 p s (Q : unit → State → Prop) E :
  quiet n s0 s →
  (∀ s', quiet n s0 s' → Q tt s') → (∀ e s', quiet n s0 s' → E e s') →
  wp (producerAccessed p) s Q E.
Proof.
  intros Hev HQ HE. unfold producerAccessed.
  repeat wp_step; first [apply HQ|apply HE]; solve_quiet.
Qed.

(** What the functions on the reading side do; [recomputeValue] is given
    the state [s0] in which the node was found stale. *)
Record pull_ops (P : ∀ A, M A → Prop) (Pr : NodeId → M unit → Prop) (e : Engine) : Prop :=
  BuildPullOps {
  po_value : ∀ n, P _ (r_value e n);
  po_check : ∀ n, P _ (r_checkForActuallyChangedValue e n);
  po_recompute : ∀ n, Pr n (r_recomputeValue e n);
  po_run : ∀ c, P _ (r_run e c);
  po_poll : ∀ n st, P _ (r_consumerPollValueStatus e n st);
  po_pollLoop : ∀ n r sk it, P _ (r_pollLoop e n r sk it);
  po_pollStatus : ∀ n v, P _ (r_producerPollStatus e n v);
  po_setValue : ∀ n x, P _ (r_setValue e n x)
}.

Definition recompute_quiet (n q : NodeId) (m : M unit) : Prop :=
  ∀ s0 s, quiet n s0 s → (q = n → not_clean n s0) →
    wp m s (fun _ s' => quiet n s0 s') (fun _ s' => quiet n s0 s').

Ltac wp_pull n H :=
  lazymatch goal with
  | |- wp (r_value _ _) _ _ _ => eapply (wp_preserves (quiet n)); [apply (po_value _ _ _ H)|..]
  | |- wp (r_checkForActuallyChangedValue _ _) _ _ _ =>
      eapply (wp_preserves (quiet n)); [apply (po_check _ _ _ H)|..]
  | |- wp (r_run _ _) _ _ _ => eapply (wp_preserves (quiet n)); [apply (po_run _ _ _ H)|..]
  | |- wp (r_consumerPollValueStatus _ _ _) _ _ _ =>
      eapply (wp_preserves (quiet n)); [apply (po_poll _ _ _ H)|..]
  | |- wp (r_pollLoop _ _ _ _ _) _ _ _ =>
      eapply (wp_preserves (quiet n)); [apply (po_pollLoop _ _ _ H)|..]
  | |- wp (r_producerPollStatus _ _ _) _ _ _ =>
      eapply (wp_preserves (quiet n)); [apply (po_pollStatus _ _ _ H)|..]
  | |- wp (r_setValue _ _ _) _ _ _ =>
      eapply (wp_preserves (quiet n)); [apply (po_setValue _ _ _ H)|..]
  end; [intros ? ? ?|intros ? ? ?].

Lemma not_clean_stale n s nd c :
  heap s !! n = Some nd → pipeline nd = Some c →
  bool_decide (stale c = StaleFalse) = false → not_clean n s.
Proof.
  intros Hn Hc Hst nd' c' Hn' Hc'. simplify_eq. by apply bool_decide_eq_false in Hst.
Qed.

Lemma not_clean_leaf n s nd :
  heap s !! n = Some nd → pipeline nd = None → not_clean n s.
Proof. intros Hn Hc nd' c' Hn' Hc'. simplify_eq. Qed.

Lemma quiet_engine n fuel :
  pull_ops (preserves (quiet n)) (recompute_quiet n) (engine fuel).
Proof.
  induction fuel as [|fuel IH]; [split; intros; try apply preserves_OutOfFuel; by intros ? ?|].
  split; simpl.
  - (* value *)
    intros q s. unfold_bodies.
    repeat first
      [ wp_step | wp_pull n IH
      | eapply (wp_producerAccessed_quiet n s); [solve_quiet|intros ? ?|intros ? ? ?]
      | solve_quiet ].
  - (* checkForActuallyChangedValue *)
    intros q s. unfold checkForActuallyChangedValue_body.
    repeat first
      [ wp_step | wp_pull n IH
      | lazymatch goal with
        | |- wp (r_recomputeValue _ _) _ _ _ =>
            eapply wp_mono;
              [apply (po_recompute _ _ _ IH q s);
                 [solve_quiet|intros ->; eapply not_clean_stale; eassumption]
              |by intros|by intros]
        end
      | solve_quiet ].
  - (* recomputeValue *)
    intros q s0 s Hq Hnc. unfold_bodies.
    repeat first [ wp_step | wp_pull n IH | solve_quiet ].
  - (* run *)
    intros c s. unfold_bodies.
    repeat first [ wp_step | wp_pull n IH | solve_quiet ].
  - intros q st s. unfold_bodies.
    repeat first [ wp_step | wp_pull n IH | solve_quiet ].
  - intros q r sk it s. unfold_bodies.
    repeat first [ wp_step | wp_pull n IH | solve_quiet ].
  - intros q v s. unfold_bodies.
    repeat first [ wp_step | wp_pull n IH | solve_quiet ].
  - (* setValue *)
    intros p x s. unfold setValue_body.
    repeat first
      [ wp_step
      | lazymatch goal with
        | |- wp (r_producerNotifyConsumers _ _) _ _ _ =>
            eapply wp_mono; [apply (proj1 (proj2 (cascade_engine fuel)))|..]; cbv beta
        end
      | lazymatch goal with |- quiet _ ?s ?s => apply quiet_refl end ].
    all: try intros ? ? ?.
    all: lazymatch goal with
         | H1 : written (with_value ?x) ?p ?nd ?s ?s1,
           H2 : written incrValueVersion ?p ?nd1 ?s1 ?s2,
           Hc : cascade ?s2 ?s3 |- quiet ?n ?s ?s3 =>
             destruct (written_written _ _ _ _ _ _ _ _ H1 H2) as (-> & Hh2 & _);
             apply (quiet_bumped n s s2 s3 p nd (incrValueVersion (with_value x nd)));
               [ | exact Hc | by destruct H1 | congruence
                 | rewrite Hh2; apply lookup_insert_eq | simpl; lia ];
             apply (quiet_touch n s _ _ _ _ _ H2);
               [|auto with engine|intros ->; eapply not_clean_leaf; [eassumption|congruence]];
             apply (quiet_touch n s _ _ _ _ _ H1);
               [apply quiet_refl|auto with engine|intros ->; eapply not_clean_leaf; [eassumption|congruence]]
         | H1 : written (with_value _) ?p ?nd ?s ?s1 |- quiet ?n ?s ?s1 =>
             apply (quiet_touch n s _ _ _ _ _ H1);
               [apply quiet_refl|auto with engine|intros ->; eapply not_clean_leaf; [eassumption|congruence]]
         end.
Qed.

Lemma exec_quiet n fuel op : preserves (quiet n) _ (exec fuel op).
Proof.
  pose proof (quiet_engine n fuel) as H. intros s.
  destruct op; simpl; unfold updateValue, mutateValue;
    unfold value, setValue, run, producerNotifyConsumers.
  all: repeat first
    [ wp_step | wp_pull n H
    | lazymatch goal with
      | |- wp (r_producerNotifyConsumers _ _) _ _ _ =>
          eapply wp_mono; [apply (proj1 (proj2 (cascade_engine fuel)))|..]; cbv beta
      end
    | solve_quiet ].
  all: try intros ? ? ?.
  all: repeat wp_step.
  all: lazymatch goal with
       | Hq : quiet ?n ?s ?s1, Hl : heap ?s !! ?p = Some ?nd,
         H2 : written incrValueVersion ?p ?nd1 ?s1 ?s2,
         Hc : cascade ?s2 ?s3 |- quiet ?n ?s ?s3 =>
           assert (pipeline nd = None) as Hleaf by congruence;
           destruct (grown_leaf _ _ _ _ (proj1 Hq) Hl Hleaf) as (nd1' & Hl1 & _ & Hle);
           assert (nd1' = nd1) as -> by (destruct H2; congruence);
           apply (quiet_bumped n s s2 s3 p nd (incrValueVersion nd1));
             [ | exact Hc | exact Hl | exact Hleaf
               | apply (written_lookup _ _ _ _ _ H2) | simpl; lia ];
           apply (quiet_touch n s _ _ _ _ _ H2);
             [exact Hq|auto with engine
             |intros ->; eapply not_clean_leaf; [eassumption|congruence]]
       | Hq : quiet ?n ?s ?s1 |- quiet ?n ?s ?s1 => exact Hq
       end.
Qed.

Lemma execAll_quiet n fuel ops s outs s' :
  execAll fuel ops s = Some (outs, s') → quiet n s s'.
Proof.
  apply (execAll_preserves (quiet n)).
  - apply quiet_refl.
  - apply quiet_trans.
  - apply exec_quiet.
Qed.

(** *** A read leaves the node clean *)

Definition cleaned (n : NodeId) (s : State) : Prop :=
  ∀ nd c, heap s !! n = Some nd → pipeline nd = Some c → stale c = StaleFalse.

Lemma wp_any {A} (m : M A) s : wp m s (fun _ _ => True) (fun _ _ => True).
Proof. unfold wp. by destruct (m s). Qed.

Lemma cleaned_same_heap n s s' : same_heap s s' → cleaned n s → cleaned n s'.
Proof. intros Hh H nd c. rewrite Hh. apply H. Qed.

Lemma cleaned_clear n nd s s' :
  written (with_pipeline (with_stale StaleFalse)) n nd s s' → cleaned n s'.
Proof.
  intros Hw nd' c'. rewrite (written_lookup _ _ _ _ _ Hw). intros [= <-]. simpl.
  destruct (pipeline nd); simpl; [|done]. by intros [= <-].
Qed.

Lemma cleaned_written f n m nd s s' :
  written f m nd s s' → cleaned n s →
  (∀ nd, option_Forall2 (fun c c' => stale c' = stale c) (pipeline nd) (pipeline (f nd))) →
  cleaned n s'.
Proof.
  intros Hw H Hf nd' c'. destruct (decide (m = n)) as [->|Hne].
  - rewrite (written_lookup _ _ _ _ _ Hw). intros [= <-] Hc'.
    specialize (Hf nd). rewrite Hc' in Hf. inversion Hf as [c ? Hst E1 E2|]; subst.
    rewrite Hst. destruct Hw as [Hn _]. by apply (H nd c).
  - rewrite (written_lookup_ne _ _ _ _ _ _ Hw Hne). apply H.
Qed.

Lemma stale_kept_value v nd :
  option_Forall2 (fun c c' => stale c' = stale c) (pipeline nd) (pipeline (with_value v nd)).
Proof. simpl. destruct (pipeline nd); by constructor. Qed.

Lemma stale_kept_incrValueVersion nd :
  option_Forall2 (fun c c' => stale c' = stale c) (pipeline nd)
    (pipeline (incrValueVersion nd)).
Proof. simpl. destruct (pipeline nd); by constructor. Qed.

Lemma stale_kept_consumers g nd :
  option_Forall2 (fun c c' => stale c' = stale c) (pipeline nd)
    (pipeline (with_consumers g nd)).
Proof. simpl. destruct (pipeline nd); by constructor. Qed.

Lemma stale_kept_producers g nd :
  option_Forall2 (fun c c' => stale c' = stale c) (pipeline nd)
    (pipeline (with_pipeline (with_producers g) nd)).
Proof. simpl. destruct (pipeline nd); by constructor. Qed.

Ltac solve_cleaned :=
  lazymatch goal with
  | H : cleaned ?n ?s |- cleaned ?n ?s => exact H
  | H : written (with_pipeline (with_stale StaleFalse)) ?n _ _ ?s' |- cleaned ?n ?s' =>
      apply (cleaned_clear _ _ _ _ H)
  | H : written _ _ _ ?s1 ?s' |- cleaned ?n ?s' =>
      apply (cleaned_written _ _ _ _ _ _ H);
        [solve_cleaned
        |first [ apply stale_kept_value | apply stale_kept_incrValueVersion
               | apply stale_kept_consumers | apply stale_kept_producers ]]
  | H : same_heap ?s1 ?s' |- cleaned ?n ?s' =>
      apply (cleaned_same_heap n s1 s' H); solve_cleaned
  end.

Ltac wp_skip :=
  lazymatch goal with
  | |- wp (r_consumerPollValueStatus _ _ _) _ _ _ =>
      eapply wp_mono; [apply wp_any|intros ? ? _|done]
  | |- wp (finally _ _) _ _ _ => eapply wp_mono; [apply wp_any|intros ? ? _|done]
  | |- wp (beginRecompute _) _ _ _ => eapply wp_mono; [apply wp_any|intros ? ? _|done]
  end.

Lemma recomputeValue_cleans fuel n s :
  wp (recomputeValue fuel n) s (fun _ s' => cleaned n s') (fun _ _ => True).
Proof.
  destruct fuel as [|fuel]; [done|].
  change (recomputeValue (S fuel) n) with (recomputeValue_body (engine fuel) n).
  unfold recomputeValue_body, endRecompute.
  repeat first [ wp_skip | wp_step | done | solve_cleaned ].
Qed.

Lemma check_cleans fuel n s :
  wp (checkForActuallyChangedValue fuel n) s (fun _ s' => cleaned n s') (fun _ _ => True).
Proof.
  destruct fuel as [|fuel]; [done|].
  change (checkForActuallyChangedValue (S fuel) n)
    with (checkForActuallyChangedValue_body (engine fuel) n).
  unfold checkForActuallyChangedValue_body.
  repeat first
    [ wp_skip | wp_step | apply (recomputeValue_cleans fuel n) | solve_cleaned
    | done
    | intros ? ? ? ?; simplify_eq;
      match goal with
      | H : bool_decide _ = true |- _ => by apply bool_decide_eq_true in H
      end ].
Qed.

Lemma producerAccessed_edges p s :
  wp (producerAccessed p) s (fun _ s' => edges_only s s') (fun _ _ => True).
Proof.
  unfold producerAccessed. repeat wp_step; try done.
  all: try apply edges_only_refl.
  all: match goal with
    | H1 : written _ _ _ ?s0 ?s1, H2 : written _ _ _ ?s1 ?s2 |- edges_only ?s0 ?s2 =>
        apply (edges_only_trans s0 s1 s2);
          [apply (edges_only_written _ _ _ _ _ H1), node_edges_only_consumers
          |apply (edges_only_written _ _ _ _ _ H2), node_edges_only_producers]
    end.
Qed.

Lemma cleaned_edges_only n s s' : edges_only s s' → cleaned n s → cleaned n s'.
Proof.
  intros [H _] Hcl nd' c' Hn' Hc'. specialize (H n). rewrite Hn' in H.
  inversion H as [nd ? (_ & _ & Hp) E1 E2|]; subst. rewrite Hc' in Hp.
  inversion Hp as [c ? (_ & _ & Hst) E3 E4|]; subst. rewrite Hst.
  by apply (Hcl nd c).
Qed.

Lemma value_cleans fuel n s :
  wp (value fuel n) s
    (fun v s' => cleaned n s' ∧ ∃ nd, heap s' !! n = Some nd ∧ _value nd = v)
    (fun _ _ => True).
Proof.
  destruct fuel as [|fuel]; [done|].
  change (value (S fuel) n) with (value_body (engine fuel) n).
  unfold value_body.
  wp_step. wp_step. wp_step. wp_step; [|done]. wp_step.
  - wp_step. eapply wp_mono; [apply (check_cleans fuel n)|intros [] s1 Hcl|done].
    wp_step. eapply wp_mono; [apply (producerAccessed_edges n)|intros [] s2 He|done].
    wp_step. wp_step; [|done]. wp_step.
    split; [by eapply cleaned_edges_only|eauto].
  - wp_step. eapply wp_mono; [apply (producerAccessed_edges n)|intros [] s2 He|done].
    wp_step.
    destruct (edges_only_lookup _ _ _ _ He ltac:(eassumption)) as (nd' & Hn' & _ & Hv & Hp).
    split; [|eauto].
    intros nd2 c2 Hn2 Hc2. assert (nd2 = nd') as -> by congruence.
    match goal with H : pipeline _ = None |- _ => rewrite H in Hp end.
    inversion Hp; congruence.
Qed.

(** The values the leaves hold. *)
Definition leaf_values (s : State) : list (NodeId * JSVal) :=
  omap (fun kv => match pipeline kv.2 with
                  | None => Some (kv.1, _value kv.2)
                  | Some _ => None
                  end) (map_to_list (heap s)).

(** C7, as amended.  When no leaf has another [valueVersion] at the
    second read of a node than after the first, whatever was called in
    between, the second read calls no [calculate()], and for a computed
    node it returns the value of the first read. *)
Theorem unchanged_versions_no_calculate fuel1 fuel2 n s0 v s1 ops outs s2 :
  activeConsumer s0 = None →
  value fuel1 n s0 = Ok v s1 →
  execAll fuel2 ops s1 = Some (outs, s2) →
  leaf_same s1 s2 →
  ∀ fuel, ∃ v' s3 evs,
    value (S (S fuel)) n s2 = Ok v' s3 ∧
    trace s3 = trace s2 ++ EvRead n :: evs ∧ (∀ m, EvCalculate m ∉ evs) ∧
    (∀ nd, heap s2 !! n = Some nd → is_Some (pipeline nd) → v' = v).
Proof.
  intros Hact Hread Hops Hsame fuel.
  destruct (wp_Ok _ _ _ _ _ _ (value_cleans fuel1 n s0) Hread) as [Hcl (nd1 & Hn1 & Hv1)].
  pose proof (wp_Ok _ _ _ _ _ _ (ao_value _ _ (engine_same_active fuel1) n s0) Hread) as Ha1.
  pose proof (execAll_preserves same_active fuel2 ops
                (fun s => eq_refl) (fun s1 s2 s3 H1 H2 => eq_trans H2 H1)
                (exec_same_active fuel2) _ _ _ Hops) as Ha2.
  unfold same_active in *.
  assert (Hok : active_ok s2) by (intros a Ha; congruence).
  destruct (execAll_quiet n _ _ _ _ _ Hops) as [Hg Hk].
  pose proof (Hg n) as Hgn. rewrite Hn1 in Hgn.
  inversion Hgn as [? nd2 [_ Hkind] E1 E2|]; subst. symmetry in E2.
  destruct (pipeline nd2) as [c2|] eqn:Hc2.
  - destruct (pipeline nd1) as [c1|] eqn:Hc1; [|done].
    destruct (Hk Hsame nd1 c1 Hn1 Hc1 (Hcl nd1 c1 Hn1 Hc1))
      as (nd2' & c2' & Hn2' & Hc2' & Hst2 & Hv2).
    assert (nd2' = nd2) as -> by congruence.
    assert (c2' = c2) as -> by congruence.
    destruct (value_clean fuel n s2 nd2 c2 E2 Hc2 Hst2 Hok) as (s3 & Hr & _ & evs & Ht & Hev).
    exists (_value nd2), s3, evs. split; [done|]. split; [done|]. split; [done|].
    intros ? _ _. congruence.
  - destruct (value_leaf (S fuel) n s2 nd2 E2 Hc2 Hok) as (s3 & Hr & _ & Ht).
    exists (_value nd2), s3, []. split; [done|]. split; [done|].
    split; [intros m; apply not_elem_of_nil|].
    intros nd Hnd [c Hc]. congruence.
Qed.

(** A leaf and a computed node that returns what the leaf holds. *)
Definition follower : list Node :=
  [newValuePipeline (VNum 0); newPipeline (Read 0 Ret)].

(** [a.set(1); a.set(0)] between two reads: the leaves hold what they
    held, and the second read calls [calculate()] once. *)
Lemma unchanged_values_one_calculate :
  ∃ s1 outs s2 s3,
    value 10 1 (initState follower) = Ok (VNum 0) s1 ∧
    execAll 10 [OpSetValue 0 (VNum 1); OpSetValue 0 (VNum 0)] s1 = Some (outs, s2) ∧
    leaf_values s2 = leaf_values s1 ∧
    value 10 1 s2 = Ok (VNum 0) s3 ∧
    trace s3 = trace s2 ++ [EvRead 1; EvCalculate 1; EvRead 0].
Proof.
  eexists _, _, _, _. split; [vm_compute; reflexivity|].
  split; [vm_compute; reflexivity|].
  split; [vm_compute; reflexivity|].
  split; vm_compute; reflexivity.
Qed.

(** The state after the first read of the computed node, and after a read
    of the leaf, a write of the value it holds and one more read. *)
Definition follower_read : State :=
  final (value 10 1 (initState follower)) (initState follower).

Definition follower_later : State :=
  final (exec 10 (OpRead 1)
    (final (exec 10 (OpSetValue 0 (VNum 0))
       (final (exec 10 (OpRead 0) follower_read) follower_read))
       follower_read)) follower_read.

Lemma unchanged_versions_no_calculate_witness :
  ∃ s3 evs,
    value 2 1 follower_later = Ok (VNum 0) s3 ∧
    trace s3 = trace follower_later ++ EvRead 1 :: evs ∧ ∀ m, EvCalculate m ∉ evs.
Proof.
  destruct (unchanged_versions_no_calculate 10 10 1 (initState follower) (VNum 0)
              follower_read [OpRead 0; OpSetValue 0 (VNum 0); OpRead 1]
              [Returned (Some (VNum 0)); Returned None; Returned (Some (VNum 0))]
              follower_later eq_refl) with (fuel := 0)
    as (v' & s3 & evs & Hr & Ht & Hev & Hv).
  - vm_compute. reflexivity.
  - vm_compute. reflexivity.
  - intros l nd nd' Hl Hp Hl'.
    destruct l as [|[|l]]; vm_compute in Hl, Hl'; simplify_eq; done.
  - exists s3, evs. split; [|done].
    rewrite Hr. f_equal. apply (Hv (default (newPipeline (Ret UNSET)) (heap follower_later !! 1))).
    + vm_compute. reflexivity.
    + vm_compute. by eexists.
Defined.

(** ** Dead edges *)

Section EdgeMapFacts.
Context {K V : Type} `{EqDecision K}.
Implicit Types (arr : list (option (K * V))) (e : EdgeMap.t K V).

(** The keys of the live pairs, in order. *)
Definition keys_of arr : list K := fst <$> omap id arr.

(** No key is held twice, in either object of the field. *)
Definition edge_wf e : Prop :=
  NoDup (keys_of (LinearMap.internalArray (EdgeMap.linear e))) ∧
  ∀ m, EdgeMap.hashed e = Some m → NoDup (keys_of (JSMap.mapData m)).

Lemma keys_of_cons_Some k v arr : keys_of (Some (k, v) :: arr) = k :: keys_of arr.
Proof. done. Qed.

Lemma keys_of_cons_None arr : keys_of (None :: arr) = keys_of arr.
Proof. done. Qed.

Lemma get_from_None arr k : k ∉ keys_of arr → LinearMap.get_from arr k = None.
Proof.
  induction arr as [|[[k' v']|] arr IH]; simpl; intros Hk; [done| |by apply IH].
  rewrite keys_of_cons_Some in Hk. apply not_elem_of_cons in Hk as [Hne Hk].
  rewrite bool_decide_eq_false_2 by done. by apply IH.
Qed.

Lemma index_of_None arr k : LinearMap.index_of arr k = None → k ∉ keys_of arr.
Proof.
  induction arr as [|[[k' v']|] arr IH]; simpl; intros Hi.
  - apply not_elem_of_nil.
  - rewrite keys_of_cons_Some. case_bool_decide; [done|].
    apply not_elem_of_cons. split; [done|]. apply IH.
    by destruct (LinearMap.index_of arr k).
  - rewrite keys_of_cons_None. apply IH. by destruct (LinearMap.index_of arr k).
Qed.

Lemma get_from_delete arr k i :
  NoDup (keys_of arr) → LinearMap.index_of arr k = Some i →
  LinearMap.get_from (<[i := None]> arr) k = None.
Proof.
  revert i. induction arr as [|[[k' v']|] arr IH]; simpl; intros i Hnd Hi; [done|..].
  - rewrite keys_of_cons_Some in Hnd. apply NoDup_cons in Hnd as [Hk' Hnd].
    case_bool_decide as Hk.
    + injection Hi as <-. simpl. subst k'. by apply get_from_None.
    + destruct (LinearMap.index_of arr k) as [j|] eqn:Hj; [|done].
      injection Hi as <-. simpl. rewrite bool_decide_eq_false_2 by done. by apply IH.
  - rewrite keys_of_cons_None in Hnd.
    destruct (LinearMap.index_of arr k) as [j|] eqn:Hj; [|done].
    injection Hi as <-. simpl. by apply IH.
Qed.

Lemma get_at_delete_at r e k :
  edge_wf e → EdgeMap.get_at r (EdgeMap.delete_at r e k) k = None.
Proof.
  intros [Hl Hh]. destruct r; simpl.
  - unfold LinearMap.get, LinearMap.delete.
    destruct (LinearMap.index_of _ k) as [i|] eqn:Hi; simpl.
    + by apply get_from_delete.
    + by apply get_from_None, index_of_None.
  - destruct (EdgeMap.hashed e) as [m|] eqn:Hm; [|done]. simpl.
    unfold JSMap.get, JSMap.delete. specialize (Hh m eq_refl).
    destruct (LinearMap.index_of _ k) as [i|] eqn:Hi; simpl.
    + by apply get_from_delete.
    + by apply get_from_None, index_of_None.
Qed.

Lemma current_delete_at r e k :
  EdgeMap.current (EdgeMap.delete_at r e k) = EdgeMap.current e.
Proof. destruct r; [done|]. unfold EdgeMap.current. simpl. by destruct (EdgeMap.hashed e). Qed.

Lemma get_delete e k : edge_wf e → EdgeMap.get (EdgeMap.delete e k) k = None.
Proof.
  intros Hwf. unfold EdgeMap.get, EdgeMap.delete.
  rewrite current_delete_at. by apply get_at_delete_at.
Qed.
End EdgeMapFacts.

(** What the polling loop does with a dead edge [p] of the consumer [n]:
    the two deletions. *)
Definition unlinked (ps : EdgeMap.MapRef) (n p : NodeId) (s s' : State) : Prop :=
  activeConsumer s' = activeConsumer s ∧ trace s' = trace s ∧
  (∀ m, m ≠ n → m ≠ p → heap s' !! m = heap s !! m) ∧
  (∀ nd c, heap s !! n = Some nd → pipeline nd = Some c →
     ∃ nd' c', heap s' !! n = Some nd' ∧ pipeline nd' = Some c' ∧
       producers c' = EdgeMap.delete_at ps (producers c) p ∧
       trackingVersion c' = trackingVersion c ∧ stale c' = stale c ∧
       _value nd' = _value nd ∧ valueVersion nd' = valueVersion nd) ∧
  (∀ pn, heap s !! p = Some pn →
     ∃ pn', heap s' !! p = Some pn' ∧
       consumers pn' = EdgeMap.delete (consumers pn) n ∧
       _value pn' = _value pn ∧ valueVersion pn' = valueVersion pn).

Lemma pollVisit_dead e n ps skip p lastSeen s nd c pn :
  skip ≠ Some p →
  heap s !! n = Some nd → pipeline nd = Some c → heap s !! p = Some pn →
  EdgeMap.get (consumers pn) n ≠ Some (trackingVersion c) →
  ∃ s', pollVisit e n ps skip p lastSeen s = Ok false s' ∧ unlinked ps n p s s'.
Proof.
  intros Hskip Hn Hc Hp Hdead. unfold pollVisit.
  rewrite bool_decide_eq_false_2 by done.
  rewrite (bind_Ok _ _ _ _ _ (consumer_Ok n s nd c Hn Hc)).
  rewrite (bind_Ok _ _ _ _ _ (node_Ok p s pn Hp)).
  rewrite bool_decide_eq_false_2 by done. change (negb false) with true. cbv iota.
  set (f := with_pipeline (with_producers (fun m => EdgeMap.delete_at ps m p))).
  set (g := with_consumers (fun m : EdgeMap.t NodeId nat => EdgeMap.delete m n)).
  rewrite (bind_Ok _ _ _ _ _ (modify_node_Ok f n s nd Hn)).
  set (s1 := set_heap _ s).
  assert (∃ pn1, heap s1 !! p = Some pn1 ∧
            pn1 = if decide (n = p) then f nd else pn) as (pn1 & Hp1 & Hpn1).
  { subst s1. simpl. destruct (decide (n = p)) as [->|Hne].
    - rewrite lookup_insert_eq. eauto.
    - rewrite lookup_insert_ne by done. eauto. }
  rewrite (bind_Ok _ _ _ _ _ (modify_node_Ok g p s1 pn1 Hp1)).
  eexists. split; [reflexivity|].
  split; [done|]. split; [done|]. split; [|split].
  - intros m Hmn Hmp. simpl. by rewrite !lookup_insert_ne.
  - intros nd' c' Hn' Hc'. assert (nd' = nd) as -> by congruence.
    assert (c' = c) as -> by congruence. simpl.
    destruct (decide (n = p)) as [->|Hne].
    + rewrite lookup_insert_eq. subst pn1.
      exists (g (f nd)), (with_producers (fun m => EdgeMap.delete_at ps m p) c).
      simpl. rewrite Hc. by repeat split.
    + rewrite lookup_insert_ne, lookup_insert_eq by done.
      exists (f nd), (with_producers (fun m => EdgeMap.delete_at ps m p) c).
      simpl. rewrite Hc. by repeat split.
  - intros pn' Hpn'. assert (pn' = pn) as -> by congruence. simpl.
    rewrite lookup_insert_eq. exists (g pn1). split; [done|]. subst pn1.
    destruct (decide (n = p)) as [->|Hne]; [|done].
    assert (pn = nd) as -> by congruence. done.
Qed.

(** C8, as amended.  When the polling loop of the consumer [n] comes to
    a recorded producer [p], not the remembered skip-producer, whose
    [consumers] map does not hold [n]'s current [trackingVersion], it
    deletes [p] from the [producers] map it iterates and [n] from
    [p.consumers], reports no change and goes on with the next entry; a
    notifier whose edge is dead is not polled and by itself reports no
    change either.  Nothing is said of the dead edges the loop does not
    come to. *)
Theorem dead_edge_removed fuel n ps skip p lastSeen s nd c pn :
  heap s !! n = Some nd → pipeline nd = Some c → heap s !! p = Some pn →
  EdgeMap.get (consumers pn) n ≠ Some (trackingVersion c) →
  (skip ≠ Some p →
   ∃ s', pollVisit (engine fuel) n ps skip p lastSeen s = Ok false s' ∧
     unlinked ps n p s s' ∧
     (edge_wf (producers c) → ∀ nd' c', heap s' !! n = Some nd' →
        pipeline nd' = Some c' → EdgeMap.get_at ps (producers c') p = None) ∧
     (edge_wf (consumers pn) → ∀ pn', heap s' !! p = Some pn' →
        EdgeMap.get (consumers pn') n = None) ∧
     (∀ it it', EdgeMap.iter_next it (producers c) = Some ((p, lastSeen), it') →
        pollLoop (S fuel) n ps skip it s = pollLoop fuel n ps skip it' s')) ∧
  consumerPollValueStatus (S fuel) n (StaleBy p) s =
    (if bool_decide (EdgeMap.size (producers c) = 1%Z) then Ok false s
     else pollLoop fuel n (EdgeMap.current (producers c)) (Some p)
            (EdgeMap.iter_start (EdgeMap.current (producers c)) (producers c)) s).
Proof.
  intros Hn Hc Hp Hdead. split.
  - intros Hskip.
    destruct (pollVisit_dead (engine fuel) n ps skip p lastSeen s nd c pn
                Hskip Hn Hc Hp Hdead) as (s' & Hv & Hu).
    exists s'. split; [done|]. split; [done|].
    destruct Hu as (_ & _ & _ & Hun & Hup).
    destruct (Hun nd c Hn Hc) as (nd1 & c1 & Hn1 & Hc1 & Hps & _).
    destruct (Hup pn Hp) as (pn1 & Hp1 & Hcs & _).
    split; [|split].
    + intros Hwf nd' c' Hn' Hc'. assert (nd' = nd1) as -> by congruence.
      assert (c' = c1) as -> by congruence. rewrite Hps. by apply get_at_delete_at.
    + intros Hwf pn' Hp'. assert (pn' = pn1) as -> by congruence.
      rewrite Hcs. by apply get_delete.
    + intros it it' Hit.
      change (pollLoop (S fuel) n ps skip it s)
        with (pollLoop_body (engine fuel) n ps skip it s).
      unfold pollLoop_body.
      rewrite (bind_Ok _ _ _ _ _ (consumer_Ok n s nd c Hn Hc)), Hit.
      by rewrite (bind_Ok _ _ _ _ _ Hv).
  - change (consumerPollValueStatus (S fuel) n (StaleBy p) s)
      with (consumerPollValueStatus_body (engine fuel) n (StaleBy p) s).
    unfold consumerPollValueStatus_body.
    rewrite (bind_Ok _ _ _ _ _ (consumer_Ok n s nd c Hn Hc)).
    rewrite (bind_Ok _ _ _ _ _ (node_Ok p s pn Hp)).
    rewrite bool_decide_eq_false_2 by done.
    rewrite (bind_Ok _ _ s false s) by done. cbv iota.
    rewrite (bind_Ok _ _ _ _ _ (consumer_Ok n s nd c Hn Hc)).
    fold (EdgeMap.size (producers c)). by case_bool_decide.
Qed.

(** [c] reads [y] and [flag], and [a] too while [flag] holds [true];
    [y] reads [x] and returns 0 whatever [x] holds. *)
Definition branching : list Node :=
  [ newValuePipeline (VNum 0);       (* 0: x *)
    newValuePipeline (VBool true);   (* 1: flag *)
    newValuePipeline (VNum 5);       (* 2: a *)
    newPipeline (Read 0 (fun _ => Ret (VNum 0)));   (* 3: y *)
    newPipeline (Read 3 (fun _ => Read 1 (fun f =>
      if strictEquals f (VBool true) then Read 2 Ret else Ret (VNum 9)))) (* 4: c *) ].

(** [c] has been computed with [flag] true and again with [flag] false,
    which leaves its edge to [a] dead; then [x] and [flag] were set. *)
Definition branching_stale : State :=
  default (initState branching)
    (snd <$> execAll 20
       [OpRead 4; OpSetValue 1 (VBool false); OpRead 4;
        OpSetValue 0 (VNum 1); OpSetValue 1 (VBool true)]
       (initState branching)).

(** The poll of [c], notified by [y], finds [y] unchanged and [flag]
    changed, and returns [true] before it comes to the dead edge to [a]:
    the edge is still recorded on both sides. *)
Lemma dead_edge_kept_by_early_return :
  ∃ s' nd c pn,
    consumerPollValueStatus 20 4 (StaleBy 3) branching_stale = Ok true s' ∧
    heap s' !! 4 = Some nd ∧ pipeline nd = Some c ∧ heap s' !! 2 = Some pn ∧
    trackingVersion c = 3 ∧
    EdgeMap.get (consumers pn) 4 = Some 2 ∧
    EdgeMap.get (producers c) 2 = Some 1.
Proof.
  eexists _, _, _, _. split; [vm_compute; reflexivity|].
  split; [vm_compute; reflexivity|]. split; [reflexivity|].
  split; [vm_compute; reflexivity|]. by vm_compute.
Qed.

Lemma dead_edge_removed_witness :
  ∃ s', pollVisit (engine 0) 4 EdgeMap.InLinear (Some 3) 2 1 branching_stale = Ok false s' ∧
    (∀ nd' c', heap s' !! 4 = Some nd' → pipeline nd' = Some c' →
       EdgeMap.get_at EdgeMap.InLinear (producers c') 2 = None) ∧
    (∀ pn', heap s' !! 2 = Some pn' → EdgeMap.get (consumers pn') 4 = None).
Proof.
  pose (nd := default (newValuePipeline UNSET) (heap branching_stale !! 4)).
  pose (c := default (BuildConsumer EdgeMap.empty 0 StaleTrue (Ret UNSET)) (pipeline nd)).
  pose (pn := default (newValuePipeline UNSET) (heap branching_stale !! 2)).
  destruct (dead_edge_removed 0 4 EdgeMap.InLinear (Some 3) 2 1 branching_stale nd c pn)
    as [Hvisit _].
  - vm_compute. reflexivity.
  - vm_compute. reflexivity.
  - vm_compute. reflexivity.
  - vm_compute. discriminate.
  - destruct Hvisit as (s' & Hv & _ & Hps & Hcs & _); [discriminate|].
    exists s'. split; [exact Hv|]. split.
    + apply Hps. split; [vm_compute|intros m; vm_compute; discriminate].
      apply (bool_decide_unpack _). vm_compute. exact I.
    + apply Hcs. split; [vm_compute|intros m; vm_compute; discriminate].
      apply (bool_decide_unpack _). vm_compute. exact I.
Defined.

(** ** The theorems at work on small graphs *)

(** A computed node whose [calculate()] throws. *)
Definition thrower : list Node := [newPipeline (Throw 1)].

Lemma active_consumer_restored_witness :
  ∃ s', execAll 10 [OpRead 0; OpRead 0] (initState thrower)
          = Some ([Thrown (UserError 1); Thrown Cycle], s') ∧
    activeConsumer s' = None.
Proof.
  eexists. split; [vm_compute; reflexivity|].
  destruct active_consumer_restored as (_ & _ & _ & _ & H).
  apply (H thrower 10 [OpRead 0; OpRead 0] [Thrown (UserError 1); Thrown Cycle]).
  vm_compute. reflexivity.
Defined.

(** The follower after its leaf was set to 1 and back to 0: stale, with
    the value 0 in cache. *)
Definition follower_stale : State :=
  default follower_read
    (snd <$> execAll 10 [OpSetValue 0 (VNum 1); OpSetValue 0 (VNum 0)] follower_read).

Lemma unchanged_value_keeps_identity_witness :
  ∃ s3, recomputeValue 6 1 follower_stale = Ok tt s3 ∧
    valueVersion <$> heap s3 !! (1 : NodeId)
      = valueVersion <$> heap follower_stale !! (1 : NodeId) ∧
    _value <$> heap s3 !! (1 : NodeId) = Some (VNum 0).
Proof.
  pose (s1 := final (beginRecompute 1 follower_stale) follower_stale).
  pose (s2 := final (calculateCall 5 1 s1) s1).
  destruct (unchanged_value_keeps_identity 5 1 follower_stale (VNum 0) None s1 (VNum 0) s2)
    as (s3 & nd & nd3 & Hr & Hn & _ & Hn3 & Hvv & Hv & _).
  - vm_compute. reflexivity.
  - vm_compute. reflexivity.
  - reflexivity.
  - exists s3. split; [exact Hr|]. rewrite Hn, Hn3. simpl. by rewrite Hvv, Hv.
Defined.

Lemma versions_never_decrease_witness :
  ∃ nd', heap follower_stale !! (0 : NodeId) = Some nd' ∧ 1 ≤ valueVersion nd'.
Proof.
  destruct versions_never_decrease as (H & _).
  destruct (H 10 [OpRead 1; OpSetValue 0 (VNum 1); OpSetValue 0 (VNum 0)]
              (initState follower)
              [Returned (Some (VNum 0)); Returned None; Returned None]
              follower_stale 0 (newValuePipeline (VNum 0)))
    as (nd' & Hn' & Hle & _).
  - vm_compute. reflexivity.
  - vm_compute. reflexivity.
  - exists nd'. split; [exact Hn'|exact Hle].
Defined.

Lemma setValue_identical_or_notify_witness :
  setValue 1 0 (VNum 0) follower_read = Ok tt follower_read ∧
  ∀ fuel s', setValue fuel 0 (VNum 3) follower_read = Ok tt s' →
    ∃ evs1 evs2, trace s' = trace follower_read ++ evs1 ++ EvNotify 1 (Some 0) :: evs2.
Proof.
  pose (nd := default (newValuePipeline UNSET) (heap follower_read !! 0)).
  destruct (setValue_identical_or_notify 0 follower_read nd (VNum 0)) as [Hsame _];
    [vm_compute; reflexivity|vm_compute; reflexivity|].
  destruct (setValue_identical_or_notify 0 follower_read nd (VNum 3)) as [_ Hnew];
    [vm_compute; reflexivity|vm_compute; reflexivity|].
  split; [apply (Hsame ltac:(vm_compute; reflexivity) 0)|].
  intros fuel s' Hrun.
  destruct (Hnew ltac:(vm_compute; discriminate)) as (_ & _ & Hall).
  destruct (Hall fuel s' Hrun) as [_ Hreg]. apply Hreg.
  exists nd, 2. split; [vm_compute; reflexivity|]. split.
  - vm_compute. apply list_elem_of_here.
  - eexists _, _. split; [vm_compute; reflexivity|]. split; reflexivity.
Defined.

Lemma mutateValue_throw_or_notify_witness :
  mutateValue 1 0 (fun _ => Throw 3) follower_read = Err (UserError 3) follower_read.
Proof.
  pose (nd := default (newValuePipeline UNSET) (heap follower_read !! 0)).
  destruct (mutateValue_throw_or_notify 0 (fun _ => Throw 3) follower_read nd) as (_ & H & _);
    [vm_compute; reflexivity|vm_compute; reflexivity|].
  exact (H 0 3 eq_refl).
Defined.

(** A [Pipeline] that is clean and in the COMPUTING state. *)
Definition trapped : State :=
  initState [BuildNode EdgeMap.empty 1 COMPUTING
               (Some (BuildConsumer EdgeMap.empty 2 StaleFalse (Ret (VNum 0))))].

Lemma notify_while_computing_witness :
  notify 1 0 None trapped =
    Err ChangedWhileCalculating (BuildState (heap trapped) None [EvNotify 0 None]).
Proof.
  destruct (notify_while_computing 0 trapped
              (BuildNode EdgeMap.empty 1 COMPUTING
                 (Some (BuildConsumer EdgeMap.empty 2 StaleFalse (Ret (VNum 0)))))
              (BuildConsumer EdgeMap.empty 2 StaleFalse (Ret (VNum 0)))
              eq_refl eq_refl eq_refl) as [_ H].
  destruct (H eq_refl) as [H1 _]. exact (H1 0 None).
Defined.

(** * The edge containers

    ** [LinearMap] and the edge fields as finite maps *)


Section EdgeMapLaws.
Context {K V : Type} `{EqDecision K}.
Implicit Types (arr : list (option (K * V))) (e : EdgeMap.t K V).

(** The object the field holds has no key twice, and the [size] of a
    LinearMap is the number of its pairs. *)
Definition edge_ok e : Prop :=
  match EdgeMap.hashed e with
  | Some m => NoDup (keys_of (JSMap.mapData m))
  | None =>
      NoDup (keys_of (LinearMap.internalArray (EdgeMap.linear e))) ∧
      LinearMap.size (EdgeMap.linear e)
        = Z.of_nat (length (keys_of (LinearMap.internalArray (EdgeMap.linear e))))
  end.

Lemma edge_ok_empty : edge_ok (EdgeMap.empty (K:=K) (V:=V)).
Proof. split; [constructor|done]. Qed.

Lemma keys_of_app arr1 arr2 : keys_of (arr1 ++ arr2) = keys_of arr1 ++ keys_of arr2.
Proof. unfold keys_of. by rewrite omap_app, fmap_app. Qed.

Lemma elem_of_keys_of arr k : k ∈ keys_of arr ↔ ∃ v, Some (k, v) ∈ arr.
Proof.
  unfold keys_of. rewrite list_elem_of_fmap. split.
  - intros ([k' v] & -> & Hin). apply list_elem_of_omap in Hin as (sl & Hin & Hsl).
    simpl in Hsl. subst sl. eauto.
  - intros (v & Hin). exists (k, v). split; [done|]. apply list_elem_of_omap.
    by exists (Some (k, v)).
Qed.

Lemma get_from_Some_elem arr k v :
  LinearMap.get_from arr k = Some v → Some (k, v) ∈ arr.
Proof.
  induction arr as [|[[k' v']|] arr IH]; simpl; [done|..].
  - case_bool_decide as Hk.
    + intros [= ->]. subst. apply list_elem_of_here.
    + intros Hg. apply list_elem_of_further. by apply IH.
  - intros Hg. apply list_elem_of_further. by apply IH.
Qed.

Lemma get_from_elem arr k v :
  NoDup (keys_of arr) → Some (k, v) ∈ arr → LinearMap.get_from arr k = Some v.
Proof.
  induction arr as [|[[k' v']|] arr IH]; simpl; intros Hnd Hin.
  - by apply elem_of_nil in Hin.
  - rewrite keys_of_cons_Some in Hnd. apply NoDup_cons in Hnd as [Hk' Hnd].
    apply elem_of_cons in Hin as [[= <- <-]|Hin].
    + by rewrite bool_decide_eq_true_2.
    + case_bool_decide as Hk; [|by apply IH]. subst k'.
      destruct Hk'. apply elem_of_keys_of. eauto.
  - apply elem_of_cons in Hin as [?|Hin]; [done|]. by apply IH.
Qed.

Lemma get_from_insert_found arr k v i k' :
  LinearMap.index_of arr k = Some i →
  LinearMap.get_from (<[i := Some (k, v)]> arr) k'
    = if decide (k = k') then Some v else LinearMap.get_from arr k'.
Proof.
  revert i. induction arr as [|sl arr IH]; simpl; intros i Hi; [done|].
  destruct (LinearMap.slot_has k sl) eqn:Hs.
  - injection Hi as <-. destruct sl as [[k0 v0]|]; [|done]. simpl in Hs.
    apply bool_decide_eq_true in Hs as ->. simpl.
    destruct (decide (k = k')) as [->|Hne].
    + by rewrite bool_decide_eq_true_2.
    + by rewrite !bool_decide_eq_false_2.
  - destruct (LinearMap.index_of arr k) as [j|]; [|done]. injection Hi as <-. simpl.
    destruct sl as [[k0 v0]|]; [|by apply IH]. simpl in Hs.
    apply bool_decide_eq_false in Hs. case_bool_decide as Hk0; [|by apply IH].
    subst k0. by rewrite decide_False.
Qed.

Lemma keys_of_insert_found arr k v i :
  LinearMap.index_of arr k = Some i → keys_of (<[i := Some (k, v)]> arr) = keys_of arr.
Proof.
  revert i. induction arr as [|sl arr IH]; simpl; intros i Hi; [done|].
  destruct (LinearMap.slot_has k sl) eqn:Hs.
  - injection Hi as <-. destruct sl as [[k0 v0]|]; [|done]. simpl in Hs.
    apply bool_decide_eq_true in Hs as ->. done.
  - destruct (LinearMap.index_of arr k) as [j|]; [|done]. injection Hi as <-. simpl.
    destruct sl as [[k0 v0]|].
    + rewrite !keys_of_cons_Some. f_equal. by apply IH.
    + rewrite !keys_of_cons_None. by apply IH.
Qed.

Lemma get_from_insert_null arr k v j k' :
  LinearMap.null_index arr = Some j → k ∉ keys_of arr →
  LinearMap.get_from (<[j := Some (k, v)]> arr) k'
    = if decide (k = k') then Some v else LinearMap.get_from arr k'.
Proof.
  revert j. induction arr as [|[[k0 v0]|] arr IH]; simpl; intros j Hj Hk; [done|..].
  - destruct (LinearMap.null_index arr) as [i|]; [|done]. injection Hj as <-. simpl.
    rewrite keys_of_cons_Some in Hk. apply not_elem_of_cons in Hk as [Hne Hk].
    case_bool_decide as Hk0; [|by apply IH]. subst k0. by rewrite decide_False.
  - injection Hj as <-. simpl. destruct (decide (k = k')) as [->|Hne].
    + by rewrite bool_decide_eq_true_2.
    + by rewrite bool_decide_eq_false_2.
Qed.

Lemma keys_of_insert_null arr k v j :
  LinearMap.null_index arr = Some j →
  keys_of (<[j := Some (k, v)]> arr) ≡ₚ k :: keys_of arr.
Proof.
  revert j. induction arr as [|[[k0 v0]|] arr IH]; simpl; intros j Hj; [done|..].
  - destruct (LinearMap.null_index arr) as [i|]; [|done]. injection Hj as <-. simpl.
    rewrite !keys_of_cons_Some, (IH i) by done. apply Permutation_swap.
  - by injection Hj as <-.
Qed.

Lemma get_from_app_new arr k v k' :
  k ∉ keys_of arr →
  LinearMap.get_from (arr ++ [Some (k, v)]) k'
    = if decide (k = k') then Some v else LinearMap.get_from arr k'.
Proof.
  induction arr as [|[[k0 v0]|] arr IH]; simpl; intros Hk.
  - destruct (decide (k = k')) as [->|Hne].
    + by rewrite bool_decide_eq_true_2.
    + by rewrite bool_decide_eq_false_2.
  - rewrite keys_of_cons_Some in Hk. apply not_elem_of_cons in Hk as [Hne Hk].
    case_bool_decide as Hk0; [|by apply IH]. subst k0. by rewrite decide_False.
  - by apply IH.
Qed.

Lemma get_from_insert_None arr k i k' :
  NoDup (keys_of arr) → LinearMap.index_of arr k = Some i →
  LinearMap.get_from (<[i := None]> arr) k'
    = if decide (k = k') then None else LinearMap.get_from arr k'.
Proof.
  intros Hnd Hi. destruct (decide (k = k')) as [<-|Hne]; [by apply get_from_delete|].
  revert i Hnd Hi. induction arr as [|sl arr IH]; simpl; intros i Hnd Hi; [done|].
  destruct (LinearMap.slot_has k sl) eqn:Hs.
  - injection Hi as <-. destruct sl as [[k0 v0]|]; [|done]. simpl in Hs.
    apply bool_decide_eq_true in Hs as ->. simpl. by rewrite bool_decide_eq_false_2.
  - destruct (LinearMap.index_of arr k) as [j|] eqn:Hj; [|done]. injection Hi as <-.
    simpl. destruct sl as [[k0 v0]|].
    + rewrite keys_of_cons_Some in Hnd. apply NoDup_cons in Hnd as [_ Hnd].
      case_bool_decide; [done|]. by apply IH.
    + by apply IH.
Qed.

Lemma keys_of_insert_None arr k i :
  LinearMap.index_of arr k = Some i → keys_of arr ≡ₚ k :: keys_of (<[i := None]> arr).
Proof.
  revert i. induction arr as [|sl arr IH]; simpl; intros i Hi; [done|].
  destruct (LinearMap.slot_has k sl) eqn:Hs.
  - injection Hi as <-. destruct sl as [[k0 v0]|]; [|done]. simpl in Hs.
    apply bool_decide_eq_true in Hs as ->. done.
  - destruct (LinearMap.index_of arr k) as [j|] eqn:Hj; [|done]. injection Hi as <-.
    simpl. destruct sl as [[k0 v0]|].
    + rewrite !keys_of_cons_Some, (IH j) at 1 by done. apply Permutation_swap.
    + rewrite !keys_of_cons_None. by apply IH.
Qed.

Lemma omap_id_tuples (l : list (K * V)) : omap id (Some <$> l) = l.
Proof. induction l as [|x l IH]; [done|]. simpl. by f_equal. Qed.

Lemma keys_of_tuples (l : list (K * V)) : keys_of (Some <$> l) = l.*1.
Proof. unfold keys_of. by rewrite omap_id_tuples. Qed.

Lemma get_from_tuples arr k :
  LinearMap.get_from (Some <$> omap id arr) k = LinearMap.get_from arr k.
Proof.
  induction arr as [|[[k0 v0]|] arr IH]; simpl; [done| |done].
  by case_bool_decide.
Qed.

(** [get], [set], [delete] and the replacement by a Map. *)
Lemma get_upgrade e k : EdgeMap.get (EdgeMap.upgrade e) k = EdgeMap.get e k.
Proof.
  unfold EdgeMap.upgrade, EdgeMap.get, EdgeMap.current.
  destruct (EdgeMap.hashed e) eqn:Hh; [by rewrite Hh|].
  case_bool_decide; simpl; [|by rewrite Hh].
  unfold JSMap.get, JSMap.of_tuples, LinearMap.toTuples, LinearMap.get. simpl.
  apply get_from_tuples.
Qed.

Lemma edge_ok_upgrade e : edge_ok e → edge_ok (EdgeMap.upgrade e).
Proof.
  unfold EdgeMap.upgrade, edge_ok. destruct (EdgeMap.hashed e) eqn:Hh; [by rewrite Hh|].
  intros [Hnd Hsz]. case_bool_decide; simpl; [|by rewrite Hh].
  unfold LinearMap.toTuples. by rewrite keys_of_tuples.
Qed.

Lemma get_set e k v k' :
  EdgeMap.get (EdgeMap.set e k v) k' = if decide (k = k') then Some v else EdgeMap.get e k'.
Proof.
  unfold EdgeMap.get, EdgeMap.set, EdgeMap.current.
  destruct (EdgeMap.hashed e) as [m|] eqn:Hh; simpl; rewrite Hh; simpl.
  - unfold JSMap.get, JSMap.set.
    destruct (LinearMap.index_of (JSMap.mapData m) k) as [i|] eqn:Hi; simpl.
    + by apply get_from_insert_found.
    + by apply get_from_app_new, index_of_None.
  - unfold LinearMap.get, LinearMap.set.
    destruct (LinearMap.index_of _ k) as [i|] eqn:Hi; simpl.
    + by apply get_from_insert_found.
    + destruct (LinearMap.null_index _) as [j|] eqn:Hj; simpl.
      * by apply get_from_insert_null, index_of_None.
      * by apply get_from_app_new, index_of_None.
Qed.

Lemma edge_ok_set e k v : edge_ok e → edge_ok (EdgeMap.set e k v).
Proof.
  unfold edge_ok, EdgeMap.set, EdgeMap.current.
  destruct (EdgeMap.hashed e) as [m|] eqn:Hh; simpl; rewrite Hh; simpl.
  - intros Hnd. unfold JSMap.set.
    destruct (LinearMap.index_of (JSMap.mapData m) k) as [i|] eqn:Hi; simpl.
    + by rewrite keys_of_insert_found.
    + rewrite keys_of_app. apply NoDup_app. split; [done|]. split; [|apply NoDup_singleton].
      intros x Hx Hx'. apply list_elem_of_singleton in Hx' as ->.
      by apply (index_of_None _ _ Hi).
  - intros [Hnd Hsz]. unfold LinearMap.set.
    destruct (LinearMap.index_of _ k) as [i|] eqn:Hi; simpl.
    + by rewrite keys_of_insert_found.
    + pose proof (index_of_None _ _ Hi) as Hk.
      destruct (LinearMap.null_index _) as [j|] eqn:Hj; simpl.
      * rewrite (keys_of_insert_null _ _ _ _ Hj). split; [by apply NoDup_cons|].
        simpl. lia.
      * rewrite keys_of_app. split.
        -- apply NoDup_app. split; [done|]. split; [|apply NoDup_singleton].
           intros x Hx Hx'. by apply list_elem_of_singleton in Hx' as ->.
        -- rewrite length_app. simpl. lia.
Qed.

Lemma edge_ok_delete e k : edge_ok e → edge_ok (EdgeMap.delete e k).
Proof.
  unfold edge_ok, EdgeMap.delete, EdgeMap.current.
  destruct (EdgeMap.hashed e) as [m|] eqn:Hh; simpl; rewrite Hh; simpl.
  - intros Hnd. unfold JSMap.delete.
    destruct (LinearMap.index_of (JSMap.mapData m) k) as [i|] eqn:Hi; simpl; [|done].
    rewrite (keys_of_insert_None _ _ _ Hi) in Hnd. by apply NoDup_cons in Hnd as [_ ?].
  - intros [Hnd Hsz]. unfold LinearMap.delete.
    destruct (LinearMap.index_of _ k) as [i|] eqn:Hi; simpl; [|done].
    pose proof (keys_of_insert_None _ _ _ Hi) as Hp.
    rewrite Hp in Hnd. apply NoDup_cons in Hnd as [_ ?]. split; [done|].
    rewrite Hsz, Hp. simpl. lia.
Qed.

(** The pairs of the object the field holds, and its size. *)
Lemma entries_keys e : edge_ok e → NoDup (EdgeMap.entries e).*1.
Proof.
  unfold edge_ok, EdgeMap.entries, EdgeMap.current.
  destruct (EdgeMap.hashed e) as [m|] eqn:Hh; simpl; rewrite ?Hh; simpl;
    [done|by intros []].
Qed.

Lemma size_entries e :
  edge_ok e → EdgeMap.size e = Z.of_nat (length (EdgeMap.entries e)).
Proof.
  unfold edge_ok, EdgeMap.entries, EdgeMap.size, EdgeMap.current.
  destruct (EdgeMap.hashed e) as [m|] eqn:Hh; simpl; rewrite ?Hh; simpl.
  - done.
  - intros [_ ->]. unfold keys_of, LinearMap.toTuples. by rewrite length_fmap.
Qed.

Implicit Types (m : LinearMap.t K V).

Lemma index_of_is_Some arr k :
  is_Some (LinearMap.index_of arr k) ↔ is_Some (LinearMap.get_from arr k).
Proof.
  induction arr as [|[[k0 v0]|] arr IH]; simpl.
  - split; by intros [? ?].
  - case_bool_decide; [split; eauto|]. rewrite <- IH.
    destruct (LinearMap.index_of arr k); simpl; split; intros [? ?]; eauto; done.
  - rewrite <- IH.
    destruct (LinearMap.index_of arr k); simpl; split; intros [? ?]; eauto; done.
Qed.

Lemma null_index_None arr :
  LinearMap.null_index arr = None → (None ∉ arr) ∧ length (keys_of arr) = length arr.
Proof.
  induction arr as [|[[k0 v0]|] arr IH]; intros Hn.
  - split; [apply not_elem_of_nil|done].
  - simpl in Hn. destruct (LinearMap.null_index arr); [done|].
    destruct (IH eq_refl) as [Hnin Hlen].
    split; [by apply not_elem_of_cons|]. rewrite keys_of_cons_Some. simpl. by rewrite Hlen.
  - done.
Qed.

Lemma length_keys_of arr : length (keys_of arr) ≤ length arr.
Proof.
  induction arr as [|[[k0 v0]|] arr IH]; [done|..].
  - rewrite keys_of_cons_Some. simpl. lia.
  - rewrite keys_of_cons_None. simpl. lia.
Qed.

Lemma null_index_Some arr j :
  LinearMap.null_index arr = Some j → arr !! j = Some None.
Proof.
  revert j. induction arr as [|[[k0 v0]|] arr IH]; simpl; intros j Hj; [done|..].
  - destruct (LinearMap.null_index arr) as [i|]; [|done]. injection Hj as <-.
    by apply IH.
  - by injection Hj as <-.
Qed.

(** A [LinearMap] whose keys are distinct and whose [size] is the number
    of its pairs. *)
Definition linear_ok (m : LinearMap.t K V) : Prop :=
  NoDup (LinearMap.toTuples m).*1 ∧
  LinearMap.size m = Z.of_nat (length (LinearMap.toTuples m)).

Lemma linear_ok_keys m :
  linear_ok m ↔
  NoDup (keys_of (LinearMap.internalArray m)) ∧
  LinearMap.size m = Z.of_nat (length (keys_of (LinearMap.internalArray m))).
Proof. unfold linear_ok, LinearMap.toTuples, keys_of. by rewrite length_fmap. Qed.

Lemma linear_ok_empty : linear_ok LinearMap.empty.
Proof. split; [constructor|done]. Qed.

Lemma linear_ok_set m k v : linear_ok m → linear_ok (LinearMap.set m k v).
Proof.
  rewrite !linear_ok_keys. intros [Hnd Hsz]. unfold LinearMap.set.
  destruct (LinearMap.index_of _ k) as [i|] eqn:Hi; simpl.
  - by rewrite keys_of_insert_found.
  - pose proof (index_of_None _ _ Hi) as Hk.
    destruct (LinearMap.null_index _) as [j|] eqn:Hj; simpl.
    + rewrite (keys_of_insert_null _ _ _ _ Hj). split; [by apply NoDup_cons|].
      simpl. lia.
    + rewrite keys_of_app. split.
      * apply NoDup_app. split; [done|]. split; [|apply NoDup_singleton].
        intros x Hx Hx'. by apply list_elem_of_singleton in Hx' as ->.
      * rewrite length_app. simpl. lia.
Qed.

Lemma linear_ok_delete m k : linear_ok m → linear_ok (LinearMap.delete m k).
Proof.
  rewrite !linear_ok_keys. intros [Hnd Hsz]. unfold LinearMap.delete.
  destruct (LinearMap.index_of _ k) as [i|] eqn:Hi; simpl; [|done].
  pose proof (keys_of_insert_None _ _ _ Hi) as Hp.
  rewrite Hp in Hnd. apply NoDup_cons in Hnd as [_ ?]. split; [done|].
  rewrite Hsz, Hp. simpl. lia.
Qed.

Lemma linear_ok_defragment m : linear_ok m → linear_ok (LinearMap.defragment m).
Proof.
  unfold linear_ok, LinearMap.defragment, LinearMap.toTuples. simpl.
  by rewrite omap_id_tuples.
Qed.

(** The calls a client makes on a [LinearMap]. *)
Inductive MapCall : Type :=
  | CallSet (k : K) (v : V)
  | CallDelete (k : K)
  | CallDefragment.

Definition call_on (m : LinearMap.t K V) (c : MapCall) : LinearMap.t K V :=
  match c with
  | CallSet k v => LinearMap.set m k v
  | CallDelete k => LinearMap.delete m k
  | CallDefragment => LinearMap.defragment m
  end.

(** [new LinearMap()] after the calls [calls], made in order. *)
Definition built (calls : list MapCall) : LinearMap.t K V :=
  foldl call_on LinearMap.empty calls.

Lemma built_ok calls : linear_ok (built calls).
Proof.
  unfold built. induction calls as [|c calls IH] using rev_ind; [apply linear_ok_empty|].
  rewrite foldl_app. simpl.
  destruct c; simpl; [by apply linear_ok_set|by apply linear_ok_delete
                     |by apply linear_ok_defragment].
Qed.

Lemma linear_get_delete m k k' :
  NoDup (keys_of (LinearMap.internalArray m)) →
  LinearMap.get (LinearMap.delete m k) k'
    = if decide (k = k') then None else LinearMap.get m k'.
Proof.
  intros Hnd. unfold LinearMap.get, LinearMap.delete.
  destruct (LinearMap.index_of _ k) as [i|] eqn:Hi; simpl.
  - by apply get_from_insert_None.
  - destruct (decide (k = k')) as [<-|]; [|done].
    by apply get_from_None, index_of_None.
Qed.

(** [get] after [set]: the key set is found with the value set, and every
    other key as before, whatever the array holds. *)
Lemma LinearMap_get_set (m : LinearMap.t K V) k v k' :
  LinearMap.get (LinearMap.set m k v) k'
    = if decide (k = k') then Some v else LinearMap.get m k'.
Proof.
  unfold LinearMap.get, LinearMap.set.
  destruct (LinearMap.index_of _ k) as [i|] eqn:Hi; simpl.
  - by apply get_from_insert_found.
  - destruct (LinearMap.null_index _) as [j|] eqn:Hj; simpl.
    + by apply get_from_insert_null, index_of_None.
    + by apply get_from_app_new, index_of_None.
Qed.

(** In a map built by [set], [delete] and [defragment] no key is held
    twice, and [size] is the number of pairs [toTuples] yields. *)
Lemma LinearMap_size_counts_pairs (calls : list MapCall) :
  NoDup (LinearMap.toTuples (built calls)).*1 ∧
  LinearMap.size (built calls) = Z.of_nat (length (LinearMap.toTuples (built calls))).
Proof. apply built_ok. Qed.

(** [delete] on a map built by [set], [delete] and [defragment]: the key
    is found no more, every other key as before; [size] goes down by one
    when the key was there, and the map is left as it is when it was not. *)
Lemma LinearMap_get_delete (calls : list MapCall) k :
  let m := built calls in
  (∀ k', LinearMap.get (LinearMap.delete m k) k'
           = if decide (k = k') then None else LinearMap.get m k') ∧
  (is_Some (LinearMap.get m k) →
     LinearMap.size (LinearMap.delete m k) = (LinearMap.size m - 1)%Z) ∧
  (LinearMap.get m k = None → LinearMap.delete m k = m).
Proof.
  intros m. pose proof (proj1 (linear_ok_keys m) (built_ok calls)) as [Hnd _].
  split; [intros k'; by apply linear_get_delete|]. unfold LinearMap.get, LinearMap.delete.
  split.
  - intros Hg. apply index_of_is_Some in Hg as [i ->]. done.
  - intros Hg. destruct (LinearMap.index_of _ k) as [i|] eqn:Hi; [|done].
    assert (is_Some (LinearMap.get_from (LinearMap.internalArray m) k)) as [? ?]
      by (apply index_of_is_Some; eauto).
    congruence.
Qed.

(** [toTuples] of a map built by [set], [delete] and [defragment] yields
    exactly the pairs [get] finds. *)
Lemma LinearMap_toTuples_get (calls : list MapCall) k v :
  (k, v) ∈ LinearMap.toTuples (built calls) ↔ LinearMap.get (built calls) k = Some v.
Proof.
  pose proof (proj1 (linear_ok_keys _) (built_ok calls)) as [Hnd _].
  unfold LinearMap.get, LinearMap.toTuples. rewrite list_elem_of_omap. split.
  - intros (sl & Hin & Hsl). simpl in Hsl. subst sl. by apply get_from_elem.
  - intros Hg. exists (Some (k, v)). split; [|done]. by apply get_from_Some_elem.
Qed.

(** [defragment] drops the tombstones and nothing else: the array
    becomes the pairs of [toTuples] in their order, every [get] finds what
    it found, and [size] stays. *)
Lemma LinearMap_defragment_compacts (m : LinearMap.t K V) :
  LinearMap.internalArray (LinearMap.defragment m) = Some <$> LinearMap.toTuples m ∧
  LinearMap.toTuples (LinearMap.defragment m) = LinearMap.toTuples m ∧
  (∀ k, LinearMap.get (LinearMap.defragment m) k = LinearMap.get m k) ∧
  LinearMap.size (LinearMap.defragment m) = LinearMap.size m ∧
  length (LinearMap.internalArray (LinearMap.defragment m))
    ≤ length (LinearMap.internalArray m).
Proof.
  unfold LinearMap.defragment, LinearMap.toTuples, LinearMap.get. simpl.
  split; [done|]. split; [apply omap_id_tuples|]. split; [intros k; apply get_from_tuples|].
  split; [done|]. rewrite length_fmap.
  pose proof (length_keys_of (LinearMap.internalArray m)) as Hle.
  unfold keys_of in Hle. by rewrite length_fmap in Hle.
Qed.

(** X6.  [set] takes the place of the key when the map holds it, else the
    first tombstone, and makes the array longer, by one pair, only when
    there is neither. *)
Theorem LinearMap_set_reuses_tombstones (m : LinearMap.t K V) k v :
  (is_Some (LinearMap.get m k) ∨ None ∈ LinearMap.internalArray m →
     length (LinearMap.internalArray (LinearMap.set m k v))
       = length (LinearMap.internalArray m)) ∧
  (LinearMap.get m k = None → None ∉ LinearMap.internalArray m →
     LinearMap.internalArray (LinearMap.set m k v)
       = LinearMap.internalArray m ++ [Some (k, v)]) ∧
  (LinearMap.get m k = None →
     LinearMap.size (LinearMap.set m k v) = (LinearMap.size m + 1)%Z) ∧
  (is_Some (LinearMap.get m k) →
     LinearMap.size (LinearMap.set m k v) = LinearMap.size m).
Proof.
  unfold LinearMap.get, LinearMap.set.
  destruct (LinearMap.index_of _ k) as [i|] eqn:Hi; simpl.
  - assert (is_Some (LinearMap.get_from (LinearMap.internalArray m) k)) as [w Hw]
      by (apply index_of_is_Some; eauto).
    split; [intros _; apply length_insert|]. rewrite Hw. by repeat split.
  - assert (LinearMap.get_from (LinearMap.internalArray m) k = None) as Hg.
    { destruct (LinearMap.get_from _ k) eqn:E; [|done].
      assert (is_Some (LinearMap.index_of (LinearMap.internalArray m) k)) as [? ?]
        by (apply index_of_is_Some; eauto).
      congruence. }
    rewrite Hg. destruct (LinearMap.null_index _) as [j|] eqn:Hj; simpl.
    + split; [intros _; apply length_insert|]. split; [|split; [done|by intros [? ?]]].
      intros _ Hnin. destruct Hnin. eapply list_elem_of_lookup_2, null_index_Some, Hj.
    + split; [|split; [done|split; [done|by intros [? ?]]]].
      intros [[? ?]|Hin]; [done|]. by destruct (proj1 (null_index_None _ Hj)).
Qed.

(** *** The edge fields *)

Lemma get_upgrade_set e k v k' :
  EdgeMap.get (EdgeMap.upgrade (EdgeMap.set e k v)) k'
    = if decide (k = k') then Some v else EdgeMap.get e k'.
Proof. by rewrite get_upgrade, get_set. Qed.

Lemma edge_ok_delete_at r e k : edge_ok e → edge_ok (EdgeMap.delete_at r e k).
Proof.
  intros Hok. destruct r.
  - destruct (EdgeMap.hashed e) as [m|] eqn:Hh.
    + unfold edge_ok in *. simpl. by rewrite Hh in *.
    + assert (EdgeMap.delete_at EdgeMap.InLinear e k = EdgeMap.delete e k) as ->;
        [|by apply edge_ok_delete].
      unfold EdgeMap.delete, EdgeMap.current. by rewrite Hh.
  - destruct (EdgeMap.hashed e) as [m|] eqn:Hh.
    + assert (EdgeMap.delete_at EdgeMap.InHashed e k = EdgeMap.delete e k) as ->;
        [|by apply edge_ok_delete].
      unfold EdgeMap.delete, EdgeMap.current. by rewrite Hh.
    + unfold edge_ok in *. simpl. by rewrite Hh in *.
Qed.

(** The calls the engine makes on an edge field: [set] and then the test
    that replaces a LinearMap of 100 pairs by a Map ([producerAccessed]),
    and [delete], on the object the field holds or on the LinearMap a
    loop captured before the replacement. *)
Inductive FieldCall : Type :=
  | FieldSet (k : K) (v : V)
  | FieldDelete (r : EdgeMap.MapRef) (k : K).

Definition field_call (e : EdgeMap.t K V) (c : FieldCall) : EdgeMap.t K V :=
  match c with
  | FieldSet k v => EdgeMap.upgrade (EdgeMap.set e k v)
  | FieldDelete r k => EdgeMap.delete_at r e k
  end.

(** A field built with [new LinearMap()], after the calls [calls]. *)
Definition field_after (calls : list FieldCall) : EdgeMap.t K V :=
  foldl field_call EdgeMap.empty calls.

(** While the field holds a LinearMap, that map is short. *)
Definition field_small e : Prop :=
  EdgeMap.hashed e = None →
  length (LinearMap.internalArray (EdgeMap.linear e)) < 100 ∧
  (LinearMap.size (EdgeMap.linear e) < 100)%Z.

Lemma field_small_set e k v :
  edge_ok e → field_small e → field_small (EdgeMap.upgrade (EdgeMap.set e k v)).
Proof.
  intros Hok Hsm. unfold field_small, edge_ok in *.
  destruct e as [l [m|]]; simpl in *.
  - unfold EdgeMap.upgrade, EdgeMap.set. simpl. done.
  - destruct Hok as [Hnd Hsz]. destruct (Hsm eq_refl) as [Hlen Hlt].
    unfold EdgeMap.upgrade, EdgeMap.set. simpl.
    case_bool_decide as H100; simpl; [done|]. intros _.
    revert H100. unfold LinearMap.set.
    destruct (LinearMap.index_of _ k) as [i|] eqn:Hi; simpl.
    + intros _. by rewrite length_insert.
    + destruct (LinearMap.null_index _) as [j|] eqn:Hj; simpl.
      * intros ?. rewrite length_insert. split; [done|lia].
      * intros ?. destruct (null_index_None _ Hj) as [_ Hfull].
        rewrite length_app. simpl. split; lia.
Qed.

Lemma field_small_delete_at r e k : field_small e → field_small (EdgeMap.delete_at r e k).
Proof.
  intros Hsm. unfold field_small in *. destruct r; simpl.
  - intros Hh. destruct (Hsm Hh) as [Hlen Hlt]. unfold LinearMap.delete.
    destruct (LinearMap.index_of _ k); simpl; [|done]. rewrite length_insert. split; [done|lia].
  - destruct (EdgeMap.hashed e); simpl; [done|]. intros _. by apply Hsm.
Qed.

Lemma field_after_ok calls : edge_ok (field_after calls) ∧ field_small (field_after calls).
Proof.
  unfold field_after. induction calls as [|c calls [IH1 IH2]] using rev_ind.
  - split; [apply edge_ok_empty|]. intros _. simpl. split; [lia|done].
  - rewrite foldl_app. simpl. destruct c as [k v|r k]; simpl.
    + split; [by apply edge_ok_upgrade, edge_ok_set|by apply field_small_set].
    + split; [by apply edge_ok_delete_at|by apply field_small_delete_at].
Qed.

(** X7.  An edge field the engine has worked on holds no key twice, its [size]
    is the number of its pairs, and while it is a LinearMap it holds fewer
    than 100 pairs in an array of fewer than 100 places: the scans of
    [get], [set] and [delete] stay short. *)
Theorem edge_field_stays_small (calls : list FieldCall) :
  let e := field_after calls in
  NoDup (EdgeMap.entries e).*1 ∧
  EdgeMap.size e = Z.of_nat (length (EdgeMap.entries e)) ∧
  (EdgeMap.current e = EdgeMap.InLinear →
     length (LinearMap.internalArray (EdgeMap.linear e)) < 100 ∧
     (EdgeMap.size e < 100)%Z).
Proof.
  intros e. destruct (field_after_ok calls) as [Hok Hsm]. fold e in Hok, Hsm.
  split; [by apply entries_keys|]. split; [by apply size_entries|].
  unfold EdgeMap.current, EdgeMap.size, EdgeMap.current.
  destruct (EdgeMap.hashed e) eqn:Hh; [done|]. intros _. by apply Hsm.
Qed.

(** X8.  The replacement of a LinearMap by a Map is made exactly when the
    LinearMap holds 100 pairs, and it shows in no lookup and in no
    iteration: [get] finds what it found, the pairs come in the same
    order, and the LinearMap object itself is left as it is. *)
Theorem edge_field_upgrade_keeps (e : EdgeMap.t K V) :
  (∀ k, EdgeMap.get (EdgeMap.upgrade e) k = EdgeMap.get e k) ∧
  EdgeMap.entries (EdgeMap.upgrade e) = EdgeMap.entries e ∧
  EdgeMap.linear (EdgeMap.upgrade e) = EdgeMap.linear e ∧
  (EdgeMap.current (EdgeMap.upgrade e) = EdgeMap.InHashed ↔
     EdgeMap.current e = EdgeMap.InHashed ∨ LinearMap.size (EdgeMap.linear e) = 100%Z).
Proof.
  split; [intros k; apply get_upgrade|].
  destruct e as [l [m|]]; unfold EdgeMap.upgrade, EdgeMap.entries, EdgeMap.current; simpl.
  - split; [done|]. split; [done|]. split; auto.
  - case_bool_decide as H100; simpl.
    + split; [by rewrite omap_id_tuples|]. split; [done|]. split; auto.
    + split; [done|]. split; [done|]. split; [done|]. by intros [?|?].
Qed.
End EdgeMapLaws.
Arguments MapCall : clear implicits.
Arguments FieldCall : clear implicits.

(** * LinearMap, array cell by array cell

    The class as it is written: [internalArray] is one flat array of keys
    and values, a deleted pair is two [null]s stored in the array itself,
    and keys are compared with [===].  What a client can store is any
    JavaScript value, [null], [undefined] and [NaN] among them. *)

Module FlatMap.

(** A JavaScript value as a client of the class can pass it. *)
Inductive Js : Type :=
  | JNull
  | JUndefined
  | JNaN
  | JVal (v : JSVal).

#[global] Instance Js_eq_dec : EqDecision Js.
Proof. solve_decision. Defined.

(** [a === b]: [NaN] is identical to nothing, itself included. *)
Definition strict_eq (a b : Js) : bool :=
  match a with
  | JNaN => false
  | _ => bool_decide (a = b)
  end.

Record t : Type := Build {
  internalArray : list Js;
  size : Z
}.

Definition empty : t := Build [] 0.

(** [arr[i]]: [undefined] past the end. *)
Definition at_index (arr : list Js) (i : nat) : Js := default JUndefined (arr !! i).

(** [arr[i] = x]: past the end the array grows, and the places left out
    read as [undefined]. *)
Definition assign (arr : list Js) (i : nat) (x : Js) : list Js :=
  if decide (i < length arr) then <[i := x]> arr
  else arr ++ replicate (i - length arr) JUndefined ++ [x].

(** The loops [for (let i = 0, len = ...; i < len; i += 2)] take the
    array two places at a time; [i] is the index of the first of them. *)

(** The loop of [get]. *)
Fixpoint get_from (arr : list Js) (key : Js) : Js :=
  match arr with
  | [] => JUndefined
  | k :: rest =>
      if strict_eq k key then at_index rest 0
      else match rest with
           | [] => JUndefined
           | _ :: rest' => get_from rest' key
           end
  end.

Definition get (m : t) (key : Js) : Js := get_from (internalArray m) key.

(** The loop of [set]: the index where it finds the key, or else
    [nullIndex] as the loop leaves it. *)
Fixpoint set_loop (arr : list Js) (i : nat) (key : Js) (nullIndex : option nat)
    : nat + option nat :=
  match arr with
  | [] => inr nullIndex
  | k :: rest =>
      if strict_eq k key then inl i
      else
        let nullIndex' :=
          if bool_decide (nullIndex = None) && strict_eq k JNull then Some i
          else nullIndex in
        match rest with
        | [] => inr nullIndex'
        | _ :: rest' => set_loop rest' (i + 2) key nullIndex'
        end
  end.

Definition set (m : t) (key value : Js) : t :=
  match set_loop (internalArray m) 0 key None with
  | inl i => Build (assign (internalArray m) (i + 1) value) (size m)
  | inr (Some nullIndex) =>
      Build (assign (assign (internalArray m) nullIndex key) (nullIndex + 1) value)
            (size m + 1)
  | inr None => Build (internalArray m ++ [key; value]) (size m + 1)
  end.

(** The loop of [delete]: the first index with [arr[i] === key]. *)
Fixpoint key_index (arr : list Js) (i : nat) (key : Js) : option nat :=
  match arr with
  | [] => None
  | k :: rest =>
      if strict_eq k key then Some i
      else match rest with
           | [] => None
           | _ :: rest' => key_index rest' (i + 2) key
           end
  end.

(** [this.internalArray[i] = this.internalArray[i + 1] = null;
    this.size -= 1] *)
Definition deleteIndex (m : t) (i : nat) : t :=
  Build (assign (assign (internalArray m) (i + 1) JNull) i JNull) (size m - 1).

Definition delete (m : t) (key : Js) : t :=
  match key_index (internalArray m) 0 key with
  | Some i => deleteIndex m i
  | None => m
  end.

(** The loop of [toTuples]. *)
Fixpoint tuples_of (arr : list Js) : list (Js * Js) :=
  match arr with
  | [] => []
  | k :: rest =>
      let more := match rest with [] => [] | _ :: rest' => tuples_of rest' end in
      if negb (strict_eq k JNull) && negb (strict_eq (at_index rest 0) JNull)
      then (k, at_index rest 0) :: more
      else more
  end.

Definition toTuples (m : t) : list (Js * Js) := tuples_of (internalArray m).

(** [entries()] and the iterator yield the pairs of [toTuples()]. *)
Definition entries (m : t) : list (Js * Js) := toTuples m.

(** One turn of the loop of [defragment]. *)
Definition defragment_turn (st : list Js * nat) (kv : Js * Js) : list Js * nat :=
  (assign (assign st.1 st.2 kv.1) (st.2 + 1) kv.2, st.2 + 2).

(** [defragment]: the pairs of [toTuples()] written from the start of
    the array, and the length set to what was written. *)
Definition defragment (m : t) : t :=
  let st := foldl defragment_turn (internalArray m, 0) (toTuples m) in
  Build (take st.2 st.1) (size m).

End FlatMap.

(** ** The flat array and the pairs of the engine's [LinearMap] *)

Section Flat.
Import FlatMap.

(** The two cells of a pair; a deleted pair is two [null]s. *)
Definition cells (sl : option (Js * Js)) : list Js :=
  match sl with
  | Some (k, v) => [k; v]
  | None => [JNull; JNull]
  end.

Fixpoint flat (arr : list (option (Js * Js))) : list Js :=
  match arr with
  | [] => []
  | sl :: rest => cells sl ++ flat rest
  end.

(** The [LinearMap] of pairs as the object it stands for. *)
Definition flatten (m : LinearMap.t Js Js) : FlatMap.t :=
  FlatMap.Build (flat (LinearMap.internalArray m)) (LinearMap.size m).

(** A key the class can hold: neither [null], the mark of a deleted
    pair, nor [NaN], which [===] never finds. *)
Definition usable (k : Js) : Prop := k ≠ JNull ∧ k ≠ JNaN.

Definition slot_usable (sl : option (Js * Js)) : Prop :=
  match sl with
  | Some (k, _) => usable k
  | None => True
  end.

Definition slot_whole (sl : option (Js * Js)) : Prop :=
  match sl with
  | Some (_, v) => v ≠ JNull
  | None => True
  end.

(** Every key is usable, and no value is [null]. *)
Definition tidy (arr : list (option (Js * Js))) : Prop :=
  Forall slot_usable arr ∧ Forall slot_whole arr.

(** The calls of a client that keeps to such keys and values. *)
Definition call_ok (c : MapCall Js Js) : Prop :=
  match c with
  | CallSet k v => usable k ∧ v ≠ JNull
  | CallDelete k => k ≠ JNull
  | CallDefragment => True
  end.

Definition flat_call_on (m : FlatMap.t) (c : MapCall Js Js) : FlatMap.t :=
  match c with
  | CallSet k v => FlatMap.set m k v
  | CallDelete k => FlatMap.delete m k
  | CallDefragment => FlatMap.defragment m
  end.

(** [new LinearMap()] after the calls [calls], made in order. *)
Definition flat_built (calls : list (MapCall Js Js)) : FlatMap.t :=
  foldl flat_call_on FlatMap.empty calls.
End Flat.

Section FlatLaws.
Import FlatMap.
Implicit Types (arr : list (option (Js * Js))) (m : LinearMap.t Js Js).

Lemma strict_eq_usable k key : k ≠ JNaN → strict_eq k key = bool_decide (k = key).
Proof. by destruct k. Qed.

Lemma strict_eq_null key : key ≠ JNull → strict_eq JNull key = false.
Proof. intros H. simpl. by rewrite bool_decide_eq_false_2. Qed.

Lemma strict_eq_NaN k : strict_eq k JNaN = false.
Proof. by destruct k. Qed.

Lemma length_flat arr : length (flat arr) = 2 * length arr.
Proof.
  induction arr as [|[[k v]|] arr IH]; simpl; [done|..]; rewrite IH; lia.
Qed.

Lemma flat_app cs1 arr2 : flat (cs1 ++ arr2) = flat cs1 ++ flat arr2.
Proof.
  induction cs1 as [|sl cs1 IH]; simpl; [done|]. by rewrite IH, app_assoc.
Qed.

Lemma get_from_flat arr key :
  Forall slot_usable arr → key ≠ JNull →
  get_from (flat arr) key = default JUndefined (LinearMap.get_from arr key).
Proof.
  intros Hall Hkey. induction Hall as [|[[k v]|] arr Hsl _ IH]; simpl; [done|..].
  - destruct Hsl as [_ Hnan]. rewrite strict_eq_usable by done.
    by destruct (bool_decide (k = key)).
  - by rewrite bool_decide_eq_false_2.
Qed.

Lemma key_index_flat arr i key :
  Forall slot_usable arr → key ≠ JNull →
  key_index (flat arr) i key = (fun j => i + 2 * j) <$> LinearMap.index_of arr key.
Proof.
  intros Hall Hkey. revert i.
  induction Hall as [|[[k v]|] arr Hsl _ IH]; intros i; simpl; [done|..].
  - destruct Hsl as [_ Hnan]. rewrite strict_eq_usable by done.
    destruct (bool_decide (k = key)); simpl; [f_equal; lia|].
    rewrite IH. destruct (LinearMap.index_of arr key); simpl; [f_equal; lia|done].
  - rewrite bool_decide_eq_false_2 by done.
    rewrite IH. destruct (LinearMap.index_of arr key); simpl; [f_equal; lia|done].
Qed.

Lemma set_loop_flat arr i key ni :
  Forall slot_usable arr → key ≠ JNull →
  set_loop (flat arr) i key ni =
    match LinearMap.index_of arr key with
    | Some j => inl (i + 2 * j)
    | None =>
        inr (match ni with
             | Some x => Some x
             | None => (fun j => i + 2 * j) <$> LinearMap.null_index arr
             end)
    end.
Proof.
  intros Hall Hkey. revert i ni.
  induction Hall as [|[[k v]|] arr Hsl _ IH]; intros i ni; simpl.
  - by destruct ni.
  - destruct Hsl as [Hnull Hnan]. rewrite strict_eq_usable by done.
    destruct (bool_decide (k = key)); simpl; [f_equal; lia|].
    rewrite (strict_eq_usable k JNull) by done.
    rewrite (bool_decide_eq_false_2 (k = JNull)) by done. rewrite andb_false_r.
    rewrite IH. destruct (LinearMap.index_of arr key); simpl; [f_equal; lia|].
    destruct ni; [done|]. f_equal.
    destruct (LinearMap.null_index arr); simpl; [f_equal; lia|done].
  - rewrite bool_decide_eq_false_2 by done. rewrite andb_true_r.
    rewrite IH. destruct (LinearMap.index_of arr key); simpl; [f_equal; lia|].
    destruct ni; simpl; [done|]. f_equal. f_equal. lia.
Qed.

Lemma assign_in cs (i : nat) x :
  i < length cs → assign cs i x = <[i := x]> cs.
Proof. intros Hi. unfold assign. by rewrite decide_True. Qed.

Lemma insert_flat_at arr j i sl :
  i = 2 * j → j < length arr →
  <[S i := default JNull (cells sl !! 1)]>
    (<[i := default JNull (cells sl !! 0)]> (flat arr)) = flat (<[j := sl]> arr).
Proof.
  revert j i. induction arr as [|sl0 arr IH]; intros j i Hi Hj; simpl in Hj; [lia|].
  destruct j as [|j].
  - subst i. destruct sl0 as [[k0 v0]|], sl as [[k v]|]; reflexivity.
  - destruct i as [|[|i]]; [lia|lia|].
    destruct sl0 as [[k0 v0]|]; simpl; by rewrite (IH j i) by lia.
Qed.

Lemma insert_flat arr j sl :
  j < length arr →
  <[S (2 * j) := default JNull (cells sl !! 1)]>
    (<[2 * j := default JNull (cells sl !! 0)]> (flat arr)) = flat (<[j := sl]> arr).
Proof. by apply insert_flat_at. Qed.

Lemma lookup_flat_key arr j k v :
  arr !! j = Some (Some (k, v)) → flat arr !! (2 * j) = Some k.
Proof.
  revert j. induction arr as [|sl0 arr IH]; intros j Hj; [done|].
  destruct j as [|j].
  - simpl in Hj. by injection Hj as ->.
  - replace (2 * S j) with (S (S (2 * j))) by lia.
    destruct sl0 as [[k1 v1]|]; simpl; by apply IH.
Qed.

(** Writing a pair over the pair at [j]. *)
Lemma assign_pair arr j k v :
  j < length arr →
  assign (assign (flat arr) (2 * j) k) (2 * j + 1) v = flat (<[j := Some (k, v)]> arr).
Proof.
  intros Hj.
  rewrite (assign_in (flat arr) (2 * j) k) by (rewrite length_flat; lia).
  rewrite assign_in by (rewrite length_insert, length_flat; lia).
  replace (2 * j + 1) with (S (2 * j)) by lia.
  by rewrite <- (insert_flat arr j (Some (k, v))).
Qed.

(** Writing a value over the value of the pair at [j]. *)
Lemma assign_value arr j k v0 v :
  arr !! j = Some (Some (k, v0)) →
  assign (flat arr) (2 * j + 1) v = flat (<[j := Some (k, v)]> arr).
Proof.
  intros Hj. pose proof (lookup_lt_Some _ _ _ Hj) as Hlt.
  rewrite assign_in by (rewrite length_flat; lia).
  rewrite <- (insert_flat arr j (Some (k, v))) by done.
  change (default JNull (cells (Some (k, v)) !! 1)) with v.
  change (default JNull (cells (Some (k, v)) !! 0)) with k.
  rewrite (list_insert_id (flat arr) (2 * j) k) by (by apply (lookup_flat_key arr j k v0)).
  by replace (2 * j + 1) with (S (2 * j)) by lia.
Qed.

(** Writing two [null]s over the pair at [j], the second cell first. *)
Lemma assign_nulls arr j :
  j < length arr →
  assign (assign (flat arr) (2 * j + 1) JNull) (2 * j) JNull = flat (<[j := None]> arr).
Proof.
  intros Hj.
  rewrite (assign_in (flat arr) (2 * j + 1) JNull) by (rewrite length_flat; lia).
  rewrite assign_in by (rewrite length_insert, length_flat; lia).
  replace (2 * j + 1) with (S (2 * j)) by lia.
  rewrite list_insert_insert_ne by lia. by rewrite <- (insert_flat arr j None).
Qed.

Lemma index_of_lookup arr k j :
  LinearMap.index_of arr k = Some j → ∃ v, arr !! j = Some (Some (k, v)).
Proof.
  revert j. induction arr as [|[[k0 v0]|] arr IH]; intros j; simpl; [done|..].
  - case_bool_decide as Hk.
    + intros [= <-]. subst. eauto.
    + destruct (LinearMap.index_of arr k) as [j'|]; [|done]. intros [= <-]. by apply IH.
  - destruct (LinearMap.index_of arr k) as [j'|]; [|done]. intros [= <-]. by apply IH.
Qed.

Lemma null_index_lt arr j : LinearMap.null_index arr = Some j → j < length arr.
Proof.
  revert j. induction arr as [|[[k0 v0]|] arr IH]; intros j; simpl; [done|..].
  - destruct (LinearMap.null_index arr) as [j'|]; [|done]. intros [= <-].
    specialize (IH j' eq_refl). lia.
  - intros [= <-]. lia.
Qed.

(** [set] on the flat array is [set] on the pairs. *)
Lemma flat_set m k v :
  Forall slot_usable (LinearMap.internalArray m) → k ≠ JNull →
  FlatMap.set (flatten m) k v = flatten (LinearMap.set m k v).
Proof.
  intros Hall Hk. unfold FlatMap.set, LinearMap.set, flatten.
  cbn [FlatMap.internalArray FlatMap.size].
  rewrite set_loop_flat by done.
  destruct (LinearMap.index_of _ k) as [j|] eqn:Hj.
  - destruct (index_of_lookup _ _ _ Hj) as [v0 Hl].
    cbn [LinearMap.internalArray LinearMap.size]. f_equal.
    replace (0 + 2 * j + 1) with (2 * j + 1) by lia. by apply (assign_value _ j k v0).
  - destruct (LinearMap.null_index _) as [j|] eqn:Hn;
      cbn [fmap option_fmap option_map LinearMap.internalArray LinearMap.size]; f_equal.
    + replace (0 + 2 * j) with (2 * j) by lia.
      apply assign_pair. by eapply null_index_lt.
    + by rewrite flat_app.
Qed.

(** [delete] on the flat array is [delete] on the pairs. *)
Lemma flat_delete m k :
  Forall slot_usable (LinearMap.internalArray m) → k ≠ JNull →
  FlatMap.delete (flatten m) k = flatten (LinearMap.delete m k).
Proof.
  intros Hall Hk. unfold FlatMap.delete, FlatMap.deleteIndex, LinearMap.delete, flatten.
  cbn [FlatMap.internalArray FlatMap.size].
  rewrite key_index_flat by done.
  destruct (LinearMap.index_of _ k) as [j|] eqn:Hj;
    cbn [fmap option_fmap option_map LinearMap.internalArray LinearMap.size]; [|done].
  destruct (index_of_lookup _ _ _ Hj) as [v0 Hl]. f_equal.
  replace (0 + 2 * j) with (2 * j) by lia.
  apply assign_nulls. by eapply lookup_lt_Some.
Qed.

Lemma flat_get m k :
  Forall slot_usable (LinearMap.internalArray m) → k ≠ JNull →
  FlatMap.get (flatten m) k = default JUndefined (LinearMap.get m k).
Proof. intros. by apply get_from_flat. Qed.

(** The pairs [toTuples] keeps: those whose value is not [null]. *)
Definition kept (sl : option (Js * Js)) : option (Js * Js) :=
  match sl with
  | Some (k, v) => if decide (v = JNull) then None else Some (k, v)
  | None => None
  end.

Lemma tuples_of_flat arr :
  Forall slot_usable arr → tuples_of (flat arr) = omap kept arr.
Proof.
  intros Hall. induction Hall as [|[[k v]|] arr Hsl _ IH]; simpl; [done|..].
  - destruct Hsl as [Hnull Hnan]. rewrite (strict_eq_usable k) by done.
    rewrite (bool_decide_eq_false_2 (k = JNull)) by done. simpl.
    unfold at_index. simpl. destruct v; simpl; by rewrite IH.
  - done.
Qed.

Lemma omap_kept_whole arr : Forall slot_whole arr → omap kept arr = omap id arr.
Proof.
  intros Hall. induction Hall as [|[[k v]|] arr Hsl _ IH]; simpl; [done|..].
  - simpl in Hsl. rewrite decide_False by done. f_equal. apply IH.
  - apply IH.
Qed.

Lemma flat_toTuples m :
  tidy (LinearMap.internalArray m) →
  FlatMap.toTuples (flatten m) = LinearMap.toTuples m.
Proof.
  intros [Hu Hw]. unfold FlatMap.toTuples, LinearMap.toTuples, flatten. simpl.
  by rewrite tuples_of_flat, omap_kept_whole.
Qed.

Lemma assign_end (cs : list Js) x : assign cs (length cs) x = cs ++ [x].
Proof.
  unfold assign. rewrite decide_False by lia.
  by replace (length cs - length cs) with 0 by lia.
Qed.

Lemma assign_app_head (pre post : list Js) a x :
  assign (pre ++ a :: post) (length pre) x = pre ++ x :: post.
Proof.
  rewrite assign_in by (rewrite length_app; simpl; lia).
  rewrite insert_app_r_alt by lia. by replace (length pre - length pre) with 0 by lia.
Qed.

(** One turn of the loop of [defragment], at or before the end of the
    array. *)
Lemma defragment_turn_take (pre post : list Js) k v :
  let cs1 := assign (assign (pre ++ post) (length pre) k) (length pre + 1) v in
  length pre + 2 ≤ length cs1 ∧ take (length pre + 2) cs1 = pre ++ [k; v].
Proof.
  assert (Hlen : length pre + 1 = length (pre ++ [k])) by (rewrite length_app; simpl; lia).
  destruct post as [|a [|b rest]]; cbv zeta.
  - rewrite app_nil_r, assign_end, Hlen, assign_end, <- app_assoc.
    rewrite length_app. simpl. split; [lia|]. by rewrite take_app_add'.
  - rewrite assign_app_head, Hlen, assign_end, <- app_assoc.
    rewrite length_app. simpl. split; [lia|]. by rewrite take_app_add'.
  - rewrite assign_app_head.
    replace (pre ++ k :: b :: rest) with ((pre ++ [k]) ++ b :: rest)
      by (by rewrite <- app_assoc).
    rewrite Hlen, assign_app_head, <- app_assoc.
    rewrite length_app. simpl. split; [lia|]. by rewrite take_app_add'.
Qed.

(** The loop of [defragment] writes the pairs one after the other. *)
Lemma defragment_loop (tuples : list (Js * Js)) (cs : list Js) (i : nat) :
  i ≤ length cs →
  let st := foldl defragment_turn (cs, i) tuples in
  st.2 = i + 2 * length tuples ∧ st.2 ≤ length st.1 ∧
  take st.2 st.1 = take i cs ++ flat (Some <$> tuples).
Proof.
  revert cs i. induction tuples as [|[k v] tuples IH]; intros cs i Hi.
  - simpl. split; [lia|]. split; [done|]. by rewrite app_nil_r.
  - set (cs1 := assign (assign cs i k) (i + 1) v).
    change (foldl defragment_turn (cs, i) ((k, v) :: tuples))
      with (foldl defragment_turn (cs1, i + 2) tuples).
    assert (H1 : i + 2 ≤ length cs1 ∧ take (i + 2) cs1 = take i cs ++ [k; v]).
    { pose proof (defragment_turn_take (take i cs) (drop i cs) k v) as H.
      rewrite take_drop, length_take, Nat.min_l in H by done. exact H. }
    destruct H1 as [Hlen1 Htake1].
    destruct (IH cs1 (i + 2) Hlen1) as (Hi2 & Hle2 & Htake2).
    cbv zeta. split; [rewrite Hi2; simpl; lia|]. split; [done|].
    rewrite Htake2, Htake1, <- app_assoc. done.
Qed.

(** [defragment] leaves the pairs of [toTuples()], and nothing else. *)
Lemma defragment_array (fm : FlatMap.t) :
  FlatMap.internalArray (FlatMap.defragment fm) = flat (Some <$> FlatMap.toTuples fm) ∧
  FlatMap.size (FlatMap.defragment fm) = FlatMap.size fm.
Proof.
  unfold FlatMap.defragment. simpl. split; [|done].
  destruct (defragment_loop (FlatMap.toTuples fm) (FlatMap.internalArray fm) 0
              ltac:(lia)) as (_ & _ & H).
  by rewrite H.
Qed.

Lemma flat_defragment m :
  tidy (LinearMap.internalArray m) →
  FlatMap.defragment (flatten m) = flatten (LinearMap.defragment m).
Proof.
  intros Ht. destruct (defragment_array (flatten m)) as [Ha Hs].
  rewrite flat_toTuples in Ha by done.
  destruct (FlatMap.defragment (flatten m)) as [a z]. simpl in Ha, Hs. subst a z.
  reflexivity.
Qed.
End FlatLaws.

Section FlatBuilt.
Import FlatMap.
Implicit Types (arr : list (option (Js * Js))) (m : LinearMap.t Js Js).

Lemma usable_set m k v :
  Forall slot_usable (LinearMap.internalArray m) → usable k →
  Forall slot_usable (LinearMap.internalArray (LinearMap.set m k v)).
Proof.
  intros Hall Hk. unfold LinearMap.set.
  destruct (LinearMap.index_of _ k); simpl.
  - by apply Forall_insert.
  - destruct (LinearMap.null_index _); simpl.
    + by apply Forall_insert.
    + apply Forall_app. split; [done|]. by apply Forall_singleton.
Qed.

Lemma usable_delete m k :
  Forall slot_usable (LinearMap.internalArray m) →
  Forall slot_usable (LinearMap.internalArray (LinearMap.delete m k)).
Proof.
  intros Hall. unfold LinearMap.delete.
  destruct (LinearMap.index_of _ k); simpl; [|done]. by apply Forall_insert.
Qed.

Lemma tidy_set m k v :
  tidy (LinearMap.internalArray m) → usable k → v ≠ JNull →
  tidy (LinearMap.internalArray (LinearMap.set m k v)).
Proof.
  intros [Hu Hw] Hk Hv. split; [by apply usable_set|]. unfold LinearMap.set.
  destruct (LinearMap.index_of _ k); simpl.
  - by apply Forall_insert.
  - destruct (LinearMap.null_index _); simpl.
    + by apply Forall_insert.
    + apply Forall_app. split; [done|]. by apply Forall_singleton.
Qed.

Lemma tidy_delete m k :
  tidy (LinearMap.internalArray m) → tidy (LinearMap.internalArray (LinearMap.delete m k)).
Proof.
  intros [Hu Hw]. split; [by apply usable_delete|]. unfold LinearMap.delete.
  destruct (LinearMap.index_of _ k); simpl; [|done]. by apply Forall_insert.
Qed.

Lemma tidy_defragment m :
  tidy (LinearMap.internalArray m) →
  tidy (LinearMap.internalArray (LinearMap.defragment m)).
Proof.
  intros [Hu Hw]. unfold LinearMap.defragment, LinearMap.toTuples. simpl.
  split; apply Forall_fmap, Forall_forall; intros kv Hin;
    apply list_elem_of_omap in Hin as (sl & Hin & Hsl); simpl in Hsl; subst sl.
  - rewrite Forall_forall in Hu. apply (Hu _ Hin).
  - rewrite Forall_forall in Hw. apply (Hw _ Hin).
Qed.

(** A client that keeps to usable keys and to values other than [null]
    has, in the flat array, the pairs of the [LinearMap] of the engine. *)
Lemma flat_built_flatten calls :
  Forall call_ok calls →
  flat_built calls = flatten (built calls) ∧
  tidy (LinearMap.internalArray (built calls)).
Proof.
  unfold flat_built, built.
  induction calls as [|c calls IH] using rev_ind; intros Hall.
  - split; [done|]. split; constructor.
  - apply Forall_app in Hall as [Hall Hc]. rewrite Forall_singleton in Hc.
    destruct (IH Hall) as [Heq Ht]. rewrite !foldl_app. simpl. rewrite Heq.
    destruct c as [k v| k |]; simpl in *.
    + destruct Hc as [Hk Hv]. split.
      * apply flat_set; [apply Ht|apply Hk].
      * by apply tidy_set.
    + split; [apply flat_delete; [apply Ht|done]|by apply tidy_delete].
    + split; [by apply flat_defragment|by apply tidy_defragment].
Qed.

Lemma strict_eq_decide k k' (x y : Js) :
  k ≠ JNaN → (if strict_eq k k' then x else y) = if decide (k = k') then x else y.
Proof.
  intros Hk. rewrite strict_eq_usable by done.
  by destruct (decide (k = k')); [rewrite bool_decide_eq_true_2|rewrite bool_decide_eq_false_2].
Qed.

(** X1.  On a map a client has built with usable keys and values other
    than [null], [get] after [set]: the key set, if it is usable, is
    found with the value set, whatever that is, and every other key that
    is not [null] as before. *)
Theorem FlatMap_get_set calls k v k' :
  Forall call_ok calls → usable k → k' ≠ JNull →
  let m := flat_built calls in
  FlatMap.get (FlatMap.set m k v) k' = if strict_eq k k' then v else FlatMap.get m k'.
Proof.
  intros Hall [Hk Hnan] Hk' m. subst m.
  destruct (flat_built_flatten calls Hall) as [-> [Hu Hw]].
  rewrite flat_set, !flat_get by (done || by apply usable_set).
  rewrite LinearMap_get_set, strict_eq_decide by done.
  by destruct (decide (k = k')).
Qed.

(** X2.  In such a map no key is held twice, and [size] is the number
    of pairs [toTuples()] yields. *)
Theorem FlatMap_size_counts_pairs calls :
  Forall call_ok calls →
  let m := flat_built calls in
  NoDup (FlatMap.toTuples m).*1 ∧
  FlatMap.size m = Z.of_nat (length (FlatMap.toTuples m)).
Proof.
  intros Hall m. subst m.
  destruct (flat_built_flatten calls Hall) as [-> Ht].
  rewrite flat_toTuples by done. apply (LinearMap_size_counts_pairs calls).
Qed.

Lemma get_absent m k :
  k ∉ (LinearMap.toTuples m).*1 → LinearMap.get m k = None.
Proof. intros Hk. by apply get_from_None. Qed.

Lemma get_present m k :
  k ∈ (LinearMap.toTuples m).*1 → is_Some (LinearMap.get m k).
Proof.
  intros Hk. destruct (LinearMap.get m k) eqn:Hg; [eauto|].
  destruct (index_of_None (LinearMap.internalArray m) k); [|done].
  destruct (LinearMap.index_of (LinearMap.internalArray m) k) eqn:Hi; [|done].
  assert (is_Some (LinearMap.get_from (LinearMap.internalArray m) k)) as [? ?]
    by (apply index_of_is_Some; eauto).
  unfold LinearMap.get in Hg. congruence.
Qed.

(** X3.  [delete] of a key other than [null] on such a map: the key is
    found no more, every other key that is not [null] as before; [size]
    goes down by one when the key was there, and the map is left as it is
    when it was not. *)
Theorem FlatMap_get_delete calls k :
  Forall call_ok calls → k ≠ JNull →
  let m := flat_built calls in
  (∀ k', k' ≠ JNull →
     FlatMap.get (FlatMap.delete m k) k'
       = if strict_eq k k' then JUndefined else FlatMap.get m k') ∧
  (k ∈ (FlatMap.toTuples m).*1 →
     FlatMap.size (FlatMap.delete m k) = (FlatMap.size m - 1)%Z) ∧
  (k ∉ (FlatMap.toTuples m).*1 → FlatMap.delete m k = m).
Proof.
  intros Hall Hk m. subst m.
  destruct (flat_built_flatten calls Hall) as [-> [Hu Hw]].
  rewrite flat_toTuples by done. rewrite flat_delete by done.
  destruct (LinearMap_get_delete calls k) as (Hget & Hsize & Hsame).
  split; [|split].
  - intros k' Hk'. rewrite !flat_get by (done || by apply usable_delete).
    rewrite Hget. destruct (decide (k = JNaN)) as [->|Hnan].
    + simpl. destruct (decide (JNaN = k')) as [<-|]; [|done].
      rewrite (get_absent (built calls) JNaN); [done|].
      intros Hin. apply list_elem_of_fmap in Hin as ([k0 v0] & Heq & Hin). simpl in Heq.
      subst k0. apply list_elem_of_omap in Hin as (sl & Hin & Hsl). simpl in Hsl. subst sl.
      rewrite Forall_forall in Hu. by destruct (Hu _ Hin).
    + rewrite strict_eq_decide by done. by destruct (decide (k = k')).
  - intros Hin. simpl. apply Hsize. by apply get_present.
  - intros Hnin. f_equal. apply Hsame. by apply get_absent.
Qed.

(** X4.  On such a map [toTuples()], and with it the iterator and
    [entries()], yields the pairs [get] finds: a pair it yields is found
    by [get], and a key it does not yield is not found. *)
Theorem FlatMap_toTuples_get calls k :
  Forall call_ok calls → k ≠ JNull →
  let m := flat_built calls in
  FlatMap.entries m = FlatMap.toTuples m ∧
  (∀ v, (k, v) ∈ FlatMap.toTuples m → FlatMap.get m k = v) ∧
  (k ∉ (FlatMap.toTuples m).*1 → FlatMap.get m k = JUndefined).
Proof.
  intros Hall Hk m. subst m.
  destruct (flat_built_flatten calls Hall) as [-> [Hu Hw]].
  split; [done|]. rewrite flat_toTuples, flat_get by done. split.
  - intros v Hin. apply (LinearMap_toTuples_get calls k v) in Hin. by rewrite Hin.
  - intros Hnin. by rewrite get_absent.
Qed.

(** X5.  [defragment] drops the deleted pairs and nothing else: the
    array becomes the pairs of [toTuples()] in their order and [size]
    stays, on every map; on a map built as above [toTuples()] yields what
    it yielded, every key that is not [null] is found as before, and the
    array is no longer than it was. *)
Theorem FlatMap_defragment_compacts calls :
  Forall call_ok calls →
  let m := flat_built calls in
  (∀ fm, FlatMap.internalArray (FlatMap.defragment fm)
           = flat (Some <$> FlatMap.toTuples fm) ∧
         FlatMap.size (FlatMap.defragment fm) = FlatMap.size fm) ∧
  FlatMap.toTuples (FlatMap.defragment m) = FlatMap.toTuples m ∧
  (∀ k, k ≠ JNull → FlatMap.get (FlatMap.defragment m) k = FlatMap.get m k) ∧
  length (FlatMap.internalArray (FlatMap.defragment m))
    ≤ length (FlatMap.internalArray m).
Proof.
  intros Hall m. subst m. split; [apply defragment_array|].
  destruct (flat_built_flatten calls Hall) as [-> Ht].
  rewrite flat_defragment by done.
  destruct (LinearMap_defragment_compacts (built calls)) as (Harr & Htup & Hget & Hsz & Hlen).
  pose proof (tidy_defragment _ Ht) as Ht'.
  split; [|split].
  - by rewrite !flat_toTuples.
  - intros k Hk. rewrite !flat_get by (done || apply Ht || apply Ht'). by rewrite Hget.
  - unfold flatten. cbn [FlatMap.internalArray]. rewrite !length_flat. lia.
Qed.
End FlatBuilt.

(** ** What [null] and [NaN] do to the class *)

Section FlatEdges.
Import FlatMap.
Implicit Types (arr : list (option (Js * Js))) (m : LinearMap.t Js Js).

Lemma pairs_ind (P : list Js → Prop) :
  P [] → (∀ k, P [k]) → (∀ k v rest, P rest → P (k :: v :: rest)) → ∀ cs, P cs.
Proof.
  intros H0 H1 H2 cs.
  assert (H : ∀ n (cs' : list Js), length cs' ≤ n → P cs').
  { clear cs. induction n as [|n IH]; intros [|k [|v rest]] Hlen; simpl in Hlen;
      try done; try lia; try apply H1.
    apply H2, IH. lia. }
  by apply (H (length cs)).
Qed.

Lemma get_from_NaN (cs : list Js) : get_from cs JNaN = JUndefined.
Proof.
  induction cs as [|k|k v rest IH] using pairs_ind; simpl; [done|..];
    by rewrite strict_eq_NaN.
Qed.

Lemma key_index_NaN (cs : list Js) i : key_index cs i JNaN = None.
Proof.
  revert i. induction cs as [|k|k v rest IH] using pairs_ind; intros i; simpl; [done|..];
    by rewrite strict_eq_NaN.
Qed.

Lemma set_loop_NaN (cs : list Js) i ni : ∃ r, set_loop cs i JNaN ni = inr r.
Proof.
  revert i ni. induction cs as [|k|k v rest IH] using pairs_ind; intros i ni; simpl;
    [eauto|..]; rewrite strict_eq_NaN; eauto.
Qed.

(** X18.  [NaN] is a key the class never finds: [get] returns
    [undefined] and [delete] does nothing, on every map, and each [set]
    stores one more pair, counted in [size], that no [get] will find. *)
Theorem FlatMap_NaN_key (fm : FlatMap.t) (v : Js) :
  FlatMap.get fm JNaN = JUndefined ∧
  FlatMap.delete fm JNaN = fm ∧
  FlatMap.size (FlatMap.set fm JNaN v) = (FlatMap.size fm + 1)%Z ∧
  FlatMap.get (FlatMap.set fm JNaN v) JNaN = JUndefined.
Proof.
  split; [apply get_from_NaN|]. split; [|split; [|apply get_from_NaN]].
  - unfold FlatMap.delete. by rewrite key_index_NaN.
  - unfold FlatMap.set.
    destruct (set_loop_NaN (internalArray fm) 0 None) as [[j|] ->]; done.
Qed.

Lemma set_size_absent m k v :
  LinearMap.get m k = None →
  LinearMap.size (LinearMap.set m k v) = (LinearMap.size m + 1)%Z.
Proof.
  intros Hg. unfold LinearMap.set.
  destruct (LinearMap.index_of _ k) as [i|] eqn:Hi.
  - assert (is_Some (LinearMap.get_from (LinearMap.internalArray m) k)) as [? ?]
      by (apply index_of_is_Some; eauto).
    unfold LinearMap.get in Hg. congruence.
  - by destruct (LinearMap.null_index _).
Qed.

Lemma omap_kept_insert arr j sl :
  arr !! j = Some None → kept sl = None → omap kept (<[j := sl]> arr) = omap kept arr.
Proof.
  revert j. induction arr as [|sl0 arr IH]; intros j Hj Hsl; [done|].
  destruct j as [|j]; simpl in *.
  - injection Hj as ->. by rewrite Hsl.
  - by rewrite IH.
Qed.

Lemma kept_set_null m k :
  LinearMap.get m k = None →
  omap kept (LinearMap.internalArray (LinearMap.set m k JNull))
    = omap kept (LinearMap.internalArray m).
Proof.
  intros Hg. unfold LinearMap.set.
  destruct (LinearMap.index_of _ k) as [i|] eqn:Hi.
  - assert (is_Some (LinearMap.get_from (LinearMap.internalArray m) k)) as [? ?]
      by (apply index_of_is_Some; eauto).
    unfold LinearMap.get in Hg. congruence.
  - destruct (LinearMap.null_index _) as [j|] eqn:Hj; simpl.
    + apply omap_kept_insert; [by apply null_index_Some|done].
    + rewrite omap_app. simpl. by rewrite app_nil_r.
Qed.

(** X19.  A value [null] is stored and lost: after [set(k, null)] with a
    new key, [get(k)] returns [null] and [size] counts the pair, but
    [toTuples()] does not yield it, and [defragment] drops it from the
    array while [size] still counts it. *)
Theorem FlatMap_null_value_lost calls k :
  Forall call_ok calls → usable k →
  let m := flat_built calls in
  k ∉ (FlatMap.toTuples m).*1 →
  let m' := FlatMap.set m k JNull in
  FlatMap.get m' k = JNull ∧
  FlatMap.size m' = (FlatMap.size m + 1)%Z ∧
  FlatMap.toTuples m' = FlatMap.toTuples m ∧
  FlatMap.get (FlatMap.defragment m') k = JUndefined ∧
  FlatMap.size (FlatMap.defragment m') = (FlatMap.size m + 1)%Z.
Proof.
  intros Hall Hk m Hnin m'. subst m m'.
  destruct (flat_built_flatten calls Hall) as [Heq [Hu Hw]].
  rewrite Heq in *. rewrite flat_toTuples in Hnin by done.
  pose proof (get_absent _ _ Hnin) as Habs.
  rewrite flat_set by (done || apply Hk).
  pose proof (usable_set (built calls) k JNull Hu Hk) as Hu'.
  assert (Htup : FlatMap.toTuples (flatten (LinearMap.set (built calls) k JNull))
                 = LinearMap.toTuples (built calls)).
  { unfold FlatMap.toTuples, flatten. cbn [FlatMap.internalArray].
    rewrite tuples_of_flat, kept_set_null, omap_kept_whole by done. done. }
  split; [|split; [|split; [|split]]].
  - rewrite flat_get by (done || apply Hk). rewrite LinearMap_get_set.
    by rewrite decide_True.
  - unfold flatten. cbn [FlatMap.size]. by apply set_size_absent.
  - by rewrite Htup, flat_toTuples.
  - destruct (defragment_array (flatten (LinearMap.set (built calls) k JNull))) as [Ha _].
    unfold FlatMap.get. rewrite Ha, Htup.
    rewrite get_from_flat; [|apply Forall_fmap, Forall_forall|apply Hk].
    + unfold LinearMap.toTuples. rewrite get_from_tuples.
      unfold LinearMap.get in Habs. by rewrite Habs.
    + intros [k0 v0] Hin. apply list_elem_of_omap in Hin as (sl & Hin & Hsl).
      simpl in Hsl. subst sl. rewrite Forall_forall in Hu. apply (Hu _ Hin).
  - destruct (defragment_array (flatten (LinearMap.set (built calls) k JNull))) as [_ ->].
    unfold flatten. cbn [FlatMap.size]. by apply set_size_absent.
Qed.

Lemma key_index_flat_null arr i :
  Forall slot_usable arr →
  key_index (flat arr) i JNull = (fun j => i + 2 * j) <$> LinearMap.null_index arr.
Proof.
  intros Hall. revert i.
  induction Hall as [|[[k v]|] arr Hsl _ IH]; intros i; simpl; [done|..].
  - destruct Hsl as [Hnull Hnan]. rewrite strict_eq_usable by done.
    rewrite bool_decide_eq_false_2 by done.
    rewrite IH. destruct (LinearMap.null_index arr); simpl; [f_equal; lia|done].
  - f_equal. lia.
Qed.

Lemma get_from_flat_null arr :
  Forall slot_usable arr → None ∈ arr → get_from (flat arr) JNull = JNull.
Proof.
  intros Hall. induction Hall as [|[[k v]|] arr Hsl _ IH]; simpl; intros Hin.
  - by apply elem_of_nil in Hin.
  - destruct Hsl as [Hnull Hnan]. rewrite strict_eq_usable by done.
    rewrite bool_decide_eq_false_2 by done.
    apply elem_of_cons in Hin as [?|Hin]; [done|]. by apply IH.
  - done.
Qed.

Lemma null_in_flat arr : tidy arr → JNull ∈ flat arr → None ∈ arr.
Proof.
  intros [Hu Hw]. induction arr as [|[[k v]|] arr IH]; simpl; intros Hin.
  - by apply elem_of_nil in Hin.
  - apply Forall_cons in Hu as [[Hk _] Hu]. apply Forall_cons in Hw as [Hv Hw].
    simpl in Hv. apply elem_of_cons in Hin as [?|Hin]; [done|].
    apply elem_of_cons in Hin as [?|Hin]; [done|].
    apply list_elem_of_further. by apply IH.
  - apply list_elem_of_here.
Qed.

Lemma null_index_elem arr : None ∈ arr → is_Some (LinearMap.null_index arr).
Proof.
  induction arr as [|[[k v]|] arr IH]; simpl; intros Hin.
  - by apply elem_of_nil in Hin.
  - apply elem_of_cons in Hin as [?|Hin]; [done|].
    destruct (IH Hin) as [j ->]. simpl. eauto.
  - eauto.
Qed.

(** X20.  [null] as a key is the mark of a deleted pair: on a map that
    holds a deleted pair, [get(null)] returns [null] and [delete(null)]
    takes one from [size] and nothing from the array, so that [size] is
    then one less than the number of pairs. *)
Theorem FlatMap_null_key calls :
  Forall call_ok calls →
  let m := flat_built calls in
  JNull ∈ FlatMap.internalArray m →
  FlatMap.get m JNull = JNull ∧
  FlatMap.delete m JNull = FlatMap.Build (FlatMap.internalArray m) (FlatMap.size m - 1) ∧
  FlatMap.size (FlatMap.delete m JNull)
    = (Z.of_nat (length (FlatMap.toTuples (FlatMap.delete m JNull))) - 1)%Z.
Proof.
  intros Hall m Hin. subst m.
  destruct (flat_built_flatten calls Hall) as [Heq Ht].
  assert (Hsize : FlatMap.size (flat_built calls)
            = Z.of_nat (length (FlatMap.toTuples (flat_built calls)))).
  { rewrite Heq, flat_toTuples by done. apply (LinearMap_size_counts_pairs calls). }
  rewrite Heq in *.
  pose proof (null_in_flat _ Ht Hin) as Hnone. destruct Ht as [Hu Hw].
  destruct (null_index_elem _ Hnone) as [j Hj].
  assert (Hdel : FlatMap.delete (flatten (built calls)) JNull
            = FlatMap.Build (FlatMap.internalArray (flatten (built calls)))
                (FlatMap.size (flatten (built calls)) - 1)).
  { unfold FlatMap.delete, FlatMap.deleteIndex, flatten.
    cbn [FlatMap.internalArray FlatMap.size].
    rewrite key_index_flat_null, Hj by done.
    cbn [fmap option_fmap option_map]. f_equal.
    replace (0 + 2 * j) with (2 * j) by lia.
    rewrite assign_nulls by (by eapply null_index_lt).
    rewrite list_insert_id; [done|]. by apply null_index_Some. }
  split; [by apply get_from_flat_null|]. split; [done|].
  rewrite Hdel. unfold FlatMap.toTuples in *. cbn [FlatMap.internalArray FlatMap.size] in *.
  lia.
Qed.
End FlatEdges.

(** ** The [LinearMap] of the engine is the class *)

(** The keys of the engine's maps are objects, a [WeakRef] or a producer,
    and their values are version numbers. *)
Definition key_of (n : NodeId) : FlatMap.Js := FlatMap.JVal (VRef n).
Definition val_of (v : nat) : FlatMap.Js := FlatMap.JVal (VNum (Z.of_nat v)).
Definition pair_of (kv : NodeId * nat) : FlatMap.Js * FlatMap.Js :=
  (key_of kv.1, val_of kv.2).

(** The pairs of the engine's map, as JavaScript values. *)
Definition slot_of (sl : option (NodeId * nat)) : option (FlatMap.Js * FlatMap.Js) :=
  pair_of <$> sl.

Definition js_pairs (m : LinearMap.t NodeId nat) : LinearMap.t FlatMap.Js FlatMap.Js :=
  LinearMap.Build (slot_of <$> LinearMap.internalArray m) (LinearMap.size m).

(** The object a [LinearMap] of the engine stands for. *)
Definition object_of (m : LinearMap.t NodeId nat) : FlatMap.t := flatten (js_pairs m).

Section EngineMap.
Import FlatMap.
Implicit Types (arr : list (option (NodeId * nat))) (m : LinearMap.t NodeId nat).

Lemma key_of_inj k k' : key_of k = key_of k' → k = k'.
Proof. unfold key_of. congruence. Qed.

Lemma index_of_js arr k :
  LinearMap.index_of (slot_of <$> arr) (key_of k) = LinearMap.index_of arr k.
Proof.
  induction arr as [|[[k0 v0]|] arr IH]; [done|..].
  - change (LinearMap.index_of (slot_of <$> Some (k0, v0) :: arr) (key_of k))
      with (if bool_decide (key_of k0 = key_of k) then Some 0
            else S <$> LinearMap.index_of (slot_of <$> arr) (key_of k)).
    rewrite IH. simpl. destruct (decide (k0 = k)) as [->|Hne].
    + by rewrite !bool_decide_eq_true_2.
    + rewrite !bool_decide_eq_false_2; [done|done|]. by intros ?%key_of_inj.
  - change (LinearMap.index_of (slot_of <$> None :: arr) (key_of k))
      with (S <$> LinearMap.index_of (slot_of <$> arr) (key_of k)).
    by rewrite IH.
Qed.

Lemma null_index_js arr :
  LinearMap.null_index (slot_of <$> arr) = LinearMap.null_index arr.
Proof.
  induction arr as [|[[k0 v0]|] arr IH]; [done| |done].
  change (LinearMap.null_index (slot_of <$> Some (k0, v0) :: arr))
    with (S <$> LinearMap.null_index (slot_of <$> arr)).
  by rewrite IH.
Qed.

Lemma get_from_js arr k :
  LinearMap.get_from (slot_of <$> arr) (key_of k) = val_of <$> LinearMap.get_from arr k.
Proof.
  induction arr as [|[[k0 v0]|] arr IH]; [done|..].
  - change (LinearMap.get_from (slot_of <$> Some (k0, v0) :: arr) (key_of k))
      with (if bool_decide (key_of k0 = key_of k) then Some (val_of v0)
            else LinearMap.get_from (slot_of <$> arr) (key_of k)).
    rewrite IH. simpl. destruct (decide (k0 = k)) as [->|Hne].
    + by rewrite !bool_decide_eq_true_2.
    + rewrite !bool_decide_eq_false_2; [done|done|]. by intros ?%key_of_inj.
  - exact IH.
Qed.

Lemma tuples_js arr : omap id (slot_of <$> arr) = pair_of <$> omap id arr.
Proof.
  induction arr as [|[[k0 v0]|] arr IH]; [done| |exact IH].
  change (omap id (slot_of <$> Some (k0, v0) :: arr))
    with (pair_of (k0, v0) :: omap id (slot_of <$> arr)).
  by rewrite IH.
Qed.

Lemma tidy_js m : tidy (LinearMap.internalArray (js_pairs m)).
Proof.
  unfold js_pairs. simpl. split; apply Forall_fmap, Forall_forall;
    intros [[k v]|] _; simpl; done.
Qed.

Lemma js_set m k v :
  LinearMap.set (js_pairs m) (key_of k) (val_of v) = js_pairs (LinearMap.set m k v).
Proof.
  unfold LinearMap.set, js_pairs. simpl. rewrite index_of_js, null_index_js.
  destruct (LinearMap.index_of _ k); simpl.
  - by rewrite list_fmap_insert.
  - destruct (LinearMap.null_index _); simpl.
    + by rewrite list_fmap_insert.
    + by rewrite fmap_app.
Qed.

Lemma js_delete m k :
  LinearMap.delete (js_pairs m) (key_of k) = js_pairs (LinearMap.delete m k).
Proof.
  unfold LinearMap.delete, js_pairs. simpl. rewrite index_of_js.
  destruct (LinearMap.index_of _ k); simpl; [|done]. by rewrite list_fmap_insert.
Qed.

Lemma js_defragment m :
  LinearMap.defragment (js_pairs m) = js_pairs (LinearMap.defragment m).
Proof.
  unfold LinearMap.defragment, LinearMap.toTuples, js_pairs. simpl.
  rewrite tuples_js. f_equal. rewrite <- !list_fmap_compose. done.
Qed.

(** X21.  On the keys and the values the engine stores, the [LinearMap]
    of pairs it is verified with does what the class does on its flat
    array: [get], [set], [delete], [toTuples] and [defragment] of the one
    are those of the other. *)
Theorem LinearMap_is_the_class m k v :
  FlatMap.get (object_of m) (key_of k)
    = from_option val_of JUndefined (LinearMap.get m k) ∧
  FlatMap.set (object_of m) (key_of k) (val_of v) = object_of (LinearMap.set m k v) ∧
  FlatMap.delete (object_of m) (key_of k) = object_of (LinearMap.delete m k) ∧
  FlatMap.toTuples (object_of m) = pair_of <$> LinearMap.toTuples m ∧
  FlatMap.defragment (object_of m) = object_of (LinearMap.defragment m) ∧
  FlatMap.size (object_of m) = LinearMap.size m.
Proof.
  pose proof (tidy_js m) as Ht. pose proof Ht as [Hu Hw]. unfold object_of.
  split; [|split; [|split; [|split; [|split]]]].
  - rewrite flat_get by done. unfold LinearMap.get, js_pairs. simpl.
    rewrite get_from_js. by destruct (LinearMap.get_from _ k).
  - rewrite flat_set by done. by rewrite js_set.
  - rewrite flat_delete by done. by rewrite js_delete.
  - rewrite flat_toTuples by done. unfold LinearMap.toTuples, js_pairs. simpl.
    apply tuples_js.
  - rewrite flat_defragment by done. by rewrite js_defragment.
  - done.
Qed.
End EngineMap.

(** ** The state through its fields *)

Definition val (s : State) (n : NodeId) : JSVal := from_option _value UNSET (heap s !! n).
Definition ver (s : State) (n : NodeId) : nat := from_option valueVersion 0 (heap s !! n).
Definition csm (s : State) (n : NodeId) : option Consumer := heap s !! n ≫= pipeline.
Definition tvs (s : State) (n : NodeId) : nat := from_option trackingVersion 0 (csm s n).

(** [p.consumers.get(c.ref)] and [n.producers.get(p)]. *)
Definition cns (s : State) (p c : NodeId) : option nat :=
  heap s !! p ≫= (fun nd => EdgeMap.get (consumers nd) c).
Definition prd (s : State) (n p : NodeId) : option nat :=
  csm s n ≫= (fun c => EdgeMap.get (producers c) p).

Lemma csm_Some s n c :
  csm s n = Some c ↔ ∃ nd, heap s !! n = Some nd ∧ pipeline nd = Some c.
Proof.
  unfold csm. destruct (heap s !! n) as [nd|]; simpl.
  - split; [eauto|]. by intros (? & [= <-] & ?).
  - split; [done|]. by intros (? & ? & ?).
Qed.

(** ** Edge registration *)

(** X9.  [producerAccessed(p)] while [a] is the active consumer records the
    edge on both sides, [p.consumers] at [a.trackingVersion] and
    [a.producers] at [p.valueVersion], over whatever was recorded for the
    pair before; no other edge changes, and neither does a value, a
    version or a [stale] mark. *)
Theorem producerAccessed_registers p a s ndp ca :
  activeConsumer s = Some a → heap s !! p = Some ndp → csm s a = Some ca →
  ∃ s', producerAccessed p s = Ok tt s' ∧
    cns s' p a = Some (trackingVersion ca) ∧
    prd s' a p = Some (valueVersion ndp) ∧
    (∀ x c, (x, c) ≠ (p, a) → cns s' x c = cns s x c) ∧
    (∀ n x, (n, x) ≠ (a, p) → prd s' n x = prd s n x) ∧
    edges_only s s' ∧ trace s' = trace s.
Proof.
  intros Ha Hp Hca. apply csm_Some in Hca as (nda & Hna & Hpa).
  assert (active_ok s) as Hok.
  { intros a' Ha'. rewrite Ha in Ha'. injection Ha' as <-. rewrite Hna. simpl. eauto. }
  destruct (producerAccessed_Ok p s ndp Hp Hok) as (s' & Hrun & He & Ht).
  exists s'. split; [done|]. split; [|split; [|split; [|split; [|done]]]].
  all: revert Hrun; unfold producerAccessed.
  all: rewrite (bind_Ok _ _ s (Some a) s) by (unfold getActiveConsumer; by rewrite Ha).
  all: rewrite (bind_Ok _ _ _ _ _ (consumer_Ok _ _ _ _ Hna Hpa)).
  all: rewrite (bind_Ok _ _ _ _ _ (modify_node_Ok _ _ _ _ Hp)).
  all: set (ndp' := with_consumers (fun m =>
         EdgeMap.upgrade (EdgeMap.set m a (trackingVersion ca))) ndp).
  all: set (s1 := set_heap (<[p := ndp']> (heap s)) s).
  all: rewrite (bind_Ok _ _ s1 ndp' s1) by (apply node_Ok; simpl; apply lookup_insert_eq).
  all: destruct (decide (a = p)) as [->|Hne].
  all: try (rewrite (modify_node_Ok _ p s1 ndp') by (simpl; apply lookup_insert_eq)).
  all: try (rewrite (modify_node_Ok _ a s1 nda) by (simpl; by rewrite lookup_insert_ne)).
  all: intros [= <-]; unfold cns, prd, csm; simpl.
  - rewrite lookup_insert_eq. simpl. by rewrite get_upgrade_set, decide_True.
  - rewrite lookup_insert_ne, lookup_insert_eq by done. simpl.
    by rewrite get_upgrade_set, decide_True.
  - rewrite lookup_insert_eq. simpl. assert (nda = ndp) as -> by congruence.
    rewrite Hpa. simpl. by rewrite get_upgrade_set, decide_True.
  - rewrite lookup_insert_eq. simpl. rewrite Hpa. simpl.
    by rewrite get_upgrade_set, decide_True.
  - intros x c Hxc. destruct (decide (x = p)) as [->|Hx].
    + rewrite lookup_insert_eq, Hp. simpl. rewrite get_upgrade_set.
      rewrite decide_False; [done|]. by intros ->.
    + by rewrite !lookup_insert_ne.
  - intros x c Hxc. destruct (decide (x = a)) as [->|Hx].
    + rewrite lookup_insert_eq, Hna. done.
    + rewrite lookup_insert_ne by done. destruct (decide (x = p)) as [->|Hx'].
      * rewrite lookup_insert_eq, Hp. simpl. rewrite get_upgrade_set.
        rewrite decide_False; [done|]. by intros ->.
      * by rewrite lookup_insert_ne.
  - intros n x Hnx. destruct (decide (n = p)) as [->|Hn].
    + rewrite lookup_insert_eq, Hp. simpl. assert (nda = ndp) as -> by congruence.
      rewrite Hpa. simpl. rewrite get_upgrade_set.
      rewrite decide_False; [done|]. by intros ->.
    + by rewrite !lookup_insert_ne.
  - intros n x Hnx. destruct (decide (n = a)) as [->|Hn].
    + rewrite lookup_insert_eq, Hna. simpl. rewrite Hpa. simpl. rewrite get_upgrade_set.
      rewrite decide_False; [done|]. by intros ->.
    + rewrite lookup_insert_ne by done. destruct (decide (n = p)) as [->|Hn'].
      * by rewrite lookup_insert_eq, Hp.
      * by rewrite lookup_insert_ne.
Qed.

(** ** A write computes nothing *)

Definition is_notify (ev : Event) : Prop :=
  match ev with EvNotify _ _ => True | _ => False end.

(** The trace of [s'] is that of [s] and deliveries of [notify()]. *)
Definition notifies_only (s s' : State) : Prop :=
  ∃ evs, trace s' = trace s ++ evs ∧ Forall is_notify evs.

Lemma notifies_only_refl s : notifies_only s s.
Proof. exists []. by rewrite app_nil_r. Qed.

Lemma notifies_only_trans s1 s2 s3 :
  notifies_only s1 s2 → notifies_only s2 s3 → notifies_only s1 s3.
Proof.
  intros (evs1 & T1 & F1) (evs2 & T2 & F2). exists (evs1 ++ evs2).
  split; [by rewrite T2, T1, app_assoc|by apply Forall_app].
Qed.

Lemma notifies_only_written f n nd s s' : written f n nd s s' → notifies_only s s'.
Proof. intros (_ & _ & _ & Ht). exists []. by rewrite app_nil_r. Qed.

Lemma notifies_only_emit s s' c q :
  trace s' = trace s ++ [EvNotify c q] → notifies_only s s'.
Proof. intros Ht. exists [EvNotify c q]. split; [done|]. by repeat constructor. Qed.

Ltac solve_notifies :=
  lazymatch goal with
  | |- notifies_only ?s ?s => apply notifies_only_refl
  | H : notifies_only ?s1 ?s' |- notifies_only ?s0 ?s' =>
      first [ exact H | apply (notifies_only_trans s0 s1 s'); [solve_notifies|exact H] ]
  | H : written _ _ _ ?s1 ?s' |- notifies_only ?s0 ?s' =>
      apply (notifies_only_trans s0 s1 s');
        [solve_notifies|apply (notifies_only_written _ _ _ _ _ H)]
  | H : trace ?s' = trace ?s1 ++ [EvNotify _ _] |- notifies_only ?s0 ?s' =>
      apply (notifies_only_trans s0 s1 s');
        [solve_notifies|eapply notifies_only_emit; exact H]
  end.

Lemma notifies_only_engine fuel :
  (∀ n p s, wp (notify fuel n p) s
              (fun _ s' => notifies_only s s') (fun _ s' => notifies_only s s')) ∧
  (∀ n s, wp (producerNotifyConsumers fuel n) s
            (fun _ s' => notifies_only s s') (fun _ s' => notifies_only s s')) ∧
  (∀ n r it s, wp (notifyLoop fuel n r it) s
            (fun _ s' => notifies_only s s') (fun _ s' => notifies_only s s')).
Proof.
  apply (notify_family
    (fun n p m => ∀ s, wp m s (fun _ s' => notifies_only s s') (fun _ s' => notifies_only s s'))
    (fun n m => ∀ s, wp m s (fun _ s' => notifies_only s s') (fun _ s' => notifies_only s s'))
    (fun n r it m => ∀ s, wp m s (fun _ s' => notifies_only s s')
                            (fun _ s' => notifies_only s s')));
    try done.
  - intros e IH n p s. unfold_bodies.
    repeat first
      [ wp_step
      | eapply wp_mono; [apply IH|intros ? ? ?; cbv beta in *..]
      | solve_notifies ].
  - intros e IH n s. unfold_bodies.
    repeat first
      [ wp_step
      | eapply wp_mono; [apply IH|intros ? ? ?; cbv beta in *..]
      | solve_notifies ].
  - intros e IH1 IH3 n r it s. unfold_bodies.
    repeat first
      [ wp_step
      | eapply wp_mono; [first [apply IH1|apply IH3]|intros ? ? ?; cbv beta in *..]
      | solve_notifies ].
Qed.

Lemma cascade_fields s s' :
  cascade s s' →
  (∀ n, val s' n = val s n ∧ ver s' n = ver s n ∧ tvs s' n = tvs s n) ∧
  (∀ n c', csm s' n = Some c' → stale c' = StaleFalse →
     ∃ c, csm s n = Some c ∧ stale c = StaleFalse).
Proof.
  intros [H _]. split.
  - intros n. specialize (H n). unfold val, ver, tvs, csm.
    destruct H as [nd nd' (Hvv & Hv & _ & Hp)|]; simpl; [|done].
    split; [done|]. split; [done|]. by destruct Hp as [c c' (_ & ? & _)|].
  - intros n c' Hc' Hst. specialize (H n). unfold csm in *.
    destruct H as [nd nd' (_ & _ & _ & Hp)|]; simpl in *; [|done].
    rewrite Hc' in Hp. inversion Hp as [c ? (_ & _ & Hs) E1 E2|]; subst.
    exists c. split; [done|]. destruct Hs as [?|[? ?]]; congruence.
Qed.

(** X10.  [setValue] computes nothing: however it ends, no [calculate()] is
    called and no getter, only [notify()]; every other node has the value
    and the [valueVersion] it had, every consumer its [trackingVersion],
    and a node that is clean afterwards was clean before. *)
Theorem setValue_computes_nothing fuel p x s :
  let s' := final (setValue fuel p x s) s in
  (∀ n, n ≠ p → val s' n = val s n ∧ ver s' n = ver s n) ∧
  (∀ n, tvs s' n = tvs s n) ∧
  (∀ n c', csm s' n = Some c' → stale c' = StaleFalse →
     ∃ c, csm s n = Some c ∧ stale c = StaleFalse) ∧
  ∃ evs, trace s' = trace s ++ evs ∧ ∀ ev, ev ∈ evs → ∃ c q, ev = EvNotify c q.
Proof.
  intros s'.
  assert (∃ s1, (s1 = s ∨ ∃ nd, heap s !! p = Some nd ∧ pipeline nd = None ∧
                   heap s1 = <[p := incrValueVersion (with_value x nd)]> (heap s) ∧
                   trace s1 = trace s) ∧
                cascade s1 s' ∧ notifies_only s1 s') as (s1 & Hs1 & Hcas & Hnot).
  { assert (Hsame : final (setValue fuel p x s) s = s →
      ∃ s1, (s1 = s ∨ ∃ nd, heap s !! p = Some nd ∧ pipeline nd = None ∧
                   heap s1 = <[p := incrValueVersion (with_value x nd)]> (heap s) ∧
                   trace s1 = trace s) ∧
            cascade s1 s' ∧ notifies_only s1 s').
    { intros Hs. exists s. subst s'. rewrite Hs. split; [by left|].
      split; [apply cascade_refl|apply notifies_only_refl]. }
    destruct fuel as [|fuel]; [by apply Hsame|].
    destruct (heap s !! p) as [nd|] eqn:Hp.
    2:{ apply Hsame.
        change (setValue (S fuel) p x s) with (setValue_body (engine fuel) p x s).
        unfold setValue_body. by rewrite (bind_Err _ _ _ _ _ (node_Err _ _ Hp)). }
    destruct (pipeline nd) eqn:Hleaf.
    { apply Hsame.
      change (setValue (S fuel) p x s) with (setValue_body (engine fuel) p x s).
      unfold setValue_body. by rewrite (bind_Ok _ _ _ _ _ (node_Ok _ _ _ Hp)), Hleaf. }
    destruct (decide (x = _value nd)) as [Hx|Hx].
    { apply Hsame.
      change (setValue (S fuel) p x s) with (setValue_body (engine fuel) p x s).
      unfold setValue_body. rewrite (bind_Ok _ _ _ _ _ (node_Ok _ _ _ Hp)), Hleaf.
      apply strictEquals_true in Hx. by rewrite Hx. }
    pose proof (setValue_S_changed fuel _ _ _ nd Hp Hleaf Hx) as Heq.
    set (s1 := set_heap _ s) in Heq.
    destruct (cascade_engine fuel) as (_ & Hc & _).
    destruct (notifies_only_engine fuel) as (_ & Hn & _).
    specialize (Hc p s1). specialize (Hn p s1). unfold wp in Hc, Hn.
    destruct (producerNotifyConsumers fuel p s1) as [[] s2|e s2|] eqn:Hrun.
    - exists s1. subst s'. rewrite Heq. split; [right; by exists nd|done].
    - exists s1. subst s'. rewrite Heq. split; [right; by exists nd|done].
    - apply Hsame. by rewrite Heq. }
  destruct (cascade_fields _ _ Hcas) as [Hf Hcl].
  assert (∀ n, n ≠ p → heap s1 !! n = heap s !! n) as Hne.
  { intros n Hn. destruct Hs1 as [->|(nd & _ & _ & -> & _)]; [done|].
    by rewrite lookup_insert_ne. }
  assert (∀ n, csm s1 n = csm s n) as Hcsm.
  { intros n. destruct Hs1 as [->|(nd & Hp & Hleaf & Hh & _)]; [done|].
    unfold csm. rewrite Hh. destruct (decide (n = p)) as [->|Hn].
    - rewrite lookup_insert_eq, Hp. done.
    - by rewrite lookup_insert_ne. }
  split; [|split; [|split]].
  - intros n Hn. destruct (Hf n) as (-> & -> & _). unfold val, ver. by rewrite (Hne n Hn).
  - intros n. destruct (Hf n) as (_ & _ & ->). unfold tvs. by rewrite Hcsm.
  - intros n c' Hc' Hst. destruct (Hcl n c' Hc' Hst) as (c & Hc & ?). exists c.
    by rewrite <- Hcsm.
  - destruct Hnot as (evs & Ht & Hall). exists evs. split.
    + rewrite Ht. by destruct Hs1 as [->|(nd & _ & _ & _ & ->)].
    + intros ev Hin. rewrite Forall_forall in Hall. specialize (Hall ev Hin).
      destruct ev; try done. eauto.
Qed.

(** ** A [calculate()] that throws *)


(** ** What the edge maps record, in every state the engine reaches *)

Section AllPairs.
Context {K V : Type} `{EqDecision K}.
Implicit Types (arr : list (option (K * V))) (e : EdgeMap.t K V).

(** The pairs of both objects of a field: the LinearMap the node was built
    with, and the Map that has taken its place, if any. *)
Definition all_pairs e : list (K * V) :=
  LinearMap.toTuples (EdgeMap.linear e) ++
  from_option (fun m => omap id (JSMap.mapData m)) [] (EdgeMap.hashed e).

Lemma elem_of_tuples arr x : x ∈ omap id arr ↔ Some x ∈ arr.
Proof.
  rewrite list_elem_of_omap. split.
  - intros (sl & Hin & Hsl). simpl in Hsl. by subst sl.
  - intros Hin. by exists (Some x).
Qed.

Lemma elem_of_insert_slot arr i (y z : option (K * V)) :
  z ∈ <[i := y]> arr → z = y ∨ z ∈ arr.
Proof.
  revert i. induction arr as [|sl arr IH]; intros i;
    [intros Hin; destruct i; by apply elem_of_nil in Hin|].
  destruct i as [|i]; simpl.
  - intros [->|Hin]%elem_of_cons; [by left|]. right. by apply list_elem_of_further.
  - intros [->|Hin]%elem_of_cons; [right; apply list_elem_of_here|].
    destruct (IH i Hin) as [->|?]; [by left|]. right. by apply list_elem_of_further.
Qed.

Lemma tuples_insert_None arr i : omap id (<[i := None]> arr) ⊆ omap id arr.
Proof.
  intros x Hx. apply elem_of_tuples in Hx. apply elem_of_tuples.
  by destruct (elem_of_insert_slot _ _ _ _ Hx).
Qed.

Lemma tuples_insert_Some arr i y : omap id (<[i := Some y]> arr) ⊆ y :: omap id arr.
Proof.
  intros x Hx. apply elem_of_tuples in Hx.
  destruct (elem_of_insert_slot _ _ _ _ Hx) as [[= ->]|Hin]; [apply list_elem_of_here|].
  apply list_elem_of_further. by apply elem_of_tuples.
Qed.

Lemma tuples_set_linear (l : LinearMap.t K V) k v :
  LinearMap.toTuples (LinearMap.set l k v) ⊆ (k, v) :: LinearMap.toTuples l.
Proof.
  unfold LinearMap.toTuples, LinearMap.set.
  destruct (LinearMap.index_of _ k); simpl; [apply tuples_insert_Some|].
  destruct (LinearMap.null_index _); simpl; [apply tuples_insert_Some|].
  rewrite omap_app. simpl. intros x [?|Hx]%elem_of_app.
  - by apply list_elem_of_further.
  - apply list_elem_of_singleton in Hx as ->. apply list_elem_of_here.
Qed.

Lemma tuples_set_hashed (m : JSMap.t K V) k v :
  omap id (JSMap.mapData (JSMap.set m k v)) ⊆ (k, v) :: omap id (JSMap.mapData m).
Proof.
  unfold JSMap.set. destruct (LinearMap.index_of _ k); simpl; [apply tuples_insert_Some|].
  rewrite omap_app. simpl. intros x [?|Hx]%elem_of_app.
  - by apply list_elem_of_further.
  - apply list_elem_of_singleton in Hx as ->. apply list_elem_of_here.
Qed.

Lemma get_all_pairs e k v : EdgeMap.get e k = Some v → (k, v) ∈ all_pairs e.
Proof.
  destruct e as [l [m|]]; unfold EdgeMap.get, EdgeMap.current, all_pairs; simpl;
    intros Hg; apply elem_of_app.
  - right. by apply elem_of_tuples, get_from_Some_elem.
  - left. by apply elem_of_tuples, get_from_Some_elem.
Qed.

Lemma all_pairs_delete_at r e k : all_pairs (EdgeMap.delete_at r e k) ⊆ all_pairs e.
Proof.
  unfold all_pairs. destruct r; simpl.
  - intros x [Hx|Hx]%elem_of_app; apply elem_of_app; [left|by right].
    revert Hx. unfold LinearMap.toTuples, LinearMap.delete.
    destruct (LinearMap.index_of _ k); simpl; [apply tuples_insert_None|done].
  - intros x [Hx|Hx]%elem_of_app; apply elem_of_app; [by left|right].
    destruct (EdgeMap.hashed e) as [m|]; simpl in *; [|done].
    revert Hx. unfold JSMap.delete.
    destruct (LinearMap.index_of _ k); simpl; [apply tuples_insert_None|done].
Qed.

Lemma all_pairs_set e k v : all_pairs (EdgeMap.set e k v) ⊆ (k, v) :: all_pairs e.
Proof.
  unfold all_pairs, EdgeMap.set, EdgeMap.current.
  destruct (EdgeMap.hashed e) as [m|] eqn:Hh; simpl; rewrite ?Hh; simpl.
  - intros x [Hx|Hx]%elem_of_app.
    + apply list_elem_of_further, elem_of_app. by left.
    + apply tuples_set_hashed in Hx. apply elem_of_cons in Hx as [->|Hx];
        [apply list_elem_of_here|]. apply list_elem_of_further, elem_of_app. by right.
  - rewrite !app_nil_r. apply tuples_set_linear.
Qed.

Lemma all_pairs_upgrade e : all_pairs (EdgeMap.upgrade e) ⊆ all_pairs e.
Proof.
  unfold all_pairs, EdgeMap.upgrade.
  destruct (EdgeMap.hashed e) as [m|] eqn:Hh; simpl; [by rewrite Hh|].
  case_bool_decide; simpl; [|by rewrite Hh].
  rewrite omap_id_tuples. intros x [?|?]%elem_of_app; apply elem_of_app; by left.
Qed.

(** A field in good order: no key twice, the right [size], and short
    while it is a LinearMap. *)
Definition field_ok e : Prop := edge_ok e ∧ field_small e.

Lemma field_ok_empty : field_ok (EdgeMap.empty (K:=K) (V:=V)).
Proof. split; [apply edge_ok_empty|]. intros _. simpl. split; [lia|done]. Qed.

Lemma field_ok_set e k v : field_ok e → field_ok (EdgeMap.upgrade (EdgeMap.set e k v)).
Proof.
  intros [Hok Hsm]. split; [by apply edge_ok_upgrade, edge_ok_set|by apply field_small_set].
Qed.

Lemma field_ok_delete_at r e k : field_ok e → field_ok (EdgeMap.delete_at r e k).
Proof.
  intros [Hok Hsm]. split; [by apply edge_ok_delete_at|by apply field_small_delete_at].
Qed.

(** [e'] holds pairs of [e] only, and is in good order if [e] is. *)
Definition shrinks e e' : Prop := all_pairs e' ⊆ all_pairs e ∧ (field_ok e → field_ok e').

Lemma shrinks_refl e : shrinks e e.
Proof. by split. Qed.

Lemma shrinks_delete_at r e k : shrinks e (EdgeMap.delete_at r e k).
Proof. split; [apply all_pairs_delete_at|apply field_ok_delete_at]. Qed.

Lemma shrinks_delete e k : shrinks e (EdgeMap.delete e k).
Proof. apply shrinks_delete_at. Qed.
End AllPairs.

(** No edge records a version its node has not reached.  The node at
    the other end of an edge may be gone: a consumer is held by a
    [WeakRef] and can be reclaimed. *)
Definition bounded (s : State) : Prop :=
  (∀ p ndp c t cc, heap s !! p = Some ndp → (c, t) ∈ all_pairs (consumers ndp) →
     csm s c = Some cc → t ≤ trackingVersion cc) ∧
  (∀ n cn p r ndp, csm s n = Some cn → (p, r) ∈ all_pairs (producers cn) →
     heap s !! p = Some ndp → r ≤ valueVersion ndp).

Definition fields_ok (s : State) : Prop :=
  ∀ n nd, heap s !! n = Some nd →
    field_ok (consumers nd) ∧ ∀ c, pipeline nd = Some c → field_ok (producers c).

Definition sound (s : State) : Prop := bounded s ∧ fields_ok s.

Definition keeps_sound (s s' : State) : Prop := sound s → sound s'.

Lemma keeps_sound_refl s : keeps_sound s s.
Proof. by intros ?. Qed.

Lemma keeps_sound_trans s1 s2 s3 :
  keeps_sound s1 s2 → keeps_sound s2 s3 → keeps_sound s1 s3.
Proof. unfold keeps_sound. auto. Qed.

Lemma sound_same_heap s s' : same_heap s s' → keeps_sound s s'.
Proof. unfold keeps_sound, sound, bounded, fields_ok, csm. by intros ->. Qed.

(** A write to one node. *)
Lemma sound_written_gen f n nd s s' :
  written f n nd s s' → node_grows nd (f nd) →
  (∀ c t, (c, t) ∈ all_pairs (consumers (f nd)) →
     (c, t) ∈ all_pairs (consumers nd) ∨
     ∀ cc, csm s c = Some cc → t ≤ trackingVersion cc) →
  (∀ cn', pipeline (f nd) = Some cn' → ∀ p r, (p, r) ∈ all_pairs (producers cn') →
     (∃ cn, pipeline nd = Some cn ∧ (p, r) ∈ all_pairs (producers cn)) ∨
     ∀ ndp, heap s !! p = Some ndp → r ≤ valueVersion ndp) →
  (field_ok (consumers nd) → field_ok (consumers (f nd))) →
  (∀ cn', pipeline (f nd) = Some cn' →
     ∃ cn, pipeline nd = Some cn ∧ (field_ok (producers cn) → field_ok (producers cn'))) →
  sound s → sound s'.
Proof.
  intros (Hn & Hh & _) [Hvv Hg] Hcs Hps Hfc Hfp [[B1 B2] F].
  assert (Hheap : ∀ p ndp', heap s' !! p = Some ndp' →
            ∃ ndp, heap s !! p = Some ndp ∧ valueVersion ndp ≤ valueVersion ndp').
  { intros p ndp' Hp. rewrite Hh in Hp. destruct (decide (n = p)) as [<-|Hne].
    - rewrite lookup_insert_eq in Hp. injection Hp as <-. eauto.
    - rewrite lookup_insert_ne in Hp by done. eauto. }
  assert (Hcsm : ∀ c cc', csm s' c = Some cc' →
            ∃ cc, csm s c = Some cc ∧ trackingVersion cc ≤ trackingVersion cc').
  { intros c cc' Hc. unfold csm in *. rewrite Hh in Hc.
    destruct (decide (n = c)) as [<-|Hne].
    - rewrite lookup_insert_eq in Hc. simpl in Hc. rewrite Hn. simpl.
      rewrite Hc in Hg. destruct (pipeline nd) as [cc|]; [|done]. destruct Hg. eauto.
    - rewrite lookup_insert_ne in Hc by done. eauto. }
  split; [split|].
  - intros p ndp' c t cc' Hp Hin Hc'. destruct (Hcsm c cc' Hc') as (cc & Hc & Hle).
    rewrite Hh in Hp. destruct (decide (n = p)) as [<-|Hne].
    + rewrite lookup_insert_eq in Hp. injection Hp as <-.
      destruct (Hcs c t Hin) as [Hin'|Hnew].
      * pose proof (B1 n nd c t cc Hn Hin' Hc). lia.
      * pose proof (Hnew cc Hc). lia.
    + rewrite lookup_insert_ne in Hp by done. pose proof (B1 p ndp' c t cc Hp Hin Hc). lia.
  - intros m cn' p r ndp' Hm Hin Hp. destruct (Hheap p ndp' Hp) as (ndp & Hp0 & Hle).
    unfold csm in Hm. rewrite Hh in Hm. destruct (decide (n = m)) as [<-|Hne].
    + rewrite lookup_insert_eq in Hm. simpl in Hm.
      destruct (Hps cn' Hm p r Hin) as [(cn & Hcn & Hin')|Hnew].
      * assert (Hcsmn : csm s n = Some cn) by (unfold csm; by rewrite Hn).
        pose proof (B2 n cn p r ndp Hcsmn Hin' Hp0). lia.
      * pose proof (Hnew ndp Hp0). lia.
    + rewrite lookup_insert_ne in Hm by done.
      pose proof (B2 m cn' p r ndp Hm Hin Hp0). lia.
  - intros m ndm Hm. rewrite Hh in Hm. destruct (decide (n = m)) as [<-|Hne].
    + rewrite lookup_insert_eq in Hm. simplify_eq. destruct (F n nd Hn) as [Fc Fp].
      split; [by apply Hfc|]. intros cn' Hcn'.
      destruct (Hfp cn' Hcn') as (cn & Hcn & Himp). by apply Himp, Fp.
    + rewrite lookup_insert_ne in Hm by done. by apply (F m).
Qed.

(** A write that records no new edge. *)
Definition safe_write (f : Node → Node) : Prop :=
  ∀ nd, node_grows nd (f nd) ∧ shrinks (consumers nd) (consumers (f nd)) ∧
    ∀ c', pipeline (f nd) = Some c' →
      ∃ c, pipeline nd = Some c ∧ shrinks (producers c) (producers c').

Lemma sound_written f n nd s s' :
  written f n nd s s' → safe_write f → keeps_sound s s'.
Proof.
  intros Hw Hf. destruct (Hf nd) as (Hg & [Hc1 Hc2] & Hp). unfold keeps_sound.
  apply (sound_written_gen f n nd s s' Hw Hg).
  - intros c t Hin. left. by apply Hc1.
  - intros cn' Hcn' p r Hin. left. destruct (Hp cn' Hcn') as (cn & Hcn & [Hs _]).
    exists cn. split; [done|]. by apply Hs.
  - done.
  - intros cn' Hcn'. destruct (Hp cn' Hcn') as (cn & Hcn & [_ Hs]). eauto.
Qed.

Lemma safe_write_grows f :
  grows f → (∀ nd, consumers (f nd) = consumers nd) →
  (∀ nd c', pipeline (f nd) = Some c' →
     ∃ c, pipeline nd = Some c ∧ producers c' = producers c) →
  safe_write f.
Proof.
  intros Hg Hc Hp nd. split; [apply Hg|]. split; [rewrite Hc; apply shrinks_refl|].
  intros c' Hc'. destruct (Hp nd c' Hc') as (c & ? & ->). exists c. split; [done|].
  apply shrinks_refl.
Qed.

Lemma safe_with_value v : safe_write (with_value v).
Proof.
  apply safe_write_grows; [apply grows_with_value|done|]. intros nd c' Hc'. eauto.
Qed.

Lemma safe_incrValueVersion : safe_write incrValueVersion.
Proof.
  apply safe_write_grows; [apply grows_incrValueVersion|done|]. intros nd c' Hc'. eauto.
Qed.

Lemma safe_incrTrackingVersion : safe_write (with_pipeline incrTrackingVersion).
Proof.
  apply safe_write_grows; [apply grows_incrTrackingVersion|done|]. intros nd c'. simpl.
  destruct (pipeline nd) as [c|]; simpl; [|done]. intros [= <-]. eauto.
Qed.

Lemma safe_with_stale st : safe_write (with_pipeline (with_stale st)).
Proof.
  apply safe_write_grows; [apply grows_with_stale|done|]. intros nd c'. simpl.
  destruct (pipeline nd) as [c|]; simpl; [|done]. intros [= <-]. eauto.
Qed.

Lemma safe_consumers_delete_at r k :
  safe_write (with_consumers (fun m => EdgeMap.delete_at r m k)).
Proof.
  intros nd. split; [apply keeps_grows, keeps_with_consumers|].
  split; [apply shrinks_delete_at|]. intros c' Hc'. exists c'. split; [done|].
  apply shrinks_refl.
Qed.

Lemma safe_consumers_delete k :
  safe_write (with_consumers (fun m => EdgeMap.delete m k)).
Proof.
  intros nd. split; [apply keeps_grows, keeps_with_consumers|].
  split; [apply shrinks_delete|]. intros c' Hc'. exists c'. split; [done|].
  apply shrinks_refl.
Qed.

Lemma safe_producers_delete_at r k :
  safe_write (with_pipeline (with_producers (fun m => EdgeMap.delete_at r m k))).
Proof.
  intros nd. split; [apply keeps_grows, keeps_with_producers|].
  split; [apply shrinks_refl|]. simpl. intros c'.
  destruct (pipeline nd) as [c|]; simpl; [|done]. intros [= <-]. exists c.
  split; [done|]. apply shrinks_delete_at.
Qed.

Lemma safe_producers_delete k :
  safe_write (with_pipeline (with_producers (fun m => EdgeMap.delete m k))).
Proof.
  intros nd. split; [apply keeps_grows, keeps_with_producers|].
  split; [apply shrinks_refl|]. simpl. intros c'.
  destruct (pipeline nd) as [c|]; simpl; [|done]. intros [= <-]. exists c.
  split; [done|]. apply shrinks_delete.
Qed.

Create HintDb sound.
#[local] Hint Resolve safe_with_value safe_incrValueVersion safe_incrTrackingVersion
  safe_with_stale safe_consumers_delete_at safe_consumers_delete
  safe_producers_delete_at safe_producers_delete : sound.

(** The two writes of [producerAccessed]. *)
Lemma sound_written_consumers p nd a ca s s' :
  written (with_consumers (fun m =>
             EdgeMap.upgrade (EdgeMap.set m a (trackingVersion ca)))) p nd s s' →
  csm s a = Some ca → keeps_sound s s'.
Proof.
  intros Hw Ha. unfold keeps_sound. apply (sound_written_gen _ p nd s s' Hw).
  - apply keeps_grows, keeps_with_consumers.
  - simpl. intros c t Hin. apply all_pairs_upgrade, all_pairs_set in Hin.
    apply elem_of_cons in Hin as [[= -> ->]|Hin]; [right|by left].
    intros cc Hcc. rewrite Ha in Hcc. by injection Hcc as <-.
  - simpl. intros cn' Hcn' q r Hin. left. eauto.
  - simpl. apply field_ok_set.
  - simpl. intros cn' Hcn'. eauto.
Qed.

Lemma sound_written_producers a nd p ndp s s' :
  written (with_pipeline (with_producers (fun m =>
             EdgeMap.upgrade (EdgeMap.set m p (valueVersion ndp))))) a nd s s' →
  heap s !! p = Some ndp → keeps_sound s s'.
Proof.
  intros Hw Hp. unfold keeps_sound. apply (sound_written_gen _ a nd s s' Hw).
  - apply keeps_grows, keeps_with_producers.
  - simpl. intros c t Hin. by left.
  - simpl. intros cn'. destruct (pipeline nd) as [cn|]; simpl; [|done].
    intros [= <-] q r Hin. simpl in Hin.
    apply all_pairs_upgrade, all_pairs_set in Hin.
    apply elem_of_cons in Hin as [[= -> ->]|Hin]; [right|left; eauto].
    intros ndp' Hp'. rewrite Hp in Hp'. by injection Hp' as <-.
  - done.
  - simpl. intros cn'. destruct (pipeline nd) as [cn|]; simpl; [|done].
    intros [= <-]. exists cn. split; [done|]. simpl. apply field_ok_set.
Qed.

Ltac solve_sound :=
  lazymatch goal with
  | |- keeps_sound ?s ?s => apply keeps_sound_refl
  | H : keeps_sound ?s1 ?s' |- keeps_sound ?s0 ?s' =>
      first [ exact H | apply (keeps_sound_trans s0 s1 s'); [solve_sound|exact H] ]
  | H : written _ _ _ ?s1 ?s' |- keeps_sound ?s0 ?s' =>
      apply (keeps_sound_trans s0 s1 s');
        [solve_sound
        |apply (sound_written _ _ _ _ _ H); solve [auto with sound]]
  | H : same_heap ?s1 ?s' |- keeps_sound ?s0 ?s' =>
      apply (keeps_sound_trans s0 s1 s'); [solve_sound|apply (sound_same_heap _ _ H)]
  end.

Ltac solve_accessed s0 :=
  lazymatch goal with
  | H : keeps_sound s0 ?s |- keeps_sound s0 ?s => exact H
  | Hw : written (with_pipeline (with_producers _)) _ _ ?s1 ?s' |- keeps_sound s0 ?s' =>
      apply (keeps_sound_trans s0 s1 s');
        [solve_accessed s0|apply (sound_written_producers _ _ _ _ _ _ Hw); eassumption]
  | Hw : written (with_consumers _) _ _ ?s1 ?s' |- keeps_sound s0 ?s' =>
      apply (keeps_sound_trans s0 s1 s');
        [solve_accessed s0
        |apply (sound_written_consumers _ _ _ _ _ _ Hw); apply csm_Some; eauto]
  end.

Lemma wp_producerAccessed_sound s0 p s (Q : unit → State → Prop) E :
  keeps_sound s0 s →
  (∀ s', keeps_sound s0 s' → Q tt s') → (∀ e s', keeps_sound s0 s' → E e s') →
  wp (producerAccessed p) s Q E.
Proof.
  intros H0 HQ HE. unfold producerAccessed.
  repeat wp_step; first [apply HQ|apply HE]; solve_accessed s0.
Qed.

Lemma step_sound e :
  all_ops (preserves keeps_sound) e → all_ops (preserves keeps_sound) (step e).
Proof.
  intros H. split; simpl; intros; intros s; unfold_bodies.
  all: repeat first
    [ wp_step
    | wp_rec keeps_sound H
    | eapply (wp_producerAccessed_sound s); [solve_sound|intros ? ?|intros ? ? ?]
    | solve_sound ].
Qed.

Lemma engine_sound fuel : all_ops (preserves keeps_sound) (engine fuel).
Proof.
  apply all_ops_engine; [apply preserves_OutOfFuel|apply step_sound].
Qed.

Lemma exec_sound fuel op : preserves keeps_sound _ (exec fuel op).
Proof.
  pose proof (engine_sound fuel) as H. intros s.
  destruct op; simpl; unfold updateValue, mutateValue;
    unfold value, setValue, run, producerNotifyConsumers.
  all: repeat first [wp_step | wp_rec keeps_sound H | solve_sound].
Qed.

Lemma execAll_sound fuel ops s outs s' :
  execAll fuel ops s = Some (outs, s') → sound s → sound s'.
Proof.
  apply (execAll_preserves keeps_sound).
  - apply keeps_sound_refl.
  - apply keeps_sound_trans.
  - apply exec_sound.
Qed.

(** A node as its constructor leaves it. *)
Definition constructed (nd : Node) : Prop :=
  (∃ v, nd = newValuePipeline v) ∨ (∃ calculator, nd = newPipeline calculator).

Lemma sound_initState nodes : Forall constructed nodes → sound (initState nodes).
Proof.
  intros Hall.
  assert (Hnd : ∀ n nd, heap (initState nodes) !! n = Some nd → constructed nd).
  { intros n nd Hn. simpl in Hn. apply elem_of_list_to_map_2, elem_of_zip_r in Hn.
    rewrite Forall_forall in Hall. by apply Hall. }
  split; [split|].
  - intros p ndp c t cc Hp Hin. destruct (Hnd p ndp Hp) as [[v ->]|[k ->]];
      simpl in Hin; by apply elem_of_nil in Hin.
  - intros n cn p r ndp Hn Hin. apply csm_Some in Hn as (nd & Hn & Hcn).
    destruct (Hnd n nd Hn) as [[v ->]|[k ->]]; [done|].
    simpl in Hcn. injection Hcn as <-. simpl in Hin. by apply elem_of_nil in Hin.
  - intros n nd Hn. destruct (Hnd n nd Hn) as [[v ->]|[k ->]]; simpl.
    + split; [apply field_ok_empty|done].
    + split; [apply field_ok_empty|]. intros c [= <-]. apply field_ok_empty.
Qed.

Lemma sound_cns s p c t cc :
  sound s → cns s p c = Some t → csm s c = Some cc → t ≤ trackingVersion cc.
Proof.
  intros [[B1 _] _] Hc Hcc. unfold cns in Hc.
  destruct (heap s !! p) as [ndp|] eqn:Hp; [|done]. simpl in Hc.
  apply (B1 p ndp c t cc Hp (get_all_pairs _ _ _ Hc) Hcc).
Qed.

Lemma sound_prd s n p r ndp :
  sound s → prd s n p = Some r → heap s !! p = Some ndp → r ≤ valueVersion ndp.
Proof.
  intros [[_ B2] _] Hr Hp. unfold prd in Hr.
  destruct (csm s n) as [cn|] eqn:Hn; [|done]. simpl in Hr.
  apply (B2 n cn p r ndp Hn (get_all_pairs _ _ _ Hr) Hp).
Qed.

(** *** Reclamation

    A consumer is held by its producers through a [WeakRef] only: between
    two calls of the host the collector may reclaim a node that no
    [producers] map holds and that is not the active consumer (the host
    has to have dropped it too). *)

(** Some [producers] map holds [n], or [n] is the active consumer. *)
Definition held (s : State) (n : NodeId) : bool :=
  bool_decide (activeConsumer s = Some n) ||
  existsb (fun x : NodeId * Node =>
             from_option (fun c => bool_decide (n ∈ (EdgeMap.entries (producers c)).*1))
               false (pipeline x.2))
          (map_to_list (heap s)).

Definition reclaim (n : NodeId) (s : State) : State :=
  if held s n then s else set_heap (delete n (heap s)) s.

(** What happens between the constructors and the state looked at: calls
    of the host, and reclamations. *)
Inductive Step : Type :=
  | StepCall (op : Op)
  | StepReclaim (n : NodeId).

Fixpoint runAll (fuel : nat) (steps : list Step) (s : State)
    : option (list Outcome * State) :=
  match steps with
  | [] => Some ([], s)
  | StepCall op :: rest =>
      match exec fuel op s with
      | Ok v s' => (fun '(os, s'') => (Returned v :: os, s'')) <$> runAll fuel rest s'
      | Err e s' => (fun '(os, s'') => (Thrown e :: os, s'')) <$> runAll fuel rest s'
      | OutOfFuel => None
      end
  | StepReclaim n :: rest => runAll fuel rest (reclaim n s)
  end.

Lemma reclaim_sound n s : sound s → sound (reclaim n s).
Proof.
  unfold reclaim. destruct (held s n); [done|]. intros [[B1 B2] F].
  assert (Hsub : ∀ m nd, heap (set_heap (delete n (heap s)) s) !! m = Some nd →
            heap s !! m = Some nd).
  { intros m nd. simpl. rewrite lookup_delete_Some. by intros [_ ?]. }
  assert (Hcsm : ∀ m c, csm (set_heap (delete n (heap s)) s) m = Some c → csm s m = Some c).
  { intros m c Hc. apply csm_Some in Hc as (nd & Hm & Hc). apply csm_Some.
    exists nd. split; [by apply Hsub|done]. }
  split; [split|].
  - intros p ndp c t cc Hp Hin Hc. apply (B1 p ndp c t cc); auto.
  - intros m cn p r ndp Hm Hin Hp. apply (B2 m cn p r ndp); auto.
  - intros m nd Hm. apply (F m nd). by apply Hsub.
Qed.

Lemma runAll_sound fuel steps s outs s' :
  runAll fuel steps s = Some (outs, s') → sound s → sound s'.
Proof.
  revert s outs. induction steps as [|[op|n] steps IH]; intros s outs Hrun Hs.
  - simpl in Hrun. by simplify_eq.
  - simpl in Hrun. pose proof (exec_sound fuel op s) as Hop. unfold wp in Hop.
    destruct (exec fuel op s) as [v s1|e s1|]; [| |done].
    + destruct (runAll fuel steps s1) as [[os s2]|] eqn:E; simplify_eq/=.
      apply (IH s1 os); [done|by apply Hop].
    + destruct (runAll fuel steps s1) as [[os s2]|] eqn:E; simplify_eq/=.
      apply (IH s1 os); [done|by apply Hop].
  - simpl in Hrun. apply (IH _ outs Hrun). by apply reclaim_sound.
Qed.

(** X12.  In every state a program reaches from freshly constructed
    nodes, whatever its calls, whatever they throw and whichever nodes
    the collector reclaims in between, an edge never records a version
    from the future: what [n.producers] holds for a producer [p] that is
    there is at most [p.valueVersion], and what [p.consumers] holds for
    a consumer [c] that is there is at most [c.trackingVersion]. *)
Theorem recorded_versions_bounded fuel nodes steps outs s :
  Forall constructed nodes → runAll fuel steps (initState nodes) = Some (outs, s) →
  (∀ n p r ndp, prd s n p = Some r → heap s !! p = Some ndp → r ≤ valueVersion ndp) ∧
  (∀ p c t cc, cns s p c = Some t → csm s c = Some cc → t ≤ trackingVersion cc).
Proof.
  intros Hall Hrun.
  pose proof (runAll_sound _ _ _ _ _ Hrun (sound_initState _ Hall)) as Hs.
  split; [intros n p r ndp; by apply sound_prd|intros p c t cc; by apply sound_cns].
Qed.

(** X13.  In every such state each edge map is in good order: it holds no key
    twice, its [size] is the number of its pairs (so that
    [producers.size === 1] means one producer), and while it is a
    LinearMap its array has fewer than 100 places. *)
Theorem edge_maps_in_order fuel nodes ops outs s :
  Forall constructed nodes → execAll fuel ops (initState nodes) = Some (outs, s) →
  ∀ n nd e, heap s !! n = Some nd →
    e = consumers nd ∨ (∃ c, pipeline nd = Some c ∧ e = producers c) →
    NoDup (EdgeMap.entries e).*1 ∧
    EdgeMap.size e = Z.of_nat (length (EdgeMap.entries e)) ∧
    (EdgeMap.current e = EdgeMap.InLinear →
       length (LinearMap.internalArray (EdgeMap.linear e)) < 100).
Proof.
  intros Hall Hrun n nd e Hn He.
  pose proof (execAll_sound _ _ _ _ _ Hrun (sound_initState _ Hall)) as [_ F].
  destruct (F n nd Hn) as [Fc Fp].
  assert (field_ok e) as [Hok Hsm].
  { destruct He as [->|(c & Hc & ->)]; [done|by apply Fp]. }
  split; [by apply entries_keys|]. split; [by apply size_entries|].
  unfold EdgeMap.current. destruct (EdgeMap.hashed e) eqn:Hh; [done|].
  intros _. by apply Hsm.
Qed.

(** X14.  [++this.trackingVersion] at the start of a recomputation is what
    makes every edge to the node a dead one: where no producer records a
    [trackingVersion] above the node's, as in every state reached from
    constructed nodes, no producer holds the node at its new
    [trackingVersion], while every [consumers] map is as it was. *)
Theorem recompute_invalidates_edges n s b s1 :
  (∀ p t, cns s p n = Some t → t ≤ tvs s n) →
  beginRecompute n s = Ok b s1 →
  tvs s1 n = S (tvs s n) ∧
  ∀ p, cns s1 p n = cns s p n ∧ cns s1 p n ≠ Some (tvs s1 n).
Proof.
  intros Hb Hrun.
  destruct (wp_Ok _ _ _ _ _ _ (wp_beginRecompute n s) Hrun)
    as (nd & c & Hn & Hc & _ & _ & Hh & _).
  assert (Htv : tvs s1 n = S (tvs s n)).
  { unfold tvs, csm. rewrite Hh, lookup_insert_eq, Hn. simpl. by rewrite Hc. }
  split; [done|]. intros p.
  assert (Heq : cns s1 p n = cns s p n).
  { unfold cns. rewrite Hh. destruct (decide (n = p)) as [<-|Hne].
    - by rewrite lookup_insert_eq, Hn.
    - by rewrite lookup_insert_ne. }
  split; [done|]. rewrite Heq, Htv. intros Hp. specialize (Hb p _ Hp). lia.
Qed.

(** ** What the notification leaves in [consumers] *)

Section SlotOrder.
Context {K V : Type} `{EqDecision K}.
Implicit Types (arr : list (option (K * V))) (e : EdgeMap.t K V).

(** [arr'] is [arr] with some pairs deleted in place. *)
Definition slots_le arr' arr : Prop :=
  Forall2 (fun x' x => x' = None ∨ x' = x) arr' arr.

(** The array of the object the field holds. *)
Definition cur_arr e : list (option (K * V)) :=
  match EdgeMap.hashed e with
  | Some m => JSMap.mapData m
  | None => LinearMap.internalArray (EdgeMap.linear e)
  end.

Definition edge_le e' e : Prop :=
  slots_le (LinearMap.internalArray (EdgeMap.linear e'))
           (LinearMap.internalArray (EdgeMap.linear e)) ∧
  option_Forall2 (fun m' m => slots_le (JSMap.mapData m') (JSMap.mapData m))
    (EdgeMap.hashed e') (EdgeMap.hashed e).

Lemma slots_le_refl arr : slots_le arr arr.
Proof. apply Forall2_same_length_lookup_2; [done|]. intros i x y ? ?. right. congruence. Qed.

Lemma slots_le_trans arr1 arr2 arr3 :
  slots_le arr1 arr2 → slots_le arr2 arr3 → slots_le arr1 arr3.
Proof.
  intros H1. revert arr3. induction H1 as [|x y arr1 arr2 Hxy _ IH]; intros arr3 H2;
    inversion H2 as [|? ? ? ? Hyz H2' E1 E2]; subst; constructor; [|by apply IH].
  destruct Hxy as [-> | ->]; auto.
Qed.

Lemma slots_le_insert_None arr i : slots_le (<[i := None]> arr) arr.
Proof.
  revert i. induction arr as [|sl arr IH]; intros i; [destruct i; constructor|].
  destruct i as [|i]; simpl; constructor; auto.
  - apply slots_le_refl.
  - apply IH.
Qed.

Lemma edge_le_refl e : edge_le e e.
Proof.
  split; [apply slots_le_refl|]. destruct (EdgeMap.hashed e); constructor.
  apply slots_le_refl.
Qed.

Lemma edge_le_trans e1 e2 e3 : edge_le e1 e2 → edge_le e2 e3 → edge_le e1 e3.
Proof.
  intros [L1 H1] [L2 H2]. split; [by eapply slots_le_trans|].
  destruct H1; inversion H2; subst; constructor. by eapply slots_le_trans.
Qed.

Lemma edge_le_delete_at r e k : edge_le (EdgeMap.delete_at r e k) e.
Proof.
  destruct r; simpl; split; simpl.
  - unfold LinearMap.delete. destruct (LinearMap.index_of _ k); simpl;
      [apply slots_le_insert_None|apply slots_le_refl].
  - destruct (EdgeMap.hashed e); constructor. apply slots_le_refl.
  - apply slots_le_refl.
  - destruct (EdgeMap.hashed e) as [m|]; constructor. unfold JSMap.delete.
    destruct (LinearMap.index_of _ k); simpl;
      [apply slots_le_insert_None|apply slots_le_refl].
Qed.

Lemma edge_le_current e' e : edge_le e' e → EdgeMap.current e' = EdgeMap.current e.
Proof. intros [_ H]. unfold EdgeMap.current. by destruct H. Qed.

Lemma edge_le_cur_arr e' e : edge_le e' e → slots_le (cur_arr e') (cur_arr e).
Proof. intros [L H]. unfold cur_arr. by destruct H. Qed.

Lemma slots_le_elem arr' arr x : slots_le arr' arr → Some x ∈ arr' → Some x ∈ arr.
Proof.
  induction 1 as [|x' y arr' arr Hxy _ IH]; [done|].
  intros [Hx|Hx]%elem_of_cons.
  - destruct Hxy as [?|<-]; [congruence|]. rewrite Hx. apply list_elem_of_here.
  - apply list_elem_of_further. by apply IH.
Qed.

Lemma slots_le_keys arr' arr : slots_le arr' arr → sublist (keys_of arr') (keys_of arr).
Proof.
  induction 1 as [|x' y arr' arr Hxy _ IH]; [done|].
  destruct Hxy as [-> | ->].
  - rewrite keys_of_cons_None. destruct y as [[k v]|].
    + rewrite keys_of_cons_Some. by apply sublist_cons.
    + by rewrite keys_of_cons_None.
  - destruct y as [[k v]|].
    + rewrite !keys_of_cons_Some. by apply sublist_skip.
    + by rewrite !keys_of_cons_None.
Qed.

Lemma slots_le_NoDup arr' arr :
  slots_le arr' arr → NoDup (keys_of arr) → NoDup (keys_of arr').
Proof. intros Hle Hnd. eapply sublist_NoDup; [exact Hnd|]. by apply slots_le_keys. Qed.

Lemma slots_le_get arr' arr k v :
  slots_le arr' arr → NoDup (keys_of arr) →
  LinearMap.get_from arr' k = Some v → LinearMap.get_from arr k = Some v.
Proof.
  intros Hle Hnd Hg. apply get_from_elem; [done|].
  eapply slots_le_elem; [exact Hle|]. by apply get_from_Some_elem.
Qed.

(** A pair an iterator has yet to yield and that is still there is yet to
    be yielded after the deletions. *)
Lemma slots_le_drop arr' arr i x :
  slots_le arr' arr → NoDup (keys_of arr) →
  x ∈ omap id (drop i arr) → Some x ∈ arr' → x ∈ omap id (drop i arr').
Proof.
  intros Hle. revert i. induction Hle as [|x' y arr' arr Hxy _ IH]; intros i Hnd Hin Hin'.
  - by apply elem_of_nil in Hin'.
  - destruct i as [|i]; [by apply elem_of_tuples|]. simpl in *.
    assert (NoDup (keys_of arr)) as Hnd'.
    { destruct y as [[k v]|]; [|by rewrite keys_of_cons_None in Hnd].
      rewrite keys_of_cons_Some in Hnd. by apply NoDup_cons in Hnd as [_ ?]. }
    apply elem_of_cons in Hin' as [Hx|Hin']; [|by apply IH].
    exfalso. destruct Hxy as [?|<-]; [congruence|]. subst x'. destruct x as [k v].
    rewrite keys_of_cons_Some in Hnd. apply NoDup_cons in Hnd as [Hk _]. apply Hk.
    apply elem_of_keys_of. exists v. apply elem_of_tuples.
    apply elem_of_tuples in Hin. apply elem_of_tuples.
    by apply (subseteq_drop i arr).
Qed.

Lemma get_cur_arr e k : EdgeMap.get e k = LinearMap.get_from (cur_arr e) k.
Proof. by destruct e as [l [m|]]. Qed.

Lemma entries_cur_arr e : EdgeMap.entries e = omap id (cur_arr e).
Proof. by destruct e as [l [m|]]. Qed.

Lemma edge_le_get e' e k v :
  edge_le e' e → NoDup (keys_of (cur_arr e)) →
  EdgeMap.get e' k = Some v → EdgeMap.get e k = Some v.
Proof.
  intros Hle Hnd. rewrite !get_cur_arr. apply slots_le_get; [|done].
  by apply edge_le_cur_arr.
Qed.

Lemma edge_le_remaining it e' e x :
  edge_le e' e → NoDup (keys_of (cur_arr e)) →
  x ∈ EdgeMap.remaining it e → EdgeMap.get e' x.1 = Some x.2 →
  x ∈ EdgeMap.remaining it e'.
Proof.
  intros Hle Hnd Hin Hg. destruct it as [l|i]; [done|]. simpl in *.
  destruct Hle as [_ Hh]. rewrite get_cur_arr in Hg. unfold cur_arr in *.
  destruct Hh as [m' m Hm|]; simpl in *; [|done].
  eapply slots_le_drop; [exact Hm|done|done|].
  destruct x as [k v]. by apply get_from_Some_elem.
Qed.

Lemma get_delete_at_current e k k' :
  NoDup (keys_of (cur_arr e)) →
  EdgeMap.get (EdgeMap.delete_at (EdgeMap.current e) e k) k'
    = if decide (k = k') then None else EdgeMap.get e k'.
Proof.
  destruct e as [l [m|]]; unfold EdgeMap.get, EdgeMap.current, cur_arr; simpl; intros Hnd.
  - unfold JSMap.get, JSMap.delete.
    destruct (LinearMap.index_of (JSMap.mapData m) k) as [i|] eqn:Hi; simpl.
    + by apply get_from_insert_None.
    + destruct (decide (k = k')) as [<-|]; [|done].
      by apply get_from_None, index_of_None.
  - unfold LinearMap.get, LinearMap.delete.
    destruct (LinearMap.index_of _ k) as [i|] eqn:Hi; simpl.
    + by apply get_from_insert_None.
    + destruct (decide (k = k')) as [<-|]; [|done].
      by apply get_from_None, index_of_None.
Qed.
End SlotOrder.

(** Every [consumers] map of [s'] is that of [s] with pairs deleted. *)
Definition node_pruned (nd nd' : Node) : Prop := edge_le (consumers nd') (consumers nd).

Definition pruned (s s' : State) : Prop :=
  ∀ n, option_Forall2 node_pruned (heap s !! n) (heap s' !! n).

Lemma pruned_refl s : pruned s s.
Proof. intros n. destruct (heap s !! n); constructor. apply edge_le_refl. Qed.

Lemma pruned_trans s1 s2 s3 : pruned s1 s2 → pruned s2 s3 → pruned s1 s3.
Proof.
  intros H1 H2 n. specialize (H1 n). specialize (H2 n).
  destruct H1; inversion H2; subst; constructor. unfold node_pruned in *.
  by eapply edge_le_trans.
Qed.

Lemma pruned_same_heap s s' : same_heap s s' → pruned s s'.
Proof. intros Hh n. rewrite Hh. destruct (heap s !! n); constructor. apply edge_le_refl. Qed.

Lemma pruned_written f n nd s s' :
  written f n nd s s' → node_pruned nd (f nd) → pruned s s'.
Proof.
  intros (Hn & Hh & _) Hf m. rewrite Hh. destruct (decide (n = m)) as [<-|Hne].
  - rewrite lookup_insert_eq, Hn. by constructor.
  - rewrite lookup_insert_ne by done. destruct (heap s !! m); constructor.
    apply edge_le_refl.
Qed.

Lemma node_pruned_consumers r k nd :
  node_pruned nd (with_consumers (fun m => EdgeMap.delete_at r m k) nd).
Proof. apply edge_le_delete_at. Qed.

Lemma node_pruned_pipeline g nd : node_pruned nd (with_pipeline g nd).
Proof. apply edge_le_refl. Qed.

Ltac solve_pruned :=
  lazymatch goal with
  | |- pruned ?s ?s => apply pruned_refl
  | H : pruned ?s1 ?s' |- pruned ?s0 ?s' =>
      first [ exact H | apply (pruned_trans s0 s1 s'); [solve_pruned|exact H] ]
  | H : written _ _ _ ?s1 ?s' |- pruned ?s0 ?s' =>
      apply (pruned_trans s0 s1 s');
        [solve_pruned
        |apply (pruned_written _ _ _ _ _ H);
           first [ apply node_pruned_consumers | apply node_pruned_pipeline ] ]
  | H : same_heap ?s1 ?s' |- pruned ?s0 ?s' =>
      apply (pruned_trans s0 s1 s'); [solve_pruned|by apply pruned_same_heap]
  end.

Lemma pruned_engine fuel :
  (∀ n p s, wp (notify fuel n p) s (fun _ s' => pruned s s') (fun _ s' => pruned s s')) ∧
  (∀ n s, wp (producerNotifyConsumers fuel n) s
            (fun _ s' => pruned s s') (fun _ s' => pruned s s')) ∧
  (∀ n r it s, wp (notifyLoop fuel n r it) s
            (fun _ s' => pruned s s') (fun _ s' => pruned s s')).
Proof.
  apply (notify_family
    (fun n p m => ∀ s, wp m s (fun _ s' => pruned s s') (fun _ s' => pruned s s'))
    (fun n m => ∀ s, wp m s (fun _ s' => pruned s s') (fun _ s' => pruned s s'))
    (fun n r it m => ∀ s, wp m s (fun _ s' => pruned s s') (fun _ s' => pruned s s')));
    try done.
  - intros e IH n p s. unfold_bodies.
    repeat first
      [ wp_step
      | eapply wp_mono; [apply IH|intros ? ? ?; cbv beta in *..]
      | solve_pruned ].
  - intros e IH n s. unfold_bodies.
    repeat first
      [ wp_step
      | eapply wp_mono; [apply IH|intros ? ? ?; cbv beta in *..]
      | solve_pruned ].
  - intros e IH1 IH3 n r it s. unfold_bodies.
    repeat first
      [ wp_step
      | eapply wp_mono; [first [apply IH1|apply IH3]|intros ? ? ?; cbv beta in *..]
      | solve_pruned ].
Qed.

Lemma pruned_lookup s s' p nd :
  pruned s s' → heap s !! p = Some nd →
  ∃ nd', heap s' !! p = Some nd' ∧ edge_le (consumers nd') (consumers nd).
Proof.
  intros H Hp. specialize (H p). rewrite Hp in H. inversion H; subst. eauto.
Qed.

(** [c] is a [Pipeline] whose [trackingVersion] is [t], and it is stale. *)
Definition stale_at (s : State) (c : NodeId) (t : nat) : Prop :=
  ∃ cc, csm s c = Some cc ∧ trackingVersion cc = t ∧ stale cc ≠ StaleFalse.

Lemma cascade_stale_at s s' c t : cascade s s' → stale_at s c t → stale_at s' c t.
Proof.
  intros [H _] (cc & Hc & Ht & Hst). specialize (H c). unfold stale_at, csm in *.
  destruct (heap s !! c) as [nd|] eqn:Hn; [|done].
  destruct (heap s' !! c) as [nd'|] eqn:Hn'; [|by inversion H].
  simpl in *. inversion H as [? ? (_ & _ & _ & Hp)|]; subst.
  rewrite Hc in Hp. destruct (pipeline nd') as [cc'|]; [|by inversion Hp].
  inversion Hp as [? ? (_ & Htv & Hs)|]; subst. exists cc'.
  split; [done|]. split; [done|]. destruct Hs as [?|[? ?]]; congruence.
Qed.

Lemma notify_marks fuel n q s :
  wp (notify fuel n q) s
    (fun _ s' => ∀ cc, csm s n = Some cc → stale_at s' n (trackingVersion cc))
    (fun _ _ => True).
Proof.
  destruct fuel as [|fuel]; [done|]. unfold wp.
  destruct (notify (S fuel) n q s) as [[] s'|e s'|] eqn:Hrun; [|done..].
  intros cc Hcc. apply csm_Some in Hcc as (nd & Hn & Hp).
  destruct (decide (stale cc = StaleFalse)) as [Hst|Hst].
  2:{ rewrite (notify_stale fuel n q s nd cc Hn Hp Hst) in Hrun. injection Hrun as <-.
      exists cc. unfold csm. simpl. rewrite Hn. simpl. by rewrite Hp. }
  revert Hrun. change (notify (S fuel) n q s) with (notify_body (engine fuel) n q s).
  unfold notify_body.
  set (s0 := BuildState (heap s) (activeConsumer s) (trace s ++ [EvNotify n q])).
  rewrite (bind_Ok _ _ s tt s0) by done.
  rewrite (bind_Ok _ _ _ _ _ (node_Ok n s0 nd Hn)).
  rewrite (bind_Ok _ _ _ _ _ (consumer_Ok n s0 nd cc Hn Hp)).
  rewrite bool_decide_eq_true_2 by done. simpl.
  destruct (strictEquals (_value nd) COMPUTING); [done|].
  rewrite (bind_Ok _ _ _ _ _ (modify_node_Ok _ n s0 nd Hn)).
  set (st := match q with Some p => StaleBy p | None => StaleTrue end).
  set (s2 := set_heap _ s0). intros Hrun.
  destruct (cascade_engine fuel) as (_ & Hcas & _).
  pose proof (wp_Ok _ _ _ _ _ _ (Hcas n s2) Hrun) as Hc.
  apply (cascade_stale_at _ _ _ _ Hc). exists (with_stale st cc).
  unfold csm. simpl. rewrite lookup_insert_eq. simpl. rewrite Hp. simpl.
  split; [done|]. split; [done|]. subst st. by destruct q.
Qed.

Lemma notifyVisit_pruned fuel q cs c tv s :
  wp (notifyVisit (engine fuel) q cs c tv) s
    (fun _ s' => pruned s s') (fun _ s' => pruned s s').
Proof.
  destruct (pruned_engine fuel) as (Hc & _). unfold notifyVisit.
  repeat first
    [ wp_step
    | eapply wp_mono; [apply Hc|intros ? ? ?; cbv beta in *..]
    | solve_pruned ].
Qed.

Lemma notifyVisit_prunes fuel p c0 tv0 s s1 nd :
  heap s !! p = Some nd → NoDup (keys_of (cur_arr (consumers nd))) →
  notifyVisit (engine fuel) p (EdgeMap.current (consumers nd)) c0 tv0 s = Ok tt s1 →
  cascade s s1 ∧ pruned s s1 ∧ (cns s1 p c0 = Some tv0 → stale_at s1 c0 tv0).
Proof.
  intros Hp Hnd Hrun.
  split; [exact (wp_Ok _ _ _ _ _ _ (notifyVisit_cascade fuel p _ c0 tv0 s) Hrun)|].
  split; [exact (wp_Ok _ _ _ _ _ _ (notifyVisit_pruned fuel p _ c0 tv0 s) Hrun)|].
  unfold notifyVisit in Hrun.
  remember (with_consumers (fun m : EdgeMap.t NodeId nat =>
              EdgeMap.delete_at (EdgeMap.current (consumers nd)) m c0)) as f1 eqn:Hf1.
  assert (Hgone : EdgeMap.get (consumers (f1 nd)) c0 = None).
  { subst f1. simpl. rewrite get_delete_at_current by done. by rewrite decide_True. }
  assert (Hpipe : ∀ g, consumers (with_pipeline g (f1 nd)) = consumers (f1 nd)) by done.
  rewrite (bind_Ok _ _ s (heap s !! c0 ≫= pipeline) s) in Hrun by done.
  destruct (heap s !! c0 ≫= pipeline) as [cc|] eqn:Hcc.
  - destruct (decide (trackingVersion cc = tv0)) as [Htv|Htv].
    + rewrite bool_decide_eq_true_2 in Hrun by done. simpl in Hrun. intros _.
      pose proof (wp_Ok _ _ _ _ _ _ (notify_marks fuel c0 (Some p) s) Hrun) as Hm.
      rewrite <- Htv. by apply Hm.
    + rewrite bool_decide_eq_false_2 in Hrun by done. simpl in Hrun.
      rewrite (bind_Ok _ _ _ _ _ (modify_node_Ok _ _ _ _ Hp)) in Hrun.
      intros Hc. exfalso. revert Hc.
      destruct (decide (c0 = p)) as [->|Hne].
      * rewrite (modify_node_Ok _ p _ (f1 nd)) in Hrun by apply lookup_insert_eq.
        injection Hrun as <-. unfold cns. cbn [heap set_heap].
        rewrite lookup_insert_eq. cbn [mbind option_bind].
        by rewrite Hpipe, Hgone.
      * destruct (heap s !! c0) as [nd0|] eqn:Hc0; [|done].
        rewrite (modify_node_Ok _ c0 _ nd0) in Hrun
          by (simpl; by rewrite lookup_insert_ne).
        injection Hrun as <-. unfold cns. cbn [heap set_heap].
        rewrite lookup_insert_ne, lookup_insert_eq by done. cbn [mbind option_bind].
        by rewrite Hgone.
  - rewrite (modify_node_Ok _ _ _ _ Hp) in Hrun. injection Hrun as <-.
    unfold cns. cbn [heap set_heap]. rewrite lookup_insert_eq. cbn [mbind option_bind].
    by rewrite Hgone.
Qed.

Lemma notifyLoop_prunes fuel : ∀ p it s s' nd,
  heap s !! p = Some nd → NoDup (keys_of (cur_arr (consumers nd))) →
  notifyLoop fuel p (EdgeMap.current (consumers nd)) it s = Ok tt s' →
  cascade s s' ∧ pruned s s' ∧
  ∀ c t, cns s' p c = Some t →
    cns s p c = Some t ∧
    (stale_at s c t ∨ (c, t) ∈ EdgeMap.remaining it (consumers nd) → stale_at s' c t).
Proof.
  induction fuel as [|fuel IH]; intros p it s s' nd Hp Hnd Hrun; [done|].
  change (notifyLoop (S fuel) p (EdgeMap.current (consumers nd)) it s)
    with (notifyLoop_body (engine fuel) p (EdgeMap.current (consumers nd)) it s) in Hrun.
  unfold notifyLoop_body in Hrun.
  rewrite (bind_Ok _ _ _ _ _ (node_Ok _ _ _ Hp)) in Hrun.
  destruct (EdgeMap.iter_next it (consumers nd)) as [[[c0 tv0] it']|] eqn:Hnext.
  - apply bind_Ok_inv in Hrun as ([] & s1 & Hvisit & Hrest).
    destruct (notifyVisit_prunes fuel p c0 tv0 s s1 nd Hp Hnd Hvisit)
      as (Hcas & Hpr & Hv3).
    destruct (pruned_lookup _ _ _ _ Hpr Hp) as (nd1 & Hp1 & Hle).
    pose proof (slots_le_NoDup _ _ (edge_le_cur_arr _ _ Hle) Hnd) as Hnd1.
    fold (notifyLoop fuel p (EdgeMap.current (consumers nd)) it') in Hrest.
    rewrite <- (edge_le_current _ _ Hle) in Hrest.
    destruct (IH p it' s1 s' nd1 Hp1 Hnd1 Hrest) as (Hcas' & Hpr' & Hall).
    split; [by eapply cascade_trans|]. split; [by eapply pruned_trans|].
    intros c t Hc. destruct (Hall c t Hc) as [Hc1 Himp].
    assert (Hc0 : cns s p c = Some t).
    { unfold cns in *. rewrite Hp. rewrite Hp1 in Hc1. simpl in *.
      by apply (edge_le_get _ _ _ _ Hle Hnd). }
    split; [done|]. intros Hpre. apply Himp.
    destruct Hpre as [Hst|Hin]; [left; by eapply cascade_stale_at|].
    rewrite (iter_next_Some _ _ _ _ Hnext) in Hin.
    apply elem_of_cons in Hin as [[= -> ->]|Hin]; [left; by apply Hv3|].
    right. apply (edge_le_remaining it' _ _ (c, t) Hle Hnd Hin).
    unfold cns in Hc1. rewrite Hp1 in Hc1. exact Hc1.
  - injection Hrun as <-. split; [apply cascade_refl|]. split; [apply pruned_refl|].
    intros c t Hc. split; [done|]. intros [Hst|Hin]; [done|].
    rewrite (iter_next_None _ _ Hnext) in Hin. by apply elem_of_nil in Hin.
Qed.

(** X15.  When [producerNotifyConsumers(p)] returns, every pair left in
    [p.consumers] was there before, is an edge recorded at the
    [trackingVersion] its consumer has, and that consumer is stale: the
    dead edges are gone from the map, and no consumer that depends on [p]
    is left clean. *)
Theorem notified_edges_current fuel p s s' nd :
  heap s !! p = Some nd → NoDup (EdgeMap.entries (consumers nd)).*1 →
  producerNotifyConsumers fuel p s = Ok tt s' →
  ∀ c t, cns s' p c = Some t →
    cns s p c = Some t ∧
    ∃ cc, csm s' c = Some cc ∧ trackingVersion cc = t ∧ stale cc ≠ StaleFalse.
Proof.
  intros Hp Hnd Hrun c t Hc. destruct fuel as [|fuel]; [done|].
  change (producerNotifyConsumers (S fuel) p s)
    with (producerNotifyConsumers_body (engine fuel) p s) in Hrun.
  unfold producerNotifyConsumers_body in Hrun.
  rewrite (bind_Ok _ _ _ _ _ (node_Ok _ _ _ Hp)) in Hrun.
  rewrite entries_cur_arr in Hnd.
  destruct (notifyLoop_prunes fuel p _ s s' nd Hp Hnd Hrun) as (_ & _ & Hall).
  destruct (Hall c t Hc) as [Hc0 Himp]. split; [done|]. apply Himp. right.
  rewrite remaining_start. fold (EdgeMap.entries (consumers nd)).
  rewrite entries_cur_arr. apply elem_of_tuples, get_from_Some_elem.
  unfold cns in Hc0. rewrite Hp in Hc0. simpl in Hc0. by rewrite <- get_cur_arr.
Qed.

(** ** What a read leaves *)

(** X16.  A read that returns has left the node clean, and what it returns is
    the value the node holds then. *)
Theorem read_returns_cached fuel n s v s' :
  value fuel n s = Ok v s' →
  val s' n = v ∧ ∀ c, csm s' n = Some c → stale c = StaleFalse.
Proof.
  intros Hrun.
  destruct (wp_Ok _ _ _ _ _ _ (value_cleans fuel n s) Hrun) as (Hcl & nd & Hn & Hv).
  split; [unfold val; by rewrite Hn|].
  intros c Hc. apply csm_Some in Hc as (nd' & Hn' & Hc'). by apply (Hcl nd' c).
Qed.

(** ** Code that only reads writes to no leaf *)

(** User code that only reads: it calls getters, and returns or throws.
    It writes to no leaf and calls no [notify()]. *)
Inductive read_only : Calc → Prop :=
  | read_only_ret v : read_only (Ret v)
  | read_only_read p k : (∀ v, read_only (k v)) → read_only (Read p k)
  | read_only_throw e : read_only (Throw e).

(** Every [calculate()] of the heap is such code. *)
Definition readers (s : State) : Prop :=
  ∀ n c, csm s n = Some c → read_only (calculate c).

(** From [s] to [s'] every leaf has kept its value and its version, every
    node its kind and its [calculate], and no [notify()] was delivered. *)
Definition reading (s s' : State) : Prop :=
  (∀ l, csm s l = None → val s' l = val s l ∧ ver s' l = ver s l) ∧
  (∀ n, is_Some (heap s' !! n) ↔ is_Some (heap s !! n)) ∧
  (∀ n, calculate <$> csm s' n = calculate <$> csm s n) ∧
  ∃ evs, trace s' = trace s ++ evs ∧ Forall (fun ev => ¬ is_notify ev) evs.

Lemma reading_refl s : reading s s.
Proof. repeat split; try done. exists []. by rewrite app_nil_r. Qed.

Lemma reading_kind s s' n : reading s s' → csm s' n = None ↔ csm s n = None.
Proof.
  intros (_ & _ & Hc & _). specialize (Hc n).
  destruct (csm s' n), (csm s n); simpl in Hc; split; congruence.
Qed.

Lemma reading_trans s1 s2 s3 : reading s1 s2 → reading s2 s3 → reading s1 s3.
Proof.
  intros H12 H23. pose proof (fun n => reading_kind _ _ n H12) as Hk.
  destruct H12 as (L1 & D1 & C1 & evs1 & T1 & F1), H23 as (L2 & D2 & C2 & evs2 & T2 & F2).
  split; [|split; [|split]].
  - intros l Hl. destruct (L1 l Hl) as [<- <-]. apply L2. by apply Hk.
  - intros n. by rewrite D2.
  - intros n. by rewrite C2.
  - exists (evs1 ++ evs2). split; [by rewrite T2, T1, app_assoc|by apply Forall_app].
Qed.

Lemma reading_same_heap s s' :
  same_heap s s' → trace s' = trace s → reading s s'.
Proof.
  intros Hh Ht. unfold reading, val, ver, csm. rewrite Hh. repeat split; try done.
  exists []. by rewrite app_nil_r.
Qed.

Lemma reading_emit s s' ev :
  same_heap s s' → trace s' = trace s ++ [ev] → ¬ is_notify ev → reading s s'.
Proof.
  intros Hh Ht Hev. unfold reading, val, ver, csm. rewrite Hh. repeat split; try done.
  exists [ev]. split; [done|]. by constructor.
Qed.

(** A write that keeps the value and the version, and the kind and the
    [calculate] of the node. *)
Definition keeps_leaf (f : Node → Node) : Prop :=
  ∀ nd, _value (f nd) = _value nd ∧ valueVersion (f nd) = valueVersion nd ∧
    calculate <$> pipeline (f nd) = calculate <$> pipeline nd.

(** A write that keeps the kind and the [calculate] of the node. *)
Definition keeps_kind (f : Node → Node) : Prop :=
  ∀ nd, calculate <$> pipeline (f nd) = calculate <$> pipeline nd.

Lemma reading_written f n nd s s' :
  written f n nd s s' → keeps_kind f →
  (pipeline nd = None → _value (f nd) = _value nd ∧ valueVersion (f nd) = valueVersion nd) →
  reading s s'.
Proof.
  intros (Hn & Hh & _ & Ht) Hk Hv. unfold reading, val, ver, csm. rewrite Hh, Ht.
  split; [|split; [|split]].
  - intros l Hl. destruct (decide (n = l)) as [<-|Hne].
    + rewrite lookup_insert_eq, Hn in *. simpl in *. by apply Hv.
    + by rewrite lookup_insert_ne.
  - intros m. destruct (decide (n = m)) as [<-|Hne].
    + rewrite lookup_insert_eq, Hn. split; eauto.
    + by rewrite lookup_insert_ne.
  - intros m. destruct (decide (n = m)) as [<-|Hne].
    + rewrite lookup_insert_eq, Hn. simpl. apply Hk.
    + by rewrite lookup_insert_ne.
  - exists []. by rewrite app_nil_r.
Qed.

Lemma reading_keeps f n nd s s' : written f n nd s s' → keeps_leaf f → reading s s'.
Proof.
  intros Hw Hf. apply (reading_written f n nd s s' Hw).
  - intros nd'. apply Hf.
  - intros _. destruct (Hf nd) as (? & ? & _). done.
Qed.

Lemma reading_touch f n nd s s' :
  written f n nd s s' → keeps_kind f → is_Some (pipeline nd) → reading s s'.
Proof.
  intros Hw Hf [c Hc]. apply (reading_written f n nd s s' Hw Hf). congruence.
Qed.

Lemma keeps_leaf_consumers g : keeps_leaf (with_consumers g).
Proof. by intros nd. Qed.

Lemma keeps_leaf_pipeline g :
  (∀ c, calculate (g c) = calculate c) → keeps_leaf (with_pipeline g).
Proof.
  intros Hg nd. split; [done|]. split; [done|]. simpl.
  destruct (pipeline nd); simpl; [|done]. by rewrite Hg.
Qed.

Lemma keeps_leaf_producers g : keeps_leaf (with_pipeline (with_producers g)).
Proof. by apply keeps_leaf_pipeline. Qed.

Lemma keeps_leaf_stale st : keeps_leaf (with_pipeline (with_stale st)).
Proof. by apply keeps_leaf_pipeline. Qed.

Lemma keeps_leaf_tracking : keeps_leaf (with_pipeline incrTrackingVersion).
Proof. by apply keeps_leaf_pipeline. Qed.

Lemma keeps_kind_value v : keeps_kind (with_value v).
Proof. by intros nd. Qed.

Lemma keeps_kind_version : keeps_kind incrValueVersion.
Proof. by intros nd. Qed.

Create HintDb reading.
#[local] Hint Resolve keeps_leaf_consumers keeps_leaf_producers keeps_leaf_stale
  keeps_leaf_tracking keeps_kind_value keeps_kind_version : reading.

(** A node that was a [Pipeline] in a state read from is one still. *)
Lemma reading_pipeline s0 s1 s2 n nd1 c1 nd2 :
  reading s0 s1 → heap s1 !! n = Some nd1 → pipeline nd1 = Some c1 →
  reading s0 s2 → heap s2 !! n = Some nd2 → is_Some (pipeline nd2).
Proof.
  intros (_ & _ & C1 & _) Hn1 Hc1 (_ & _ & C2 & _) Hn2.
  specialize (C1 n). specialize (C2 n). unfold csm in *. rewrite Hn1 in C1. rewrite Hn2 in C2.
  simpl in *. rewrite Hc1 in C1. rewrite <- C1 in C2. destruct (pipeline nd2); [eauto|done].
Qed.

Lemma readers_calculate s0 s n nd c :
  readers s0 → reading s0 s → heap s !! n = Some nd → pipeline nd = Some c →
  read_only (calculate c).
Proof.
  intros Hr (_ & _ & C & _) Hn Hc. specialize (C n). unfold csm in C at 1.
  rewrite Hn in C. simpl in C. rewrite Hc in C. simpl in C.
  destruct (csm s0 n) as [c0|] eqn:Hc0; [|done]. injection C as C. rewrite C.
  by apply (Hr n).
Qed.

Ltac solve_reading s0 :=
  lazymatch goal with
  | |- reading s0 s0 => apply reading_refl
  | H : reading s0 ?s' |- reading s0 ?s' => exact H
  | H : written _ ?n ?nd ?s1 ?s' |- reading s0 ?s' =>
      apply (reading_trans s0 s1 s');
        [solve_reading s0
        |first
           [ apply (reading_keeps _ _ _ _ _ H); solve [auto with reading]
           | apply (reading_touch _ _ _ _ _ H); [solve [auto with reading]|];
             match goal with
             | Hra : reading s0 ?sa, Hn : heap ?sa !! n = Some ?nda,
               Hc : pipeline ?nda = Some ?ca |- _ =>
                 apply (reading_pipeline s0 sa s1 n nda ca nd);
                   [exact Hra|exact Hn|exact Hc|solve_reading s0|exact (proj1 H)]
             end ]]
  | H : same_heap ?s1 ?s', H' : trace ?s' = trace ?s1 ++ [_] |- reading s0 ?s' =>
      apply (reading_trans s0 s1 s');
        [solve_reading s0|apply (reading_emit _ _ _ H H'); by intros []]
  | H : same_heap ?s1 ?s', H' : trace ?s' = trace ?s1 |- reading s0 ?s' =>
      apply (reading_trans s0 s1 s');
        [solve_reading s0|apply (reading_same_heap _ _ H H')]
  end.

Ltac finish_reading s0 :=
  first [ solve_reading s0 | split; [solve_reading s0|first [discriminate|assumption]] ].

(** A call of the reading side, made in a state [s] that was read from
    [s0]. *)
Definition reads {A} (m : M A) : Prop :=
  ∀ s0 s, readers s0 → reading s0 s →
    wp m s (fun _ s' => reading s0 s')
           (fun e s' => reading s0 s' ∧ e ≠ ChangedWhileCalculating).

Record read_ops (e : Engine) : Prop := BuildReadOps {
  ro_value : ∀ n, reads (r_value e n);
  ro_check : ∀ n, reads (r_checkForActuallyChangedValue e n);
  ro_recompute : ∀ n, reads (r_recomputeValue e n);
  ro_run : ∀ c, read_only c → reads (r_run e c);
  ro_poll : ∀ n st, reads (r_consumerPollValueStatus e n st);
  ro_pollLoop : ∀ n r sk it, reads (r_pollLoop e n r sk it);
  ro_pollStatus : ∀ n v, reads (r_producerPollStatus e n v)
}.

Ltac wp_read IH s0 Hr :=
  lazymatch goal with
  | |- wp (r_value _ _) _ _ _ =>
      eapply wp_mono; [apply (ro_value _ IH _ s0 _ Hr); solve_reading s0|..]
  | |- wp (r_checkForActuallyChangedValue _ _) _ _ _ =>
      eapply wp_mono; [apply (ro_check _ IH _ s0 _ Hr); solve_reading s0|..]
  | |- wp (r_recomputeValue _ _) _ _ _ =>
      eapply wp_mono; [apply (ro_recompute _ IH _ s0 _ Hr); solve_reading s0|..]
  | |- wp (r_consumerPollValueStatus _ _ _) _ _ _ =>
      eapply wp_mono; [apply (ro_poll _ IH _ _ s0 _ Hr); solve_reading s0|..]
  | |- wp (r_pollLoop _ _ _ _ _) _ _ _ =>
      eapply wp_mono; [apply (ro_pollLoop _ IH _ _ _ _ s0 _ Hr); solve_reading s0|..]
  | |- wp (r_producerPollStatus _ _ _) _ _ _ =>
      eapply wp_mono; [apply (ro_pollStatus _ IH _ _ s0 _ Hr); solve_reading s0|..]
  end; [intros ? ? ?|intros ? ? [? ?]]; cbv beta in *.

Lemma wp_producerAccessed_reading s0 p s (Q : unit → State → Prop) E :
  reading s0 s →
  (∀ s', reading s0 s' → Q tt s') →
  (∀ e s', reading s0 s' → e ≠ ChangedWhileCalculating → E e s') →
  wp (producerAccessed p) s Q E.
Proof.
  intros H0 HQ HE. unfold producerAccessed.
  repeat wp_step; first [apply HQ|apply HE]; first [solve_reading s0|discriminate].
Qed.

Lemma reading_engine fuel : read_ops (engine fuel).
Proof.
  induction fuel as [|fuel IH]; [split; intros; by intros ? ? ? ?|].
  split; simpl.
  - (* value *)
    intros n s0 s Hr Hs. unfold value_body.
    repeat first
      [ wp_step | wp_read IH s0 Hr
      | eapply (wp_producerAccessed_reading s0); [solve_reading s0|intros ? ?|intros ? ? ? ?]
      | finish_reading s0 ].
  - (* checkForActuallyChangedValue *)
    intros n s0 s Hr Hs. unfold checkForActuallyChangedValue_body.
    repeat first [ wp_step | wp_read IH s0 Hr | finish_reading s0 ].
  - (* recomputeValue *)
    intros n s0 s Hr Hs. unfold recomputeValue_body, beginRecompute, invokeCalculate,
      endRecompute.
    repeat first
      [ wp_step
      | lazymatch goal with
        | Hn : heap ?sa !! n = Some ?nda, Hc : pipeline ?nda = Some ?c
          |- wp (r_run _ (calculate ?c)) _ _ _ =>
            eapply wp_mono;
              [apply (ro_run _ IH _
                        (readers_calculate s0 sa n nda c Hr ltac:(solve_reading s0) Hn Hc)
                        s0 _ Hr); solve_reading s0
              |intros ? ? ?|intros ? ? [? ?]]; cbv beta in *
        end
      | finish_reading s0 ].
  - (* run *)
    intros c Hc s0 s Hr Hs. unfold run_body. destruct Hc as [v|p k Hk|e].
    + by apply wp_ret.
    + wp_step. wp_read IH s0 Hr; [|finish_reading s0].
      eapply wp_mono; [apply (ro_run _ IH _ (Hk _) s0 _ Hr); solve_reading s0|..];
        by intros.
    + apply wp_throw. by split.
  - intros n st s0 s Hr Hs. unfold consumerPollValueStatus_body.
    repeat first [ wp_step | wp_read IH s0 Hr | finish_reading s0 ].
  - intros n r sk it s0 s Hr Hs. unfold pollLoop_body.
    repeat first [ wp_step | wp_read IH s0 Hr | finish_reading s0 ].
  - intros n v s0 s Hr Hs. unfold producerPollStatus_body.
    repeat first [ wp_step | wp_read IH s0 Hr | finish_reading s0 ].
Qed.

(** X17.  A read in a graph whose [calculate()]s only read, that is,
    call getters and return or throw, but write to no leaf (no
    [setValue], [updateValue] or [mutateValue]), call no [notify()] and
    catch nothing, writes the value and the version of no leaf, delivers
    no [notify()], and never throws 'Pipeline marked changed while
    calculating'. *)
Theorem reads_write_no_leaf fuel n s :
  readers s →
  let s' := final (value fuel n s) s in
  (∀ l, csm s l = None → val s' l = val s l ∧ ver s' l = ver s l) ∧
  (∃ evs, trace s' = trace s ++ evs ∧ Forall (fun ev => ¬ is_notify ev) evs) ∧
  ∀ s2, value fuel n s ≠ Err ChangedWhileCalculating s2.
Proof.
  intros Hr s'.
  pose proof (ro_value _ (reading_engine fuel) n s s Hr (reading_refl s)) as Hwp.
  unfold wp in Hwp. fold (value fuel n) in Hwp. subst s'.
  destruct (value fuel n s) as [v s1|e s1|]; simpl.
  - destruct Hwp as (L & _ & _ & T). done.
  - destruct Hwp as [(L & _ & _ & T) He]. split; [done|]. split; [done|]. congruence.
  - split; [done|]. split; [|done]. exists []. by rewrite app_nil_r.
Qed.

(** ** While a node is computing *)


(** ** The further properties at work on small graphs *)

Lemma LinearMap_set_reuses_tombstones_witness :
  let m := LinearMap.delete (LinearMap.set (LinearMap.set LinearMap.empty 1 10) 2 20) 1 in
  LinearMap.internalArray (LinearMap.set m 3 30) = [Some (3, 30); Some (2, 20)] ∧
  length (LinearMap.internalArray (LinearMap.set m 3 30)) = 2.
Proof.
  intros m. split; [reflexivity|].
  destruct (LinearMap_set_reuses_tombstones m 3 30) as (H & _).
  rewrite H; [reflexivity|]. right. vm_compute. apply list_elem_of_here.
Defined.

(** The follower while its [calculate()] runs. *)
Definition follower_active : State :=
  BuildState (heap (initState follower)) (Some 1) [].

Lemma producerAccessed_registers_witness :
  ∃ s', producerAccessed 0 follower_active = Ok tt s' ∧
    cns s' 0 1 = Some 1 ∧ prd s' 1 0 = Some 1.
Proof.
  destruct (producerAccessed_registers 0 1 follower_active (newValuePipeline (VNum 0))
              (BuildConsumer EdgeMap.empty 1 StaleTrue (Read 0 Ret)))
    as (s' & H1 & H2 & H3 & _); [reflexivity|reflexivity|reflexivity|].
  exists s'. split; [exact H1|]. split; [exact H2|exact H3].
Defined.


(** The follower after a read and a write of its leaf. *)
Definition follower_written : State :=
  default (initState follower)
    (snd <$> execAll 10 [OpRead 1; OpSetValue 0 (VNum 1)] (initState follower)).

Lemma follower_constructed : Forall constructed follower.
Proof.
  apply Forall_cons. split; [left; by eexists|].
  apply Forall_cons. split; [right; by eexists|]. apply Forall_nil_2.
Qed.

Lemma recorded_versions_bounded_witness :
  runAll 10 [StepCall (OpRead 1); StepReclaim 0; StepCall (OpSetValue 0 (VNum 1))]
    (initState follower)
    = Some ([Returned (Some (VNum 0)); Returned None], follower_written) ∧
  ∃ nd, heap follower_written !! (0 : NodeId) = Some nd ∧
    prd follower_written 1 0 = Some 1 ∧ valueVersion nd = 2 ∧ 1 ≤ valueVersion nd.
Proof.
  assert (Hrun : runAll 10 [StepCall (OpRead 1); StepReclaim 0; StepCall (OpSetValue 0 (VNum 1))]
                   (initState follower)
                 = Some ([Returned (Some (VNum 0)); Returned None], follower_written))
    by (vm_compute; reflexivity).
  split; [exact Hrun|].
  pose (nd := default (newValuePipeline UNSET) (heap follower_written !! 0)).
  assert (Hnd : heap follower_written !! (0 : NodeId) = Some nd) by (vm_compute; reflexivity).
  assert (Hprd : prd follower_written 1 0 = Some 1) by (vm_compute; reflexivity).
  destruct (recorded_versions_bounded 10 follower _ _ follower_written
              follower_constructed Hrun) as [H _].
  exists nd. split; [exact Hnd|]. split; [exact Hprd|]. split; [vm_compute; reflexivity|].
  exact (H 1 0 1 nd Hprd Hnd).
Defined.

Lemma edge_maps_in_order_witness :
  ∃ nd, heap follower_written !! (0 : NodeId) = Some nd ∧
    EdgeMap.entries (consumers nd) = [(1, 2)] ∧
    EdgeMap.size (consumers nd) = Z.of_nat (length (EdgeMap.entries (consumers nd))).
Proof.
  pose (nd := default (newValuePipeline UNSET) (heap follower_written !! 0)).
  destruct (edge_maps_in_order 10 follower [OpRead 1; OpSetValue 0 (VNum 1)]
              [Returned (Some (VNum 0)); Returned None] follower_written
              follower_constructed ltac:(vm_compute; reflexivity)
              0 nd (consumers nd)) as (_ & H & _).
  - vm_compute. reflexivity.
  - by left.
  - exists nd. split; [vm_compute; reflexivity|]. split; [vm_compute; reflexivity|exact H].
Defined.

Lemma recompute_invalidates_edges_witness :
  ∃ b s1, beginRecompute 1 follower_stale = Ok b s1 ∧
    cns follower_stale 0 1 = Some 2 ∧ tvs follower_stale 1 = 2 ∧
    tvs s1 1 = 3 ∧ cns s1 0 1 = Some 2.
Proof.
  pose (s1 := final (beginRecompute 1 follower_stale) follower_stale).
  assert (Hb : beginRecompute 1 follower_stale = Ok (VNum 0, None) s1)
    by (vm_compute; reflexivity).
  destruct (recompute_invalidates_edges 1 follower_stale (VNum 0, None) s1) as [Htv Hall].
  - intros p t Hc. unfold tvs.
    destruct (csm follower_stale 1) as [cc|] eqn:Hcc; [|vm_compute in Hcc; discriminate].
    apply (sound_cns follower_stale p 1 t cc); [|exact Hc|exact Hcc].
    apply (execAll_sound 10 [OpRead 1; OpSetValue 0 (VNum 1); OpSetValue 0 (VNum 0)]
             (initState follower)
             [Returned (Some (VNum 0)); Returned None; Returned None] follower_stale).
    + vm_compute. reflexivity.
    + apply sound_initState, follower_constructed.
  - exact Hb.
  - exists (VNum 0, None), s1. split; [exact Hb|].
    split; [vm_compute; reflexivity|]. split; [vm_compute; reflexivity|].
    split; [rewrite Htv; vm_compute; reflexivity|].
    destruct (Hall 0) as [-> _]. vm_compute. reflexivity.
Defined.

Lemma notified_edges_current_witness :
  let s' := final (producerNotifyConsumers 5 0 follower_read) follower_read in
  cns s' 0 1 = Some 2 ∧
  ∃ cc, csm s' 1 = Some cc ∧ trackingVersion cc = 2 ∧ stale cc ≠ StaleFalse.
Proof.
  intros s'.
  pose (nd := default (newValuePipeline UNSET) (heap follower_read !! 0)).
  assert (Hc : cns s' 0 1 = Some 2) by (vm_compute; reflexivity).
  split; [exact Hc|].
  apply (notified_edges_current 5 0 follower_read s' nd).
  - vm_compute. reflexivity.
  - apply (bool_decide_unpack _). vm_compute. exact I.
  - vm_compute. reflexivity.
  - exact Hc.
Defined.

Lemma read_returns_cached_witness :
  val follower_read 1 = VNum 0 ∧
  ∀ c, csm follower_read 1 = Some c → stale c = StaleFalse.
Proof.
  apply (read_returns_cached 10 1 (initState follower) (VNum 0) follower_read).
  vm_compute. reflexivity.
Defined.

Lemma readers_initState nodes :
  Forall (fun nd => ∀ c, pipeline nd = Some c → read_only (calculate c)) nodes →
  readers (initState nodes).
Proof.
  intros Hall n c Hc. apply csm_Some in Hc as (nd & Hn & Hc).
  simpl in Hn. apply elem_of_list_to_map_2, elem_of_zip_r in Hn.
  rewrite Forall_forall in Hall. by apply (Hall nd).
Qed.

Lemma follower_readers : readers (initState follower).
Proof.
  apply readers_initState, Forall_cons. split; [done|].
  apply Forall_cons. split; [|apply Forall_nil_2].
  intros c [= <-]. simpl. constructor. intros v. constructor.
Qed.

Lemma reads_write_no_leaf_witness :
  readers (initState follower) ∧
  val (final (value 10 1 (initState follower)) (initState follower)) 0
    = val (initState follower) 0 ∧
  ∀ s2, value 10 1 (initState follower) ≠ Err ChangedWhileCalculating s2.
Proof.
  split; [exact follower_readers|].
  destruct (reads_write_no_leaf 10 1 (initState follower) follower_readers)
    as (L & _ & E).
  split; [|exact E]. by apply L.
Defined.

(** A client that sets two keys and deletes the first. *)
Definition sample_calls : list (MapCall FlatMap.Js FlatMap.Js) :=
  [CallSet (key_of 1) (val_of 10); CallSet (key_of 2) (val_of 20); CallDelete (key_of 1)].

Lemma sample_calls_ok : Forall call_ok sample_calls.
Proof.
  unfold sample_calls.
  apply Forall_cons. split; [repeat split; discriminate|].
  apply Forall_cons. split; [repeat split; discriminate|].
  apply Forall_cons. split; [discriminate|]. apply Forall_nil_2.
Qed.

Lemma sample_array :
  FlatMap.internalArray (flat_built sample_calls)
    = [FlatMap.JNull; FlatMap.JNull; key_of 2; val_of 20] ∧
  FlatMap.toTuples (flat_built sample_calls) = [(key_of 2, val_of 20)].
Proof. split; reflexivity. Qed.

Lemma FlatMap_get_set_witness :
  Forall call_ok sample_calls ∧ usable (key_of 3) ∧ key_of 2 ≠ FlatMap.JNull ∧
  FlatMap.get (FlatMap.set (flat_built sample_calls) (key_of 3) FlatMap.JNull) (key_of 2)
    = FlatMap.get (flat_built sample_calls) (key_of 2).
Proof.
  assert (Hk : usable (key_of 3)) by (split; discriminate).
  assert (Hk' : key_of 2 ≠ FlatMap.JNull) by discriminate.
  split; [exact sample_calls_ok|]. split; [exact Hk|]. split; [exact Hk'|].
  exact (FlatMap_get_set sample_calls (key_of 3) FlatMap.JNull (key_of 2)
           sample_calls_ok Hk Hk').
Defined.

Lemma FlatMap_size_counts_pairs_witness :
  Forall call_ok sample_calls ∧
  NoDup (FlatMap.toTuples (flat_built sample_calls)).*1 ∧
  FlatMap.size (flat_built sample_calls) = 1%Z.
Proof.
  split; [exact sample_calls_ok|].
  destruct (FlatMap_size_counts_pairs sample_calls sample_calls_ok) as [Hnd Hsz].
  split; [exact Hnd|]. reflexivity.
Defined.

Lemma FlatMap_get_delete_witness :
  Forall call_ok sample_calls ∧ key_of 2 ≠ FlatMap.JNull ∧
  FlatMap.get (FlatMap.delete (flat_built sample_calls) (key_of 2)) (key_of 2)
    = FlatMap.JUndefined ∧
  FlatMap.size (FlatMap.delete (flat_built sample_calls) (key_of 2)) = 0%Z.
Proof.
  assert (Hk : key_of 2 ≠ FlatMap.JNull) by discriminate.
  split; [exact sample_calls_ok|]. split; [exact Hk|].
  destruct (FlatMap_get_delete sample_calls (key_of 2) sample_calls_ok Hk)
    as (Hget & Hsize & _).
  split; [exact (Hget (key_of 2) Hk)|].
  rewrite Hsize; [reflexivity|]. rewrite (proj2 sample_array). apply list_elem_of_here.
Defined.

Lemma FlatMap_toTuples_get_witness :
  Forall call_ok sample_calls ∧ key_of 2 ≠ FlatMap.JNull ∧
  FlatMap.get (flat_built sample_calls) (key_of 2) = val_of 20.
Proof.
  assert (Hk : key_of 2 ≠ FlatMap.JNull) by discriminate.
  split; [exact sample_calls_ok|]. split; [exact Hk|].
  destruct (FlatMap_toTuples_get sample_calls (key_of 2) sample_calls_ok Hk)
    as (_ & Hin & _).
  apply Hin. rewrite (proj2 sample_array). apply list_elem_of_here.
Defined.

Lemma FlatMap_defragment_compacts_witness :
  Forall call_ok sample_calls ∧
  FlatMap.internalArray (FlatMap.defragment (flat_built sample_calls))
    = [key_of 2; val_of 20] ∧
  FlatMap.get (FlatMap.defragment (flat_built sample_calls)) (key_of 2) = val_of 20.
Proof.
  split; [exact sample_calls_ok|].
  destruct (FlatMap_defragment_compacts sample_calls sample_calls_ok)
    as (Harr & _ & Hget & _).
  split.
  - rewrite (proj1 (Harr (flat_built sample_calls))). reflexivity.
  - rewrite Hget by discriminate. reflexivity.
Defined.

Lemma FlatMap_null_value_lost_witness :
  Forall call_ok sample_calls ∧ usable (key_of 3) ∧
  FlatMap.get (FlatMap.set (flat_built sample_calls) (key_of 3) FlatMap.JNull) (key_of 3)
    = FlatMap.JNull ∧
  FlatMap.size (FlatMap.set (flat_built sample_calls) (key_of 3) FlatMap.JNull) = 2%Z ∧
  FlatMap.toTuples (FlatMap.set (flat_built sample_calls) (key_of 3) FlatMap.JNull)
    = [(key_of 2, val_of 20)].
Proof.
  assert (Hk : usable (key_of 3)) by (split; discriminate).
  split; [exact sample_calls_ok|]. split; [exact Hk|].
  destruct (FlatMap_null_value_lost sample_calls (key_of 3) sample_calls_ok Hk)
    as (Hget & Hsize & Htup & _).
  { rewrite (proj2 sample_array). intros Hin.
    apply list_elem_of_singleton in Hin. discriminate. }
  split; [exact Hget|]. split; [rewrite Hsize; reflexivity|].
  rewrite Htup. apply sample_array.
Defined.

Lemma FlatMap_null_key_witness :
  Forall call_ok sample_calls ∧
  FlatMap.get (flat_built sample_calls) FlatMap.JNull = FlatMap.JNull ∧
  FlatMap.size (FlatMap.delete (flat_built sample_calls) FlatMap.JNull) = 0%Z ∧
  FlatMap.toTuples (FlatMap.delete (flat_built sample_calls) FlatMap.JNull)
    = [(key_of 2, val_of 20)].
Proof.
  split; [exact sample_calls_ok|].
  destruct (FlatMap_null_key sample_calls sample_calls_ok) as (Hget & Hdel & _).
  { rewrite (proj1 sample_array). apply list_elem_of_here. }
  split; [exact Hget|]. rewrite Hdel. split; reflexivity.
Defined.


